(** * Cube_Engine: the stencil-tagging model loader and the cube assembler

    A shallow embedding of [Cube_Engine/main.js] (and of its single-face
    variant, which shares [createMat] and [loadModel] verbatim).

    Conventions of the embedding.
    - JavaScript objects are references: scene nodes and materials live in a
      store ([Heap]) and are named by addresses, so that two places holding
      the same object observe each other's writes.
    - JavaScript numbers are idealised as exact rationals ([Q]).
    - A property access on [undefined] throws; every routine is therefore a
      computation in a state-and-exception monad in which the store survives
      the exception.
    - [async] routines are resumable computations that suspend at each
      [await]; the order in which pending fetches complete is an explicit
      schedule. *)

From Stdlib Require Import ZArith QArith Qround Qminmax Lqa Lia List String Bool.
From stdpp Require Import base tactics option list functions.

Open Scope nat_scope.

(** ** The parts of three.js the program touches *)

Module THREE.

(** Stencil comparison functions ([THREE.*StencilFunc]). *)
Inductive StencilFunc : Type :=
| NeverStencilFunc | LessStencilFunc | EqualStencilFunc | LessEqualStencilFunc
| GreaterStencilFunc | NotEqualStencilFunc | GreaterEqualStencilFunc
| AlwaysStencilFunc.

(** Stencil operations ([THREE.*StencilOp]). *)
Inductive StencilOp : Type :=
| ZeroStencilOp | KeepStencilOp | ReplaceStencilOp | IncrementStencilOp
| DecrementStencilOp | IncrementWrapStencilOp | DecrementWrapStencilOp
| InvertStencilOp.

(** The fields of a [THREE.Material] that the program reads or writes. *)
Record Material : Type := mkMaterial {
  color : string;
  stencilWrite : bool;
  stencilRef : Z;
  stencilFunc : StencilFunc;
  stencilZPass : StencilOp;
  colorWrite : bool;
  depthWrite : bool
}.

(** [new THREE.MeshPhongMaterial({color: c})]: every other field keeps the
    default that [THREE.Material] gives it. *)
Definition MeshPhongMaterial (c : string) : Material :=
  {| color := c;
     stencilWrite := false;
     stencilRef := 0%Z;
     stencilFunc := AlwaysStencilFunc;
     stencilZPass := KeepStencilOp;
     colorWrite := true;
     depthWrite := true |}.

Definition set_stencilWrite (b : bool) (m : Material) : Material :=
  {| color := color m; stencilWrite := b; stencilRef := stencilRef m;
     stencilFunc := stencilFunc m; stencilZPass := stencilZPass m;
     colorWrite := colorWrite m; depthWrite := depthWrite m |}.

Definition set_stencilRef (r : Z) (m : Material) : Material :=
  {| color := color m; stencilWrite := stencilWrite m; stencilRef := r;
     stencilFunc := stencilFunc m; stencilZPass := stencilZPass m;
     colorWrite := colorWrite m; depthWrite := depthWrite m |}.

Definition set_stencilFunc (f : StencilFunc) (m : Material) : Material :=
  {| color := color m; stencilWrite := stencilWrite m; stencilRef := stencilRef m;
     stencilFunc := f; stencilZPass := stencilZPass m;
     colorWrite := colorWrite m; depthWrite := depthWrite m |}.

Definition set_stencilZPass (o : StencilOp) (m : Material) : Material :=
  {| color := color m; stencilWrite := stencilWrite m; stencilRef := stencilRef m;
     stencilFunc := stencilFunc m; stencilZPass := o;
     colorWrite := colorWrite m; depthWrite := depthWrite m |}.

Definition set_colorWrite (b : bool) (m : Material) : Material :=
  {| color := color m; stencilWrite := stencilWrite m; stencilRef := stencilRef m;
     stencilFunc := stencilFunc m; stencilZPass := stencilZPass m;
     colorWrite := b; depthWrite := depthWrite m |}.

Definition set_depthWrite (b : bool) (m : Material) : Material :=
  {| color := color m; stencilWrite := stencilWrite m; stencilRef := stencilRef m;
     stencilFunc := stencilFunc m; stencilZPass := stencilZPass m;
     colorWrite := colorWrite m; depthWrite := b |}.

End THREE.
Import THREE.

(** ** [createMat] *)

(** [createMat(needStencil, referenceNum, pColor, objColor)] builds a fresh
    material; the statements of either branch are applied in source order. *)
Definition createMat (needStencil : bool) (referenceNum : Z)
    (pColor objColor : string) : Material :=
  if needStencil then
    let planeMaterial := MeshPhongMaterial pColor in
    let planeMaterial := set_stencilWrite true planeMaterial in
    let planeMaterial := set_stencilRef referenceNum planeMaterial in
    let planeMaterial := set_stencilFunc AlwaysStencilFunc planeMaterial in
    let planeMaterial := set_stencilZPass ReplaceStencilOp planeMaterial in
    let planeMaterial := set_colorWrite false planeMaterial in
    let planeMaterial := set_depthWrite false planeMaterial in
    planeMaterial
  else
    let objectMaterial := MeshPhongMaterial objColor in
    let objectMaterial := set_stencilWrite true objectMaterial in
    let objectMaterial := set_stencilRef referenceNum objectMaterial in
    let objectMaterial := set_stencilFunc EqualStencilFunc objectMaterial in
    objectMaterial.

(** ** Scene nodes and the object store *)

(** Addresses of scene nodes and of materials. *)
Abbreviation NodeId := nat.
Abbreviation MatId := nat.

Module Vector3.
Record t : Type := mk { x : Q; y : Q; z : Q }.
Definition set (a b c : Q) (_ : t) : t := mk a b c.
Definition setX (a : Q) (v : t) : t := mk a (y v) (z v).
Definition setY (b : Q) (v : t) : t := mk (x v) b (z v).
Definition setZ (c : Q) (v : t) : t := mk (x v) (y v) c.
End Vector3.

(** A [THREE.Object3D]: its transform, the addresses of its children and,
    for a mesh, the address of its material ([None] is JavaScript's
    [undefined]). *)
Record Object3D : Type := mkObject3D {
  position : Vector3.t;
  rotation : Vector3.t;
  scale : Vector3.t;
  children : list NodeId;
  material : option MatId
}.

Definition set_position (f : Vector3.t -> Vector3.t) (o : Object3D) : Object3D :=
  {| position := f (position o); rotation := rotation o; scale := scale o;
     children := children o; material := material o |}.
Definition set_rotation (f : Vector3.t -> Vector3.t) (o : Object3D) : Object3D :=
  {| position := position o; rotation := f (rotation o); scale := scale o;
     children := children o; material := material o |}.
Definition set_scale (f : Vector3.t -> Vector3.t) (o : Object3D) : Object3D :=
  {| position := position o; rotation := rotation o; scale := f (scale o);
     children := children o; material := material o |}.
Definition set_children (f : list NodeId -> list NodeId) (o : Object3D) : Object3D :=
  {| position := position o; rotation := rotation o; scale := scale o;
     children := f (children o); material := material o |}.

(** The store: what each node address and each material address holds, and
    the allocation frontier (addresses from [allocated] on are unused). *)
Record Heap : Type := mkHeap {
  objs : NodeId -> Object3D;
  mats : MatId -> Material;
  allocated : nat
}.

(** ** The module-level state of [main.js] *)

(** The [let] variables of the module and the face collections.  The
    collections [rings], [triangles], [blocks], [bars], [hexagons] and
    [diamonds] are used by [main.js] but declared nowhere in it: they are
    taken as further variables of the module, and what they hold when the
    assembler starts is a hypothesis of the statements that need it
    ([nothing_loaded]). *)
Record Vars : Type := mkVars {
  impossibleCube : option NodeId;
  block : option NodeId;
  planet : option NodeId;
  direction : Q;
  factor : Q;
  rings : list NodeId;
  triangles : list NodeId;
  blocks : list NodeId;
  bars : list (list NodeId);
  hexagons : list NodeId;
  diamonds : list NodeId
}.

(** The whole state: store, variables, and the source of [Math.random()]
    (the sequence of numbers it will return and how many were drawn). *)
Record World : Type := mkWorld {
  heap : Heap;
  vars : Vars;
  random_source : nat -> Q;
  drawn : nat
}.

Definition with_heap (f : Heap -> Heap) (w : World) : World :=
  {| heap := f (heap w); vars := vars w;
     random_source := random_source w; drawn := drawn w |}.
Definition with_vars (f : Vars -> Vars) (w : World) : World :=
  {| heap := heap w; vars := f (vars w);
     random_source := random_source w; drawn := drawn w |}.

Definition upd_objs (f : (NodeId -> Object3D) -> NodeId -> Object3D) (h : Heap) : Heap :=
  {| objs := f (objs h); mats := mats h; allocated := allocated h |}.
Definition upd_mats (f : (MatId -> Material) -> MatId -> Material) (h : Heap) : Heap :=
  {| objs := objs h; mats := f (mats h); allocated := allocated h |}.

Definition set_impossibleCube (v : option NodeId) (s : Vars) : Vars :=
  {| impossibleCube := v; block := block s; planet := planet s;
     direction := direction s; factor := factor s; rings := rings s;
     triangles := triangles s; blocks := blocks s; bars := bars s;
     hexagons := hexagons s; diamonds := diamonds s |}.
Definition set_block (v : option NodeId) (s : Vars) : Vars :=
  {| impossibleCube := impossibleCube s; block := v; planet := planet s;
     direction := direction s; factor := factor s; rings := rings s;
     triangles := triangles s; blocks := blocks s; bars := bars s;
     hexagons := hexagons s; diamonds := diamonds s |}.
Definition set_planet (v : option NodeId) (s : Vars) : Vars :=
  {| impossibleCube := impossibleCube s; block := block s; planet := v;
     direction := direction s; factor := factor s; rings := rings s;
     triangles := triangles s; blocks := blocks s; bars := bars s;
     hexagons := hexagons s; diamonds := diamonds s |}.
Definition set_direction (v : Q) (s : Vars) : Vars :=
  {| impossibleCube := impossibleCube s; block := block s; planet := planet s;
     direction := v; factor := factor s; rings := rings s;
     triangles := triangles s; blocks := blocks s; bars := bars s;
     hexagons := hexagons s; diamonds := diamonds s |}.
Definition set_factor (v : Q) (s : Vars) : Vars :=
  {| impossibleCube := impossibleCube s; block := block s; planet := planet s;
     direction := direction s; factor := v; rings := rings s;
     triangles := triangles s; blocks := blocks s; bars := bars s;
     hexagons := hexagons s; diamonds := diamonds s |}.
Definition set_rings (v : list NodeId) (s : Vars) : Vars :=
  {| impossibleCube := impossibleCube s; block := block s; planet := planet s;
     direction := direction s; factor := factor s; rings := v;
     triangles := triangles s; blocks := blocks s; bars := bars s;
     hexagons := hexagons s; diamonds := diamonds s |}.
Definition set_triangles (v : list NodeId) (s : Vars) : Vars :=
  {| impossibleCube := impossibleCube s; block := block s; planet := planet s;
     direction := direction s; factor := factor s; rings := rings s;
     triangles := v; blocks := blocks s; bars := bars s;
     hexagons := hexagons s; diamonds := diamonds s |}.
Definition set_blocks (v : list NodeId) (s : Vars) : Vars :=
  {| impossibleCube := impossibleCube s; block := block s; planet := planet s;
     direction := direction s; factor := factor s; rings := rings s;
     triangles := triangles s; blocks := v; bars := bars s;
     hexagons := hexagons s; diamonds := diamonds s |}.
Definition set_bars (v : list (list NodeId)) (s : Vars) : Vars :=
  {| impossibleCube := impossibleCube s; block := block s; planet := planet s;
     direction := direction s; factor := factor s; rings := rings s;
     triangles := triangles s; blocks := blocks s; bars := v;
     hexagons := hexagons s; diamonds := diamonds s |}.
Definition set_hexagons (v : list NodeId) (s : Vars) : Vars :=
  {| impossibleCube := impossibleCube s; block := block s; planet := planet s;
     direction := direction s; factor := factor s; rings := rings s;
     triangles := triangles s; blocks := blocks s; bars := bars s;
     hexagons := v; diamonds := diamonds s |}.
Definition set_diamonds (v : list NodeId) (s : Vars) : Vars :=
  {| impossibleCube := impossibleCube s; block := block s; planet := planet s;
     direction := direction s; factor := factor s; rings := rings s;
     triangles := triangles s; blocks := blocks s; bars := bars s;
     hexagons := hexagons s; diamonds := v |}.

(** ** Synchronous code: state and exceptions *)

Inductive Exn : Type :=
| TypeError    (* a property access on [undefined] *)
| LoadError.   (* the resource could not be fetched or parsed *)

Inductive Res (A : Type) : Type :=
| Ok (a : A)
| Throw (e : Exn).
Arguments Ok {A} a.
Arguments Throw {A} e.

(** A synchronous computation: the state it leaves behind survives a throw. *)
Definition M (A : Type) : Type := World -> World * Res A.

Definition ret {A} (a : A) : M A := fun w => (w, Ok a).
Definition throw {A} (e : Exn) : M A := fun w => (w, Throw e).
Definition bind {A B} (m : M A) (k : A -> M B) : M B :=
  fun w => match m w with
           | (w', Ok a) => k a w'
           | (w', Throw e) => (w', Throw e)
           end.

#[global] Instance M_ret : MRet M := @ret.
#[global] Instance M_bind : MBind M := fun A B k m => bind m k.

Definition gets {A} (f : World -> A) : M A := fun w => (w, Ok (f w)).
Definition modify (f : World -> World) : M unit := fun w => (f w, Ok tt).

(** Using a possibly-[undefined] value as an object. *)
Definition defined {A} (v : option A) : M A :=
  match v with Some a => ret a | None => throw TypeError end.

(** [o.children[i]], used as the receiver of a further property access. *)
Definition child (o : NodeId) (i : nat) : M NodeId :=
  cs ← gets (fun w => children (objs (heap w) o));
  defined (cs !! i).

(** [o.material], used as the receiver of a property write. *)
Definition material_of (o : NodeId) : M MatId :=
  mo ← gets (fun w => material (objs (heap w) o));
  defined mo.

(** [o.children[i1].children[i2]. ... .material], evaluated left to right. *)
Fixpoint material_at (o : NodeId) (path : list nat) : M MatId :=
  match path with
  | [] => material_of o
  | i :: path' => c ← child o i; material_at c path'
  end.

(** A field write on the material at address [m]. *)
Definition write_material (m : MatId) (f : Material -> Material) : M unit :=
  modify (with_heap (upd_mats (alter f m))).

(** A field write on the node at address [o]. *)
Definition write_object (o : NodeId) (f : Object3D -> Object3D) : M unit :=
  modify (with_heap (upd_objs (alter f o))).

(** [parent.add(o)]: [o] becomes the last child of [parent]. *)
Definition add (parent o : NodeId) : M unit :=
  write_object parent (set_children (fun cs => cs ++ [o])).

(** The scene is the first object the module creates. *)
Definition scene : NodeId := 0.

(** [Math.random()] *)
Definition Math_random : M Q :=
  fun w => ({| heap := heap w; vars := vars w;
               random_source := random_source w; drawn := S (drawn w) |},
            Ok (random_source w (drawn w))).

(** [Math.floor] *)
Definition Math_floor (q : Q) : Z := Qfloor q.

(** [Math.PI], the binary64 number nearest to pi. *)
Definition Math_PI : Q := 884279719003555 # 281474976710656.

(** [for (let i = lo; i < lo + n; i++) body] *)
Fixpoint for_ (n : nat) (i : nat) (body : nat -> M unit) : M unit :=
  match n with
  | O => ret tt
  | S n' => body i ;; for_ n' (S i) body
  end.

(** ** Asynchronous routines *)

(** An [async] routine, seen from the event loop.  It has settled ([Ret],
    [Raise]), or it has synchronous code to run ([Do]), or it is suspended:
    on a fetch whose completion the outside world decides ([Fetch]), or on
    the promise of an [async] call that has already finished and will be
    resumed by a later turn of the event loop ([Yield]). *)
Inductive Async (A : Type) : Type :=
| Ret (a : A)
| Raise (e : Exn)
| Do {B : Type} (m : M B) (k : B -> Async A)
| Fetch (path : string) (k : NodeId -> Async A)
| Yield (k : Async A).
Arguments Ret {A} a.
Arguments Raise {A} e.
Arguments Do {A B} m k.
Arguments Fetch {A} path k.
Arguments Yield {A} k.

Fixpoint abind {A B} (t : Async A) (f : A -> Async B) : Async B :=
  match t with
  | Ret a => f a
  | Raise e => Raise e
  | Do m k => Do m (fun b => abind (k b) f)
  | Fetch p k => Fetch p (fun o => abind (k o) f)
  | Yield k => Yield (abind k f)
  end.

#[global] Instance Async_ret : MRet Async := @Ret.
#[global] Instance Async_bind : MBind Async := fun A B f t => abind t f.

(** Synchronous statements inside an [async] routine. *)
Definition sync {A} (m : M A) : Async A := Do m Ret.

(** [await loader.loadAsync(path)], followed by [data.scene.children[0]]:
    the routine is suspended until the fetch completes and is resumed with
    the address of the top-level node of the loaded scene. *)
Definition loadAsync (path : string) : Async NodeId := Fetch path Ret.

(** [await p] for the promise [p] of an [async] call: the caller goes on in
    a later turn than the one in which the callee returned. *)
Definition await {A} (p : Async A) : Async A := a ← p; Yield (Ret a).

(** [for (let i = lo; i < lo + n; i++) body] with [await] in the body. *)
Fixpoint afor (n : nat) (i : nat) (body : nat -> Async unit) : Async unit :=
  match n with
  | O => Ret tt
  | S n' => body i ;; afor n' (S i) body
  end.

(** ** [loadModel] *)

Definition loadModel (path : string) (needStencil : bool) (refNum : Z)
    : Async NodeId :=
  object ← loadAsync path;
  if needStencil then
    sync (
      c0 ← child object 0;
      n ← gets (fun w => length (children (objs (heap w) c0)));
      if negb (n =? 0) then
        m ← material_at object [0; 0]; write_material m (set_stencilWrite true);;
        m ← material_at object [0; 0]; write_material m (set_stencilRef refNum);;
        m ← material_at object [0; 0]; write_material m (set_stencilFunc EqualStencilFunc);;

        m ← material_at object [2; 0]; write_material m (set_stencilWrite true);;
        m ← material_at object [2; 2]; write_material m (set_stencilRef refNum);;
        m ← material_at object [2; 2]; write_material m (set_stencilFunc EqualStencilFunc)
      else
        m ← material_at object [0]; write_material m (set_stencilWrite true);;
        m ← material_at object [0]; write_material m (set_stencilRef refNum);;
        m ← material_at object [0]; write_material m (set_stencilFunc EqualStencilFunc)
    );;
    Ret object
  else
    Ret object.

(** ** The event loop *)

Section EventLoop.

(** The model files and [GLTFLoader] are outside the repository: the loader
    is a parameter.  Given a path and the current store it either fails or
    extends the store with the loaded scene and returns the address of its
    top-level node. *)
Variable GLTFLoader : string -> Heap -> option (NodeId * Heap).

(** Run the synchronous code at the head of a routine, up to its next
    suspension or its settling. *)
Fixpoint advance {A} (t : Async A) (w : World) : World * Async A :=
  match t with
  | Do m k =>
      match m w with
      | (w', Ok b) => advance (k b) w'
      | (w', Throw e) => (w', Raise e)
      end
  | _ => (w, t)
  end.

(** Resume a suspended routine: its fetch has completed, or its turn has
    come. *)
Definition resume {A} (t : Async A) (w : World) : World * Async A :=
  match t with
  | Fetch path k =>
      match GLTFLoader path (heap w) with
      | Some (object, h) => advance (k object) (with_heap (fun _ => h) w)
      | None => (w, Raise LoadError)
      end
  | Yield k => advance k w
  | _ => advance t w
  end.

End EventLoop.

(** ** The six face loaders *)

(** A loop index as a JavaScript number. *)
Definition num (i : nat) : Q := inject_Z (Z.of_nat i).

(** [a < b] and [a >= b] on numbers. *)
Definition Qltb (a b : Q) : bool := negb (Qle_bool b a).
Definition Qgeb (a b : Q) : bool := Qle_bool b a.

Definition push_rings (o : NodeId) : M unit :=
  modify (with_vars (fun s => set_rings (rings s ++ [o]) s)).
Definition push_triangles (o : NodeId) : M unit :=
  modify (with_vars (fun s => set_triangles (triangles s ++ [o]) s)).
Definition push_blocks (o : NodeId) : M unit :=
  modify (with_vars (fun s => set_blocks (blocks s ++ [o]) s)).
Definition push_hexagons (o : NodeId) : M unit :=
  modify (with_vars (fun s => set_hexagons (hexagons s ++ [o]) s)).
Definition push_diamonds (o : NodeId) : M unit :=
  modify (with_vars (fun s => set_diamonds (diamonds s ++ [o]) s)).

(** [bars[i].push(o)] *)
Definition push_bars (i : nat) (o : NodeId) : M unit :=
  _ ← (g ← gets (fun w => bars (vars w) !! i); defined g);
  modify (with_vars (fun s => set_bars (alter (fun g => g ++ [o]) i (bars s)) s)).

Definition loadFrontFace : Async unit :=
  b ← await (loadModel "models/filledCube.gltf" true 2);
  sync (modify (with_vars (set_block (Some b))));;
  sync (add scene b);;
  afor 3 0 (fun j =>
    if j =? 0 then
      afor 10 0 (fun i =>
        lip ← await (loadModel "models/ring.gltf" true 2);
        sync (add scene lip);;
        sync (write_object lip
                (set_scale (Vector3.set (0 + num i) (0 + num i) (0 + num i))));;
        sync (write_object lip (set_rotation (Vector3.setZ (Math_PI / 2))));;
        sync (write_object lip
                (set_position (Vector3.setX ((- num i / 3) * num i))));;
        sync (push_rings lip))
    else if j =? 1 then
      afor 10 0 (fun i =>
        lip ← await (loadModel "models/ring.gltf" true 2);
        sync (add scene lip);;
        sync (write_object lip
                (set_scale (Vector3.set (0 + num i) (0 + num i) (0 + num i))));;
        sync (write_object lip (set_rotation (Vector3.setZ (- Math_PI / 2))));;
        sync (write_object lip
                (set_position (Vector3.setX ((num i / 3) * num i))));;
        sync (push_rings lip))
    else
      afor 10 0 (fun i =>
        lip ← await (loadModel "models/ring.gltf" true 2);
        sync (add scene lip);;
        sync (write_object lip
                (set_scale (Vector3.set (2 + num i) (2 + num i) (2 + num i))));;
        sync (write_object lip (set_rotation (Vector3.setX (Math_PI / 2))));;
        sync (write_object lip
                (set_position (Vector3.setZ ((- num i / 3) * num i))));;
        sync (push_rings lip))).

Definition loadBackFace : Async unit :=
  afor 20 0 (fun i =>
    frame ← await (loadModel "models/triangle.gltf" true 5);
    sync (write_object frame
            (set_scale (Vector3.set (6 - num i / 4) (6 - num i / 4) 1)));;
    sync (write_object frame (set_position (Vector3.set 0 0 (- (5 # 2)))));;
    sync (add scene frame);;
    sync (push_triangles frame)).

Definition loadLeftFace : Async unit :=
  afor 5 0 (fun i =>
    afor 5 0 (fun j =>
      block ← await (loadModel "models/filledCube.gltf" true 3);
      sync (write_object block
              (set_position (Vector3.set (num i - (3 # 2)) (- 1) (- 2 + num j))));;
      sync (push_blocks block);;
      sync (add scene block))).

Definition loadRightFace : Async unit :=
  afor 3 0 (fun i =>
    afor 4 0 (fun j =>
      bar ← await (loadModel "models/test.gltf" true 4);
      sync (push_bars i bar);;
      sync (add scene bar))).

Definition loadTopFace : Async unit :=
  diamond ← await (loadModel "models/diamond.gltf" true 6);
  afor 8 0 (fun i =>
    hexagon ← await (loadModel "models/hexagon.gltf" true 6);
    sync (write_object hexagon (set_scale (Vector3.set 5 5 5)));;
    sync (push_hexagons hexagon);;
    sync (add diamond hexagon));;
  sync (write_object diamond (set_scale (Vector3.set 2 2 2)));;
  sync (push_diamonds diamond);;
  sync (add scene diamond).

Definition loadBottomFace : Async unit :=
  p ← await (loadModel "models/lilPineTreePlanet.gltf" true 7);
  sync (modify (with_vars (set_planet (Some p))));;
  sync (write_object p (set_scale (Vector3.set 2 2 2)));;

  sync (m ← material_at p [1; 0]; write_material m (set_stencilWrite true));;
  sync (m ← material_at p [1; 0]; write_material m (set_stencilRef 7));;
  sync (m ← material_at p [1; 0]; write_material m (set_stencilFunc EqualStencilFunc));;

  sync (m ← material_at p [1; 1]; write_material m (set_stencilWrite true));;
  sync (m ← material_at p [1; 1]; write_material m (set_stencilRef 7));;
  sync (m ← material_at p [1; 1]; write_material m (set_stencilFunc EqualStencilFunc));;

  sync (add scene p).

(** ** The six per-frame animators *)

(** [a[i]] for an array [a] and an integer-valued number [i], used as the
    receiver of a property access. *)
Definition at_index (a : list NodeId) (i : Z) : M NodeId :=
  if (i <? 0)%Z then throw TypeError else defined (a !! Z.to_nat i).

(** A loop whose body updates a local variable. *)
Fixpoint for_acc {T : Type} (n : nat) (i : nat) (acc : T)
    (body : nat -> T -> M T) : M T :=
  match n with
  | O => ret acc
  | S n' => acc' ← body i acc; for_acc n' (S i) acc' body
  end.

(** The body of the loop of [animateBackFace], at index [i]. *)
Definition animateBackFace_body (i : nat) : M unit :=
  t ← (ts ← gets (fun w => triangles (vars w)); defined (ts !! i));
  d ← gets (fun w => direction (vars w));
  write_object t (set_position (fun v =>
    Vector3.setZ (Vector3.z v + num i / 300 * d) v));;
  d ← gets (fun w => direction (vars w));
  write_object t (set_rotation (fun v =>
    Vector3.setZ (Vector3.z v + num i / 1000 * d) v));;
  last ← (ts ← gets (fun w => triangles (vars w));
          defined (ts !! (length ts - 1)));
  zl ← gets (fun w => Vector3.z (position (objs (heap w) last)));
  if Qltb 25 zl then
    modify (with_vars (set_direction (- 4)))
  else if Qltb zl (- (17 # 2)) then
    modify (with_vars (set_direction 1))
  else ret tt.

Definition animateBackFace : M unit :=
  n ← gets (fun w => length (triangles (vars w)));
  for_ n 0 animateBackFace_body.

Definition animateLeftFace : M unit :=
  r ← Math_random; let int := Math_floor (r * 4) in
  r ← Math_random; let factor := (inject_Z (Math_floor (r * 10)) / 3)%Q in
  r ← Math_random; let index := Math_floor (r * 25) in
  if negb (Z.rem int 2 =? 0)%Z then
    b ← (bs ← gets (fun w => blocks (vars w)); at_index bs index);
    write_object b (set_position (Vector3.setY (inject_Z int * - 1)));;
    b ← (bs ← gets (fun w => blocks (vars w)); at_index bs index);
    write_object b (set_scale (Vector3.set factor factor factor))
  else
    b ← (bs ← gets (fun w => blocks (vars w)); at_index bs index);
    write_object b (set_position (Vector3.setY (inject_Z int))).

Definition animateBottomFace : M unit :=
  p ← (v ← gets (fun w => planet (vars w)); defined v);
  write_object p (set_rotation (fun v =>
    Vector3.setX (Vector3.x v + (1 # 200)) v));;
  p ← (v ← gets (fun w => planet (vars w)); defined v);
  write_object p (set_rotation (fun v =>
    Vector3.setZ (Vector3.z v + (1 # 200)) v));;
  p ← (v ← gets (fun w => planet (vars w)); defined v);
  write_object p (set_rotation (fun v =>
    Vector3.setY (Vector3.y v - (1 # 200)) v)).

Section Animation.

(** [Object3D.rotateX], [rotateY] and [translateZ] work on the quaternion
    of the node and [Math.sin] is transcendental: they are parameters. *)
Variables rotateX rotateY translateZ : Q -> Object3D -> Object3D.
Variable Math_sin : Q -> Q.

Definition animateFrontFace : M unit :=
  n ← gets (fun w => length (rings (vars w)));
  _ ← for_acc n 0 (0 : Q) (fun item x =>
    r ← (rs ← gets (fun w => rings (vars w)); defined (rs !! item));
    write_object r (rotateX ((1 # 100) + x)%Q);;
    r ← (rs ← gets (fun w => rings (vars w)); defined (rs !! item));
    write_object r (rotateY (- (1 # 100) + x)%Q);;
    ret (x + (1 # 1000))%Q);
  ret tt.

Definition animateRightFace : M unit :=
  n ← gets (fun w => length (bars (vars w)));
  for_ n 0 (fun i =>
    g ← (bs ← gets (fun w => bars (vars w)); defined (bs !! i));
    for_ (length g) 0 (fun j =>
      r ← Math_random; let inverse := Math_floor (r * 4) in
      let factor := (if (Z.rem inverse 2 =? 0)%Z then - 1 else 1)%Q in
      r ← Math_random; let randX := inject_Z (Math_floor (r * 3 * factor)) in
      r ← Math_random; let randY := inject_Z (Math_floor (r * 3 * factor)) in
      r ← Math_random; let randZ := inject_Z (Math_floor (r * 3 * factor)) in
      r ← Math_random; let randDist := inject_Z (Math_floor (r * 15) + 10) in
      r ← Math_random; let speed := (inject_Z (Math_floor (r * 10)) / 20)%Q in
      bar ← (bs ← gets (fun w => bars (vars w));
             g ← defined (bs !! i); defined (g !! j));
      write_object bar (set_scale (Vector3.set 1 1 10));;
      if i =? 0 then
        p ← gets (fun w => position (objs (heap w) bar));
        if Qgeb (Vector3.z p) randDist then
          write_object bar (set_position (Vector3.set randX randY (- randDist)))
        else
          write_object bar (translateZ speed)
      else if i =? 1 then
        write_object bar (set_rotation (Vector3.setX (Math_PI / 2)));;
        p ← gets (fun w => position (objs (heap w) bar));
        if Qgeb (Vector3.y p) randDist then
          write_object bar (set_position (Vector3.set randX (- randDist) randZ))
        else
          write_object bar (translateZ (- speed)%Q)
      else if i =? 2 then
        write_object bar (set_rotation (Vector3.setY (Math_PI / 2)));;
        p ← gets (fun w => position (objs (heap w) bar));
        if Qle_bool (Vector3.x p) (- randDist) then
          write_object bar (set_position (Vector3.set randDist randY randZ))
        else
          write_object bar (translateZ (- speed)%Q)
      else ret tt)).

Definition animateTopFace : M unit :=
  d0 ← (ds ← gets (fun w => diamonds (vars w)); defined (ds !! 0));
  ry ← gets (fun w => Vector3.y (rotation (objs (heap w) d0)));
  let distance := Math_sin (ry * 50 * Math_PI / 180)%Q in
  write_object d0 (set_rotation (fun v =>
    Vector3.setX (Vector3.x v + (1 # 100)) v));;
  d0 ← (ds ← gets (fun w => diamonds (vars w)); defined (ds !! 0));
  write_object d0 (set_rotation (fun v =>
    Vector3.setY (Vector3.y v - (1 # 100)) v));;
  n ← gets (fun w => length (hexagons (vars w)));
  for_ n 0 (fun i =>
    (if i mod 2 =? 0 then modify (with_vars (set_factor (- 1)))
     else if negb (i mod 2 =? 0) then modify (with_vars (set_factor 1))
     else ret tt);;
    h ← (hs ← gets (fun w => hexagons (vars w)); defined (hs !! i));
    write_object h (set_scale (Vector3.set
      (2 - num i * (1 # 4)) (2 - num i * (1 # 4)) (2 - num i * (1 # 4))));;
    h ← (hs ← gets (fun w => hexagons (vars w)); defined (hs !! i));
    f ← gets (fun w => factor (vars w));
    write_object h (set_position (Vector3.set 0 0 (distance * num i * 2 * f)));;
    h ← (hs ← gets (fun w => hexagons (vars w)); defined (hs !! i));
    d0 ← (ds ← gets (fun w => diamonds (vars w)); defined (ds !! 0));
    rx ← gets (fun w => Vector3.x (rotation (objs (heap w) d0)));
    write_object h (set_rotation (Vector3.set (- rx) 0 0))).

(** One frame: [renderer.render] draws and changes nothing; the closing
    [requestAnimationFrame(render)] is reached only if no animator threw. *)
Definition render : M unit :=
  animateFrontFace;;
  animateBackFace;;
  animateLeftFace;;
  animateRightFace;;
  animateTopFace;;
  animateBottomFace.

End Animation.

(** ** The assembler *)

(** What an observer of the event loop sees, each with the state at that
    moment: the [i]-th routine handed to [Promise.all] is called, its
    promise is fulfilled, [render] is invoked. *)
Inductive Event : Type :=
| Called (i : nat)
| Resolved (i : nat)
| RenderCalled.

Definition History : Type := list (Event * World).

(** How [Promise.all] stands. *)
Inductive Joined : Type :=
| AllFulfilled
| OneRejected (e : Exn)
| StillPending.

(** How the assembler stands when the observation ends. *)
Inductive Status : Type :=
| Loading             (* suspended on fetches that have not completed *)
| Failed (e : Exn)    (* an exception reached the top of the event loop *)
| Animating.          (* the next frame is requested *)

Definition suspended {A} (t : Async A) : bool :=
  match t with Fetch _ _ | Yield _ => true | _ => false end.

Definition fulfilled {A} (t : Async A) : bool :=
  match t with Ret _ => true | _ => false end.

Fixpoint first_rejection {A} (ts : list (Async A)) : option Exn :=
  match ts with
  | [] => None
  | Raise e :: _ => Some e
  | _ :: ts' => first_rejection ts'
  end.

Definition resolved_now (i : nat) (t : Async unit) (w : World) : History :=
  if fulfilled t then [(Resolved i, w)] else [].

Section Assembler.

Variable GLTFLoader : string -> Heap -> option (NodeId * Heap).
Variables rotateX rotateY translateZ : Q -> Object3D -> Object3D.
Variable Math_sin : Q -> Q.

(** The array literal [[f0(), f1(), ...]]: each routine is called in turn
    and runs up to its first [await]. *)
Fixpoint call_all (i : nat) (ts : list (Async unit)) (w : World)
    : History * World * list (Async unit) :=
  match ts with
  | [] => ([], w, [])
  | t :: ts' =>
      let '(w1, t1) := advance t w in
      let '(h, w2, ts2) := call_all (S i) ts' w1 in
      ((Called i, w) :: resolved_now i t1 w1 ++ h, w2, t1 :: ts2)
  end.

(** The routines take turns in the order [io] in which the things they
    wait for complete; [Promise.all] rejects with the first rejection and
    is fulfilled once every routine is.  When [io] runs out the remaining
    fetches never complete. *)
Fixpoint drive (io : list nat) (ts : list (Async unit)) (w : World)
    : History * World * Joined :=
  match first_rejection ts with
  | Some e => ([], w, OneRejected e)
  | None =>
      if forallb fulfilled ts then ([], w, AllFulfilled)
      else
        match io with
        | [] => ([], w, StillPending)
        | i :: io' =>
            match ts !! i with
            | Some t =>
                if suspended t then
                  let '(w1, t1) := resume GLTFLoader t w in
                  let '(h, w2, j) := drive io' (<[i := t1]> ts) w1 in
                  (resolved_now i t1 w1 ++ h, w2, j)
                else drive io' ts w
            | None => drive io' ts w
            end
        end
  end.

(** [await Promise.all([f0(), f1(), ...])] *)
Definition Promise_all (io : list nat) (ts : list (Async unit)) (w : World)
    : History * World * Joined :=
  let '(h0, w0, ts0) := call_all 0 ts w in
  let '(h, w1, j) := drive io ts0 w0 in
  (h0 ++ h, w1, j).

(** A routine that is alone on the event loop, given [n] turns. *)
Fixpoint settle {A} (n : nat) (t : Async A) (w : World) : World * Async A :=
  if suspended t then
    match n with
    | O => (w, t)
    | S n' => let '(w1, t1) := resume GLTFLoader t w in settle n' t1 w1
    end
  else (w, t).

(** [render] and the frames that [requestAnimationFrame] brings after it. *)
Fixpoint render_loop (frames : nat) (w : World) : History * World * Status :=
  match frames with
  | O => ([], w, Animating)
  | S frames' =>
      match render rotateX rotateY translateZ Math_sin w with
      | (w1, Ok _) =>
          let '(h, w2, st) := render_loop frames' w1 in
          ((RenderCalled, w) :: h, w2, st)
      | (w1, Throw e) => ([(RenderCalled, w)], w1, Failed e)
      end
  end.

(** The statements of [build_with_custom_models] before [Promise.all]. *)
Definition load_cube_frame : Async unit :=
  cube ← await (loadModel "./models/cubeFrame.gltf" true 1);
  sync (modify (with_vars (set_impossibleCube (Some cube))));;
  sync (m ← material_at cube [0]; write_material m (set_stencilWrite false));;
  sync (add scene cube);;
  sync (write_object cube (set_scale (Vector3.set 2 2 2))).

(** The routines in the order of the array handed to [Promise.all]. *)
Definition faces : list (Async unit) :=
  [loadFrontFace; loadLeftFace; loadRightFace; loadBackFace; loadTopFace;
   loadBottomFace].

(** [build_with_custom_models()], observed while the event loop gives the
    cube-frame load [turns] turns, lets the face loaders proceed in the
    order [io], and delivers [frames] animation frames after the first. *)
Definition build_with_custom_models (turns : nat) (io : list nat)
    (frames : nat) (w : World) : History * World * Status :=
  let '(w0, t0) := advance load_cube_frame w in
  match settle turns t0 w0 with
  | (w1, Ret _) =>
      match Promise_all io faces w1 with
      | (h, w2, AllFulfilled) =>
          let '(h', w3, st) := render_loop (S frames) w2 in
          (h ++ h', w3, st)
      | (h, w2, OneRejected e) => (h, w2, Failed e)
      | (h, w2, StillPending) => (h, w2, Loading)
      end
  | (w1, Raise e) => ([], w1, Failed e)
  | (w1, _) => ([], w1, Loading)
  end.

End Assembler.

(** ** Vocabulary of the statements *)

(** A material after the three stencil assignments of [loadModel]. *)
Definition tagged (refNum : Z) (m : Material) : Material :=
  set_stencilFunc EqualStencilFunc (set_stencilRef refNum (set_stencilWrite true m)).

(** The node reached from [o] along a path of child indices, if any. *)
Fixpoint descend (h : Heap) (o : NodeId) (path : list nat) : option NodeId :=
  match path with
  | [] => Some o
  | i :: path' =>
      match children (objs h o) !! i with
      | Some c => descend h c path'
      | None => None
      end
  end.

(** The material slot at the end of a path, if the path and the material
    both exist. *)
Definition material_slot (h : Heap) (o : NodeId) (path : list nat) : option MatId :=
  match descend h o path with
  | Some c => material (objs h c)
  | None => None
  end.

Definition has_material (h : Heap) (o : NodeId) (path : list nat) : bool :=
  match material_slot h o path with Some _ => true | None => false end.

(** The first child of [o] exists and has no children. *)
Definition simple_shape (h : Heap) (o : NodeId) : bool :=
  match descend h o [0] with
  | Some c0 => match children (objs h c0) with [] => true | _ => false end
  | None => false
  end.

(** The first child of [o] exists and has children. *)
Definition compound_shape (h : Heap) (o : NodeId) : bool :=
  match descend h o [0] with
  | Some c0 => match children (objs h c0) with [] => false | _ => true end
  | None => false
  end.

(** The two shapes on which every access of the stencil-tagging walk is in
    bounds: a first child without children that has a material; or a first
    child with children whose child 0 has a material, together with a
    third child whose children 0 and 2 exist and have materials. *)
Definition taggable (h : Heap) (o : NodeId) : bool :=
  (simple_shape h o && has_material h o [0])
  || (compound_shape h o && has_material h o [0; 0]
      && has_material h o [2; 0] && has_material h o [2; 2]).

(** A run of assignments [o.children[..]. ... .material.field = v], each
    given by its path and its field update, executed in order. *)
Fixpoint assign_all (o : NodeId) (l : list (list nat * (Material -> Material)))
    : M unit :=
  match l with
  | [] => ret tt
  | [(p, f)] => m ← material_at o p; write_material m f
  | (p, f) :: l' => m ← material_at o p; write_material m f;; assign_all o l'
  end.

(** The assignments of the two branches of [loadModel], in source order. *)
Definition compound_assignments (refNum : Z)
    : list (list nat * (Material -> Material)) :=
  [([0; 0], set_stencilWrite true);
   ([0; 0], set_stencilRef refNum);
   ([0; 0], set_stencilFunc EqualStencilFunc);
   ([2; 0], set_stencilWrite true);
   ([2; 2], set_stencilRef refNum);
   ([2; 2], set_stencilFunc EqualStencilFunc)].

Definition simple_assignments (refNum : Z)
    : list (list nat * (Material -> Material)) :=
  [([0], set_stencilWrite true);
   ([0], set_stencilRef refNum);
   ([0], set_stencilFunc EqualStencilFunc)].

(** The material store after a run of assignments that all succeed. *)
Definition assigned (h : Heap) (o : NodeId)
    (l : list (list nat * (Material -> Material))) : MatId -> Material :=
  fold_left (fun ms pf =>
               match material_slot h o (fst pf) with
               | Some m => alter (snd pf) m ms
               | None => ms
               end) l (mats h).

(** [k] frames of an animator. *)
Fixpoint frames (k : nat) (animate : M unit) : M unit :=
  match k with
  | O => ret tt
  | S k' => animate ;; frames k' animate
  end.

(** The position of the last triangle along the axis of its motion. *)
Definition last_z (w : World) : Q :=
  match triangles (vars w) !! (length (triangles (vars w)) - 1) with
  | Some t => Vector3.z (position (objs (heap w) t))
  | None => 0
  end.

(** The distance the last triangle moves in a frame, per unit of
    [direction]: its index over 300. *)
Definition stride (w : World) : Q :=
  num (length (triangles (vars w)) - 1) / 300.

(** The band [-8.5, 25] widened by one step at either end: a downward
    step (direction -4) below, an upward step (direction 1) above. *)
Definition band_lo (w : World) : Q := - (17 # 2) - 4 * stride w.
Definition band_hi (w : World) : Q := 25 + stride w.

(** The test at the end of the loop body of [animateBackFace]. *)
Definition turn (z d : Q) : Q :=
  if Qltb 25 z then - 4 else if Qltb z (- (17 # 2)) then 1 else d.




(** Kinds of entries of a history. *)
Definition is_resolved (ev : Event * World) : Prop :=
  match fst ev with Resolved _ => True | _ => False end.

Definition is_render (ev : Event * World) : Prop :=
  match fst ev with RenderCalled => True | _ => False end.

(** The things the face loaders fill: the six collections and the two
    variables that hold a single node. *)
Inductive Slot : Type :=
| Rings | Block | Triangles | Blocks | Bars | Hexagons | Diamonds | Planet.

(** How many nodes a slot holds. *)
Definition count (k : Slot) (s : Vars) : nat :=
  match k with
  | Rings => length (rings s)
  | Block => match block s with Some _ => 1 | None => 0 end
  | Triangles => length (triangles s)
  | Blocks => length (blocks s)
  | Bars => length (concat (bars s))
  | Hexagons => length (hexagons s)
  | Diamonds => length (diamonds s)
  | Planet => match planet s with Some _ => 1 | None => 0 end
  end.

(** The node counts of the fully assembled cube: front = 1 block and 30
    rings, back = 20 triangles, left = 25 blocks, right = 12 bars,
    top = 1 diamond and 8 hexagons, bottom = 1 planet. *)
Definition full (k : Slot) : nat :=
  match k with
  | Rings => 30
  | Block => 1
  | Triangles => 20
  | Blocks => 25
  | Bars => 12
  | Hexagons => 8
  | Diamonds => 1
  | Planet => 1
  end.

(** What the [i]-th routine handed to [Promise.all] contributes to a slot. *)
Definition share (i : nat) (k : Slot) : nat :=
  match i, k with
  | 0, Rings => 30
  | 0, Block => 1
  | 1, Blocks => 25
  | 2, Bars => 12
  | 3, Triangles => 20
  | 4, Hexagons => 8
  | 4, Diamonds => 1
  | 5, Planet => 1
  | _, _ => 0
  end.

Section Counting.

(** A quantity [mu] of the variables and the value [T] it must not exceed. *)
Variable mu : Vars -> nat.
Variable T : nat.

(** [Owes d t]: whatever the store and the loader do, running the routine
    [t] to its end raises [mu] by exactly [d], as long as that fits below
    [T].  A rejected routine owes nothing more. *)
Fixpoint Owes {A} (d : nat) (t : Async A) : Prop :=
  match t with
  | Ret _ => d = 0
  | Raise _ => True
  | Do m k =>
      forall w w' b,
        mu (vars w) + d <= T ->
        m w = (w', Ok b) ->
        exists d', mu (vars w') + d' = mu (vars w) + d /\ Owes d' (k b)
  | Fetch _ k => forall o, Owes d (k o)
  | Yield k => Owes d k
  end.

End Counting.

(** The sum of the debts of several routines. *)
Fixpoint total (ds : list nat) : nat :=
  match ds with
  | [] => 0
  | d :: ds' => d + total ds'
  end.

(** Modelled from the spec: the declarations of the face collections are
    missing from [main.js].  The spec's data model has every Face
    Collection "populated once during setup", so before the assembler runs
    each is empty ([bars] being made of empty groups), and [block] and
    [planet], declared without a value, are unset. *)
Definition nothing_loaded (s : Vars) : Prop :=
  forall k, count k s = 0.

(** The state in which [build_with_custom_models] reaches [Promise.all],
    from the state [wl] in which [loadModel] returned the cube frame [cube]
    whose first child has the material [m]. *)
Definition cube_frame_placed (wl : World) (cube : NodeId) (m : MatId) : World :=
  with_heap (upd_objs (alter (set_scale (Vector3.set 2 2 2)) cube))
    (with_heap (upd_objs (alter (set_children (fun cs => cs ++ [cube])) scene))
       (with_heap (upd_mats (alter (set_stencilWrite false) m))
          (with_vars (set_impossibleCube (Some cube)) wl))).


(** ** A concrete loader and initial state, to run the model *)

Module Fixture.

(** The node hierarchy of a model file: whether each node is a mesh (has a
    material of its own) and its children. *)
#[local] Unset Elimination Schemes.
Inductive Asset : Type := node (mesh : bool) (kids : list Asset).
#[local] Set Elimination Schemes.

Definition blank : Object3D :=
  {| position := Vector3.mk 0 0 0; rotation := Vector3.mk 0 0 0;
     scale := Vector3.mk 1 1 1; children := []; material := None |}.

(** Loading allocates the nodes of the file at fresh addresses, parents
    before children; a mesh gets a fresh default material at the address
    of the same number. *)
Fixpoint instantiate (t : Asset) (h : Heap) : NodeId * Heap :=
  match t with
  | node mesh kids =>
      let a := allocated h in
      let h0 := {| objs := objs h; mats := mats h; allocated := S a |} in
      let '(ids, h1) :=
        (fix go (ks : list Asset) (h : Heap) : list NodeId * Heap :=
           match ks with
           | [] => ([], h)
           | k :: ks' =>
               let '(i, h') := instantiate k h in
               let '(rest, h'') := go ks' h' in
               (i :: rest, h'')
           end) kids h0 in
      (a, upd_mats <[a := MeshPhongMaterial "gray"]>
            (upd_objs <[a := {| position := Vector3.mk 0 0 0;
                                rotation := Vector3.mk 0 0 0;
                                scale := Vector3.mk 1 1 1;
                                children := ids;
                                material := if mesh then Some a else None |}]>
               h1))
  end.

(** A simple-shaped file that also has what [loadBottomFace] reaches for:
    a first child that is a childless mesh, and a second child with two
    meshes below it. *)
Definition simple_asset : Asset :=
  node false [node true []; node false [node true []; node true []]].

(** A compound-shaped file: the first child has a mesh below it, the third
    child has three. *)
Definition compound_asset : Asset :=
  node false [node false [node true []];
              node false [];
              node false [node true []; node true []; node true []]].

Definition simple_loader (path : string) (h : Heap) : option (NodeId * Heap) :=
  Some (instantiate simple_asset h).

Definition compound_loader (path : string) (h : Heap) : option (NodeId * Heap) :=
  Some (instantiate compound_asset h).


(** The state in which [build_with_custom_models] is called: only the
    scene exists, the variables hold their initial values, the collections
    are empty, [bars] with its three groups. *)
Definition world0 : World :=
  {| heap := {| objs := fun _ => blank;
                mats := fun _ => MeshPhongMaterial "gray";
                allocated := 1 |};
     vars := {| impossibleCube := None; block := None; planet := None;
                direction := 1; factor := 1; rings := []; triangles := [];
                blocks := []; bars := [[]; []; []]; hexagons := [];
                diamonds := [] |};
     random_source := fun n => (inject_Z (Z.of_nat (n * 7 mod 10)) / 10)%Q;
     drawn := 0 |}.

(** Twenty distinct triangles, all at [z] along the axis of motion, with
    [direction = 1]. *)
Definition back_world (z : Q) : World :=
  {| heap := {| objs := fun _ => set_position (Vector3.setZ z) blank;
                mats := fun _ => MeshPhongMaterial "gray";
                allocated := 21 |};
     vars := {| impossibleCube := None; block := None; planet := None;
                direction := 1; factor := 1; rings := [];
                triangles := seq 1 20;
                blocks := []; bars := [[]; []; []]; hexagons := [];
                diamonds := [] |};
     random_source := fun _ => 3 # 10;
     drawn := 0 |}.


(** The six routines take turns one after the other. *)
Definition round_robin : list nat := concat (repeat [0; 1; 2; 3; 4; 5] 62).

(** Stand-ins for the three.js transforms and for [Math.sin]. *)
Definition keep (q : Q) (o : Object3D) : Object3D := o.
Definition linear (q : Q) : Q := q.

End Fixture.

(** ** Further vocabulary *)

(** The fields of a material that the stencil-tagging walk never assigns. *)
Definition plain_fields (m : Material) : string * StencilOp * bool * bool :=
  (color m, stencilZPass m, colorWrite m, depthWrite m).

(** The three fields the walk does assign. *)
Definition stencil_fields (m : Material) : bool * Z * StencilFunc :=
  (stencilWrite m, stencilRef m, stencilFunc m).

(** What a frame may change of the store and of the random source: the
    state [w'] has the materials, the allocation frontier and the random
    sequence of [w], and every node outside [fp] is as in [w]. *)
Definition touches (fp : list NodeId) (w w' : World) : Prop :=
  mats (heap w') = mats (heap w) /\
  allocated (heap w') = allocated (heap w) /\
  random_source w' = random_source w /\
  forall o, o ∉ fp -> objs (heap w') o = objs (heap w) o.

(** The variables with the two scratch numbers [direction] and [factor]
    blanked: what the collections and the node variables hold. *)
Definition holdings (s : Vars) : Vars := set_direction 0 (set_factor 0 s).

(** A variable that holds a node or [undefined], as a list. *)
Definition held (v : option NodeId) : list NodeId :=
  match v with Some o => [o] | None => [] end.

(** The nodes the animators write to: those in the six collections (of
    [diamonds] the first only) and the planet. *)
Definition animated (s : Vars) : list NodeId :=
  rings s ++ triangles s ++ blocks s ++ concat (bars s)
    ++ take 1 (diamonds s) ++ hexagons s ++ held (planet s).

(** The index the left-face animator draws in a frame that starts in [w]:
    the third number of the random source from the current position. *)
Definition drawn_index (w : World) : Z :=
  Math_floor (random_source w (S (S (drawn w))) * 25).

(** What a frame that starts in [w] needs in order to run to its end: the
    index drawn by the left-face animator falls on a block, there is a
    diamond, and the planet is set. *)
Definition frame_ready (w : World) : Prop :=
  (0 <= drawn_index w)%Z /\
  Z.to_nat (drawn_index w) < length (blocks (vars w)) /\
  diamonds (vars w) <> [] /\
  planet (vars w) <> None.

(** What a frame of [animateBackFace] does to the triangle at index [i]
    while the direction is [d]. *)
Definition back_step (i : nat) (d : Q) (o : Object3D) : Object3D :=
  set_rotation (fun v => Vector3.setZ (Vector3.z v + num i / 1000 * d) v)
    (set_position (fun v => Vector3.setZ (Vector3.z v + num i / 300 * d) v) o).

(** The states the back-face oscillation passes through, relative to its
    start state [w0]: the same triangles, and the last of them either on
    its way up and not past 25, or on its way down and not past -8.5. *)
Definition in_band (w0 w : World) : Prop :=
  triangles (vars w) = triangles (vars w0) /\
  ((direction (vars w) = 1%Q /\
    (band_lo w0 <= last_z w)%Q /\ (last_z w <= 25)%Q) \/
   (direction (vars w) = (- 4)%Q /\
    (- (17 # 2) <= last_z w)%Q /\ (last_z w <= band_hi w0)%Q)).

(** ** What the face loaders guarantee each other *)

Section Guarantee.

Variable GLTFLoader : string -> Heap -> option (NodeId * Heap).

(** What a routine holds for itself while it runs is a list of items of
    some kind [X]; [Inv] relates the items held by all the routines
    together to the state. *)
Variable X : Type.
Variable Inv : list X -> World -> Prop.

(** [Sat Q g t]: the routine [t], holding [g], keeps [Inv] at every step,
    whatever the other routines hold ([r]) and whatever the loader
    returns, and if it returns [a] it then holds some [g'] with [Q a g']. *)
Fixpoint Sat {A} (Q : A -> list X -> Prop) (g : list X) (t : Async A) : Prop :=
  match t with
  | Ret a => Q a g
  | Raise _ => True
  | Do m k =>
      forall r w w' b,
        Inv (g ++ r) w ->
        m w = (w', Ok b) ->
        exists g', Inv (g' ++ r) w' /\ Sat Q g' (k b)
  | Fetch path k =>
      forall r w o h,
        Inv (g ++ r) w ->
        GLTFLoader path (heap w) = Some (o, h) ->
        exists g', Inv (g' ++ r) (with_heap (fun _ => h) w) /\ Sat Q g' (k o)
  | Yield k => Sat Q g k
  end.

End Guarantee.

(** Every node that a variable or a collection holds. *)
Definition loaded (s : Vars) : list NodeId :=
  held (impossibleCube s) ++ held (block s) ++ held (planet s) ++ rings s
    ++ triangles s ++ blocks s ++ concat (bars s) ++ hexagons s ++ diamonds s.

(** The position that [loadBackFace] gives every triangle. *)
Definition back_start : Vector3.t := Vector3.mk 0 0 (- (5 # 2)).

(** A loader that only adds to the store: the node it returns is new, and
    every node that existed is as it was. *)
Definition extends_store (loader : string -> Heap -> option (NodeId * Heap))
    : Prop :=
  forall path h o h',
    loader path h = Some (o, h') ->
    allocated h <= o < allocated h' /\
    forall a, a < allocated h -> objs h' a = objs h a.


(** What a frame of [animateTopFace] makes of the hexagon at index [i],
    [distance] being the sine computed at the start of the frame and [rx]
    the rotation of the diamond about x after its increment: the scale
    shrinks with the index, the hexagon sits on the z axis on the side
    given by the parity of the index, and it is turned against the
    diamond. *)
Definition top_pose (distance rx : Q) (i : nat) (o : Object3D) : Object3D :=
  set_rotation (Vector3.set (- rx) 0 0)
    (set_position
       (Vector3.set 0 0
          (distance * num i * 2 * (if i mod 2 =? 0 then - 1 else 1)))
       (set_scale
          (Vector3.set (2 - num i * (1 # 4)) (2 - num i * (1 # 4))
             (2 - num i * (1 # 4))) o)).

(** What it makes of the diamond. *)
Definition top_turn (o : Object3D) : Object3D :=
  set_rotation (fun v => Vector3.setY (Vector3.y v - (1 # 100)) v)
    (set_rotation (fun v => Vector3.setX (Vector3.x v + (1 # 100)) v) o).

(** The value it leaves in [factor], when there are [n] hexagons. *)
Definition top_factor (n : nat) (f : Q) : Q :=
  match n with
  | O => f
  | S k => if k mod 2 =? 0 then - 1 else 1
  end.
(** ** The scene that the face loaders build *)

(** The collections, [bars] group by group. *)
Inductive Coll : Type :=
| CRings | CTriangles | CBlocks | CBars (i : nat) | CHexagons | CDiamonds.

Definition coll (c : Coll) (s : Vars) : list NodeId :=
  match c with
  | CRings => rings s
  | CTriangles => triangles s
  | CBlocks => blocks s
  | CBars i => default [] (bars s !! i)
  | CHexagons => hexagons s
  | CDiamonds => diamonds s
  end.

(** The nodes that the loaders put in the scene itself: all that is loaded
    but the hexagons, which they put under the diamond. *)
Definition staged (s : Vars) : list NodeId :=
  held (impossibleCube s) ++ held (block s) ++ held (planet s) ++ rings s
    ++ triangles s ++ blocks s ++ concat (bars s) ++ diamonds s.

Definition is_staged (c : Coll) : bool :=
  match c with CHexagons => false | _ => true end.

(** What [loadFrontFace] gives the [i]-th ring of its [j]-th group. *)
Definition ring_layout (j i : nat) (o : Object3D) : Prop :=
  if j =? 0 then
    scale o = Vector3.mk (0 + num i) (0 + num i) (0 + num i) /\
    Vector3.z (rotation o) = (Math_PI / 2)%Q /\
    Vector3.x (position o) = ((- num i / 3) * num i)%Q
  else if j =? 1 then
    scale o = Vector3.mk (0 + num i) (0 + num i) (0 + num i) /\
    Vector3.z (rotation o) = (- Math_PI / 2)%Q /\
    Vector3.x (position o) = ((num i / 3) * num i)%Q
  else
    scale o = Vector3.mk (2 + num i) (2 + num i) (2 + num i) /\
    Vector3.x (rotation o) = (Math_PI / 2)%Q /\
    Vector3.z (position o) = ((- num i / 3) * num i)%Q.

(** What the face loaders give the node they put at index [k] of a
    collection: the transform of the loop pass that loaded it. *)
Definition layout (c : Coll) (k : nat) (o : Object3D) : Prop :=
  match c with
  | CRings => forall j i, k = 10 * j + i -> i < 10 -> ring_layout j i o
  | CTriangles =>
      position o = back_start /\
      scale o = Vector3.mk (6 - num k / 4) (6 - num k / 4) 1
  | CBlocks =>
      forall i j, k = 5 * i + j -> j < 5 ->
        position o = Vector3.mk (num i - (3 # 2)) (- 1) (- 2 + num j)
  | CBars _ => True
  | CHexagons => scale o = Vector3.mk 5 5 5
  | CDiamonds => scale o = Vector3.mk 2 2 2
  end.

(** Where a node stands that a routine has fetched and put in no variable
    yet: nowhere; in the scene; or with hexagons under it. *)
Inductive Stage : Type := Bare | InScene | Host.

(** What a face loader holds for itself while it runs:
    - [Own a s p]: it has fetched the node [a] and put it in no variable
      yet; [a] stands as [s] tells, and [p] holds of it;
    - [Kept a p]: it has put [a] in [planet] and still writes to it;
    - [MaySetPlanet]: it is the routine that assigns [planet];
    - [Len c n]: it is the routine that fills [c], which has [n] entries;
    - [Due a]: it has put [a] in a variable or collection and has yet to
      add it to the scene;
    - [Loose a]: it has put [a] in [hexagons] and has yet to add it to the
      diamond. *)
Inductive Item : Type :=
| Own (a : NodeId) (s : Stage) (p : Object3D -> Prop)
| Kept (a : NodeId) (p : Object3D -> Prop)
| MaySetPlanet
| Len (c : Coll) (n : nat)
| Due (a : NodeId)
| Loose (a : NodeId).

Definition fetched (g : list Item) : list NodeId :=
  omap (fun x => match x with Own a _ _ => Some a | _ => None end) g.

Definition tokens (g : list Item) : list unit :=
  omap (fun x => match x with
                 | MaySetPlanet => Some tt
                 | Kept _ _ => Some tt
                 | _ => None
                 end) g.

Definition loaders (g : list Item) : list Coll :=
  omap (fun x => match x with Len c _ => Some c | _ => None end) g.

(** What is known of a node after the write [F], when [p] held before. *)
Definition after (F : Object3D -> Object3D) (p : Object3D -> Prop)
    : Object3D -> Prop :=
  fun o => exists o0, p o0 /\ o = F o0.

(** What a routine holds after it has pushed the node [a], which stood as
    [s], onto the collection [c]. *)
Definition pushed (s : Stage) (c : Coll) (a : NodeId) : list Item :=
  match s with
  | InScene => []
  | _ => if is_staged c then [Due a] else [Loose a]
  end.

(** What holds at every moment while the face loaders run, [w0] being the
    state in which they were called and [g] all that the routines hold:
    the nodes in the variables and collections and those in the hands of a
    routine are pairwise distinct, were all allocated, and none is the
    scene; what a routine knows of a node it holds is true; every node in a
    collection has the layout of its index; the node a routine keeps is the
    planet, and one routine at most assigns or keeps it; a collection has
    the length its loader counts, and has one loader at most; a node that
    its loader has added to the scene, and every staged node that is not
    due, is a child of the scene; every hexagon that is not loose is a
    child of a diamond or of a node that is to become one; the random
    source, the two scratch numbers and [impossibleCube] are what they were
    in [w0]; the nodes that the routines hold were fetched after [w0];
    every node of [w0] but the scene is as it was; and the scene has only
    gained children. *)
Record scene_inv (w0 : World) (g : list Item) (w : World) : Prop := {
  si_scene : scene < allocated (heap w);
  si_distinct : NoDup (loaded (vars w) ++ fetched g);
  si_allocated :
    Forall (fun a => scene < a < allocated (heap w))
      (loaded (vars w) ++ fetched g);
  si_own : forall a s p, Own a s p ∈ g -> p (objs (heap w) a);
  si_kept :
    forall a p, Kept a p ∈ g ->
                p (objs (heap w) a) /\ planet (vars w) = Some a;
  si_layout :
    forall c k a, coll c (vars w) !! k = Some a ->
                  layout c k (objs (heap w) a);
  si_token : length (tokens g) <= 1;
  si_lens : forall c n, Len c n ∈ g -> length (coll c (vars w)) = n;
  si_loaders : NoDup (loaders g);
  si_added :
    forall a p, Own a InScene p ∈ g ->
                a ∈ children (objs (heap w) scene);
  si_staged :
    forall a, a ∈ staged (vars w) ->
              a ∈ children (objs (heap w) scene) \/ Due a ∈ g;
  si_nested :
    forall a, a ∈ hexagons (vars w) ->
              Loose a ∈ g \/
              exists x, a ∈ children (objs (heap w) x) /\
                        (x ∈ diamonds (vars w) \/ exists p, Own x Host p ∈ g);
  si_random : random_source w = random_source w0;
  si_direction : direction (vars w) = direction (vars w0);
  si_factor : factor (vars w) = factor (vars w0);
  si_frame : impossibleCube (vars w) = impossibleCube (vars w0);
  si_frontier : allocated (heap w0) <= allocated (heap w);
  si_new :
    forall a, a ∈ fetched g \/ (exists p, Kept a p ∈ g) ->
              allocated (heap w0) <= a;
  si_old :
    forall a, a < allocated (heap w0) -> a <> scene ->
              objs (heap w) a = objs (heap w0) a;
  si_grown :
    exists extra,
      objs (heap w) scene =
        set_children (fun _ => children (objs (heap w0) scene) ++ extra)
          (objs (heap w0) scene)
}.

(** How many bars [loadRightFace] has put in the group [k] when it starts
    the pass [j] of the inner loop in the pass [i] of the outer. *)
Definition bar_fill (i j k : nat) : nat :=
  if k <? i then 4 else if k =? i then j else 0.

(** What the right-face loader holds then. *)
Definition bar_lens (i j : nat) : list Item :=
  [Len (CBars 0) (bar_fill i j 0); Len (CBars 1) (bar_fill i j 1);
   Len (CBars 2) (bar_fill i j 2)].

(** What each face loader holds when it starts, in the order of [faces]. *)
Definition starting : list (list Item) :=
  [ [Len CRings 0]; [Len CBlocks 0]; bar_lens 0 0; [Len CTriangles 0];
    [Len CHexagons 0; Len CDiamonds 0]; [MaySetPlanet] ].

(** What each face loader holds when it has finished, in the order of
    [faces]. *)
Definition finished : list (list Item -> Prop) :=
  [ fun g => g = [Len CRings 30];
    fun g => g = [Len CBlocks 25];
    fun g => g = [Len (CBars 0) 4; Len (CBars 1) 4; Len (CBars 2) 4];
    fun g => g = [Len CTriangles 20];
    fun g => g = [Len CDiamonds 1; Len CHexagons 8];
    fun g => exists a p,
               g = [Kept a p] /\
               forall o, p o -> scale o = Vector3.mk 2 2 2 ].

#[global] Instance Coll_eq_dec : EqDecision Coll.
Proof. solve_decision. Defined.

(** The stages from which a node may be pushed onto a collection: one with
    hexagons under it onto [diamonds] only, and none that is in the scene
    onto [hexagons]. *)
Definition fits (s : Stage) (c : Coll) : Prop :=
  match s, c with
  | Host, CDiamonds => True
  | Host, _ => False
  | InScene, CHexagons => False
  | _, _ => True
  end.

(** The six pushes of the face loaders, by collection. *)
Definition push (c : Coll) (a : NodeId) (s : Vars) : Vars :=
  match c with
  | CRings => set_rings (rings s ++ [a]) s
  | CTriangles => set_triangles (triangles s ++ [a]) s
  | CBlocks => set_blocks (blocks s ++ [a]) s
  | CBars i => set_bars (alter (fun g => g ++ [a]) i (bars s)) s
  | CHexagons => set_hexagons (hexagons s ++ [a]) s
  | CDiamonds => set_diamonds (diamonds s ++ [a]) s
  end.

(** What no face loader changes, whatever the loader does: the random
    source and the two scratch numbers.  (The routines hold nothing for
    this.) *)
Definition scratch_inv (rs : nat -> Q) (d f : Q) (g : list unit) (w : World)
    : Prop :=
  random_source w = rs /\ direction (vars w) = d /\ factor (vars w) = f.

(** The oscillation of the back face under a frame function [frame] that
    may do more than [animateBackFace], as [render] does: the statement of
    [oscillates] with [frame] for the animator. *)
Definition oscillates_under (frame : M unit) (w : World) : Prop :=
  forall k,
    let wk := fst (frames k frame w) in
    let wk' := fst (frame wk) in
    snd (frames k frame w) = Ok tt /\
    (direction (vars wk) = 1%Q \/ direction (vars wk) = (- 4)%Q) /\
    (band_lo w <= last_z wk)%Q /\ (last_z wk <= band_hi w)%Q /\
    last_z wk' = (last_z wk + stride w * direction (vars wk))%Q /\
    direction (vars wk') = turn (last_z wk') (direction (vars wk)).

(** A state from which every frame can run: the collections are as the
    face loaders fill them and [Math.random()] returns numbers in [0, 1). *)
Definition fully_loaded (w : World) : Prop :=
  (forall k, count k (vars w) = full k) /\
  (forall n, 0 <= random_source w n /\ random_source w n < 1)%Q.

(** The store after the three stencil assignments of [loadBottomFace] to
    the material [m]. *)
Definition tag7 (m : MatId) (w : World) : World :=
  with_heap (upd_mats (alter (set_stencilFunc EqualStencilFunc) m))
    (with_heap (upd_mats (alter (set_stencilRef 7) m))
       (with_heap (upd_mats (alter (set_stencilWrite true) m)) w)).

(** What a frame of [animateRightFace] leaves every bar of the group [i]
    with: the scale (1, 1, 10), and the quarter turn of its group. *)
Definition bar_pose (i : nat) (o : Object3D) : Prop :=
  scale o = Vector3.mk 1 1 10 /\
  (i = 1 -> Vector3.x (rotation o) = (Math_PI / 2)%Q) /\
  (i = 2 -> Vector3.y (rotation o) = (Math_PI / 2)%Q).

(** A write that undoes none of this. *)
Definition keeps_pose (F : Object3D -> Object3D) : Prop :=
  forall o,
    (scale o = Vector3.mk 1 1 10 -> scale (F o) = Vector3.mk 1 1 10) /\
    (Vector3.x (rotation o) = (Math_PI / 2)%Q ->
     Vector3.x (rotation (F o)) = (Math_PI / 2)%Q) /\
    (Vector3.y (rotation o) = (Math_PI / 2)%Q ->
     Vector3.y (rotation (F o)) = (Math_PI / 2)%Q).

(** The local [x] of [animateFrontFace] when its loop reaches the index
    [k]: 0.001 added [k] times to 0, one addition after the other in the
    order of the loop. *)
Fixpoint ramp (k : nat) : Q :=
  match k with
  | O => 0
  | S k' => (ramp k' + (1 # 1000))%Q
  end.

(** What a frame of [animateFrontFace] does to the ring at index [k]. *)
Definition front_step (rotateX rotateY : Q -> Object3D -> Object3D) (k : nat)
    (o : Object3D) : Object3D :=
  rotateY (- (1 # 100) + ramp k)%Q (rotateX ((1 # 100) + ramp k)%Q o).

(** Further concrete inputs. *)
Module Cases.

(** A compound-shaped file that lacks the third child the compound branch
    of [loadModel] reaches for. *)
Definition truncated_asset : Fixture.Asset :=
  Fixture.node false [Fixture.node false [Fixture.node true []]].

Definition truncated_loader (path : string) (h : Heap) : option (NodeId * Heap) :=
  Some (Fixture.instantiate truncated_asset h).

(** A loader whose every fetch fails. *)
Definition failing_loader (path : string) (h : Heap) : option (NodeId * Heap) :=
  None.

End Cases.

(** * Properties *)

(** ** [createMat] *)

(** C10. The material that [createMat] returns always has stencil write
    enabled and the given reference.  With [needStencil] it compares with
    [Always], replaces the stencil value on depth pass, and writes neither
    colour nor depth; without it, it compares with [Equal] and its colour
    and depth writes are those of a fresh material, which are enabled. *)
Theorem createMat_fields (needStencil : bool) (referenceNum : Z)
    (pColor objColor : string) :
  let m := createMat needStencil referenceNum pColor objColor in
  stencilWrite m = true /\
  stencilRef m = referenceNum /\
  if needStencil then
    stencilFunc m = AlwaysStencilFunc /\
    stencilZPass m = ReplaceStencilOp /\
    colorWrite m = false /\
    depthWrite m = false
  else
    stencilFunc m = EqualStencilFunc /\
    colorWrite m = colorWrite (MeshPhongMaterial objColor) /\
    depthWrite m = depthWrite (MeshPhongMaterial objColor) /\
    colorWrite m = true /\
    depthWrite m = true.
Proof. destruct needStencil; cbn; repeat split. Qed.

(** ** Evaluation of the synchronous primitives *)

Ltac munfold :=
  unfold mbind, mret, M_bind, M_ret, bind, gets, modify, defined in *;
  unfold ret, throw in *.

Lemma material_at_eval (o : NodeId) (path : list nat) (w : World) :
  material_at o path w =
    (w, match material_slot (heap w) o path with
        | Some m => Ok m
        | None => Throw TypeError
        end).
Proof.
  revert o. induction path as [|i path IH]; intros o.
  - unfold material_slot. simpl. unfold material_of. munfold.
    destruct (material (objs (heap w) o)); reflexivity.
  - unfold material_slot in *. simpl. unfold child. munfold.
    destruct (children (objs (heap w) o) !! i) as [c|]; [|reflexivity].
    apply IH.
Qed.

(** Material writes leave the scene graph alone, hence every path. *)
Lemma material_slot_upd_mats (f : (MatId -> Material) -> MatId -> Material)
    (h : Heap) (o : NodeId) (path : list nat) :
  material_slot (upd_mats f h) o path = material_slot h o path.
Proof.
  unfold material_slot.
  assert (D : forall p o', descend (upd_mats f h) o' p = descend h o' p).
  { induction p as [|i p IH]; intros o'; simpl; [reflexivity|].
    destruct (children (objs h o') !! i); [apply IH | reflexivity]. }
  rewrite D. reflexivity.
Qed.

(** One assignment [o.children[..]. ... .material.field = v]. *)
Lemma assign_eval (o : NodeId) (path : list nat) (f : Material -> Material)
    (w : World) :
  (m ← material_at o path; write_material m f) w =
    match material_slot (heap w) o path with
    | Some m => (with_heap (upd_mats (alter f m)) w, Ok tt)
    | None => (w, Throw TypeError)
    end.
Proof.
  unfold mbind, M_bind, bind. rewrite material_at_eval.
  destruct (material_slot (heap w) o path); reflexivity.
Qed.

Lemma has_material_all_upd_mats (g : (MatId -> Material) -> MatId -> Material)
    (h : Heap) (o : NodeId) (l : list (list nat * (Material -> Material))) :
  forallb (fun pf => has_material (upd_mats g h) o (fst pf)) l =
  forallb (fun pf => has_material h o (fst pf)) l.
Proof.
  induction l as [|pf l IH]; simpl; [reflexivity|].
  unfold has_material at 1 3. rewrite material_slot_upd_mats, IH. reflexivity.
Qed.

Lemma assigned_upd_mats (g : (MatId -> Material) -> MatId -> Material)
    (h : Heap) (o : NodeId) (l : list (list nat * (Material -> Material))) :
  assigned (upd_mats g h) o l =
    fold_left (fun ms pf =>
                 match material_slot h o (fst pf) with
                 | Some m => alter (snd pf) m ms
                 | None => ms
                 end) l (g (mats h)).
Proof.
  unfold assigned. simpl mats. generalize (g (mats h)) as ms.
  induction l as [|[p f] l IH]; intros ms; simpl; [reflexivity|].
  rewrite material_slot_upd_mats. apply IH.
Qed.

(** A run of assignments whose material slots all exist performs every
    write and nothing else. *)
Lemma assign_all_ok (l : list (list nat * (Material -> Material)))
    (o : NodeId) (w : World) :
  forallb (fun pf => has_material (heap w) o (fst pf)) l = true ->
  assign_all o l w =
    (with_heap (upd_mats (fun _ => assigned (heap w) o l)) w, Ok tt).
Proof.
  revert w. induction l as [|[p f] l IH]; intros w Hall.
  - destruct w as [[? ? ?] ? ? ?]. reflexivity.
  - simpl in Hall. apply andb_prop in Hall as [Hp Hl].
    unfold has_material in Hp.
    destruct (material_slot (heap w) o p) as [m|] eqn:Hm; [|discriminate].
    assert (Hstep : (m ← material_at o p; write_material m f) w
                    = (with_heap (upd_mats (alter f m)) w, Ok tt))
      by (rewrite assign_eval, Hm; reflexivity).
    destruct l as [|pf l].
    + simpl assign_all. rewrite Hstep. unfold assigned.
      cbn [fold_left fst snd]. rewrite Hm. reflexivity.
    + specialize (IH (with_heap (upd_mats (alter f m)) w)).
      change (assign_all o ((p, f) :: pf :: l)) with
        (m ← material_at o p; write_material m f;; assign_all o (pf :: l)).
      unfold mbind at 1, M_bind at 1, bind at 1. rewrite material_at_eval, Hm.
      unfold mbind at 1, M_bind at 1, bind at 1.
      unfold write_material at 1, modify at 1.
      rewrite IH.
      * simpl heap. rewrite assigned_upd_mats.
        unfold assigned at 1. cbn [fold_left fst snd]. rewrite Hm. reflexivity.
      * simpl heap. rewrite has_material_all_upd_mats. exact Hl.
Qed.

(** A run of assignments one of whose material slots is missing throws. *)
Lemma assign_all_fail (l : list (list nat * (Material -> Material)))
    (o : NodeId) (w : World) :
  forallb (fun pf => has_material (heap w) o (fst pf)) l = false ->
  snd (assign_all o l w) = Throw TypeError.
Proof.
  revert w. induction l as [|[p f] l IH]; intros w Hall; [discriminate|].
  simpl in Hall. unfold has_material at 1 in Hall.
  destruct (material_slot (heap w) o p) as [m|] eqn:Hm.
  - simpl in Hall. destruct l as [|pf l]; [discriminate|].
    change (assign_all o ((p, f) :: pf :: l)) with
      (m ← material_at o p; write_material m f;; assign_all o (pf :: l)).
    unfold mbind at 1, M_bind at 1, bind at 1. rewrite material_at_eval, Hm.
    unfold mbind at 1, M_bind at 1, bind at 1.
    unfold write_material at 1, modify at 1.
    apply IH. simpl heap. rewrite has_material_all_upd_mats. exact Hall.
  - destruct l as [|pf l].
    + simpl assign_all. rewrite assign_eval, Hm. reflexivity.
    + change (assign_all o ((p, f) :: pf :: l)) with
        (m ← material_at o p; write_material m f;; assign_all o (pf :: l)).
      unfold mbind at 1, M_bind at 1, bind at 1. rewrite material_at_eval, Hm.
      reflexivity.
Qed.

(** Transform writes keep children and material; [add] keeps the material
    and the children that were there. *)
Lemma material_alter_transform (g : Object3D -> Object3D) (a o : NodeId)
    (os : NodeId -> Object3D) :
  (forall x, material (g x) = material x) ->
  material (alter g a os o) = material (os o).
Proof.
  intros Hg. unfold alter, fn_alter.
  destruct (decide (a = o)) as [->|]; [apply Hg | reflexivity].
Qed.

Lemma children_alter_transform (g : Object3D -> Object3D) (a o : NodeId)
    (os : NodeId -> Object3D) :
  (forall x, children (g x) = children x) ->
  children (alter g a os o) = children (os o).
Proof.
  intros Hg. unfold alter, fn_alter.
  destruct (decide (a = o)) as [->|]; [apply Hg | reflexivity].
Qed.


(** ** Evaluation of asynchronous routines *)

Lemma advance_abind {A B} (t : Async A) (f : A -> Async B) (w : World) :
  advance (abind t f) w =
    let '(w', t') := advance t w in
    match t' with
    | Ret a => advance (f a) w'
    | _ => (w', abind t' f)
    end.
Proof.
  revert w. induction t as [a|e|C m k IH|p k IH|k IH]; intros w; try reflexivity.
  cbn [abind advance]. destruct (m w) as [w' [b|e]]; [apply IH | reflexivity].
Qed.

Lemma advance_not_Do {A} (t : Async A) (w : World) :
  match snd (advance t w) with Do _ _ => False | _ => True end.
Proof.
  revert w. induction t as [a|e|C m k IH|p k IH|k IH]; intros w; try exact I.
  cbn [advance]. destruct (m w) as [w' [b|e]]; [apply IH | exact I].
Qed.

Section LoadModel.

Variable GLTFLoader : string -> Heap -> option (NodeId * Heap).

(** Without stencil the call is the fetch and nothing more. *)
Lemma loadModel_plain_eval (path : string) (refNum : Z) (w : World) :
  resume GLTFLoader (loadModel path false refNum) w =
    match GLTFLoader path (heap w) with
    | Some (object, h) => (with_heap (fun _ => h) w, Ret object)
    | None => (w, Raise LoadError)
    end.
Proof.
  unfold loadModel, resume. simpl.
  destruct (GLTFLoader path (heap w)) as [[object h]|]; reflexivity.
Qed.

(** C6. A call [loadModel(path, false, refNum)] changes nothing: once the
    fetch completes, the routine returns the loaded top-level node in the
    very state the loader left, so every material, transform and child list
    is as loaded; if the fetch fails the call is rejected and the state is
    untouched. *)
Theorem loadModel_without_stencil (path : string) (refNum : Z) (w : World) :
  resume GLTFLoader (loadModel path false refNum) w =
    match GLTFLoader path (heap w) with
    | Some (object, h) => (with_heap (fun _ => h) w, Ret object)
    | None => (w, Raise LoadError)
    end.
Proof. apply loadModel_plain_eval. Qed.

Lemma resume_abind {A B} (t : Async A) (f : A -> Async B) (w : World) :
  suspended t = true ->
  resume GLTFLoader (abind t f) w =
    let '(w', t') := resume GLTFLoader t w in
    match t' with
    | Ret a => advance (f a) w'
    | _ => (w', abind t' f)
    end.
Proof.
  destruct t as [a|e|C m k|p k|k]; try discriminate; intros _.
  - cbn [abind resume]. destruct (GLTFLoader p (heap w)) as [[o h]|];
      [apply advance_abind | reflexivity].
  - cbn [abind resume]. apply advance_abind.
Qed.

(** A call of [loadModel] that is awaited: when its fetch completes the
    caller is left waiting for its turn, or the rejection reaches it. *)
Lemma resume_await_loadModel {B} (path : string) (needStencil : bool)
    (refNum : Z) (k : NodeId -> Async B) (w : World) :
  resume GLTFLoader (x ← await (loadModel path needStencil refNum); k x) w =
    match resume GLTFLoader (loadModel path needStencil refNum) w with
    | (w', Ret o) => (w', Yield (k o))
    | (w', Raise e) => (w', Raise e)
    | (w', t') => (w', x ← await t'; k x)
    end.
Proof.
  unfold mbind at 1, Async_bind at 1, await at 1, mbind at 1, Async_bind at 1.
  rewrite !resume_abind by reflexivity.
  destruct (resume GLTFLoader (loadModel path needStencil refNum) w)
    as [w' [o|e|C m k'|p k'|k']]; reflexivity.
Qed.

Lemma child_eval (o : NodeId) (i : nat) (w : World) :
  child o i w =
    (w, match descend (heap w) o [i] with
        | Some c => Ok c
        | None => Throw TypeError
        end).
Proof.
  unfold child. munfold. simpl.
  destruct (children (objs (heap w) o) !! i); reflexivity.
Qed.

(** The body of [loadModel] is a shape test followed by one of two runs of
    assignments. *)
Lemma loadModel_unfold (path : string) (refNum : Z) :
  loadModel path true refNum =
    Fetch path (fun object =>
      Do (c0 ← child object 0;
          n ← gets (fun w => length (children (objs (heap w) c0)));
          if negb (n =? 0) then assign_all object (compound_assignments refNum)
          else assign_all object (simple_assignments refNum))
         (fun _ => Ret object)).
Proof. reflexivity. Qed.

(** [loadModel] has a single suspension: resuming it settles it. *)
Lemma loadModel_settles (path : string) (needStencil : bool) (refNum : Z)
    (w : World) :
  (exists w' o, resume GLTFLoader (loadModel path needStencil refNum) w
                = (w', Ret o)) \/
  (exists w' e, resume GLTFLoader (loadModel path needStencil refNum) w
                = (w', Raise e)).
Proof.
  destruct needStencil.
  - rewrite loadModel_unfold. unfold resume.
    destruct (GLTFLoader path (heap w)) as [[o h]|]; [|right; eauto].
    cbn [advance].
    match goal with |- context [match ?m ?w0 with _ => _ end] =>
      destruct (m w0) as [w' [[]|e]] end; [left | right]; eauto.
  - rewrite loadModel_plain_eval.
    destruct (GLTFLoader path (heap w)) as [[o h]|]; [left | right]; eauto.
Qed.

(** Whether a call with stencil returns or throws is decided by the shape
    of the loaded node. *)
Lemma loadModel_outcome (path : string) (refNum : Z)
    (w : World) (object : NodeId) (h : Heap) :
  GLTFLoader path (heap w) = Some (object, h) ->
  snd (resume GLTFLoader (loadModel path true refNum) w) =
    if taggable h object then Ret object else Raise TypeError.
Proof.
  intros Hload. rewrite loadModel_unfold. unfold resume. rewrite Hload.
  set (w1 := with_heap (fun _ => h) w).
  assert (Hw1 : heap w1 = h) by reflexivity.
  cbn [advance]. unfold mbind at 1, M_bind at 1, bind at 1.
  rewrite child_eval, Hw1.
  unfold taggable, simple_shape, compound_shape.
  destruct (descend h object [0]) as [c0|] eqn:Hc0; [|reflexivity].
  unfold mbind at 1, M_bind at 1, bind at 1, gets at 1. rewrite Hw1.
  destruct (children (objs h c0)) as [|c00 cs] eqn:Hcs; cbn [length Nat.eqb negb].
  - cbn [andb orb]. rewrite orb_false_r.
    destruct (has_material h object [0]) eqn:Hm.
    + rewrite assign_all_ok; [reflexivity|]. rewrite Hw1.
      cbn [forallb simple_assignments fst]. rewrite Hm. reflexivity.
    + pose proof (assign_all_fail (simple_assignments refNum) object w1) as F.
      rewrite Hw1 in F. cbn [forallb simple_assignments fst] in F.
      rewrite Hm in F. specialize (F eq_refl).
      destruct (assign_all _ _ _) as [w' [[]|e]]; simpl in F; [discriminate|].
      injection F as ->. reflexivity.
  - cbn [andb orb].
    destruct (has_material h object [0; 0] && has_material h object [2; 0]
              && has_material h object [2; 2]) eqn:Hm.
    + apply andb_prop in Hm as [Hm H22]. apply andb_prop in Hm as [H00 H20].
      rewrite assign_all_ok; [reflexivity|]. rewrite Hw1.
      cbn [forallb compound_assignments fst].
      rewrite H00, H20, H22. reflexivity.
    + pose proof (assign_all_fail (compound_assignments refNum) object w1) as F.
      rewrite Hw1 in F. cbn [forallb compound_assignments fst] in F.
      assert (E : has_material h object [0; 0] && (has_material h object [0; 0]
                  && (has_material h object [0; 0] && (has_material h object [2; 0]
                  && (has_material h object [2; 2] && (has_material h object [2; 2]
                  && true))))) = false).
      { destruct (has_material h object [0; 0]), (has_material h object [2; 0]),
          (has_material h object [2; 2]); (discriminate || reflexivity). }
      specialize (F E).
      destruct (assign_all _ _ _) as [w' [[]|e]]; simpl in F; [discriminate|].
      injection F as ->. reflexivity.
Qed.

(** C9. Once the fetch of a call [loadModel(path, true, refNum)] has
    completed, the stencil-tagging walk performs only in-bounds accesses,
    and the call returns the top-level node, exactly when that node has one
    of the two anticipated shapes ([taggable]); on any other node the walk
    dereferences [undefined] and the call is rejected with a [TypeError]. *)
Theorem loadModel_in_bounds_iff_taggable (path : string) (refNum : Z)
    (w : World) (object : NodeId) (h : Heap) :
  GLTFLoader path (heap w) = Some (object, h) ->
  snd (resume GLTFLoader (loadModel path true refNum) w) =
    if taggable h object then Ret object else Raise TypeError.
Proof. apply loadModel_outcome. Qed.

(** The state a successful call leaves: the loaded store with the
    assignments of the branch taken, and nothing else changed. *)
Lemma loadModel_tagging_result (path : string) (refNum : Z) (w : World)
    (object : NodeId) (h : Heap) :
  GLTFLoader path (heap w) = Some (object, h) ->
  taggable h object = true ->
  resume GLTFLoader (loadModel path true refNum) w =
    (with_heap (fun _ =>
       upd_mats (fun _ =>
         assigned h object
           (if compound_shape h object then compound_assignments refNum
            else simple_assignments refNum)) h) w,
     Ret object).
Proof.
  intros Hload. rewrite loadModel_unfold. unfold resume. rewrite Hload.
  set (w1 := with_heap (fun _ => h) w).
  assert (Hw1 : heap w1 = h) by reflexivity.
  cbn [advance]. unfold mbind at 1, M_bind at 1, bind at 1.
  rewrite child_eval, Hw1.
  unfold taggable, simple_shape, compound_shape.
  destruct (descend h object [0]) as [c0|] eqn:Hc0; [|discriminate].
  unfold mbind at 1, M_bind at 1, bind at 1, gets at 1. rewrite Hw1.
  destruct (children (objs h c0)) as [|c00 cs] eqn:Hcs;
    cbn [length Nat.eqb negb andb orb]; intros Ht.
  - rewrite orb_false_r in Ht.
    rewrite assign_all_ok; [rewrite Hw1; reflexivity|]. rewrite Hw1.
    cbn [forallb simple_assignments fst]. rewrite Ht. reflexivity.
  - apply andb_prop in Ht as [Ht H22]. apply andb_prop in Ht as [H00 H20].
    rewrite assign_all_ok; [rewrite Hw1; reflexivity|]. rewrite Hw1.
    cbn [forallb compound_assignments fst]. rewrite H00, H20, H22. reflexivity.
Qed.

Lemma simple_not_compound (h : Heap) (o : NodeId) :
  simple_shape h o = true -> compound_shape h o = false.
Proof.
  unfold simple_shape, compound_shape.
  destruct (descend h o [0]) as [c0|]; [|discriminate].
  destruct (children (objs h c0)); [reflexivity | discriminate].
Qed.

(** C5. On a simple-shaped node (the first child exists, has no children
    and has a material [m]) a call [loadModel(path, true, refNum)] returns
    the node; afterwards the material [m] carries the three stencil
    assignments (write enabled, reference [refNum], compare function
    [Equal]) and every other material, every node and every variable is as
    the loader left it. *)
Theorem loadModel_simple_tags_one (path : string) (refNum : Z) (w : World)
    (object : NodeId) (h : Heap) (m : MatId) :
  GLTFLoader path (heap w) = Some (object, h) ->
  simple_shape h object = true ->
  material_slot h object [0] = Some m ->
  exists w',
    resume GLTFLoader (loadModel path true refNum) w = (w', Ret object) /\
    mats (heap w') m = tagged refNum (mats h m) /\
    (forall m', m' <> m -> mats (heap w') m' = mats h m') /\
    objs (heap w') = objs h /\
    vars w' = vars w.
Proof.
  intros Hload Hs Hm. eexists. split.
  - apply loadModel_tagging_result; [exact Hload|].
    unfold taggable, has_material. rewrite Hs, Hm. reflexivity.
  - rewrite (simple_not_compound _ _ Hs).
    cbn [heap with_heap mats upd_mats objs vars].
    unfold assigned. cbn [fold_left simple_assignments fst snd]. rewrite Hm.
    repeat split.
    + rewrite !fn_lookup_alter. reflexivity.
    + intros m' Hne. rewrite !fn_lookup_alter_ne by congruence. reflexivity.
Qed.

(** On a compound-shaped node the six assignments go to the material of
    [children[0].children[0]] (all three fields), to that of
    [children[2].children[0]] (stencil write only) and to that of
    [children[2].children[2]] (reference and compare function only). *)
Lemma loadModel_compound_result (path : string) (refNum : Z) (w : World)
    (object : NodeId) (h : Heap) (m00 m20 m22 : MatId) :
  GLTFLoader path (heap w) = Some (object, h) ->
  compound_shape h object = true ->
  material_slot h object [0; 0] = Some m00 ->
  material_slot h object [2; 0] = Some m20 ->
  material_slot h object [2; 2] = Some m22 ->
  exists w',
    resume GLTFLoader (loadModel path true refNum) w = (w', Ret object) /\
    mats (heap w') =
      alter (set_stencilFunc EqualStencilFunc) m22
        (alter (set_stencilRef refNum) m22
           (alter (set_stencilWrite true) m20
              (alter (set_stencilFunc EqualStencilFunc) m00
                 (alter (set_stencilRef refNum) m00
                    (alter (set_stencilWrite true) m00 (mats h)))))) /\
    objs (heap w') = objs h /\
    vars w' = vars w.
Proof.
  intros Hload Hc H00 H20 H22. eexists. split.
  - apply loadModel_tagging_result; [exact Hload|].
    unfold taggable, has_material. rewrite Hc, H00, H20, H22.
    apply orb_true_r.
  - rewrite Hc. cbn [heap with_heap mats upd_mats objs vars].
    unfold assigned. cbn [fold_left compound_assignments fst snd].
    rewrite H00, H20, H22. repeat split.
Qed.

(** The cube-frame part of the assembler, step by step. *)
Lemma load_cube_frame_first_turn (w : World) :
  resume GLTFLoader load_cube_frame w =
    match resume GLTFLoader (loadModel "./models/cubeFrame.gltf" true 1) w with
    | (wl, Ret cube) =>
        (wl, Yield (
          sync (modify (with_vars (set_impossibleCube (Some cube))));;
          sync (m ← material_at cube [0];
                write_material m (set_stencilWrite false));;
          sync (add scene cube);;
          sync (write_object cube (set_scale (Vector3.set 2 2 2)))))
    | (wl, Raise e) => (wl, Raise e)
    | (wl, t') =>
        (wl, cube ← await t';
             sync (modify (with_vars (set_impossibleCube (Some cube))));;
             sync (m ← material_at cube [0];
                   write_material m (set_stencilWrite false));;
             sync (add scene cube);;
             sync (write_object cube (set_scale (Vector3.set 2 2 2))))
    end.
Proof. unfold load_cube_frame. apply resume_await_loadModel. Qed.

Lemma load_cube_frame_second_turn (wl : World) (cube : NodeId) :
  resume GLTFLoader (Yield (
      sync (modify (with_vars (set_impossibleCube (Some cube))));;
      sync (m ← material_at cube [0];
            write_material m (set_stencilWrite false));;
      sync (add scene cube);;
      sync (write_object cube (set_scale (Vector3.set 2 2 2))))) wl =
    match material_slot (heap wl) cube [0] with
    | Some m => (cube_frame_placed wl cube m, Ret tt)
    | None => (with_vars (set_impossibleCube (Some cube)) wl, Raise TypeError)
    end.
Proof.
  cbn [resume mbind Async_bind sync abind advance modify].
  rewrite assign_eval. cbn [heap with_vars].
  destruct (material_slot (heap wl) cube [0]) as [m|]; reflexivity.
Qed.

(** If the cube-frame part settles fulfilled, the cube frame was fetched,
    tagged, stored in [impossibleCube] and put in the scene. *)
Lemma load_cube_frame_fulfilled (turns : nat) (w w1 : World) (u : unit) :
  settle GLTFLoader turns load_cube_frame w = (w1, Ret u) ->
  exists cube h wl m,
    GLTFLoader "./models/cubeFrame.gltf" (heap w) = Some (cube, h) /\
    resume GLTFLoader (loadModel "./models/cubeFrame.gltf" true 1) w
      = (wl, Ret cube) /\
    material_slot (heap wl) cube [0] = Some m /\
    vars wl = vars w /\
    w1 = cube_frame_placed wl cube m.
Proof.
  destruct turns as [|[|turns]]; cbn [settle suspended load_cube_frame];
    try discriminate.
  - change (await (loadModel "./models/cubeFrame.gltf" true 1) ≫= _)
      with load_cube_frame.
    rewrite load_cube_frame_first_turn.
    destruct (loadModel_settles "./models/cubeFrame.gltf" true 1 w)
      as [(wl & o & E)|(wl & e & E)]; rewrite E; discriminate.
  - change (await (loadModel "./models/cubeFrame.gltf" true 1) ≫= _)
      with load_cube_frame.
    rewrite load_cube_frame_first_turn.
    destruct (loadModel_settles "./models/cubeFrame.gltf" true 1 w)
      as [(wl & o & E)|(wl & e & E)]; rewrite E.
    + cbn [settle suspended]. rewrite load_cube_frame_second_turn.
      destruct (material_slot (heap wl) o [0]) as [m|] eqn:Hm;
        [|destruct turns; discriminate].
      intros H. assert (w1 = cube_frame_placed wl o m)
        by (destruct turns; cbn in H; congruence).
      pose proof E as E'. rewrite loadModel_unfold in E'. unfold resume in E'.
      destruct (GLTFLoader "./models/cubeFrame.gltf" (heap w)) as [[c h]|] eqn:L;
        [|discriminate].
      pose proof (loadModel_outcome _ 1%Z w c h L) as S.
      rewrite E in S. cbn [snd] in S.
      destruct (taggable h c) eqn:Ht; [|discriminate]. injection S as ->.
      pose proof (loadModel_tagging_result _ 1%Z w c h L Ht) as R.
      rewrite E in R. injection R as ->.
      eexists c, h, _, m. repeat split; eauto.
    + destruct turns; discriminate.
Qed.


End LoadModel.


(** C1. The compound branch of [loadModel] does not tag two material slots
    completely.  On a compound-shaped file whose meshes have materials of
    their own, a call with [refNum = 5] returns the node, and afterwards:
    the material of [children[0].children[0]] (address 3) has all three
    fields; the material of [children[2].children[0]] (address 6) has
    stencil write enabled but still its old reference 0 and compare
    function [Always]; the material of [children[2].children[2]] (address 8)
    has reference 5 and [Equal] but stencil write still disabled. *)
Theorem loadModel_compound_splits_second_tag :
  let r := resume Fixture.compound_loader
             (loadModel "models/compound.gltf" true 5) Fixture.world0 in
  let ms := mats (heap (fst r)) in
  snd r = Ret 1 /\
  compound_shape (heap (fst r)) 1 = true /\
  material_slot (heap (fst r)) 1 [0; 0] = Some 3 /\
  material_slot (heap (fst r)) 1 [2; 0] = Some 6 /\
  material_slot (heap (fst r)) 1 [2; 2] = Some 8 /\
  (stencilWrite (ms 3), stencilRef (ms 3), stencilFunc (ms 3))
    = (true, 5%Z, EqualStencilFunc) /\
  (stencilWrite (ms 6), stencilRef (ms 6), stencilFunc (ms 6))
    = (true, 0%Z, AlwaysStencilFunc) /\
  (stencilWrite (ms 8), stencilRef (ms 8), stencilFunc (ms 8))
    = (false, 5%Z, EqualStencilFunc).
Proof. vm_compute. repeat split. Qed.

(** ** [animateLeftFace] *)

Lemma floor_scaled_range (r : Q) (k : Z) :
  (0 <= r)%Q -> (r < 1)%Q -> (0 < k)%Z ->
  (0 <= Math_floor (r * inject_Z k) < k)%Z.
Proof.
  intros H0 H1 Hk. unfold Math_floor.
  assert (Hk' : (inject_Z 0 < inject_Z k)%Q) by (rewrite <- Zlt_Qlt; exact Hk).
  change (inject_Z 0) with 0%Q in Hk'.
  split.
  - change 0%Z with (Qfloor 0). apply Qfloor_resp_le. nra.
  - rewrite Zlt_Qlt. eapply Qle_lt_trans; [apply Qfloor_le|]. nra.
Qed.



(** ** [animateBackFace] *)

Lemma Qltb_lt (a b : Q) : Qltb a b = true <-> (a < b)%Q.
Proof.
  unfold Qltb. rewrite negb_true_iff, <- not_true_iff_false, Qle_bool_iff.
  split; [apply Qnot_le_lt | apply Qlt_not_le].
Qed.

Lemma Qltb_ge (a b : Q) : Qltb a b = false <-> (b <= a)%Q.
Proof. unfold Qltb. rewrite negb_false_iff. apply Qle_bool_iff. Qed.

Lemma turn_idempotent (z d : Q) : turn z (turn z d) = turn z d.
Proof. unfold turn. destruct (Qltb 25 z), (Qltb z (- (17 # 2))); reflexivity. Qed.

Lemma num_nonneg (i : nat) : (0 <= num i)%Q.
Proof. unfold num. change 0%Q with (inject_Z 0). rewrite <- Zle_Qle. lia. Qed.

(** One pass through the loop body, on the triangle [t] at index [i]. *)
Lemma animateBackFace_body_eval (i : nat) (w : World) (t lastT : NodeId) :
  triangles (vars w) !! i = Some t ->
  triangles (vars w) !! (length (triangles (vars w)) - 1) = Some lastT ->
  animateBackFace_body i w =
    let d := direction (vars w) in
    let wb :=
      with_heap (upd_objs (alter (set_rotation (fun v =>
        Vector3.setZ (Vector3.z v + num i / 1000 * d) v)) t))
        (with_heap (upd_objs (alter (set_position (fun v =>
           Vector3.setZ (Vector3.z v + num i / 300 * d) v)) t)) w) in
    let zl := Vector3.z (position (objs (heap wb) lastT)) in
    (if Qltb 25 zl then with_vars (set_direction (- 4)) wb
     else if Qltb zl (- (17 # 2)) then with_vars (set_direction 1) wb
     else wb, Ok tt).
Proof.
  intros Ht Hl. unfold animateBackFace_body. munfold.
  unfold write_object, modify. rewrite Ht.
  cbn [vars heap with_heap]. rewrite Hl. cbn [vars heap with_heap].
  destruct (Qltb 25 _); [reflexivity|].
  destruct (Qltb _ (- (17 # 2))); reflexivity.
Qed.

(** What a pass does to the last triangle and to the direction. *)
Lemma animateBackFace_body_effect (i : nat) (w : World) :
  NoDup (triangles (vars w)) ->
  i < length (triangles (vars w)) ->
  exists w1,
    animateBackFace_body i w = (w1, Ok tt) /\
    triangles (vars w1) = triangles (vars w) /\
    last_z w1 =
      (if decide (i = length (triangles (vars w)) - 1)
       then (last_z w + num i / 300 * direction (vars w))%Q
       else last_z w) /\
    direction (vars w1) = turn (last_z w1) (direction (vars w)).
Proof.
  intros Hnd Hi.
  destruct (lookup_lt_is_Some_2 (triangles (vars w)) i Hi) as [t Ht].
  destruct (lookup_lt_is_Some_2 (triangles (vars w))
              (length (triangles (vars w)) - 1)) as [lastT Hl]; [lia|].
  rewrite (animateBackFace_body_eval i w t lastT Ht Hl).
  cbv zeta.
  set (wb := with_heap _ (with_heap _ w)).
  assert (Htri : triangles (vars wb) = triangles (vars w)) by reflexivity.
  assert (Hdir : direction (vars wb) = direction (vars w)) by reflexivity.
  assert (Hz : last_z wb =
            (if decide (i = length (triangles (vars w)) - 1)
             then (last_z w + num i / 300 * direction (vars w))%Q
             else last_z w)).
  { unfold last_z. rewrite Htri, Hl. unfold wb.
    cbn [heap with_heap objs upd_objs].
    destruct (decide (i = length (triangles (vars w)) - 1)) as [->|Hne].
    - assert (t = lastT) by congruence. subst t.
      rewrite !fn_lookup_alter. reflexivity.
    - assert (t <> lastT).
      { intros ->. apply Hne. eapply NoDup_lookup; eauto. }
      rewrite !fn_lookup_alter_ne by congruence. reflexivity. }
  assert (Hzl : Vector3.z (position (objs (heap wb) lastT)) = last_z wb).
  { unfold last_z. rewrite Htri, Hl. reflexivity. }
  rewrite Hzl. unfold turn.
  destruct (Qltb 25 (last_z wb)) eqn:E1;
    [|destruct (Qltb (last_z wb) (- (17 # 2))) eqn:E2];
    eexists; (split; [reflexivity|]);
    unfold last_z in *; cbn [vars with_vars heap triangles set_direction direction] in *;
    rewrite ?E1, ?E2; auto.
Qed.

(** The loop from index [i] on: the last triangle moves once, at the last
    index, in the direction that the tests of the earlier passes left. *)
Lemma animateBackFace_loop (k i : nat) (w : World) :
  NoDup (triangles (vars w)) ->
  i + k = length (triangles (vars w)) ->
  exists w',
    for_ k i animateBackFace_body w = (w', Ok tt) /\
    triangles (vars w') = triangles (vars w) /\
    match k with
    | O => last_z w' = last_z w /\ direction (vars w') = direction (vars w)
    | S _ =>
        let dpre :=
          if i <? length (triangles (vars w)) - 1
          then turn (last_z w) (direction (vars w))
          else direction (vars w) in
        last_z w' =
          (last_z w + num (length (triangles (vars w)) - 1) / 300 * dpre)%Q /\
        direction (vars w') = turn (last_z w') dpre
    end.
Proof.
  revert i w. induction k as [|k IH]; intros i w Hnd Hik.
  - exists w. repeat split.
  - destruct (animateBackFace_body_effect i w Hnd) as (w1 & E1 & T1 & Z1 & D1);
      [lia|].
    destruct (IH (S i) w1) as (w' & E' & T' & R'); [congruence | rewrite T1; lia |].
    exists w'. split.
    { cbn [for_]. unfold mbind, M_bind, bind. rewrite E1. exact E'. }
    split; [congruence|].
    rewrite T1 in R'. cbv zeta.
    destruct (decide (i = length (triangles (vars w)) - 1)) as [Hi|Hi].
    + assert (k = 0) by lia. subst k. destruct R' as [Z' D'].
      replace (i <? length (triangles (vars w)) - 1) with false
        by (symmetry; apply Nat.ltb_ge; lia).
      rewrite Z', D', D1, Z1, <- Hi. split; reflexivity.
    + destruct k as [|k]; [lia|]. cbv zeta in R'.
      replace (i <? length (triangles (vars w)) - 1) with true
        by (symmetry; apply Nat.ltb_lt; lia).
      assert (Hd : (if S i <? length (triangles (vars w)) - 1
                    then turn (last_z w1) (direction (vars w1))
                    else direction (vars w1))
                   = turn (last_z w) (direction (vars w))).
      { rewrite D1, Z1, turn_idempotent.
        destruct (S i <? length (triangles (vars w)) - 1); reflexivity. }
      rewrite Hd, Z1 in R'. exact R'.
Qed.

(** A frame, from a state in which the direction already agrees with the
    position of the last triangle. *)
Lemma animateBackFace_frame (w : World) :
  NoDup (triangles (vars w)) ->
  triangles (vars w) <> [] ->
  turn (last_z w) (direction (vars w)) = direction (vars w) ->
  exists w',
    animateBackFace w = (w', Ok tt) /\
    triangles (vars w') = triangles (vars w) /\
    last_z w' = (last_z w + stride w * direction (vars w))%Q /\
    direction (vars w') = turn (last_z w') (direction (vars w)).
Proof.
  intros Hnd Hne Hturn.
  destruct (animateBackFace_loop (length (triangles (vars w))) 0 w Hnd eq_refl)
    as (w' & E & T & R).
  exists w'. split; [exact E|]. split; [exact T|].
  destruct (triangles (vars w)) as [|t ts] eqn:Hts; [congruence|].
  cbn [length] in R. cbv zeta in R.
  rewrite Hturn in R.
  assert (Hd : (if 0 <? S (length ts) - 1 then direction (vars w)
                else direction (vars w)) = direction (vars w))
    by (destruct (0 <? S (length ts) - 1); reflexivity).
  rewrite Hd in R. unfold stride. rewrite Hts. exact R.
Qed.

(** The invariant of the oscillation, relative to the band of the start
    state [w0] and to a lower bound [lo] not above that band: going up,
    the last triangle is not below [lo] and has not passed 25; going down,
    it has not passed -8.5. *)
Lemma oscillation_invariant_from (lo : Q) (w0 w : World) :
  NoDup (triangles (vars w0)) ->
  triangles (vars w0) <> [] ->
  triangles (vars w) = triangles (vars w0) ->
  (lo <= band_lo w0)%Q ->
  (direction (vars w) = 1%Q /\ lo <= last_z w /\ last_z w <= 25)%Q \/
  (direction (vars w) = (- 4)%Q /\ - (17 # 2) <= last_z w /\ last_z w <= band_hi w0)%Q ->
  exists w',
    animateBackFace w = (w', Ok tt) /\
    triangles (vars w') = triangles (vars w0) /\
    last_z w' = (last_z w + stride w0 * direction (vars w))%Q /\
    direction (vars w') = turn (last_z w') (direction (vars w)) /\
    ((direction (vars w') = 1%Q /\ lo <= last_z w' /\ last_z w' <= 25)%Q \/
     (direction (vars w') = (- 4)%Q /\ - (17 # 2) <= last_z w'
        /\ last_z w' <= band_hi w0)%Q).
Proof.
  intros Hnd Hne Htri Hlo0 Hinv.
  assert (Hs : (0 <= stride w0)%Q).
  { unfold stride. pose proof (num_nonneg (length (triangles (vars w0)) - 1)).
    apply Qle_shift_div_l; [reflexivity|]. lra. }
  assert (Hturn : turn (last_z w) (direction (vars w)) = direction (vars w)).
  { unfold turn. destruct Hinv as [(-> & _ & Hhi)|(-> & Hlo & _)].
    - apply Qltb_ge in Hhi. rewrite Hhi.
      destruct (Qltb (last_z w) (- (17 # 2))); reflexivity.
    - apply Qltb_ge in Hlo. rewrite Hlo.
      destruct (Qltb 25 (last_z w)); reflexivity. }
  destruct (animateBackFace_frame w) as (w' & E & T & Z & D);
    [congruence | congruence | exact Hturn |].
  assert (Hstride : stride w = stride w0) by (unfold stride; congruence).
  rewrite Hstride in Z.
  exists w'. split; [exact E|]. split; [congruence|]. split; [exact Z|].
  split; [exact D|].
  rewrite D. unfold turn, band_lo, band_hi in *.
  destruct (Qltb 25 (last_z w')) eqn:E1.
  - apply Qltb_lt in E1. right. split; [reflexivity|].
    destruct Hinv as [(Hd & Hlo & Hhi)|(Hd & Hlo & Hhi)]; rewrite Hd in Z;
      rewrite Z in *; split; lra.
  - apply Qltb_ge in E1.
    destruct (Qltb (last_z w') (- (17 # 2))) eqn:E2.
    + apply Qltb_lt in E2. left. split; [reflexivity|].
      destruct Hinv as [(Hd & Hlo & Hhi)|(Hd & Hlo & Hhi)]; rewrite Hd in Z;
        rewrite Z in *; split; lra.
    + apply Qltb_ge in E2.
      destruct Hinv as [(Hd & Hlo & Hhi)|(Hd & Hlo & Hhi)]; rewrite Hd in Z |- *;
        [left | right]; (split; [reflexivity|]); rewrite Z in *; split; lra.
Qed.

Lemma oscillation_invariant (w0 w : World) :
  NoDup (triangles (vars w0)) ->
  triangles (vars w0) <> [] ->
  triangles (vars w) = triangles (vars w0) ->
  (direction (vars w) = 1%Q /\ band_lo w0 <= last_z w /\ last_z w <= 25)%Q \/
  (direction (vars w) = (- 4)%Q /\ - (17 # 2) <= last_z w /\ last_z w <= band_hi w0)%Q ->
  exists w',
    animateBackFace w = (w', Ok tt) /\
    triangles (vars w') = triangles (vars w0) /\
    last_z w' = (last_z w + stride w0 * direction (vars w))%Q /\
    direction (vars w') = turn (last_z w') (direction (vars w)) /\
    ((direction (vars w') = 1%Q /\ band_lo w0 <= last_z w' /\ last_z w' <= 25)%Q \/
     (direction (vars w') = (- 4)%Q /\ - (17 # 2) <= last_z w'
        /\ last_z w' <= band_hi w0)%Q).
Proof.
  intros Hnd Hne Htri Hinv.
  apply (oscillation_invariant_from (band_lo w0) w0 w Hnd Hne Htri);
    [apply Qle_refl | exact Hinv].
Qed.

Lemma seq_eval {A B} (m : M A) (k : M B) (w : World) :
  (m ;; k) w = match m w with
               | (w', Ok _) => k w'
               | (w', Throw e) => (w', Throw e)
               end.
Proof. reflexivity. Qed.

Lemma frames_add (a b : nat) (m : M unit) (w w1 : World) :
  frames a m w = (w1, Ok tt) ->
  frames (a + b) m w = frames b m w1.
Proof.
  revert w. induction a as [|a IH]; intros w E.
  - cbn in E. injection E as <-. reflexivity.
  - cbn [frames Nat.add] in *. rewrite seq_eval in *.
    destruct (m w) as [w2 [[]|e]]; [|discriminate]. apply IH. exact E.
Qed.

Lemma num_S (n : nat) : (num (S n) == num n + 1)%Q.
Proof.
  unfold num. rewrite Nat2Z.inj_succ. unfold Z.succ.
  rewrite inject_Z_plus. reflexivity.
Qed.

(** Enough steps of a positive length get past any distance. *)
Lemma steps_reach (q s : Q) : (0 < s)%Q -> exists n, (q < num n * s)%Q.
Proof.
  intros Hs. exists (Z.to_nat (Qfloor (q / s) + 1)).
  assert (H1 : (q / s < inject_Z (Qfloor (q / s) + 1))%Q) by apply Qlt_floor.
  assert (H2 : (inject_Z (Qfloor (q / s) + 1)
                <= num (Z.to_nat (Qfloor (q / s) + 1)))%Q).
  { unfold num. rewrite <- Zle_Qle. lia. }
  assert (H3 : (q == q / s * s)%Q) by (field; lra).
  rewrite H3 at 1. apply Qmult_lt_compat_r; [exact Hs | lra].
Qed.








(** ** Counting what the face loaders add *)

Lemma total_insert (ds : list nat) (i d d' : nat) :
  ds !! i = Some d ->
  total (<[i := d']> ds) + d = total ds + d'.
Proof.
  revert i. induction ds as [|x ds IH]; intros [|i] H; try discriminate.
  - injection H as ->. cbn. lia.
  - change (<[S i:=d']> (x :: ds)) with (x :: <[i:=d']> ds).
    specialize (IH i H). cbn [total]. lia.
Qed.

Lemma total_lookup_le (ds : list nat) (i d : nat) :
  ds !! i = Some d -> d <= total ds.
Proof.
  revert i. induction ds as [|x ds IH]; intros [|i] H; try discriminate.
  - injection H as ->. cbn. lia.
  - cbn in *. specialize (IH i H). lia.
Qed.

Lemma first_rejection_Some {A} (ts : list (Async A)) (i : nat) (e : Exn) :
  ts !! i = Some (Raise e) -> first_rejection ts <> None.
Proof.
  revert i. induction ts as [|t ts IH]; intros [|i] H; try discriminate.
  - injection H as ->. discriminate.
  - cbn in H. destruct t; cbn; try discriminate; eapply IH; eauto.
Qed.

Section Counting.

Variable GLTFLoader : string -> Heap -> option (NodeId * Heap).
Variable mu : Vars -> nat.
Variable T : nat.

(** Running the synchronous head of a routine pays part of its debt. *)
Lemma Owes_advance {A} (t : Async A) (d : nat) (w w' : World) (t' : Async A) :
  Owes mu T d t ->
  mu (vars w) + d <= T ->
  advance t w = (w', t') ->
  (exists e, t' = Raise e) \/
  (exists d', Owes mu T d' t' /\ mu (vars w') + d' = mu (vars w) + d).
Proof.
  revert d w. induction t as [a|e|B m k IH|p k IH|k IH]; intros d w Hd Hle E;
    cbn [advance] in E.
  - injection E as <- <-. right. eauto.
  - injection E as <- <-. left. eauto.
  - destruct (m w) as [w1 [b|e]] eqn:Em.
    + destruct (Hd w w1 b Hle Em) as (d1 & Hpot & Hd1).
      assert (Hle1 : mu (vars w1) + d1 <= T) by lia.
      destruct (IH b d1 w1 Hd1 Hle1 E) as [?|(d' & ? & ?)];
        [left; assumption | right; exists d'; split; [assumption | lia]].
    + injection E as <- <-. left. eauto.
  - injection E as <- <-. right. eauto.
  - injection E as <- <-. right. eauto.
Qed.

(** So does resuming it: the loader changes the store, not the variables. *)
Lemma Owes_resume {A} (t : Async A) (d : nat) (w w' : World) (t' : Async A) :
  Owes mu T d t ->
  mu (vars w) + d <= T ->
  resume GLTFLoader t w = (w', t') ->
  (exists e, t' = Raise e) \/
  (exists d', Owes mu T d' t' /\ mu (vars w') + d' = mu (vars w) + d).
Proof.
  intros Hd Hle E. destruct t as [a|e|B m k|p k|k]; cbn [resume] in E;
    try (eapply Owes_advance; eauto; fail).
  - destruct (GLTFLoader p (heap w)) as [[o h]|].
    + eapply (Owes_advance (k o) d (with_heap (fun _ => h) w)); eauto.
    + injection E as <- <-. left. eauto.
  - eapply (Owes_advance k d w); eauto.
Qed.

(** The calls of the array literal keep the books balanced. *)
Lemma call_all_balanced (ts : list (Async unit)) (ds : list nat) (i c : nat)
    (w w' : World) (h : History) (ts' : list (Async unit)) :
  Forall2 (Owes mu T) ds ts ->
  mu (vars w) + c + total ds = T ->
  call_all i ts w = (h, w', ts') ->
  first_rejection ts' <> None \/
  (exists ds', Forall2 (Owes mu T) ds' ts' /\
               mu (vars w') + c + total ds' = T).
Proof.
  revert ds i c w w' h ts'.
  induction ts as [|t ts IH]; intros ds i c w w' h ts' HF Hsum E.
  - cbn in E. injection E as <- <- <-. right. exists []. split; [constructor|].
    apply Forall2_nil_inv_r in HF. subst ds. exact Hsum.
  - apply Forall2_cons_inv_r in HF as (d & ds0 & Hd & HF & ->).
    cbn [call_all] in E. cbn [total] in Hsum.
    destruct (advance t w) as [w1 t1] eqn:Ea.
    destruct (call_all (S i) ts w1) as [[h1 w2] ts2] eqn:Ec.
    injection E as <- <- <-.
    assert (Hle : mu (vars w) + d <= T) by lia.
    destruct (Owes_advance t d w w1 t1 Hd Hle Ea)
      as [(e & ->)|(d' & Hd' & Hpot)].
    + left. discriminate.
    + assert (Hsum1 : mu (vars w1) + (c + d') + total ds0 = T) by lia.
      destruct (IH ds0 (S i) (c + d') w1 w2 h1 ts2 HF Hsum1 Ec)
        as [Hrej|(ds' & HF' & Hsum')].
      * left. destruct t1; cbn; try discriminate; exact Hrej.
      * right. exists (d' :: ds'). split; [constructor; assumption|].
        cbn [total]. lia.
Qed.

(** When [Promise.all] is fulfilled every debt has been paid. *)
Lemma drive_balanced (io : list nat) (ts : list (Async unit)) (ds : list nat)
    (w w' : World) (h : History) :
  Forall2 (Owes mu T) ds ts ->
  mu (vars w) + total ds = T ->
  drive GLTFLoader io ts w = (h, w', AllFulfilled) ->
  mu (vars w') = T.
Proof.
  revert ts ds w w' h.
  assert (Hdone : forall (ts : list (Async unit)) ds,
            Forall2 (Owes mu T) ds ts -> forallb fulfilled ts = true ->
            total ds = 0).
  { induction ts as [|t ts IH]; intros ds HF Hall.
    - apply Forall2_nil_inv_r in HF. subst. reflexivity.
    - apply Forall2_cons_inv_r in HF as (d & ds0 & Hd & HF & ->).
      cbn in Hall. apply andb_prop in Hall as [Ht Hall].
      destruct t; try discriminate. cbn in Hd. subst d.
      cbn. apply (IH ds0); assumption. }
  induction io as [|i io IH]; intros ts ds w w' h HF Hsum E; cbn [drive] in E.
  - destruct (first_rejection ts); [discriminate|].
    destruct (forallb fulfilled ts) eqn:Hall; [|discriminate].
    injection E as <- <-. rewrite (Hdone ts ds HF Hall) in Hsum. lia.
  - destruct (first_rejection ts); [discriminate|].
    destruct (forallb fulfilled ts) eqn:Hall.
    { injection E as <- <-. rewrite (Hdone ts ds HF Hall) in Hsum. lia. }
    destruct (ts !! i) as [t|] eqn:Hti; [|eapply IH; eauto].
    destruct (suspended t) eqn:Hsus; [|eapply IH; eauto].
    destruct (resume GLTFLoader t w) as [w1 t1] eqn:Er.
    destruct (drive GLTFLoader io (<[i:=t1]> ts) w1) as [[h1 w2] j] eqn:Ed.
    injection E as <- <- ->.
    destruct (Forall2_lookup_r _ _ _ _ _ HF Hti) as (d & Hdi & Hd).
    pose proof (total_lookup_le ds i d Hdi) as Hle.
    assert (Hle' : mu (vars w) + d <= T) by lia.
    destruct (Owes_resume t d w w1 t1 Hd Hle' Er)
      as [(e & ->)|(d' & Hd' & Hpot)].
    + exfalso. destruct io as [|i' io']; cbn [drive] in Ed;
        destruct (first_rejection (<[i:=Raise e]> ts)) eqn:Hfr;
        try discriminate;
        (eapply (first_rejection_Some (<[i:=Raise e]> ts) i e); [|exact Hfr]);
        apply list_lookup_insert_eq; eapply lookup_lt_Some; eauto.
    + eapply (IH (<[i:=t1]> ts) (<[i:=d']> ds)); [| |exact Ed].
      * apply Forall2_insert; assumption.
      * pose proof (total_insert ds i d d' Hdi). lia.
Qed.

(** How debts compose along the constructs of the routines. *)
Lemma Owes_bind {A B} (t : Async A) (f : A -> Async B) (d1 d2 : nat) :
  Owes mu T d1 t ->
  (forall a, Owes mu T d2 (f a)) ->
  Owes mu T (d1 + d2) (t ≫= f).
Proof.
  intros Ht Hf. unfold mbind, Async_bind. revert d1 Ht.
  induction t as [a|e|C m k IH|p k IH|k IH]; intros d1 Ht; cbn [abind Owes] in *.
  - subst d1. apply Hf.
  - exact I.
  - intros w w' b Hle Em.
    assert (Hle1 : mu (vars w) + d1 <= T) by lia.
    destruct (Ht w w' b Hle1 Em) as (d' & Hpot & Hd').
    exists (d' + d2). split; [lia|]. apply IH. exact Hd'.
  - intros o. apply IH. apply Ht.
  - apply IH. exact Ht.
Qed.

Lemma Owes_conv {A} (t : Async A) (d d' : nat) :
  Owes mu T d t -> d = d' -> Owes mu T d' t.
Proof. intros H <-. exact H. Qed.

Lemma Owes_await {A} (p : Async A) (d : nat) :
  Owes mu T d p -> Owes mu T d (await p).
Proof.
  intros H. unfold await. eapply Owes_conv.
  - apply (Owes_bind p (fun a => Yield (Ret a)) d 0); [exact H|].
    intros a. reflexivity.
  - lia.
Qed.

Lemma Owes_sync {A} (m : M A) (d : nat) :
  (forall w w' a, mu (vars w) + d <= T -> m w = (w', Ok a) ->
                  mu (vars w') = mu (vars w) + d) ->
  Owes mu T d (sync m).
Proof.
  intros H w w' a Hle Em. exists 0. split; [|reflexivity].
  rewrite (H w w' a Hle Em). lia.
Qed.

Lemma Owes_sync_modify (f : World -> World) (d : nat) :
  (forall w, mu (vars w) + d <= T -> mu (vars (f w)) = mu (vars w) + d) ->
  Owes mu T d (sync (modify f)).
Proof.
  intros H. apply Owes_sync. intros w w' a Hle Em.
  unfold modify in Em. injection Em as <-. apply H. exact Hle.
Qed.

Lemma Owes_sync_frame {A} (m : M A) :
  (forall w w' a, m w = (w', Ok a) -> vars w' = vars w) ->
  Owes mu T 0 (sync m).
Proof.
  intros H. apply Owes_sync. intros w w' a _ Em.
  rewrite (H w w' a Em). lia.
Qed.

Lemma Owes_afor (n i : nat) (body : nat -> Async unit) (d : nat) :
  (forall j, Owes mu T d (body j)) ->
  Owes mu T (n * d) (afor n i body).
Proof.
  intros H. revert i. induction n as [|n IH]; intros i; cbn [afor].
  - reflexivity.
  - change (S n * d) with (d + n * d).
    apply (Owes_bind (body i) (fun _ => afor n (S i) body)); [apply H|].
    intros _. apply IH.
Qed.

End Counting.

(** The stencil assignments change the store only. *)
Lemma assign_all_vars (l : list (list nat * (Material -> Material)))
    (o : NodeId) (w : World) :
  vars (fst (assign_all o l w)) = vars w.
Proof.
  revert w. induction l as [|[p f] l IH]; intros w; [reflexivity|].
  destruct l as [|pf l].
  - cbn [assign_all]. rewrite assign_eval.
    destruct (material_slot (heap w) o p); reflexivity.
  - change (assign_all o ((p, f) :: pf :: l)) with
      (m ← material_at o p; write_material m f;; assign_all o (pf :: l)).
    unfold mbind at 1, M_bind at 1, bind at 1. rewrite material_at_eval.
    destruct (material_slot (heap w) o p) as [m|]; [|reflexivity].
    unfold mbind at 1, M_bind at 1, bind at 1.
    unfold write_material at 1, modify at 1. rewrite IH. reflexivity.
Qed.

Lemma assign_vars (o : NodeId) (path : list nat) (f : Material -> Material)
    (w w' : World) (a : unit) :
  (m ← material_at o path; write_material m f) w = (w', Ok a) ->
  vars w' = vars w.
Proof.
  rewrite assign_eval. destruct (material_slot (heap w) o path); [|discriminate].
  intros H. injection H as <-. reflexivity.
Qed.

Lemma push_bars_effect (i : nat) (o : NodeId) (w w' : World) (a : unit) :
  push_bars i o w = (w', Ok a) ->
  i < length (bars (vars w)) /\
  w' = with_vars (fun s => set_bars (alter (fun g => g ++ [o]) i (bars s)) s) w.
Proof.
  unfold push_bars. munfold.
  destruct (bars (vars w) !! i) as [g|] eqn:Hg; [|discriminate].
  intros H. injection H as <-. split; [|reflexivity].
  eapply lookup_lt_Some; eauto.
Qed.

Lemma length_concat_alter_push (bs : list (list NodeId)) (i : nat) (o : NodeId) :
  i < length bs ->
  length (concat (alter (fun g => g ++ [o]) i bs)) = length (concat bs) + 1.
Proof.
  revert i. induction bs as [|g bs IH]; intros [|i] Hi; cbn in Hi; try lia.
  - cbn. rewrite !length_app. cbn. lia.
  - change (alter (fun g0 => g0 ++ [o]) (S i) (g :: bs))
      with (g :: alter (fun g0 => g0 ++ [o]) i bs).
    cbn [concat]. rewrite !length_app, IH by lia. lia.
Qed.

Section FaceLoaders.

Variable mu : Vars -> nat.
Variable T : nat.

Lemma Owes_loadModel (path : string) (needStencil : bool) (refNum : Z) :
  Owes mu T 0 (loadModel path needStencil refNum).
Proof.
  destruct needStencil; [rewrite loadModel_unfold|]; intros object.
  - intros w w' b _ Em. exists 0. split; [|reflexivity].
    replace (vars w') with (vars w); [lia|].
    revert Em. unfold mbind at 1, M_bind at 1, bind at 1. rewrite child_eval.
    destruct (descend (heap w) object [0]) as [c0|]; [|discriminate].
    unfold mbind at 1, M_bind at 1, bind at 1, gets at 1.
    intros Em.
    match type of Em with (if ?c then _ else _) _ = _ => destruct c end;
      match type of Em with ?m w = _ =>
        assert (V : vars (fst (m w)) = vars w) by apply assign_all_vars;
        rewrite Em in V
      end; symmetry; exact V.
  - reflexivity.
Qed.

End FaceLoaders.

(** Each step of a face loader either leaves a slot alone or adds one node
    to it. *)
Ltac owes_modify :=
  first
    [ let E := fresh "E" in
      apply Owes_sync_frame; intros ? ? ? E; injection E as <-; reflexivity
    | apply (Owes_sync_modify _ _ _ 0); intros ? _; cbn;
      rewrite Nat.add_0_r; reflexivity
    | apply (Owes_sync_modify _ _ _ 1); intros ? ?; cbn in *;
      first [ rewrite length_app; reflexivity
            | match goal with
              | |- context [match ?v with _ => _ end] => destruct v
              end; cbn in *; lia ] ].

Ltac owes_push_bars :=
  let E := fresh "E" in
  let Hi := fresh "Hi" in
  first
    [ apply (Owes_sync _ _ _ 0); intros ? ? ? _ E;
      apply push_bars_effect in E as [_ ->]; cbn; rewrite Nat.add_0_r; reflexivity
    | apply (Owes_sync _ _ _ 1); intros ? ? ? _ E;
      apply push_bars_effect in E as [Hi ->]; cbn;
      apply length_concat_alter_push; exact Hi ].

Ltac owes :=
  cbv beta;
  lazymatch goal with
  | |- Owes _ _ _ (await _) => apply Owes_await; owes
  | |- Owes _ _ _ (loadModel _ _ _) => apply Owes_loadModel
  | |- Owes _ _ _ (afor _ _ _) => eapply Owes_afor; intros ?; owes
  | |- Owes _ _ _ (if ?c then _ else _) => destruct c; owes
  | |- Owes _ _ _ (mbind _ _) => eapply Owes_bind; [owes | intros ?; owes]
  | |- Owes _ _ _ (sync (push_bars _ _)) => owes_push_bars
  | |- Owes _ _ _ (sync (mbind _ (material_at _ _))) =>
      let E := fresh "E" in
      apply Owes_sync_frame; intros ? ? ? E; exact (assign_vars _ _ _ _ _ _ E)
  | |- Owes _ _ _ (sync _) => owes_modify
  end.

(** What each face loader adds to each slot. *)
Lemma faces_owe (k : Slot) :
  Forall2 (Owes (count k) (full k))
    (map (fun i => share i k) [0; 1; 2; 3; 4; 5]) faces.
Proof.
  unfold faces, loadFrontFace, loadLeftFace, loadRightFace, loadBackFace,
    loadTopFace, loadBottomFace.
  destruct k; cbn [map share];
    repeat (apply Forall2_cons; [eapply Owes_conv; [owes | reflexivity]|]);
    apply Forall2_nil_2.
Qed.

Lemma shares_add_up (k : Slot) :
  total (map (fun i => share i k) [0; 1; 2; 3; 4; 5]) = full k.
Proof. destruct k; reflexivity. Qed.

(** ** The order of events in the assembler *)

Lemma app_prefix_before {A} (P : A -> Prop) (l1 l2 pre post : list A) (x : A) :
  Forall P l1 -> ~ P x ->
  l1 ++ l2 = pre ++ x :: post ->
  exists pre', pre = l1 ++ pre' /\ l2 = pre' ++ x :: post.
Proof.
  revert pre. induction l1 as [|a l1 IH]; intros pre HF Hx E.
  - exists pre. split; [reflexivity | exact E].
  - inversion HF as [|? ? Ha HF']; subst. clear HF. rename HF' into HF.
    destruct pre as [|b pre]; cbn in E.
    + injection E as -> _. contradiction.
    + injection E as -> E. destruct (IH pre HF Hx E) as (pre' & -> & ->).
      exists pre'. split; reflexivity.
Qed.

Section Order.

Variable GLTFLoader : string -> Heap -> option (NodeId * Heap).
Variables rotateX rotateY translateZ : Q -> Object3D -> Object3D.
Variable Math_sin : Q -> Q.

(** The face loaders all start by awaiting a fetch: calling them changes
    nothing and leaves all six suspended. *)
Lemma call_all_faces (w : World) :
  call_all 0 faces w =
    ([(Called 0, w); (Called 1, w); (Called 2, w); (Called 3, w);
      (Called 4, w); (Called 5, w)], w, faces).
Proof. reflexivity. Qed.

(** While [Promise.all] is pending the only events are fulfilments. *)
Lemma drive_history (io : list nat) (ts : list (Async unit)) (w w' : World)
    (h : History) (j : Joined) :
  drive GLTFLoader io ts w = (h, w', j) -> Forall is_resolved h.
Proof.
  revert ts w w' h j. induction io as [|i io IH]; intros ts w w' h j E;
    cbn [drive] in E.
  - destruct (first_rejection ts); [injection E as <- _ _; constructor|].
    destruct (forallb fulfilled ts); injection E as <- _ _; constructor.
  - destruct (first_rejection ts); [injection E as <- _ _; constructor|].
    destruct (forallb fulfilled ts); [injection E as <- _ _; constructor|].
    destruct (ts !! i) as [t|]; [|eapply IH; eauto].
    destruct (suspended t); [|eapply IH; eauto].
    destruct (resume GLTFLoader t w) as [w1 t1].
    destruct (drive GLTFLoader io (<[i:=t1]> ts) w1) as [[h1 w2] j1] eqn:Ed.
    injection E as <- _ _. apply Forall_app. split; [|eapply IH; eauto].
    unfold resolved_now. destruct (fulfilled t1); repeat constructor.
Qed.

(** When [Promise.all] is fulfilled, every routine that was still running
    has its fulfilment in the history. *)
Lemma drive_all_resolved (io : list nat) (ts : list (Async unit))
    (w w' : World) (h : History) :
  drive GLTFLoader io ts w = (h, w', AllFulfilled) ->
  forall i t, ts !! i = Some t ->
    fulfilled t = true \/ exists wi, (Resolved i, wi) ∈ h.
Proof.
  revert ts w w' h. induction io as [|i0 io IH]; intros ts w w' h E i t Hi;
    cbn [drive] in E.
  - destruct (first_rejection ts); [discriminate|].
    destruct (forallb fulfilled ts) eqn:Hall; [|discriminate].
    left. rewrite forallb_forall in Hall. apply Hall.
    apply list_elem_of_In. eapply list_elem_of_lookup_2; eauto.
  - destruct (first_rejection ts); [discriminate|].
    destruct (forallb fulfilled ts) eqn:Hall.
    { left. rewrite forallb_forall in Hall. apply Hall.
      apply list_elem_of_In. eapply list_elem_of_lookup_2; eauto. }
    destruct (ts !! i0) as [t0|] eqn:Hi0; [|eapply IH; eauto].
    destruct (suspended t0) eqn:Hsus; [|eapply IH; eauto].
    destruct (resume GLTFLoader t0 w) as [w1 t1] eqn:Er.
    destruct (drive GLTFLoader io (<[i0:=t1]> ts) w1) as [[h1 w2] j1] eqn:Ed.
    injection E as <- <- ->.
    destruct (decide (i = i0)) as [->|Hne].
    + destruct (IH _ _ _ _ Ed i0 t1) as [Hf|(wi & Hin)].
      * apply list_lookup_insert_eq. eapply lookup_lt_Some; eauto.
      * right. exists w1. apply elem_of_app. left.
        unfold resolved_now. rewrite Hf. apply list_elem_of_here.
      * right. exists wi. apply elem_of_app. right. exact Hin.
    + destruct (IH _ _ _ _ Ed i t) as [Hf|(wi & Hin)].
      * rewrite list_lookup_insert_ne by congruence. exact Hi.
      * left. exact Hf.
      * right. exists wi. apply elem_of_app. right. exact Hin.
Qed.

(** The frames record calls of [render] and nothing else, the first of
    them in the state in which the loop was entered. *)
Lemma render_loop_history (frames : nat) (w w' : World) (h : History)
    (st : Status) :
  render_loop rotateX rotateY translateZ Math_sin frames w = (h, w', st) ->
  Forall is_render h.
Proof.
  revert w w' h st. induction frames as [|n IH]; intros w w' h st E;
    cbn [render_loop] in E.
  - injection E as <- _ _. constructor.
  - destruct (render rotateX rotateY translateZ Math_sin w) as [w1 [[]|e]].
    + destruct (render_loop rotateX rotateY translateZ Math_sin n w1)
        as [[h1 w2] st1] eqn:El.
      injection E as <- _ _. constructor; [exact I | eapply IH; eauto].
    + injection E as <- _ _. repeat constructor.
Qed.

Lemma render_loop_first (frames : nat) (w w' : World) (h : History)
    (st : Status) :
  render_loop rotateX rotateY translateZ Math_sin (S frames) w = (h, w', st) ->
  exists h', h = (RenderCalled, w) :: h'.
Proof.
  cbn [render_loop].
  destruct (render rotateX rotateY translateZ Math_sin w) as [w1 [[]|e]].
  - destruct (render_loop rotateX rotateY translateZ Math_sin frames w1)
      as [[h1 w2] st1].
    intros E. injection E as <- _ _. eauto.
  - intros E. injection E as <- _ _. eauto.
Qed.

(** The shape of every observation of the assembler: nothing at all, or
    the six calls in the state [w1] in which the cube frame is placed,
    then the fulfilments, then, only if all six were fulfilled, the
    frames, the first in the state [w2] in which the last fulfilment
    left things. *)
Lemma build_anatomy (turns : nat) (io : list nat) (frames : nat) (w : World) :
  let hist := fst (fst (build_with_custom_models GLTFLoader rotateX rotateY
                          translateZ Math_sin turns io frames w)) in
  hist = [] \/
  exists cube h wl m w1 hd w2 j hr,
    GLTFLoader "./models/cubeFrame.gltf" (heap w) = Some (cube, h) /\
    resume GLTFLoader (loadModel "./models/cubeFrame.gltf" true 1) w
      = (wl, Ret cube) /\
    vars wl = vars w /\
    w1 = cube_frame_placed wl cube m /\
    drive GLTFLoader io faces w1 = (hd, w2, j) /\
    hist =
      [(Called 0, w1); (Called 1, w1); (Called 2, w1); (Called 3, w1);
       (Called 4, w1); (Called 5, w1)] ++ hd ++ hr /\
    Forall is_render hr /\
    (hr = [] \/ (j = AllFulfilled /\ exists hr', hr = (RenderCalled, w2) :: hr')).
Proof.
  cbv zeta. unfold build_with_custom_models.
  change (advance load_cube_frame w) with (w, load_cube_frame).
  cbv beta iota.
  destruct (settle GLTFLoader turns load_cube_frame w) as [w1 t1] eqn:Es.
  destruct t1 as [u|e|B m k|p k|k]; try (left; reflexivity).
  destruct (load_cube_frame_fulfilled GLTFLoader turns w w1 u Es)
    as (cube & h & wl & m & Hload & Hres & Hm & Hv & ->).
  right. unfold Promise_all. rewrite call_all_faces.
  destruct (drive GLTFLoader io faces (cube_frame_placed wl cube m))
    as [[hd w2] j] eqn:Ed.
  exists cube, h, wl, m, (cube_frame_placed wl cube m), hd, w2, j.
  destruct j as [|e|].
  - destruct (render_loop rotateX rotateY translateZ Math_sin (S frames) w2)
      as [[hr w3] st] eqn:Er.
    exists hr. cbn [fst].
    pose proof (render_loop_history _ _ _ _ _ Er) as Hr.
    destruct (render_loop_first _ _ _ _ _ Er) as (hr' & ->).
    rewrite <- app_assoc.
    repeat split; auto. right. eauto.
  - exists []. cbn [fst]. rewrite app_nil_r.
    repeat split; auto.
  - exists []. cbn [fst]. rewrite app_nil_r.
    repeat split; auto.
Qed.

Lemma faces_not_fulfilled (i : nat) (t : Async unit) :
  faces !! i = Some t -> fulfilled t = false.
Proof.
  do 6 (destruct i as [|i]; [intros H; injection H as <-; reflexivity|]).
  discriminate.
Qed.

Lemma faces_lookup (i : nat) : i < 6 -> exists t, faces !! i = Some t.
Proof.
  intros Hi. apply lookup_lt_is_Some_2. exact Hi.
Qed.

Lemma loading_history_no_render (w1 : World) (hd : History) :
  Forall is_resolved hd ->
  Forall (fun ev => ~ is_render ev)
    ([(Called 0, w1); (Called 1, w1); (Called 2, w1); (Called 3, w1);
      (Called 4, w1); (Called 5, w1)] ++ hd).
Proof.
  intros H. apply Forall_app. split.
  - repeat (apply List.Forall_cons; [intros []|]). apply List.Forall_nil.
  - eapply List.Forall_impl; [|exact H]. intros [[] ?]; cbn; tauto.
Qed.

(** C2. In every observation of the assembler, whatever the loader does,
    however long the cube-frame fetch takes and in whatever order the
    fetches of the face loaders complete: (1) each of the six face loaders
    is called in a state in which the cube frame has been fetched, is held
    by [impossibleCube] and is a child of the scene; (2) before any call
    of [render], and so before any animator runs, all six face loaders
    have been fulfilled. *)
Theorem assembler_order (turns : nat) (io : list nat) (frames : nat) (w : World) :
  let hist := fst (fst (build_with_custom_models GLTFLoader rotateX rotateY
                          translateZ Math_sin turns io frames w)) in
  (forall pre i wi post,
     hist = pre ++ (Called i, wi) :: post ->
     exists cube h,
       GLTFLoader "./models/cubeFrame.gltf" (heap w) = Some (cube, h) /\
       impossibleCube (vars wi) = Some cube /\
       cube ∈ children (objs (heap wi) scene)) /\
  (forall pre wr post,
     hist = pre ++ (RenderCalled, wr) :: post ->
     forall i, i < 6 -> exists wi, (Resolved i, wi) ∈ pre).
Proof.
  cbv zeta.
  destruct (build_anatomy turns io frames w)
    as [E|(cube & h & wl & m & w1 & hd & w2 & j & hr & Hload & Hres & Hv & Hw1
           & Hd & E & Hr & Hfirst)]; cbv zeta in E; rewrite E; clear E.
  { split; intros; destruct pre; discriminate. }
  pose proof (drive_history _ _ _ _ _ _ Hd) as Hhd.
  split.
  - intros pre i wi post E.
    assert (Hin : (Called i, wi) ∈
              [(Called 0, w1); (Called 1, w1); (Called 2, w1); (Called 3, w1);
               (Called 4, w1); (Called 5, w1)] ++ hd ++ hr).
    { rewrite E. apply elem_of_app. right. apply list_elem_of_here. }
    assert (Hwi : wi = w1).
    { apply elem_of_app in Hin as [Hin|Hin].
      - repeat (apply elem_of_cons in Hin as [Hin|Hin]; [congruence|]).
        apply elem_of_nil in Hin. contradiction.
      - apply elem_of_app in Hin as [Hin|Hin]; exfalso.
        + rewrite Forall_forall in Hhd. apply list_elem_of_In in Hin.
          exact (Hhd _ Hin).
        + rewrite Forall_forall in Hr. apply list_elem_of_In in Hin.
          exact (Hr _ Hin). }
    subst wi w1. exists cube, h. split; [exact Hload|]. split; [reflexivity|].
    unfold cube_frame_placed. cbn [heap with_heap with_vars objs upd_objs].
    rewrite children_alter_transform by reflexivity.
    rewrite fn_lookup_alter. cbn [children set_children].
    apply elem_of_app. right. apply list_elem_of_here.
  - intros pre wr post E i Hi.
    rewrite app_assoc in E.
    destruct (app_prefix_before (fun ev => ~ is_render ev) _ _ _ _ _
                (loading_history_no_render w1 hd Hhd)
                (fun H : ~ is_render (RenderCalled, wr) => H I) E)
      as (pre' & -> & Ehr).
    destruct Hfirst as [->|(-> & _)]; [destruct pre'; discriminate|].
    destruct (faces_lookup i Hi) as (t & Ht).
    destruct (drive_all_resolved _ _ _ _ _ Hd i t Ht) as [Hf|(wi & Hin)].
    + rewrite (faces_not_fulfilled i t Ht) in Hf. discriminate.
    + exists wi. apply elem_of_app. left. apply elem_of_app. right. exact Hin.
Qed.

(** C4. Started with nothing loaded, the assembler calls [render] for the
    first time, and so runs the first animator, in a state in which the
    collections hold exactly: front, the block and 30 rings; back, 20
    triangles; left, 25 blocks; right, 12 bars; top, the diamond and 8
    hexagons; bottom, the planet.  This holds for every loader and every
    order in which the fetches complete. *)
Theorem collections_full_at_first_render (turns : nat) (io : list nat)
    (frames : nat) (w : World) (pre post : History) (wr : World) :
  nothing_loaded (vars w) ->
  fst (fst (build_with_custom_models GLTFLoader rotateX rotateY translateZ
              Math_sin turns io frames w))
    = pre ++ (RenderCalled, wr) :: post ->
  Forall (fun ev => ~ is_render ev) pre ->
  length (rings (vars wr)) = 30 /\
  is_Some (block (vars wr)) /\
  length (triangles (vars wr)) = 20 /\
  length (blocks (vars wr)) = 25 /\
  length (concat (bars (vars wr))) = 12 /\
  length (hexagons (vars wr)) = 8 /\
  length (diamonds (vars wr)) = 1 /\
  is_Some (planet (vars wr)).
Proof.
  intros Hnone E Hpre.
  destruct (build_anatomy turns io frames w)
    as [E0|(cube & h & wl & m & w1 & hd & w2 & j & hr & Hload & Hres & Hv & Hw1
            & Hd & E0 & Hr & Hfirst)]; cbv zeta in E0; rewrite E0 in E; clear E0.
  { destruct pre; discriminate. }
  pose proof (drive_history _ _ _ _ _ _ Hd) as Hhd.
  rewrite app_assoc in E.
  destruct (app_prefix_before (fun ev => ~ is_render ev) _ _ _ _ _
              (loading_history_no_render w1 hd Hhd)
              (fun H : ~ is_render (RenderCalled, wr) => H I) E)
    as (pre' & -> & Ehr).
  destruct Hfirst as [->|(-> & hr' & ->)]; [destruct pre'; discriminate|].
  assert (wr = w2).
  { destruct pre' as [|ev pre']; [cbn in Ehr; congruence|].
    exfalso. cbn in Ehr. injection Ehr as <- _.
    apply Forall_app in Hpre as [_ Hpre].
    inversion Hpre as [|? ? Hev _]; subst. apply Hev. exact I. }
  subst wr.
  assert (Hfull : forall k, count k (vars w2) = full k).
  { intros k.
    apply (drive_balanced GLTFLoader (count k) (full k) io faces
             (map (fun i => share i k) [0; 1; 2; 3; 4; 5]) w1 w2 hd);
      [apply faces_owe | | exact Hd].
    rewrite shares_add_up.
    replace (count k (vars w1)) with (count k (vars w)); [rewrite Hnone; lia|].
    subst w1. unfold cube_frame_placed. cbn [vars with_heap with_vars].
    rewrite <- Hv. destruct k; reflexivity. }
  pose proof (Hfull Rings) as H1. pose proof (Hfull Block) as H2.
  pose proof (Hfull Triangles) as H3. pose proof (Hfull Blocks) as H4.
  pose proof (Hfull Bars) as H5. pose proof (Hfull Hexagons) as H6.
  pose proof (Hfull Diamonds) as H7. pose proof (Hfull Planet) as H8.
  cbn [count full] in *.
  repeat split; try assumption.
  - destruct (block (vars w2)); [eauto | discriminate].
  - destruct (planet (vars w2)); [eauto | discriminate].
Qed.

End Order.

(** ** The statements at work on a concrete loader *)

(** The simple-shaped file, loaded into the initial state, puts its
    top-level node at address 1 and the first child, a mesh with material
    2, at address 2. *)
Lemma loadModel_simple_tags_one_witness :
  let h := snd (Fixture.instantiate Fixture.simple_asset (heap Fixture.world0)) in
  Fixture.simple_loader "models/ring.gltf" (heap Fixture.world0) = Some (1, h) /\
  simple_shape h 1 = true /\
  material_slot h 1 [0] = Some 2 /\
  exists w',
    resume Fixture.simple_loader (loadModel "models/ring.gltf" true 2)
      Fixture.world0 = (w', Ret 1) /\
    mats (heap w') 2 = tagged 2 (mats h 2) /\
    (forall m', m' <> 2 -> mats (heap w') m' = mats h m') /\
    objs (heap w') = objs h /\
    vars w' = vars Fixture.world0.
Proof.
  cbv zeta.
  split; [reflexivity|]. split; [reflexivity|]. split; [reflexivity|].
  apply (loadModel_simple_tags_one Fixture.simple_loader "models/ring.gltf" 2
           Fixture.world0 1 _ 2); reflexivity.
Defined.

Lemma loadModel_in_bounds_iff_taggable_witness :
  let h := snd (Fixture.instantiate Fixture.compound_asset (heap Fixture.world0)) in
  Fixture.compound_loader "models/compound.gltf" (heap Fixture.world0)
    = Some (1, h) /\
  snd (resume Fixture.compound_loader (loadModel "models/compound.gltf" true 5)
         Fixture.world0)
    = if taggable h 1 then Ret 1 else Raise TypeError.
Proof.
  cbv zeta. split; [reflexivity|].
  apply (loadModel_in_bounds_iff_taggable Fixture.compound_loader
           "models/compound.gltf" 5 Fixture.world0 1).
  reflexivity.
Defined.




Lemma split_at {A} (l : list A) (n : nat) (d : A) :
  n < length l ->
  l = firstn n l ++ nth n l d :: skipn (S n) l.
Proof.
  revert n. induction l as [|a l IH]; intros [|n] H; cbn in H; try lia.
  - reflexivity.
  - cbn [firstn nth skipn app]. f_equal. apply IH. lia.
Qed.

Lemma no_render_by_events (l : History) :
  Forall (fun e => e <> RenderCalled) (map fst l) ->
  Forall (fun ev => ~ is_render ev) l.
Proof.
  induction l as [|[e w] l IH]; intros H; [constructor|].
  inversion H as [|? ? He Hl]; subst. constructor; [|apply IH; exact Hl].
  unfold is_render. cbn in *. destruct e; tauto.
Qed.


Lemma split_by_events (l : History) (evs : list Event) (n : nat)
    (d : Event * World) (e : Event) :
  map fst l = evs ->
  nth_error evs n = Some e ->
  l = firstn n l ++ (e, snd (nth n l d)) :: skipn (S n) l.
Proof.
  intros Hevs Hn.
  assert (Hlen : n < length l).
  { rewrite <- (List.length_map fst), Hevs. apply nth_error_Some. congruence. }
  assert (He : fst (nth n l d) = e).
  { rewrite <- (map_nth fst), Hevs. apply nth_error_nth. exact Hn. }
  rewrite <- He. rewrite <- surjective_pairing. apply split_at. exact Hlen.
Qed.

Lemma no_render_among (l : History) (evs : list Event) (n : nat) :
  map fst l = evs ->
  forallb (fun e => match e with RenderCalled => false | _ => true end)
    (firstn n evs) = true ->
  Forall (fun ev => ~ is_render ev) (firstn n l).
Proof.
  intros Hevs Hall. apply no_render_by_events.
  rewrite <- firstn_map, Hevs. rewrite forallb_forall in Hall.
  apply List.Forall_forall. intros e He. specialize (Hall e He).
  destruct e; [discriminate.. | discriminate Hall].
Qed.

(** An observation of the assembler on the concrete loader: the cube frame
    gets its two turns, the face loaders take turns one after the other
    until all are done, and the observation ends with the first frame.
    Its history is the six calls, the six fulfilments (the bottom face,
    with one model, first; the front face, with 31, last) and the call of
    [render]. *)
Lemma observation_events :
  map fst (fst (fst (build_with_custom_models Fixture.simple_loader
                       Fixture.keep Fixture.keep Fixture.keep Fixture.linear
                       2 Fixture.round_robin 0 Fixture.world0))) =
    [Called 0; Called 1; Called 2; Called 3; Called 4; Called 5;
     Resolved 5; Resolved 4; Resolved 2; Resolved 3; Resolved 1; Resolved 0;
     RenderCalled].
Proof. vm_compute. reflexivity. Qed.

(** In the observation the thirteenth entry is the first call of [render]. *)
Lemma collections_full_at_first_render_witness :
  let hist := fst (fst (build_with_custom_models Fixture.simple_loader
                          Fixture.keep Fixture.keep Fixture.keep Fixture.linear
                          2 Fixture.round_robin 0 Fixture.world0)) in
  let wr := snd (nth 12 hist (RenderCalled, Fixture.world0)) in
  nothing_loaded (vars Fixture.world0) /\
  hist = firstn 12 hist ++ (RenderCalled, wr) :: skipn 13 hist /\
  Forall (fun ev => ~ is_render ev) (firstn 12 hist) /\
  length (rings (vars wr)) = 30 /\
  is_Some (block (vars wr)) /\
  length (triangles (vars wr)) = 20 /\
  length (blocks (vars wr)) = 25 /\
  length (concat (bars (vars wr))) = 12 /\
  length (hexagons (vars wr)) = 8 /\
  length (diamonds (vars wr)) = 1 /\
  is_Some (planet (vars wr)).
Proof.
  cbv zeta.
  assert (Hnone : nothing_loaded (vars Fixture.world0))
    by (intros k; destruct k; reflexivity).
  pose proof (split_by_events _ _ 12 (RenderCalled, Fixture.world0)
                RenderCalled observation_events eq_refl) as Hsplit.
  pose proof (no_render_among _ _ 12 observation_events eq_refl) as Hpre.
  split; [exact Hnone|]. split; [exact Hsplit|]. split; [exact Hpre|].
  exact (collections_full_at_first_render Fixture.simple_loader Fixture.keep
           Fixture.keep Fixture.keep Fixture.linear 2 Fixture.round_robin 0
           Fixture.world0 _ _ _ Hnone Hsplit Hpre).
Defined.

(** In the observation the first entry is a call of a face loader and the
    thirteenth the first call of [render]. *)
Lemma assembler_order_witness :
  let hist := fst (fst (build_with_custom_models Fixture.simple_loader
                          Fixture.keep Fixture.keep Fixture.keep Fixture.linear
                          2 Fixture.round_robin 0 Fixture.world0)) in
  let w1 := snd (nth 0 hist (RenderCalled, Fixture.world0)) in
  let wr := snd (nth 12 hist (RenderCalled, Fixture.world0)) in
  hist = firstn 0 hist ++ (Called 0, w1) :: skipn 1 hist /\
  hist = firstn 12 hist ++ (RenderCalled, wr) :: skipn 13 hist /\
  (exists cube h,
     Fixture.simple_loader "./models/cubeFrame.gltf" (heap Fixture.world0)
       = Some (cube, h) /\
     impossibleCube (vars w1) = Some cube /\
     cube ∈ children (objs (heap w1) scene)) /\
  (forall i, i < 6 -> exists wi, (Resolved i, wi) ∈ firstn 12 hist).
Proof.
  cbv zeta.
  pose proof (split_by_events _ _ 0 (RenderCalled, Fixture.world0)
                (Called 0) observation_events eq_refl) as Hsplit0.
  pose proof (split_by_events _ _ 12 (RenderCalled, Fixture.world0)
                RenderCalled observation_events eq_refl) as Hsplit.
  split; [exact Hsplit0|]. split; [exact Hsplit|].
  pose proof (assembler_order Fixture.simple_loader Fixture.keep Fixture.keep
                Fixture.keep Fixture.linear 2 Fixture.round_robin 0
                Fixture.world0) as [Hcalled Hrender].
  split.
  - exact (Hcalled _ _ _ _ Hsplit0).
  - exact (Hrender _ _ _ Hsplit).
Defined.

(** * Further properties of the loader *)

(** A run of assignments changes the material store only, whatever its
    outcome, and relates each material to what it was by any reflexive and
    transitive relation that every single assignment respects. *)
Lemma assign_all_materials (P : Material -> Material -> Prop)
    (l : list (list nat * (Material -> Material))) (o : NodeId) (w : World) :
  (forall m, P m m) ->
  (forall m1 m2 m3, P m1 m2 -> P m2 m3 -> P m1 m3) ->
  Forall (fun pf => forall m, P m (snd pf m)) l ->
  exists ms,
    fst (assign_all o l w) = with_heap (upd_mats (fun _ => ms)) w /\
    forall m, P (mats (heap w) m) (ms m).
Proof.
  intros Hrefl Htrans. revert w.
  assert (Hid : forall w : World,
            w = with_heap (upd_mats (fun _ => mats (heap w))) w)
    by (intros [[? ? ?] ? ? ?]; reflexivity).
  assert (Hone : forall (f : Material -> Material) m0 (w : World),
            (forall m, P m (f m)) ->
            forall m, P (mats (heap w) m) (alter f m0 (mats (heap w)) m)).
  { intros f m0 w Hf m. unfold alter, fn_alter.
    destruct (decide (m0 = m)) as [->|]; [apply Hf | apply Hrefl]. }
  induction l as [|[p f] l IH]; intros w HF.
  - exists (mats (heap w)). split; [apply Hid | intros m; apply Hrefl].
  - inversion HF as [|? ? Hf HF']; subst. cbn [snd] in Hf.
    destruct l as [|pf l].
    + cbn [assign_all]. rewrite assign_eval.
      destruct (material_slot (heap w) o p) as [m0|].
      * exists (alter f m0 (mats (heap w))). split; [reflexivity|].
        apply Hone. exact Hf.
      * exists (mats (heap w)). split; [apply Hid | intros m; apply Hrefl].
    + change (assign_all o ((p, f) :: pf :: l)) with
        (m ← material_at o p; write_material m f;; assign_all o (pf :: l)).
      unfold mbind at 1, M_bind at 1, bind at 1. rewrite material_at_eval.
      destruct (material_slot (heap w) o p) as [m0|].
      * unfold mbind at 1, M_bind at 1, bind at 1.
        unfold write_material at 1, modify at 1.
        destruct (IH (with_heap (upd_mats (alter f m0)) w) HF')
          as (ms & E & Hms).
        exists ms. split; [rewrite E; reflexivity|].
        intros m. eapply Htrans; [apply (Hone f m0 w Hf)|]. apply Hms.
      * exists (mats (heap w)). split; [apply Hid | intros m; apply Hrefl].
Qed.

(** A run of at least two assignments, one step at a time. *)
Lemma assign_all_cons (p : list nat) (f : Material -> Material)
    (pf : list nat * (Material -> Material))
    (l : list (list nat * (Material -> Material))) (o : NodeId) (w : World) :
  assign_all o ((p, f) :: pf :: l) w =
    match material_slot (heap w) o p with
    | Some m => assign_all o (pf :: l) (with_heap (upd_mats (alter f m)) w)
    | None => (w, Throw TypeError)
    end.
Proof.
  change (assign_all o ((p, f) :: pf :: l)) with
    (m ← material_at o p; write_material m f;; assign_all o (pf :: l)).
  unfold mbind at 1, M_bind at 1, bind at 1. rewrite material_at_eval.
  destruct (material_slot (heap w) o p) as [m|]; reflexivity.
Qed.

Lemma assign_all_one (p : list nat) (f : Material -> Material) (o : NodeId)
    (w : World) :
  assign_all o [(p, f)] w =
    match material_slot (heap w) o p with
    | Some m => (with_heap (upd_mats (alter f m)) w, Ok tt)
    | None => (w, Throw TypeError)
    end.
Proof. apply assign_eval. Qed.

Section LoadModelMore.

Variable GLTFLoader : string -> Heap -> option (NodeId * Heap).

(** Whatever the shape of the loaded node, the stencil-tagging walk ends by
    returning the node or by a [TypeError], and the state it leaves differs
    from the loaded one in the material store only, each material related
    to what it was by any relation respected by the writes the walk makes:
    enabling stencil write, setting the reference, setting the compare
    function. *)
Lemma loadModel_walk (P : Material -> Material -> Prop) (path : string)
    (refNum : Z) (w : World) (object : NodeId) (h : Heap) :
  (forall m, P m m) ->
  (forall m1 m2 m3, P m1 m2 -> P m2 m3 -> P m1 m3) ->
  (forall m, P m (set_stencilWrite true m)) ->
  (forall m r, P m (set_stencilRef r m)) ->
  (forall m f, P m (set_stencilFunc f m)) ->
  GLTFLoader path (heap w) = Some (object, h) ->
  exists ms,
    fst (resume GLTFLoader (loadModel path true refNum) w)
      = with_heap (fun _ => upd_mats (fun _ => ms) h) w /\
    forall m, P (mats h m) (ms m).
Proof.
  intros Hrefl Htrans Hw Hr Hf Hload.
  rewrite loadModel_unfold. unfold resume. rewrite Hload.
  set (w1 := with_heap (fun _ => h) w).
  assert (Hw1 : heap w1 = h) by reflexivity.
  assert (Hid : w1 = with_heap (fun _ => upd_mats (fun _ => mats h) h) w)
    by (unfold w1; destruct h; reflexivity).
  cbn [advance]. unfold mbind at 1, M_bind at 1, bind at 1.
  rewrite child_eval, Hw1.
  destruct (descend h object [0]) as [c0|];
    [|exists (mats h); split; [exact Hid | intros m; apply Hrefl]].
  unfold mbind at 1, M_bind at 1, bind at 1, gets at 1.
  match goal with
  | |- context [(if ?c then assign_all object ?l1 else assign_all object ?l2) w1] =>
      assert (HA : exists ms,
                fst ((if c then assign_all object l1 else assign_all object l2) w1)
                  = with_heap (upd_mats (fun _ => ms)) w1 /\
                forall m, P (mats (heap w1) m) (ms m));
      [destruct c; apply assign_all_materials; auto;
       repeat (apply List.Forall_cons; [intros m; cbn [snd]; auto|]);
       apply List.Forall_nil
      |destruct ((if c then assign_all object l1 else assign_all object l2) w1)
         as [w2 [[]|e]] eqn:E]
  end; destruct HA as (ms & E2 & Hms); cbn [fst] in E2; subst w2;
    exists ms; (split; [reflexivity | rewrite Hw1 in Hms; exact Hms]).
Qed.

(** X2. A call of [loadModel], whatever its arguments and whatever the shape
    of the loaded node, touches nothing but stencil fields of materials.
    If the fetch fails the call is rejected and the state is untouched.
    Otherwise the call returns the loaded node or is rejected with a
    [TypeError]; either way the variables, the random source, every scene
    node and the allocation frontier are as the loader left them, every
    material keeps its colour, its depth-pass operation and its colour and
    depth write flags, and no material that had stencil write enabled has
    it disabled. *)
Theorem loadModel_writes_stencil_fields_only (path : string)
    (needStencil : bool) (refNum : Z) (w : World) :
  let r := resume GLTFLoader (loadModel path needStencil refNum) w in
  match GLTFLoader path (heap w) with
  | None => r = (w, Raise LoadError)
  | Some (object, h) =>
      (snd r = Ret object \/ snd r = Raise TypeError) /\
      vars (fst r) = vars w /\
      random_source (fst r) = random_source w /\
      drawn (fst r) = drawn w /\
      objs (heap (fst r)) = objs h /\
      allocated (heap (fst r)) = allocated h /\
      forall m,
        plain_fields (mats (heap (fst r)) m) = plain_fields (mats h m) /\
        (stencilWrite (mats h m) = true ->
         stencilWrite (mats (heap (fst r)) m) = true)
  end.
Proof.
  cbv zeta. destruct (GLTFLoader path (heap w)) as [[object h]|] eqn:Hload.
  - destruct needStencil.
    + pose proof (loadModel_outcome GLTFLoader path refNum w object h Hload) as Hout.
      destruct (loadModel_walk
                  (fun m m' => plain_fields m' = plain_fields m /\
                               (stencilWrite m = true -> stencilWrite m' = true))
                  path refNum w object h) as (ms & E & Hms);
        [ intros m; split; [reflexivity | tauto]
        | intros m1 m2 m3 [H1 H1'] [H2 H2']; split; [congruence | auto]
        | intros m; split; reflexivity
        | intros m b; split; [reflexivity | tauto]
        | intros m b; split; [reflexivity | tauto]
        | exact Hload | ].
      rewrite E. cbn [heap with_heap vars random_source drawn objs upd_mats
                      allocated mats].
      split; [rewrite Hout; destruct (taggable h object); auto|].
      repeat split; apply Hms.
    + rewrite loadModel_plain_eval, Hload. cbn. repeat split; auto.
  - destruct needStencil.
    + rewrite loadModel_unfold. unfold resume. rewrite Hload. reflexivity.
    + rewrite loadModel_plain_eval, Hload. reflexivity.
Qed.

(** X1. The compound branch of [loadModel] on any compound-shaped node
    whose three material slots exist: the call returns the node; the
    material of [children[0].children[0]] ends with all three stencil
    fields set; that of [children[2].children[0]] ends with stencil write
    enabled and, unless it is shared with one of the other two slots, its
    old reference and compare function; that of [children[2].children[2]]
    ends with the reference and [Equal] and, unless it is shared, its old
    stencil write flag; every other material is as loaded. *)
Theorem loadModel_compound_tags (path : string) (refNum : Z) (w : World)
    (object : NodeId) (h : Heap) (m00 m20 m22 : MatId) :
  GLTFLoader path (heap w) = Some (object, h) ->
  compound_shape h object = true ->
  material_slot h object [0; 0] = Some m00 ->
  material_slot h object [2; 0] = Some m20 ->
  material_slot h object [2; 2] = Some m22 ->
  exists w',
    resume GLTFLoader (loadModel path true refNum) w = (w', Ret object) /\
    stencil_fields (mats (heap w') m00) = (true, refNum, EqualStencilFunc) /\
    stencilWrite (mats (heap w') m20) = true /\
    (m20 <> m00 -> m20 <> m22 ->
     stencilRef (mats (heap w') m20) = stencilRef (mats h m20) /\
     stencilFunc (mats (heap w') m20) = stencilFunc (mats h m20)) /\
    stencilRef (mats (heap w') m22) = refNum /\
    stencilFunc (mats (heap w') m22) = EqualStencilFunc /\
    (m22 <> m00 -> m22 <> m20 ->
     stencilWrite (mats (heap w') m22) = stencilWrite (mats h m22)) /\
    (forall m, m <> m00 -> m <> m20 -> m <> m22 ->
               mats (heap w') m = mats h m).
Proof.
  intros Hload Hc H00 H20 H22.
  destruct (loadModel_compound_result GLTFLoader path refNum w object h
              m00 m20 m22 Hload Hc H00 H20 H22) as (w' & E & Hm & _ & _).
  exists w'. split; [exact E|]. rewrite Hm. unfold stencil_fields.
  unfold alter, fn_alter.
  repeat split; intros;
    repeat match goal with
           | |- context [decide (?a = ?b)] => destruct (decide (a = b))
           end; subst; try congruence; reflexivity.
Qed.

(** X3. A rejected call can leave a model half tagged.  On a
    compound-shaped node whose [children[0].children[0]] has a material but
    whose third child lacks one of the two slots the walk reaches for, the
    call is rejected with a [TypeError] after the first slot has been
    tagged: its material carries the three assignments, and no material
    other than it and that of [children[2].children[0]] has changed. *)
Theorem loadModel_rejected_half_tagged (path : string) (refNum : Z)
    (w : World) (object : NodeId) (h : Heap) (m00 : MatId) :
  GLTFLoader path (heap w) = Some (object, h) ->
  compound_shape h object = true ->
  material_slot h object [0; 0] = Some m00 ->
  has_material h object [2; 0] && has_material h object [2; 2] = false ->
  exists w',
    resume GLTFLoader (loadModel path true refNum) w = (w', Raise TypeError) /\
    mats (heap w') m00 = tagged refNum (mats h m00) /\
    (forall m, m <> m00 -> material_slot h object [2; 0] <> Some m ->
               mats (heap w') m = mats h m) /\
    objs (heap w') = objs h /\
    vars w' = vars w.
Proof.
  intros Hload Hc H00 Hmiss.
  rewrite loadModel_unfold. unfold resume. rewrite Hload.
  set (w1 := with_heap (fun _ => h) w).
  assert (Hw1 : heap w1 = h) by reflexivity.
  cbn [advance]. unfold mbind at 1, M_bind at 1, bind at 1.
  rewrite child_eval, Hw1.
  unfold compound_shape in Hc.
  destruct (descend h object [0]) as [c0|]; [|discriminate].
  unfold mbind at 1, M_bind at 1, bind at 1, gets at 1. rewrite Hw1.
  destruct (children (objs h c0)) as [|c00 cs]; [discriminate|].
  cbn [length Nat.eqb negb]. unfold compound_assignments.
  do 3 (rewrite assign_all_cons; cbn [heap with_heap];
        rewrite ?material_slot_upd_mats, ?Hw1, H00).
  rewrite assign_all_cons; cbn [heap with_heap];
    rewrite ?material_slot_upd_mats, ?Hw1.
  unfold has_material in Hmiss.
  destruct (material_slot h object [2; 0]) as [m20|] eqn:H20.
  - rewrite assign_all_cons; cbn [heap with_heap];
      rewrite ?material_slot_upd_mats, ?Hw1.
    destruct (material_slot h object [2; 2]) as [m22|]; [discriminate|].
    eexists. split; [reflexivity|].
    cbn [heap with_heap mats upd_mats objs vars]. unfold w1.
    cbn [heap with_heap mats upd_mats objs vars].
    repeat split.
    + destruct (decide (m20 = m00)) as [->|Hne].
      * rewrite !fn_lookup_alter. reflexivity.
      * rewrite fn_lookup_alter_ne by congruence.
        rewrite !fn_lookup_alter. reflexivity.
    + intros m Hne Hne'. rewrite !fn_lookup_alter_ne by congruence. reflexivity.
  - eexists. split; [reflexivity|].
    cbn [heap with_heap mats upd_mats objs vars]. unfold w1.
    cbn [heap with_heap mats upd_mats objs vars].
    repeat split.
    + rewrite !fn_lookup_alter. reflexivity.
    + intros m Hne _. rewrite !fn_lookup_alter_ne by congruence. reflexivity.
Qed.

End LoadModelMore.

(** The compound-shaped file, loaded into the initial state: top-level node
    1, the three material slots at 3, 6 and 8. *)
Lemma loadModel_compound_tags_witness :
  let h := snd (Fixture.instantiate Fixture.compound_asset (heap Fixture.world0)) in
  Fixture.compound_loader "models/compound.gltf" (heap Fixture.world0)
    = Some (1, h) /\
  compound_shape h 1 = true /\
  material_slot h 1 [0; 0] = Some 3 /\
  material_slot h 1 [2; 0] = Some 6 /\
  material_slot h 1 [2; 2] = Some 8 /\
  exists w',
    resume Fixture.compound_loader (loadModel "models/compound.gltf" true 5)
      Fixture.world0 = (w', Ret 1) /\
    stencil_fields (mats (heap w') 3) = (true, 5%Z, EqualStencilFunc) /\
    stencilWrite (mats (heap w') 6) = true /\
    (6 <> 3 -> 6 <> 8 ->
     stencilRef (mats (heap w') 6) = stencilRef (mats h 6) /\
     stencilFunc (mats (heap w') 6) = stencilFunc (mats h 6)) /\
    stencilRef (mats (heap w') 8) = 5%Z /\
    stencilFunc (mats (heap w') 8) = EqualStencilFunc /\
    (8 <> 3 -> 8 <> 6 ->
     stencilWrite (mats (heap w') 8) = stencilWrite (mats h 8)) /\
    (forall m, m <> 3 -> m <> 6 -> m <> 8 -> mats (heap w') m = mats h m).
Proof.
  cbv zeta.
  split; [reflexivity|]. split; [reflexivity|]. split; [reflexivity|].
  split; [reflexivity|]. split; [reflexivity|].
  apply (loadModel_compound_tags Fixture.compound_loader "models/compound.gltf"
           5 Fixture.world0 1
           (snd (Fixture.instantiate Fixture.compound_asset (heap Fixture.world0)))
           3 6 8); reflexivity.
Defined.

(** The truncated file, loaded into the initial state: top-level node 1,
    whose only child 2 has the mesh 3 below it. *)
Lemma loadModel_rejected_half_tagged_witness :
  let h := snd (Fixture.instantiate Cases.truncated_asset (heap Fixture.world0)) in
  Cases.truncated_loader "models/truncated.gltf" (heap Fixture.world0)
    = Some (1, h) /\
  compound_shape h 1 = true /\
  material_slot h 1 [0; 0] = Some 3 /\
  has_material h 1 [2; 0] && has_material h 1 [2; 2] = false /\
  exists w',
    resume Cases.truncated_loader (loadModel "models/truncated.gltf" true 5)
      Fixture.world0 = (w', Raise TypeError) /\
    mats (heap w') 3 = tagged 5 (mats h 3) /\
    (forall m, m <> 3 -> material_slot h 1 [2; 0] <> Some m ->
               mats (heap w') m = mats h m) /\
    objs (heap w') = objs h /\
    vars w' = vars Fixture.world0.
Proof.
  cbv zeta.
  split; [reflexivity|]. split; [reflexivity|]. split; [reflexivity|].
  split; [reflexivity|].
  apply (loadModel_rejected_half_tagged Cases.truncated_loader
           "models/truncated.gltf" 5 Fixture.world0 1
           (snd (Fixture.instantiate Cases.truncated_asset (heap Fixture.world0)))
           3); reflexivity.
Defined.

(** * Further properties of the assembler *)

Section AssemblerMore.

Variable GLTFLoader : string -> Heap -> option (NodeId * Heap).
Variables rotateX rotateY translateZ : Q -> Object3D -> Object3D.
Variable Math_sin : Q -> Q.

(** Once settled, a routine stays as it is. *)
Lemma settle_settled {A} (n : nat) (t : Async A) (w : World) :
  suspended t = false -> settle GLTFLoader n t w = (w, t).
Proof. intros H. destruct n; cbn [settle]; rewrite H; reflexivity. Qed.

(** The cube-frame part of the assembler, given its two turns. *)
Lemma load_cube_frame_settles (turns : nat) (w : World) :
  settle GLTFLoader (S (S turns)) load_cube_frame w =
    match resume GLTFLoader (loadModel "./models/cubeFrame.gltf" true 1) w with
    | (wl, Ret cube) =>
        match material_slot (heap wl) cube [0] with
        | Some m => (cube_frame_placed wl cube m, Ret tt)
        | None => (with_vars (set_impossibleCube (Some cube)) wl, Raise TypeError)
        end
    | (wl, Raise e) => (wl, Raise e)
    | (wl, _) => (wl, Raise TypeError)
    end.
Proof.
  cbn [settle]. change (suspended load_cube_frame) with true. cbv iota.
  rewrite load_cube_frame_first_turn.
  destruct (loadModel_settles GLTFLoader "./models/cubeFrame.gltf" true 1 w)
    as [(wl & o & E)|(wl & e & E)]; rewrite E.
  - cbn [settle suspended]. rewrite load_cube_frame_second_turn.
    destruct (material_slot (heap wl) o [0]) as [m|];
      apply settle_settled; reflexivity.
  - reflexivity.
Qed.

(** X4. The cube frame gates the whole assembly.  Given the two turns the
    cube-frame load needs: if its fetch fails, the assembler ends with the
    [LoadError], having changed nothing and called no face loader; if the
    fetched node is not taggable, or its first child has no material of its
    own (as when that child is a group), it ends with a [TypeError] and an
    empty history, so no face loader is called and [render] never runs;
    otherwise the six face loaders are called, in the order of the array. *)
Theorem build_gated_by_cube_frame (turns : nat) (io : list nat) (frames : nat)
    (w : World) :
  let r := build_with_custom_models GLTFLoader rotateX rotateY translateZ
             Math_sin (S (S turns)) io frames w in
  match GLTFLoader "./models/cubeFrame.gltf" (heap w) with
  | None => r = ([], w, Failed LoadError)
  | Some (cube, h) =>
      if taggable h cube && has_material h cube [0] then
        map fst (firstn 6 (fst (fst r))) =
          [Called 0; Called 1; Called 2; Called 3; Called 4; Called 5]
      else
        fst (fst r) = [] /\ snd r = Failed TypeError
  end.
Proof.
  cbv zeta. unfold build_with_custom_models.
  change (advance load_cube_frame w) with (w, load_cube_frame).
  cbv beta iota. rewrite load_cube_frame_settles.
  destruct (GLTFLoader "./models/cubeFrame.gltf" (heap w)) as [[cube h]|] eqn:Hload.
  - pose proof (loadModel_outcome GLTFLoader _ 1%Z w cube h Hload) as Hout.
    destruct (taggable h cube) eqn:Ht.
    + rewrite (loadModel_tagging_result GLTFLoader _ 1%Z w cube h Hload Ht).
      cbn [heap with_heap]. rewrite material_slot_upd_mats.
      unfold has_material. cbn [andb].
      destruct (material_slot h cube [0]) as [m|]; [|split; reflexivity].
      unfold Promise_all. rewrite call_all_faces.
      match goal with
      | |- context [drive GLTFLoader io faces ?w1] =>
          destruct (drive GLTFLoader io faces w1) as [[hd w2] [|e|]]
      end; [|reflexivity..].
      destruct (render_loop rotateX rotateY translateZ Math_sin (S frames) w2)
        as [[hr w3] st].
      reflexivity.
    + cbn [andb].
      destruct (resume GLTFLoader (loadModel "./models/cubeFrame.gltf" true 1) w)
        as [wl t]. cbn [snd] in Hout. subst t. split; reflexivity.
  - rewrite loadModel_unfold. unfold resume. rewrite Hload. reflexivity.
Qed.

End AssemblerMore.

(** * Further properties of the animators *)

(** Loops that cannot fail keep what their bodies keep. *)
Lemma for_inv (Inv : nat -> World -> Prop) (n i : nat) (body : nat -> M unit)
    (w : World) :
  Inv i w ->
  (forall j w1, i <= j < i + n -> Inv j w1 ->
     exists w2, body j w1 = (w2, Ok tt) /\ Inv (S j) w2) ->
  exists w', for_ n i body w = (w', Ok tt) /\ Inv (i + n) w'.
Proof.
  revert i w. induction n as [|n IH]; intros i w H0 Hb.
  - exists w. split; [reflexivity|]. rewrite Nat.add_0_r. exact H0.
  - destruct (Hb i w) as (w1 & E1 & H1); [lia | exact H0 |].
    destruct (IH (S i) w1 H1) as (w' & E' & H').
    { intros j w2 Hj. apply Hb. lia. }
    exists w'. split.
    + cbn [for_]. unfold mbind, M_bind, bind. rewrite E1. exact E'.
    + replace (i + S n) with (S i + n) by lia. exact H'.
Qed.

Lemma for_acc_inv {T : Type} (Inv : nat -> T -> World -> Prop) (n i : nat)
    (acc : T) (body : nat -> T -> M T) (w : World) :
  Inv i acc w ->
  (forall j a w1, i <= j < i + n -> Inv j a w1 ->
     exists w2 a', body j a w1 = (w2, Ok a') /\ Inv (S j) a' w2) ->
  exists w' a', for_acc n i acc body w = (w', Ok a') /\ Inv (i + n) a' w'.
Proof.
  revert i acc w. induction n as [|n IH]; intros i acc w H0 Hb.
  - exists w, acc. split; [reflexivity|]. rewrite Nat.add_0_r. exact H0.
  - destruct (Hb i acc w) as (w1 & a1 & E1 & H1); [lia | exact H0 |].
    destruct (IH (S i) a1 w1 H1) as (w' & a' & E' & H').
    { intros j a w2 Hj. apply Hb. lia. }
    exists w', a'. split.
    + cbn [for_acc]. unfold mbind, M_bind, bind. rewrite E1. exact E'.
    + replace (i + S n) with (S i + n) by lia. exact H'.
Qed.

Lemma touches_refl (fp : list NodeId) (w : World) : touches fp w w.
Proof. repeat split. Qed.

Lemma touches_trans (fp : list NodeId) (w1 w2 w3 : World) :
  touches fp w1 w2 -> touches fp w2 w3 -> touches fp w1 w3.
Proof.
  intros (M1 & A1 & R1 & O1) (M2 & A2 & R2 & O2).
  repeat split; try congruence.
  intros o Ho. rewrite O2, O1 by exact Ho. reflexivity.
Qed.

Lemma touches_weaken (fp fp' : list NodeId) (w w' : World) :
  fp ⊆ fp' -> touches fp w w' -> touches fp' w w'.
Proof.
  intros Hsub (M1 & A1 & R1 & O1). repeat split; try assumption.
  intros o Ho. apply O1. intros Hin. apply Ho, Hsub, Hin.
Qed.

Lemma touches_write (fp : list NodeId) (o : NodeId) (f : Object3D -> Object3D)
    (w : World) :
  o ∈ fp -> touches fp w (with_heap (upd_objs (alter f o)) w).
Proof.
  intros Ho. repeat split. intros o' Ho'. cbn [heap with_heap objs upd_objs].
  apply fn_lookup_alter_ne. intros ->. contradiction.
Qed.

Lemma touches_vars (fp : list NodeId) (f : Vars -> Vars) (w : World) :
  touches fp w (with_vars f w).
Proof. repeat split. Qed.

Lemma elem_of_concat (ls : list (list NodeId)) (x : NodeId) :
  x ∈ concat ls <-> exists l, l ∈ ls /\ x ∈ l.
Proof.
  rewrite list_elem_of_In, in_concat.
  split; intros (l & H1 & H2); exists l; rewrite ?list_elem_of_In in *; auto.
Qed.

(** Writes to a node of the footprint, on top of draws. *)
Ltac touches_writes Hin :=
  unfold touches;
  split; [reflexivity|]; split; [reflexivity|]; split; [reflexivity|];
  let o := fresh "o" in
  let Ho := fresh "Ho" in
  intros o Ho; cbn [heap with_heap with_vars objs upd_objs];
  rewrite ?fn_lookup_alter_ne by (intros ->; exact (Ho Hin)); reflexivity.

(** [animateBackFace] cannot fail: it writes to the triangles and to
    [direction], and to nothing else. *)
Lemma animateBackFace_spec (w : World) :
  exists w',
    animateBackFace w = (w', Ok tt) /\
    set_direction 0 (vars w') = set_direction 0 (vars w) /\
    drawn w' = drawn w /\
    touches (triangles (vars w)) w w'.
Proof.
  unfold animateBackFace. unfold mbind at 1, M_bind at 1, bind at 1, gets at 1.
  destruct (for_inv
              (fun _ w1 => set_direction 0 (vars w1) = set_direction 0 (vars w) /\
                           drawn w1 = drawn w /\
                           touches (triangles (vars w)) w w1)
              (length (triangles (vars w))) 0 animateBackFace_body w)
    as (w' & E & H).
  - split; [reflexivity|]. split; [reflexivity | apply touches_refl].
  - intros j w1 Hj (Hv & Hd & Ht).
    assert (Htri : triangles (vars w1) = triangles (vars w))
      by (apply (f_equal triangles) in Hv; exact Hv).
    destruct (lookup_lt_is_Some_2 (triangles (vars w1)) j) as [t Hjt];
      [rewrite Htri; lia|].
    destruct (lookup_lt_is_Some_2 (triangles (vars w1))
                (length (triangles (vars w1)) - 1)) as [lt Hl];
      [rewrite Htri; lia|].
    rewrite (animateBackFace_body_eval j w1 t lt Hjt Hl). cbv zeta.
    set (wb := with_heap _ (with_heap _ w1)).
    assert (Hin : t ∈ triangles (vars w))
      by (rewrite <- Htri; eapply list_elem_of_lookup_2; eauto).
    assert (Hb : touches (triangles (vars w)) w wb).
    { eapply touches_trans; [exact Ht|].
      eapply touches_trans; apply touches_write; exact Hin. }
    destruct (Qltb 25 _); [|destruct (Qltb _ _)];
      eexists; (split; [reflexivity|]);
      (split; [exact Hv|]); (split; [exact Hd|]);
      first [exact Hb | eapply touches_trans; [exact Hb | apply touches_vars]].
  - exists w'. split; [exact E | exact H].
Qed.

(** One pass through the loop body of [animateBackFace]: what it does to
    the nodes, besides what it does to the last triangle and the direction. *)
Lemma animateBackFace_body_full (i : nat) (w : World) (t : NodeId) :
  NoDup (triangles (vars w)) ->
  triangles (vars w) !! i = Some t ->
  exists w1,
    animateBackFace_body i w = (w1, Ok tt) /\
    objs (heap w1) t = back_step i (direction (vars w)) (objs (heap w) t) /\
    (forall o, o <> t -> objs (heap w1) o = objs (heap w) o) /\
    triangles (vars w1) = triangles (vars w) /\
    last_z w1 =
      (if decide (i = length (triangles (vars w)) - 1)
       then (last_z w + num i / 300 * direction (vars w))%Q
       else last_z w) /\
    direction (vars w1) = turn (last_z w1) (direction (vars w)).
Proof.
  intros Hnd Ht.
  assert (Hi : i < length (triangles (vars w))) by (eapply lookup_lt_Some; eauto).
  destruct (animateBackFace_body_effect i w Hnd Hi) as (w1 & E1 & T1 & Z1 & D1).
  exists w1. split; [exact E1|].
  destruct (lookup_lt_is_Some_2 (triangles (vars w))
              (length (triangles (vars w)) - 1)) as [lastT Hl]; [lia|].
  rewrite (animateBackFace_body_eval i w t lastT Ht Hl) in E1. cbv zeta in E1.
  assert (Hobjs : objs (heap w1) =
                  alter (set_rotation (fun v =>
                           Vector3.setZ (Vector3.z v + num i / 1000 * direction (vars w)) v)) t
                    (alter (set_position (fun v =>
                              Vector3.setZ (Vector3.z v + num i / 300 * direction (vars w)) v)) t
                       (objs (heap w)))).
  { destruct (Qltb 25 _) in E1; [|destruct (Qltb _ _) in E1];
      injection E1 as <-; reflexivity. }
  rewrite Hobjs. split; [|split; [|auto]].
  - rewrite !fn_lookup_alter. reflexivity.
  - intros o Ho. rewrite !fn_lookup_alter_ne by congruence. reflexivity.
Qed.

(** The loop from index [i] on, entered with the direction agreeing with
    the position of the last triangle: every triangle from [i] on makes its
    step in that direction. *)
Lemma animateBackFace_loop_full (k i : nat) (w : World) :
  NoDup (triangles (vars w)) ->
  i + k = length (triangles (vars w)) ->
  turn (last_z w) (direction (vars w)) = direction (vars w) ->
  exists w',
    for_ k i animateBackFace_body w = (w', Ok tt) /\
    forall j t, triangles (vars w) !! j = Some t ->
      objs (heap w') t =
        if decide (i <= j) then back_step j (direction (vars w)) (objs (heap w) t)
        else objs (heap w) t.
Proof.
  revert i w. induction k as [|k IH]; intros i w Hnd Hik Hturn.
  - exists w. split; [reflexivity|]. intros j t Hj.
    apply lookup_lt_Some in Hj. destruct (decide (i <= j)); [lia | reflexivity].
  - destruct (lookup_lt_is_Some_2 (triangles (vars w)) i) as [ti Hti]; [lia|].
    destruct (animateBackFace_body_full i w ti Hnd Hti)
      as (w1 & E1 & O1 & F1 & T1 & Z1 & D1).
    destruct (decide (i = length (triangles (vars w)) - 1)) as [Hlast|Hlast].
    + assert (k = 0) by lia. subst k. exists w1. split.
      { cbn [for_]. unfold mbind, M_bind, bind. rewrite E1. reflexivity. }
      intros j t Hj. pose proof (lookup_lt_Some _ _ _ Hj) as Hlt.
      destruct (decide (i <= j)) as [Hle|Hgt].
      * assert (j = i) by lia. subst j.
        assert (t = ti) by congruence. subst t. exact O1.
      * apply F1. intros ->. apply Hgt.
        assert (j = i) by (eapply NoDup_lookup; eauto). lia.
    + assert (Hd1 : direction (vars w1) = direction (vars w))
        by (rewrite D1, Z1; exact Hturn).
      destruct (IH (S i) w1) as (w' & E' & O').
      { rewrite T1. exact Hnd. }
      { rewrite T1. lia. }
      { rewrite Hd1, Z1. exact Hturn. }
      exists w'. split.
      { cbn [for_]. unfold mbind, M_bind, bind. rewrite E1. exact E'. }
      intros j t Hj. rewrite T1 in O'. rewrite (O' j t Hj), Hd1.
      destruct (decide (i = j)) as [<-|Hne].
      * assert (t = ti) by congruence. subst t.
        destruct (decide (S i <= i)); [lia|].
        destruct (decide (i <= i)); [exact O1 | lia].
      * assert (Htne : t <> ti).
        { intros ->. apply Hne. eapply NoDup_lookup; eauto. }
        rewrite (F1 t Htne).
        destruct (decide (S i <= j)), (decide (i <= j)); try lia; reflexivity.
Qed.

(** X7. The update rule of the back face.  In a frame that starts with the
    direction in agreement with the position of the last triangle (as it is
    after every frame, and whenever that position lies within [-8.5, 25]),
    and with distinct triangles, the triangle at each index [i] moves by
    [i/300 * direction] along z and turns by [i/1000 * direction] about z,
    with the direction the frame started with; nothing else of any triangle
    changes, no other node changes, and of the variables only [direction]
    can change. *)
Theorem animateBackFace_moves_each_triangle (w : World) :
  NoDup (triangles (vars w)) ->
  turn (last_z w) (direction (vars w)) = direction (vars w) ->
  exists w',
    animateBackFace w = (w', Ok tt) /\
    (forall i t, triangles (vars w) !! i = Some t ->
       objs (heap w') t = back_step i (direction (vars w)) (objs (heap w) t)) /\
    set_direction 0 (vars w') = set_direction 0 (vars w) /\
    touches (triangles (vars w)) w w'.
Proof.
  intros Hnd Hturn.
  destruct (animateBackFace_spec w) as (w' & E & Hv & _ & Ht).
  exists w'. split; [exact E|]. split; [|split; assumption].
  destruct (animateBackFace_loop_full (length (triangles (vars w))) 0 w Hnd
              eq_refl Hturn) as (w2 & E2 & O2).
  unfold animateBackFace in E.
  unfold mbind at 1, M_bind at 1, bind at 1, gets at 1 in E.
  rewrite E2 in E. injection E as <-.
  intros i t Hi. rewrite (O2 i t Hi).
  destruct (decide (0 <= i)); [reflexivity | lia].
Qed.

(** [animateLeftFace] draws three numbers and then writes to the block at
    the drawn index, or fails if there is none. *)
Lemma animateLeftFace_spec (w : World) :
  match (if (drawn_index w <? 0)%Z then None
         else blocks (vars w) !! Z.to_nat (drawn_index w)) with
  | Some b =>
      exists w', animateLeftFace w = (w', Ok tt) /\
                 vars w' = vars w /\ touches [b] w w'
  | None =>
      animateLeftFace w =
        ({| heap := heap w; vars := vars w; random_source := random_source w;
            drawn := S (S (S (drawn w))) |}, Throw TypeError)
  end.
Proof.
  unfold animateLeftFace, at_index, drawn_index. munfold. unfold Math_random.
  cbn [vars heap drawn random_source].
  destruct (Math_floor (random_source w (S (S (drawn w))) * 25) <? 0)%Z.
  - destruct (negb _); reflexivity.
  - cbn [vars heap drawn random_source].
    destruct (blocks (vars w) !! _) as [b|] eqn:Hb0.
    + assert (Hb : b ∈ [b]) by apply list_elem_of_here.
      destruct (negb _); unfold write_object, modify, ret;
        cbn [vars heap with_heap]; rewrite ?Hb0;
        cbn [vars heap with_heap]; rewrite ?Hb0;
        eexists; (split; [reflexivity|]); (split; [reflexivity|]);
        repeat split; intros o Ho; cbn [heap with_heap objs upd_objs];
        rewrite ?fn_lookup_alter_ne by (intros ->; contradiction); reflexivity.
    + destruct (negb _); cbn [vars heap drawn random_source]; rewrite Hb0;
        reflexivity.
Qed.

(** [animateBottomFace] writes to the planet, or fails if there is none. *)
Lemma animateBottomFace_spec (w : World) :
  match planet (vars w) with
  | Some p =>
      exists w', animateBottomFace w = (w', Ok tt) /\
                 vars w' = vars w /\ drawn w' = drawn w /\ touches [p] w w'
  | None => animateBottomFace w = (w, Throw TypeError)
  end.
Proof.
  unfold animateBottomFace. munfold. unfold write_object, modify.
  destruct (planet (vars w)) as [p|] eqn:Hp; [|reflexivity].
  cbn [vars with_heap]. rewrite Hp. cbn [vars with_heap]. rewrite Hp.
  eexists. split; [reflexivity|]. split; [reflexivity|]. split; [reflexivity|].
  assert (Hin : p ∈ [p]) by apply list_elem_of_here.
  eapply touches_trans; [|apply touches_write; exact Hin].
  eapply touches_trans; apply touches_write; exact Hin.
Qed.

Section AnimationMore.

Variables rotateX rotateY translateZ : Q -> Object3D -> Object3D.
Variable Math_sin : Q -> Q.

(** [animateFrontFace] cannot fail: it writes to the rings and to nothing
    else. *)
Lemma animateFrontFace_spec (w : World) :
  exists w',
    animateFrontFace rotateX rotateY w = (w', Ok tt) /\
    vars w' = vars w /\ drawn w' = drawn w /\
    touches (rings (vars w)) w w'.
Proof.
  unfold animateFrontFace.
  unfold mbind at 1, M_bind at 1, bind at 1, gets at 1.
  unfold mbind at 1, M_bind at 1, bind at 1.
  match goal with
  | |- context [for_acc ?n 0 ?a ?b w] =>
      destruct (for_acc_inv
                  (fun _ _ w1 => vars w1 = vars w /\ drawn w1 = drawn w /\
                                 touches (rings (vars w)) w w1)
                  n 0 a b w) as (w' & a' & E & Hv & Hd & Ht)
  end.
  - repeat split.
  - intros j x w1 Hj (Hv & Hd & Ht).
    destruct (lookup_lt_is_Some_2 (rings (vars w)) j) as [r Hr]; [lia|].
    munfold. unfold write_object, modify. rewrite Hv, Hr.
    cbn [vars with_heap]. rewrite Hv, Hr.
    eexists _, _. split; [reflexivity|].
    cbn [vars drawn with_heap]. split; [exact Hv|]. split; [exact Hd|].
    assert (Hin : r ∈ rings (vars w)) by (eapply list_elem_of_lookup_2; eauto).
    eapply touches_trans; [exact Ht|].
    eapply touches_trans; apply touches_write; exact Hin.
  - rewrite E. exists w'. split; [reflexivity | auto].
Qed.

(** [animateRightFace] cannot fail: it writes to the bars and to nothing
    else. *)
Lemma animateRightFace_spec (w : World) :
  exists w',
    animateRightFace translateZ w = (w', Ok tt) /\
    vars w' = vars w /\
    touches (concat (bars (vars w))) w w'.
Proof.
  unfold animateRightFace.
  unfold mbind at 1, M_bind at 1, bind at 1, gets at 1.
  match goal with
  | |- context [for_ ?n 0 ?b w] =>
      destruct (for_inv
                  (fun _ w1 => vars w1 = vars w /\
                               touches (concat (bars (vars w))) w w1)
                  n 0 b w) as (w' & E & H)
  end.
  - split; [reflexivity | apply touches_refl].
  - intros i w1 Hi (Hv & Ht).
    destruct (lookup_lt_is_Some_2 (bars (vars w)) i) as [g Hg]; [lia|].
    assert (Hfirst : (bs ← gets (fun w => bars (vars w)); defined (bs !! i)) w1
                     = (w1, Ok g)) by (munfold; rewrite Hv, Hg; reflexivity).
    unfold mbind at 1, M_bind at 1, bind at 1. rewrite Hfirst.
    match goal with
    | |- context [for_ ?n 0 ?b w1] =>
        destruct (for_inv
                    (fun _ w2 => vars w2 = vars w /\
                                 touches (concat (bars (vars w))) w w2)
                    n 0 b w1) as (w2 & E2 & H2)
    end.
    + split; assumption.
    + intros j w2 Hj (Hv2 & Ht2).
      destruct (lookup_lt_is_Some_2 g j) as [bar Hbar]; [lia|].
      assert (Hin : bar ∈ concat (bars (vars w))).
      { apply elem_of_concat. exists g.
        split; eapply list_elem_of_lookup_2; eauto. }
      munfold. unfold Math_random, write_object, modify.
      cbn [vars heap with_heap drawn random_source].
      rewrite Hv2, Hg, Hbar.
      destruct i as [|[|[|i]]]; cbn [Nat.eqb];
        cbn [vars heap with_heap drawn random_source];
        repeat match goal with
               | |- context [if ?c then _ else _] =>
                   lazymatch c with
                   | Qgeb _ _ => destruct c
                   | Qle_bool _ _ => destruct c
                   end
               end;
        eexists; (split; [reflexivity|]);
        (split; [cbn [vars with_heap]; first [exact Hv2 | reflexivity]|]);
        (eapply touches_trans; [exact Ht2|]); touches_writes Hin.
    + exists w2. split; [exact E2 | exact H2].
  - exists w'. split; [exact E|]. exact H.
Qed.

(** [animateTopFace] writes to the first diamond, to the hexagons and to
    [factor], or fails if there is no diamond. *)
Lemma animateTopFace_spec (w : World) :
  match diamonds (vars w) !! 0 with
  | Some d0 =>
      exists w',
        animateTopFace Math_sin w = (w', Ok tt) /\
        set_factor 0 (vars w') = set_factor 0 (vars w) /\
        drawn w' = drawn w /\
        touches (d0 :: hexagons (vars w)) w w'
  | None => animateTopFace Math_sin w = (w, Throw TypeError)
  end.
Proof.
  unfold animateTopFace.
  destruct (diamonds (vars w) !! 0) as [d0|] eqn:Hd0.
  - assert (Hin0 : d0 ∈ d0 :: hexagons (vars w)) by apply list_elem_of_here.
    assert (Hfirst : (ds ← gets (fun w => diamonds (vars w)); defined (ds !! 0)) w
                     = (w, Ok d0)) by (munfold; rewrite Hd0; reflexivity).
    unfold mbind at 1, M_bind at 1, bind at 1. rewrite Hfirst.
    unfold mbind at 1, M_bind at 1, bind at 1, gets at 1.
    unfold mbind at 1, M_bind at 1, bind at 1, write_object at 1, modify at 1.
    set (wa := with_heap _ w).
    assert (Hsecond : (ds ← gets (fun w => diamonds (vars w)); defined (ds !! 0)) wa
                      = (wa, Ok d0)) by (munfold; unfold wa; cbn [vars with_heap];
                                         rewrite Hd0; reflexivity).
    unfold mbind at 1, M_bind at 1, bind at 1. rewrite Hsecond.
    unfold mbind at 1, M_bind at 1, bind at 1, write_object at 1, modify at 1.
    set (wb := with_heap _ wa).
    assert (Hwb : vars wb = vars w /\ drawn wb = drawn w /\
                  touches (d0 :: hexagons (vars w)) w wb).
    { split; [reflexivity|]. split; [reflexivity|].
      unfold wb, wa. touches_writes Hin0. }
    unfold mbind at 1, M_bind at 1, bind at 1, gets at 1.
    replace (hexagons (vars wb)) with (hexagons (vars w)) by reflexivity.
    match goal with
    | |- context [for_ ?n 0 ?b wb] =>
        destruct (for_inv
                    (fun _ w1 => set_factor 0 (vars w1) = set_factor 0 (vars w) /\
                                 drawn w1 = drawn w /\
                                 touches (d0 :: hexagons (vars w)) w w1)
                    n 0 b wb) as (w' & E & H)
    end.
    + destruct Hwb as (Hv & Hd & Ht). rewrite Hv. auto.
    + intros i w1 Hi (Hv & Hd & Ht).
      assert (Hhex : hexagons (vars w1) = hexagons (vars w))
        by (apply (f_equal hexagons) in Hv; exact Hv).
      assert (Hdia : diamonds (vars w1) = diamonds (vars w))
        by (apply (f_equal diamonds) in Hv; exact Hv).
      destruct (lookup_lt_is_Some_2 (hexagons (vars w)) i) as [hx Hhx]; [lia|].
      assert (Hin : hx ∈ d0 :: hexagons (vars w)).
      { apply list_elem_of_further. eapply list_elem_of_lookup_2; eauto. }
      munfold. unfold write_object, modify.
      destruct (i mod 2 =? 0); cbn [negb];
        repeat (progress
                  (cbn [vars heap with_heap with_vars hexagons diamonds set_factor];
                   rewrite ?Hhex, ?Hdia, ?Hhx, ?Hd0));
        eexists; (split; [reflexivity|]);
        (split; [cbn [vars with_heap with_vars]; exact Hv|]);
        (split; [cbn [drawn with_heap with_vars]; exact Hd|]);
        (eapply touches_trans; [exact Ht|]);
        touches_writes Hin.
    + exists w'. split; [exact E | exact H].
  - munfold. rewrite Hd0. reflexivity.
Qed.

(** The last four animators of a frame, run from a state [w]. *)
Lemma render_tail_spec (w : World) :
  let r := (animateLeftFace;; animateRightFace translateZ;;
            animateTopFace Math_sin;; animateBottomFace) w in
  direction (vars (fst r)) = direction (vars w) /\
  set_factor 0 (vars (fst r)) = set_factor 0 (vars w) /\
  touches (blocks (vars w) ++ concat (bars (vars w)) ++ take 1 (diamonds (vars w))
             ++ hexagons (vars w) ++ held (planet (vars w))) w (fst r) /\
  (frame_ready w -> snd r = Ok tt) /\
  (~ frame_ready w -> snd r = Throw TypeError).
Proof.
  cbv zeta. unfold frame_ready. rewrite seq_eval.
  pose proof (animateLeftFace_spec w) as HL.
  destruct (drawn_index w <? 0)%Z eqn:Hneg.
  { rewrite HL. cbn [fst snd vars]. split; [reflexivity|]. split; [reflexivity|].
    split; [repeat split|]. split; [intros (H & _); lia | reflexivity]. }
  destruct (blocks (vars w) !! Z.to_nat (drawn_index w)) as [b|] eqn:Hb.
  2: { rewrite HL. cbn [fst snd vars]. split; [reflexivity|]. split; [reflexivity|].
       split; [repeat split|]. split; [|reflexivity].
       intros (_ & H & _). apply lookup_ge_None in Hb. lia. }
  destruct HL as (wl & EL & VL & TL). rewrite EL; cbv beta iota; rewrite seq_eval.
  destruct (animateRightFace_spec wl) as (wr & ER & VR & TR). rewrite ER; cbv beta iota; rewrite seq_eval.
  rewrite VL in TR, VR.
  pose proof (animateTopFace_spec wr) as HT. rewrite VR in HT.
  assert (Hfp : forall fp, fp ⊆ blocks (vars w) ++ concat (bars (vars w))
                             ++ take 1 (diamonds (vars w)) ++ hexagons (vars w)
                             ++ held (planet (vars w)) ->
                forall w1 w2, touches fp w1 w2 ->
                  touches (blocks (vars w) ++ concat (bars (vars w))
                             ++ take 1 (diamonds (vars w)) ++ hexagons (vars w)
                             ++ held (planet (vars w))) w1 w2).
  { intros fp Hsub w1 w2. apply touches_weaken. exact Hsub. }
  assert (TL' := Hfp [b] ltac:(intros x Hx; apply list_elem_of_singleton in Hx as ->;
                               apply elem_of_app; left;
                               eapply list_elem_of_lookup_2; eauto) _ _ TL).
  assert (TR' := Hfp (concat (bars (vars w))) ltac:(intros x Hx; apply elem_of_app; right;
                             apply elem_of_app; left; exact Hx) _ _ TR).
  assert (Hidx : (0 <= drawn_index w)%Z /\
                 Z.to_nat (drawn_index w) < length (blocks (vars w))).
  { split; [lia|]. eapply lookup_lt_Some; eauto. }
  destruct (diamonds (vars w) !! 0) as [d0|] eqn:Hd0.
  2: { rewrite HT. cbn [fst snd]. rewrite VR.
       split; [reflexivity|]. split; [reflexivity|].
       split; [eapply touches_trans; eauto|].
       split; [|reflexivity]. intros (_ & _ & H & _).
       destruct (diamonds (vars w)); [congruence | discriminate]. }
  destruct HT as (wt & ET & VT & DT & TT). rewrite ET; cbv beta iota.
  assert (TT' := Hfp (d0 :: hexagons (vars w)) ltac:(intros x Hx; apply elem_of_cons in Hx as [->|Hx];
                             [do 2 (apply elem_of_app; right); apply elem_of_app; left;
                              destruct (diamonds (vars w)); [discriminate|];
                              injection Hd0 as ->; apply list_elem_of_here
                             |do 3 (apply elem_of_app; right); apply elem_of_app;
                              left; exact Hx]) _ _ TT).
  assert (Hpl : planet (vars wt) = planet (vars w))
    by (apply (f_equal planet) in VT; exact VT).
  assert (Hdir : direction (vars wt) = direction (vars w))
    by (apply (f_equal direction) in VT; exact VT).
  pose proof (animateBottomFace_spec wt) as HB. rewrite Hpl in HB.
  assert (Hdia : diamonds (vars w) <> []) by (intros E; rewrite E in Hd0; discriminate).
  destruct (planet (vars w)) as [p|] eqn:Hp.
  2: { rewrite HB. cbn [fst snd].
       split; [exact Hdir|]. split; [exact VT|].
       split; [eapply touches_trans; [eapply touches_trans|]; eauto|].
       split; [|reflexivity]. intros (_ & _ & _ & H). congruence. }
  destruct HB as (wb & EB & VB & DB & TB). rewrite EB. cbn [fst snd].
  assert (TB' := Hfp [p] ltac:(intros x Hx; do 4 (apply elem_of_app; right);
                             exact Hx) _ _ TB).
  rewrite VB. split; [exact Hdir|]. split; [exact VT|].
  split; [eapply touches_trans; [eapply touches_trans; [eapply touches_trans|]|]; eauto|].
  split; [reflexivity|]. intros H. exfalso. apply H. repeat split; try tauto.
  discriminate.
Qed.

(** A frame: the first two animators cannot fail, and then the last four
    run from the state they leave. *)
Lemma render_spec (w : World) :
  exists w1 w2,
    animateFrontFace rotateX rotateY w = (w1, Ok tt) /\
    vars w1 = vars w /\ drawn w1 = drawn w /\
    touches (rings (vars w)) w w1 /\
    animateBackFace w1 = (w2, Ok tt) /\
    set_direction 0 (vars w2) = set_direction 0 (vars w) /\
    drawn w2 = drawn w /\
    touches (triangles (vars w)) w1 w2 /\
    render rotateX rotateY translateZ Math_sin w =
      (animateLeftFace;; animateRightFace translateZ;;
       animateTopFace Math_sin;; animateBottomFace) w2.
Proof.
  destruct (animateFrontFace_spec w) as (w1 & E1 & V1 & D1 & T1).
  destruct (animateBackFace_spec w1) as (w2 & E2 & V2 & D2 & T2).
  exists w1, w2. rewrite V1 in V2, T2. rewrite D1 in D2.
  repeat (split; [assumption|]).
  unfold render. rewrite seq_eval, E1. cbv beta iota. rewrite seq_eval, E2.
  reflexivity.
Qed.

(** When a frame runs to its end. *)
Lemma render_outcome (w : World) :
  (frame_ready w ->
   snd (render rotateX rotateY translateZ Math_sin w) = Ok tt) /\
  (~ frame_ready w ->
   snd (render rotateX rotateY translateZ Math_sin w) = Throw TypeError).
Proof.
  destruct (render_spec w) as (w1 & w2 & _ & _ & _ & (_ & _ & R1 & _) & _ & V2
                               & D2 & (_ & _ & R2 & _) & ->).
  destruct (render_tail_spec w2) as (_ & _ & _ & Hok & Hfail). cbv zeta in *.
  assert (Hready : frame_ready w2 <-> frame_ready w).
  { unfold frame_ready, drawn_index. rewrite D2, R2, R1.
    apply (f_equal blocks) in V2 as Hb. apply (f_equal diamonds) in V2 as Hd.
    apply (f_equal planet) in V2 as Hp. cbn in Hb, Hd, Hp.
    rewrite Hb, Hd, Hp. reflexivity. }
  split; intros H; [apply Hok | apply Hfail]; rewrite Hready; exact H.
Qed.

(** What a frame can change. *)
Lemma render_footprint (w : World) :
  let w' := fst (render rotateX rotateY translateZ Math_sin w) in
  holdings (vars w') = holdings (vars w) /\
  touches (animated (vars w)) w w'.
Proof.
  cbv zeta.
  destruct (render_spec w) as (w1 & w2 & _ & V1 & _ & T1 & _ & V2 & _ & T2 & ->).
  destruct (render_tail_spec w2) as (Hd & Hf & T3 & _). cbv zeta in *.
  assert (Hcoll : holdings (vars w2) = holdings (vars w)).
  { unfold holdings. apply (f_equal (set_factor 0)) in V2. exact V2. }
  split.
  - rewrite <- Hcoll. unfold holdings.
    apply (f_equal (set_direction 0)) in Hf. exact Hf.
  - assert (E : blocks (vars w2) ++ concat (bars (vars w2))
                  ++ take 1 (diamonds (vars w2)) ++ hexagons (vars w2)
                  ++ held (planet (vars w2))
                = blocks (vars w) ++ concat (bars (vars w))
                  ++ take 1 (diamonds (vars w)) ++ hexagons (vars w)
                  ++ held (planet (vars w))).
    { apply (f_equal blocks) in V2 as Hb. apply (f_equal bars) in V2 as Hbars.
      apply (f_equal diamonds) in V2 as Hdi. apply (f_equal hexagons) in V2 as Hh.
      apply (f_equal planet) in V2 as Hp. cbn in Hb, Hbars, Hdi, Hh, Hp.
      rewrite Hb, Hbars, Hdi, Hh, Hp. reflexivity. }
    rewrite E in T3. unfold animated.
    eapply touches_trans; [|eapply touches_trans].
    + eapply touches_weaken; [|exact T1]. intros x Hx. apply elem_of_app. auto.
    + eapply touches_weaken; [|exact T2]. intros x Hx.
      apply elem_of_app. right. apply elem_of_app. auto.
    + eapply touches_weaken; [|exact T3]. intros x Hx.
      do 2 (apply elem_of_app; right). exact Hx.
Qed.



End AnimationMore.

(** Twenty triangles at -2.5 with [direction = 1]. *)
Lemma animateBackFace_moves_each_triangle_witness :
  let w := Fixture.back_world (- (5 # 2)) in
  NoDup (triangles (vars w)) /\
  turn (last_z w) (direction (vars w)) = direction (vars w) /\
  exists w',
    animateBackFace w = (w', Ok tt) /\
    (forall i t, triangles (vars w) !! i = Some t ->
       objs (heap w') t = back_step i (direction (vars w)) (objs (heap w) t)) /\
    set_direction 0 (vars w') = set_direction 0 (vars w) /\
    touches (triangles (vars w)) w w'.
Proof.
  cbv zeta. split; [apply NoDup_seq|]. split; [vm_compute; reflexivity|].
  apply (animateBackFace_moves_each_triangle (Fixture.back_world (- (5 # 2)))).
  - apply NoDup_seq.
  - vm_compute; reflexivity.
Defined.

(** ** The back face keeps turning around *)

Lemma frames_snoc (a : nat) (m : M unit) (w w1 w2 : World) :
  frames a m w = (w1, Ok tt) ->
  m w1 = (w2, Ok tt) ->
  frames (S a) m w = (w2, Ok tt).
Proof.
  intros E1 E2. replace (S a) with (a + 1) by lia.
  rewrite (frames_add a 1 m w w1 E1). cbn [frames]. rewrite seq_eval, E2.
  reflexivity.
Qed.

(** A frame from a state of the oscillation leads to one. *)
Lemma in_band_frame (w0 w : World) :
  NoDup (triangles (vars w0)) ->
  triangles (vars w0) <> [] ->
  in_band w0 w ->
  exists w',
    animateBackFace w = (w', Ok tt) /\
    last_z w' = (last_z w + stride w0 * direction (vars w))%Q /\
    direction (vars w') = turn (last_z w') (direction (vars w)) /\
    in_band w0 w'.
Proof.
  intros Hnd Hne (Ht & Hinv).
  destruct (oscillation_invariant w0 w Hnd Hne Ht Hinv)
    as (w' & E & T & Z & D & Hinv').
  exists w'. repeat split; assumption.
Qed.

Lemma in_band_frames (w0 w : World) (k : nat) :
  NoDup (triangles (vars w0)) ->
  triangles (vars w0) <> [] ->
  in_band w0 w ->
  exists w', frames k animateBackFace w = (w', Ok tt) /\ in_band w0 w'.
Proof.
  intros Hnd Hne. revert w. induction k as [|k IH]; intros w Hin.
  - exists w. split; [reflexivity | exact Hin].
  - destruct (in_band_frame w0 w Hnd Hne Hin) as (w1 & E1 & _ & _ & Hin1).
    destruct (IH w1 Hin1) as (w' & E' & Hin').
    exists w'. split; [|exact Hin'].
    cbn [frames]. rewrite seq_eval, E1. exact E'.
Qed.

(** On its way up the last triangle gets past 25, and the direction flips. *)
Lemma in_band_climbs (w0 : World) (n : nat) (w : World) :
  NoDup (triangles (vars w0)) ->
  triangles (vars w0) <> [] ->
  in_band w0 w ->
  direction (vars w) = 1%Q ->
  (25 - last_z w < num n * stride w0)%Q ->
  exists j w',
    frames j animateBackFace w = (w', Ok tt) /\ in_band w0 w' /\
    direction (vars w') = (- 4)%Q.
Proof.
  intros Hnd Hne. revert w. induction n as [|n IH]; intros w Hin Hd Hfar.
  - exfalso. destruct Hin as (_ & [(_ & _ & Hhi)|(Hd' & _)]).
    + change (num 0) with 0%Q in Hfar. lra.
    + rewrite Hd in Hd'. discriminate.
  - destruct (in_band_frame w0 w Hnd Hne Hin) as (w1 & E1 & Z1 & D1 & Hin1).
    rewrite Hd in Z1, D1. unfold turn in D1.
    destruct (Qltb 25 (last_z w1)) eqn:Hpast.
    + exists 1, w1. split; [|split; assumption].
      cbn [frames]. rewrite seq_eval, E1. reflexivity.
    + assert (Hd1 : direction (vars w1) = 1%Q)
        by (rewrite D1; destruct (Qltb (last_z w1) (- (17 # 2))); reflexivity).
      destruct (IH w1 Hin1 Hd1) as (j & w' & E' & Hin' & Hd').
      { rewrite Z1.
        assert (num (S n) * stride w0 == num n * stride w0 + stride w0)%Q
          by (rewrite num_S; ring).
        lra. }
      exists (S j), w'. split; [|split; assumption].
      cbn [frames]. rewrite seq_eval, E1. exact E'.
Qed.

(** On its way down it gets past -8.5, and the direction flips back. *)
Lemma in_band_descends (w0 : World) (n : nat) (w : World) :
  NoDup (triangles (vars w0)) ->
  triangles (vars w0) <> [] ->
  in_band w0 w ->
  direction (vars w) = (- 4)%Q ->
  (last_z w + (17 # 2) < num n * (4 * stride w0))%Q ->
  exists j w',
    frames j animateBackFace w = (w', Ok tt) /\ in_band w0 w' /\
    direction (vars w') = 1%Q.
Proof.
  intros Hnd Hne. revert w. induction n as [|n IH]; intros w Hin Hd Hfar.
  - exfalso. destruct Hin as (_ & [(Hd' & _)|(_ & Hlo & _)]).
    + rewrite Hd in Hd'. discriminate.
    + change (num 0) with 0%Q in Hfar. lra.
  - destruct (in_band_frame w0 w Hnd Hne Hin) as (w1 & E1 & Z1 & D1 & Hin1).
    rewrite Hd in Z1, D1. unfold turn in D1.
    destruct (Qltb 25 (last_z w1)) eqn:Hpast.
    { exfalso. apply Qltb_lt in Hpast.
      destruct Hin as (_ & [(Hd' & _)|(_ & _ & Hhi)]);
        [rewrite Hd in Hd'; discriminate|].
      unfold band_hi in Hhi.
      assert (Hs : (0 <= stride w0)%Q).
      { unfold stride. pose proof (num_nonneg (length (triangles (vars w0)) - 1)).
        apply Qle_shift_div_l; [reflexivity|]. lra. }
      rewrite Z1 in Hpast. lra. }
    destruct (Qltb (last_z w1) (- (17 # 2))) eqn:Hbelow.
    + exists 1, w1. split; [|split; assumption].
      cbn [frames]. rewrite seq_eval, E1. reflexivity.
    + destruct (IH w1 Hin1 D1) as (j & w' & E' & Hin' & Hd').
      { rewrite Z1.
        assert (num (S n) * (4 * stride w0)
                == num n * (4 * stride w0) + 4 * stride w0)%Q
          by (rewrite num_S; ring).
        lra. }
      exists (S j), w'. split; [|split; assumption].
      cbn [frames]. rewrite seq_eval, E1. exact E'.
Qed.

(** X9. The back face never comes to rest.  With at least two distinct
    triangles, started as in the oscillation statement ([direction = 1],
    the last triangle below 25 and not below the band), the direction is
    -4 in infinitely many frames and 1 in infinitely many frames: after
    any number of frames both values are still to come. *)
Theorem animateBackFace_keeps_turning (w : World) :
  NoDup (triangles (vars w)) ->
  2 <= length (triangles (vars w)) ->
  direction (vars w) = 1%Q ->
  (band_lo w <= last_z w)%Q ->
  (last_z w < 25)%Q ->
  forall k,
    (exists k', k <= k' /\
       direction (vars (fst (frames k' animateBackFace w))) = (- 4)%Q) /\
    (exists k', k <= k' /\
       direction (vars (fst (frames k' animateBackFace w))) = 1%Q).
Proof.
  intros Hnd Hlen Hd Hlo Hhi k.
  assert (Hne : triangles (vars w) <> [])
    by (destruct (triangles (vars w)); [cbn in Hlen; lia | discriminate]).
  assert (Hs : (0 < stride w)%Q).
  { unfold stride. apply Qlt_shift_div_l; [reflexivity|].
    assert (H1 : (1 <= num (length (triangles (vars w)) - 1))%Q).
    { unfold num. change 1%Q with (inject_Z 1). rewrite <- Zle_Qle. lia. }
    lra. }
  assert (Hstart : in_band w w).
  { split; [reflexivity|]. left. split; [exact Hd|]. split; [exact Hlo | lra]. }
  destruct (in_band_frames w w k Hnd Hne Hstart) as (wk & Ek & Hin).
  assert (Hdir : direction (vars wk) = 1%Q \/ direction (vars wk) = (- 4)%Q)
    by (destruct Hin as (_ & [(H & _)|(H & _)]); auto).
  assert (Hhere : forall d, direction (vars wk) = d ->
            exists k', k <= k' /\
              direction (vars (fst (frames k' animateBackFace w))) = d).
  { intros d H. exists k. split; [lia|]. rewrite Ek. exact H. }
  assert (Hlater : forall j w' d,
            frames j animateBackFace wk = (w', Ok tt) ->
            direction (vars w') = d ->
            exists k', k <= k' /\
              direction (vars (fst (frames k' animateBackFace w))) = d).
  { intros j w' d E H. exists (k + j). split; [lia|].
    rewrite (frames_add k j _ w wk Ek), E. exact H. }
  destruct Hdir as [H1|H4].
  - split; [|apply Hhere; exact H1].
    destruct (steps_reach (25 - last_z wk) (stride w) Hs) as (n & Hn).
    destruct (in_band_climbs w n wk Hnd Hne Hin H1 Hn) as (j & w' & E & _ & H).
    eapply Hlater; eauto.
  - split; [apply Hhere; exact H4|].
    destruct (steps_reach (last_z wk + (17 # 2)) (4 * stride w)) as (n & Hn);
      [lra|].
    destruct (in_band_descends w n wk Hnd Hne Hin H4 Hn) as (j & w' & E & _ & H).
    eapply Hlater; eauto.
Qed.

Lemma animateBackFace_keeps_turning_witness :
  let w := Fixture.back_world (- (5 # 2)) in
  NoDup (triangles (vars w)) /\
  2 <= length (triangles (vars w)) /\
  direction (vars w) = 1%Q /\
  (band_lo w <= last_z w)%Q /\
  (last_z w < 25)%Q /\
  forall k,
    (exists k', k <= k' /\
       direction (vars (fst (frames k' animateBackFace w))) = (- 4)%Q) /\
    (exists k', k <= k' /\
       direction (vars (fst (frames k' animateBackFace w))) = 1%Q).
Proof.
  cbv zeta.
  split; [apply NoDup_seq|]. split; [cbn; lia|]. split; [reflexivity|].
  split; [vm_compute; discriminate|]. split; [vm_compute; reflexivity|].
  apply (animateBackFace_keeps_turning (Fixture.back_world (- (5 # 2)))).
  - apply NoDup_seq.
  - cbn; lia.
  - reflexivity.
  - vm_compute; discriminate.
  - vm_compute; reflexivity.
Defined.

(** ** The planet *)

(** A frame of the bottom-face animator on the planet [p]. *)
Lemma animateBottomFace_eval (w : World) (p : NodeId) :
  planet (vars w) = Some p ->
  animateBottomFace w =
    (with_heap (upd_objs (alter (set_rotation (fun v =>
        Vector3.setY (Vector3.y v - (1 # 200)) v)) p))
       (with_heap (upd_objs (alter (set_rotation (fun v =>
           Vector3.setZ (Vector3.z v + (1 # 200)) v)) p))
          (with_heap (upd_objs (alter (set_rotation (fun v =>
              Vector3.setX (Vector3.x v + (1 # 200)) v)) p)) w)),
     Ok tt).
Proof.
  intros Hp. unfold animateBottomFace. munfold. unfold write_object, modify.
  rewrite Hp. cbn [vars with_heap]. rewrite Hp. cbn [vars with_heap].
  rewrite Hp. reflexivity.
Qed.

(** X8. The planet spins at a constant rate.  While [planet] is set, any
    number [k] of frames of the bottom-face animator run, and leave the
    planet's rotation at its start value plus [k * 0.005] about x and z and
    minus [k * 0.005] about y; its position, scale, children and material,
    every other node, every material and every variable are unchanged. *)
Theorem animateBottomFace_spins_planet (k : nat) (w : World) (p : NodeId) :
  planet (vars w) = Some p ->
  exists w',
    frames k animateBottomFace w = (w', Ok tt) /\
    (Vector3.x (rotation (objs (heap w') p))
       == Vector3.x (rotation (objs (heap w) p)) + num k * (1 # 200))%Q /\
    (Vector3.y (rotation (objs (heap w') p))
       == Vector3.y (rotation (objs (heap w) p)) - num k * (1 # 200))%Q /\
    (Vector3.z (rotation (objs (heap w') p))
       == Vector3.z (rotation (objs (heap w) p)) + num k * (1 # 200))%Q /\
    position (objs (heap w') p) = position (objs (heap w) p) /\
    scale (objs (heap w') p) = scale (objs (heap w) p) /\
    children (objs (heap w') p) = children (objs (heap w) p) /\
    material (objs (heap w') p) = material (objs (heap w) p) /\
    vars w' = vars w /\
    touches [p] w w'.
Proof.
  revert w. induction k as [|k IH]; intros w Hp.
  - exists w. split; [reflexivity|]. change (num 0) with 0%Q.
    repeat (split; [first [reflexivity | lra]|]). apply touches_refl.
  - pose proof (animateBottomFace_eval w p Hp) as E1.
    set (w1 := with_heap _ (with_heap _ (with_heap _ w))) in E1.
    assert (Hp1 : planet (vars w1) = Some p) by exact Hp.
    destruct (IH w1 Hp1) as (w' & E' & X & Y & Z & P & Sc & C & Mt & V & T).
    exists w'. split; [cbn [frames]; rewrite seq_eval, E1; exact E'|].
    assert (O1 : objs (heap w1) p =
                 set_rotation (fun v => Vector3.setY (Vector3.y v - (1 # 200)) v)
                   (set_rotation (fun v => Vector3.setZ (Vector3.z v + (1 # 200)) v)
                      (set_rotation (fun v => Vector3.setX (Vector3.x v + (1 # 200)) v)
                         (objs (heap w) p)))).
    { unfold w1. cbn [heap with_heap objs upd_objs].
      rewrite !fn_lookup_alter. reflexivity. }
    rewrite O1 in X, Y, Z, P, Sc, C, Mt.
    cbn [rotation set_rotation Vector3.x Vector3.y Vector3.z Vector3.setX
         Vector3.setY Vector3.setZ position scale children material] in *.
    pose proof (num_S k) as Hk.
    assert (Hk' : (num (S k) * (1 # 200) == num k * (1 # 200) + (1 # 200))%Q)
      by (rewrite Hk; ring).
    split; [rewrite X; lra|]. split; [rewrite Y; lra|]. split; [rewrite Z; lra|].
    repeat (split; [assumption|]).
    eapply touches_trans; [|exact T].
    assert (Hin : p ∈ [p]) by apply list_elem_of_here.
    unfold w1. touches_writes Hin.
Qed.

Lemma animateBottomFace_spins_planet_witness :
  let w := with_vars (set_planet (Some 1)) Fixture.world0 in
  planet (vars w) = Some 1 /\
  exists w',
    frames 200 animateBottomFace w = (w', Ok tt) /\
    (Vector3.x (rotation (objs (heap w') 1))
       == Vector3.x (rotation (objs (heap w) 1)) + num 200 * (1 # 200))%Q /\
    (Vector3.y (rotation (objs (heap w') 1))
       == Vector3.y (rotation (objs (heap w) 1)) - num 200 * (1 # 200))%Q /\
    (Vector3.z (rotation (objs (heap w') 1))
       == Vector3.z (rotation (objs (heap w) 1)) + num 200 * (1 # 200))%Q /\
    position (objs (heap w') 1) = position (objs (heap w) 1) /\
    scale (objs (heap w') 1) = scale (objs (heap w) 1) /\
    children (objs (heap w') 1) = children (objs (heap w) 1) /\
    material (objs (heap w') 1) = material (objs (heap w) 1) /\
    vars w' = vars w /\
    touches [1] w w'.
Proof.
  cbv zeta. split; [reflexivity|].
  apply (animateBottomFace_spins_planet 200
           (with_vars (set_planet (Some 1)) Fixture.world0) 1).
  reflexivity.
Defined.

(** * What the face loaders guarantee each other *)

Lemma concat_insert_perm {X} (gs : list (list X)) (i : nat) (g : list X) :
  gs !! i = Some g ->
  exists r, forall g', concat (<[i := g']> gs) ≡ₚ g' ++ r.
Proof.
  revert i. induction gs as [|x gs IH]; intros [|i] H; try discriminate.
  - exists (concat gs). intros g'. reflexivity.
  - destruct (IH i H) as (r & Hr). exists (x ++ r). intros g'.
    change (<[S i:=g']> (x :: gs)) with (x :: <[i:=g']> gs).
    cbn [concat]. rewrite (Hr g'). apply Permutation_app_swap_app.
Qed.

Section GuaranteeSound.

Variable GLTFLoader : string -> Heap -> option (NodeId * Heap).
Variable X : Type.
Variable Inv : list X -> World -> Prop.
Hypothesis Inv_perm : forall g g' w, g ≡ₚ g' -> Inv g w -> Inv g' w.

(** Running the synchronous head of a routine keeps the invariant. *)
Lemma Sat_advance {A} (Q : A -> list X -> Prop) (t : Async A) (g r : list X)
    (w w' : World) (t' : Async A) :
  Sat GLTFLoader X Inv Q g t ->
  Inv (g ++ r) w ->
  advance t w = (w', t') ->
  (exists e, t' = Raise e) \/
  (exists g', Sat GLTFLoader X Inv Q g' t' /\ Inv (g' ++ r) w').
Proof.
  revert g w. induction t as [a|e|B m k IH|p k IH|k IH]; intros g w Hs Hi E;
    cbn [advance] in E.
  - injection E as <- <-. right. eauto.
  - injection E as <- <-. left. eauto.
  - destruct (m w) as [w1 [b|e]] eqn:Em.
    + destruct (Hs r w w1 b Hi Em) as (g1 & Hi1 & Hs1).
      eapply IH; eauto.
    + injection E as <- <-. left. eauto.
  - injection E as <- <-. right. eauto.
  - injection E as <- <-. right. eauto.
Qed.

(** So does resuming it. *)
Lemma Sat_resume {A} (Q : A -> list X -> Prop) (t : Async A) (g r : list X)
    (w w' : World) (t' : Async A) :
  Sat GLTFLoader X Inv Q g t ->
  Inv (g ++ r) w ->
  resume GLTFLoader t w = (w', t') ->
  (exists e, t' = Raise e) \/
  (exists g', Sat GLTFLoader X Inv Q g' t' /\ Inv (g' ++ r) w').
Proof.
  intros Hs Hi E. destruct t as [a|e|B m k|p k|k]; cbn [resume] in E;
    try (eapply Sat_advance; eauto; fail).
  - destruct (GLTFLoader p (heap w)) as [[o h]|] eqn:Hload.
    + destruct (Hs r w o h Hi Hload) as (g1 & Hi1 & Hs1).
      eapply Sat_advance; eauto.
    + injection E as <- <-. left. eauto.
  - eapply (Sat_advance Q k g r w); eauto.
Qed.

(** A fulfilled routine holds what its guarantee promised. *)
Lemma Sat_fulfilled (ts : list (Async unit))
    (gqs : list (list X * (list X -> Prop))) :
  Forall2 (fun gq t => Sat GLTFLoader X Inv (fun _ => gq.2) gq.1 t) gqs ts ->
  forallb fulfilled ts = true ->
  Forall2 (fun g gq => gq.2 g) gqs.*1 gqs.
Proof.
  induction 1 as [|[g Q] t gqs ts Hs _ IH]; intros Hall; cbn [fmap list_fmap].
  - constructor.
  - cbn [forallb] in Hall. apply andb_prop in Hall as [Ht Hall].
    constructor; [|exact (IH Hall)].
    destruct t; try discriminate. exact Hs.
Qed.

(** When [Promise.all] is fulfilled the invariant holds, and every routine
    holds what its guarantee promised. *)
Lemma drive_sat (io : list nat) (ts : list (Async unit))
    (gqs : list (list X * (list X -> Prop))) (w w' : World) (h : History) :
  Forall2 (fun gq t => Sat GLTFLoader X Inv (fun _ => gq.2) gq.1 t) gqs ts ->
  Inv (concat gqs.*1) w ->
  drive GLTFLoader io ts w = (h, w', AllFulfilled) ->
  exists gs', Inv (concat gs') w' /\ Forall2 (fun g gq => gq.2 g) gs' gqs.
Proof.
  revert ts gqs w w' h.
  induction io as [|i io IH]; intros ts gqs w w' h HF Hi E; cbn [drive] in E.
  - destruct (first_rejection ts); [discriminate|].
    destruct (forallb fulfilled ts) eqn:Hall; [|discriminate].
    injection E as <- <-. exists gqs.*1. split; [exact Hi|].
    eapply Sat_fulfilled; eauto.
  - destruct (first_rejection ts); [discriminate|].
    destruct (forallb fulfilled ts) eqn:Hall.
    { injection E as <- <-. exists gqs.*1. split; [exact Hi|].
      eapply Sat_fulfilled; eauto. }
    destruct (ts !! i) as [t|] eqn:Hti; [|eapply IH; eauto].
    destruct (suspended t) eqn:Hsus; [|eapply IH; eauto].
    destruct (resume GLTFLoader t w) as [w1 t1] eqn:Er.
    destruct (drive GLTFLoader io (<[i:=t1]> ts) w1) as [[h1 w2] j] eqn:Ed.
    injection E as <- <- ->.
    destruct (Forall2_lookup_r _ _ _ _ _ HF Hti) as ([g Q] & Hgi & Hs).
    cbn [fst snd] in Hs.
    assert (Hgi' : gqs.*1 !! i = Some g)
      by (rewrite list_lookup_fmap, Hgi; reflexivity).
    destruct (concat_insert_perm gqs.*1 i g Hgi') as (r & Hr).
    assert (Hi' : Inv (g ++ r) w).
    { eapply Inv_perm; [|exact Hi]. rewrite <- (Hr g), list_insert_id by exact Hgi'.
      reflexivity. }
    destruct (Sat_resume (fun _ => Q) t g r w w1 t1 Hs Hi' Er)
      as [(e & ->)|(g' & Hs' & Hi1)].
    + exfalso. destruct io as [|i' io']; cbn [drive] in Ed;
        destruct (first_rejection (<[i:=Raise e]> ts)) eqn:Hfr;
        try discriminate;
        (eapply (first_rejection_Some (<[i:=Raise e]> ts) i e); [|exact Hfr]);
        apply list_lookup_insert_eq; eapply lookup_lt_Some; eauto.
    + destruct (IH (<[i:=t1]> ts) (<[i:=(g', Q)]> gqs) w1 w2 h1)
        as (gs' & Hinv & Hq); [| |exact Ed|].
      * apply Forall2_insert; assumption.
      * rewrite list_fmap_insert. cbn [fst].
        eapply Inv_perm; [|exact Hi1]. symmetry. apply Hr.
      * exists gs'. split; [exact Hinv|].
        assert (Hsnd : forall k, (<[i:=(g', Q)]> gqs).*2 !! k = gqs.*2 !! k).
        { intros k. rewrite list_fmap_insert. cbn [snd].
          destruct (decide (i = k)) as [->|Hne].
          - rewrite list_lookup_insert_eq
              by (rewrite length_fmap; eapply lookup_lt_Some; eauto).
            rewrite list_lookup_fmap, Hgi. reflexivity.
          - rewrite list_lookup_insert_ne by exact Hne. reflexivity. }
        apply Forall2_same_length_lookup. split.
        { assert (Hlen := Hq). apply Forall2_length in Hlen.
          rewrite Hlen, length_insert. reflexivity. }
        intros k x [y R] Hx Hy.
        assert (HR : (<[i:=(g', Q)]> gqs).*2 !! k = Some R)
          by (rewrite Hsnd, list_lookup_fmap, Hy; reflexivity).
        rewrite list_lookup_fmap in HR.
        destruct (<[i:=(g', Q)]> gqs !! k) as [[y' R']|] eqn:Hk; [|discriminate].
        cbn in HR. injection HR as ->.
        exact (Forall2_lookup_lr _ _ _ _ _ _ Hq Hx Hk).
Qed.

(** The guarantee of a statement does not depend on the order of what the
    routine holds. *)
Lemma Sat_sync_perm {A} (Q : A -> list X -> Prop) (m : M A) (g g' : list X) :
  g ≡ₚ g' ->
  Sat GLTFLoader X Inv Q g' (sync m) ->
  Sat GLTFLoader X Inv Q g (sync m).
Proof.
  intros Hp Hs r w w' b Hi Em. apply (Hs r w w' b); [|exact Em].
  eapply Inv_perm; [|exact Hi]. rewrite Hp. reflexivity.
Qed.

(** Nor does what it promises. *)
Lemma Sat_sync_reorder {A} (Q : A -> list X -> Prop) (m : M A) (g : list X) :
  Sat GLTFLoader X Inv (fun a g' => exists g'', g'' ≡ₚ g' /\ Q a g'') g (sync m) ->
  Sat GLTFLoader X Inv Q g (sync m).
Proof.
  intros Hs r w w' b Hi Em.
  destruct (Hs r w w' b Hi Em) as (g' & Hi' & g'' & Hp & HQ).
  exists g''. split; [|exact HQ].
  eapply Inv_perm; [|exact Hi']. rewrite Hp. reflexivity.
Qed.

(** How the guarantee composes along the constructs of the routines. *)
Lemma Sat_bind {A B} (Q : A -> list X -> Prop) (R : B -> list X -> Prop)
    (t : Async A) (f : A -> Async B) (g : list X) :
  Sat GLTFLoader X Inv Q g t ->
  (forall a g', Q a g' -> Sat GLTFLoader X Inv R g' (f a)) ->
  Sat GLTFLoader X Inv R g (t ≫= f).
Proof.
  intros Ht Hf. unfold mbind, Async_bind. revert g Ht.
  induction t as [a|e|C m k IH|p k IH|k IH]; intros g Ht; cbn [abind Sat] in *.
  - apply Hf. exact Ht.
  - exact I.
  - intros r w w' b Hi Em. destruct (Ht r w w' b Hi Em) as (g' & Hi' & Hs').
    exists g'. split; [exact Hi'|]. apply IH. exact Hs'.
  - intros r w o h Hi Hl. destruct (Ht r w o h Hi Hl) as (g' & Hi' & Hs').
    exists g'. split; [exact Hi'|]. apply IH. exact Hs'.
  - apply IH. exact Ht.
Qed.

Lemma Sat_conseq {A} (Q Q' : A -> list X -> Prop) (t : Async A) (g : list X) :
  Sat GLTFLoader X Inv Q g t ->
  (forall a g', Q a g' -> Q' a g') ->
  Sat GLTFLoader X Inv Q' g t.
Proof.
  intros Ht HQ. revert g Ht.
  induction t as [a|e|C m k IH|p k IH|k IH]; intros g Ht; cbn [Sat] in *.
  - apply HQ. exact Ht.
  - exact I.
  - intros r w w' b Hi Em. destruct (Ht r w w' b Hi Em) as (g' & Hi' & Hs').
    exists g'. split; [exact Hi'|]. apply IH. exact Hs'.
  - intros r w o h Hi Hl. destruct (Ht r w o h Hi Hl) as (g' & Hi' & Hs').
    exists g'. split; [exact Hi'|]. apply IH. exact Hs'.
  - apply IH. exact Ht.
Qed.

Lemma Sat_await {A} (Q : A -> list X -> Prop) (p : Async A) (g : list X) :
  Sat GLTFLoader X Inv Q g p -> Sat GLTFLoader X Inv Q g (await p).
Proof.
  intros H. unfold await. eapply Sat_bind; [exact H|].
  intros a g' HQ. exact HQ.
Qed.

Lemma Sat_sync {A} (Q : A -> list X -> Prop) (m : M A) (g : list X) :
  (forall r w w' a, Inv (g ++ r) w -> m w = (w', Ok a) ->
                    exists g', Inv (g' ++ r) w' /\ Q a g') ->
  Sat GLTFLoader X Inv Q g (sync m).
Proof. intros H r w w' a Hi Em. exact (H r w w' a Hi Em). Qed.

(** A loop whose every pass starts and ends holding the same. *)
Lemma Sat_afor (n i : nat) (body : nat -> Async unit) (g : list X) :
  (forall j, Sat GLTFLoader X Inv (fun _ g' => g' = g) g (body j)) ->
  Sat GLTFLoader X Inv (fun _ g' => g' = g) g (afor n i body).
Proof.
  intros H. revert i. induction n as [|n IH]; intros i; cbn [afor].
  - reflexivity.
  - eapply Sat_bind; [apply H|]. intros _ g' ->. apply IH.
Qed.

(** A loop with an invariant on what the routine holds. *)
Lemma Sat_afor_inv (P : nat -> list X -> Prop) (n i : nat)
    (body : nat -> Async unit) (g : list X) :
  P i g ->
  (forall j g', i <= j < i + n -> P j g' ->
     Sat GLTFLoader X Inv (fun _ => P (S j)) g' (body j)) ->
  Sat GLTFLoader X Inv (fun _ => P (i + n)) g (afor n i body).
Proof.
  revert i g. induction n as [|n IH]; intros i g Hg H; cbn [afor].
  - cbn [Sat]. rewrite Nat.add_0_r. exact Hg.
  - eapply Sat_bind; [apply H; [lia | exact Hg]|].
    intros u g' Hg'. cbv beta in Hg'. replace (i + S n) with (S i + n) by lia.
    apply IH; [exact Hg'|]. intros j g'' Hj. apply H. lia.
Qed.

End GuaranteeSound.

(** ** The invariant of the loading phase *)

Lemma submseteq_NoDup {A} (l k : list A) : l ⊆+ k -> NoDup k -> NoDup l.
Proof.
  intros Hsub Hk. apply submseteq_Permutation in Hsub as (k' & Hp).
  rewrite Hp in Hk. apply list.NoDup_app in Hk. tauto.
Qed.

Lemma elem_of_fetched (g : list Item) (a : NodeId) :
  a ∈ fetched g <-> exists s p, Own a s p ∈ g.
Proof.
  unfold fetched. rewrite list_elem_of_omap. split.
  - intros ([] & Hin & E); try discriminate. injection E as ->. eauto.
  - intros (s & p & Hin). exists (Own a s p). auto.
Qed.

Lemma elem_of_loaders (g : list Item) (c : Coll) :
  c ∈ loaders g <-> exists n, Len c n ∈ g.
Proof.
  unfold loaders. rewrite list_elem_of_omap. split.
  - intros ([] & Hin & E); try discriminate. injection E as ->. eauto.
  - intros (n & Hin). exists (Len c n). auto.
Qed.

Lemma kept_token (g : list Item) (a : NodeId) (p : Object3D -> Prop) :
  Kept a p ∈ g -> 1 <= length (tokens g).
Proof.
  intros Hin. assert (H : tt ∈ tokens g).
  { unfold tokens. rewrite list_elem_of_omap. exists (Kept a p). auto. }
  destruct (tokens g); [inversion H | cbn; lia].
Qed.

Lemma coll_loaded (c : Coll) (s : Vars) (a : NodeId) :
  a ∈ coll c s -> a ∈ loaded s.
Proof.
  unfold loaded. rewrite !elem_of_app. destruct c; cbn [coll]; try tauto.
  intros H. do 6 right. left.
  destruct (bars s !! i) as [g|] eqn:Hg; cbn in H; [|inversion H].
  apply elem_of_concat. exists g. split; [|exact H].
  eapply list_elem_of_lookup_2; eauto.
Qed.

Lemma coll_staged (c : Coll) (s : Vars) (a : NodeId) :
  is_staged c = true -> a ∈ coll c s -> a ∈ staged s.
Proof.
  unfold staged. rewrite !elem_of_app. destruct c; cbn [coll is_staged];
    try tauto; try discriminate.
  intros _ H. do 6 right. left.
  destruct (bars s !! i) as [g|] eqn:Hg; cbn in H; [|inversion H].
  apply elem_of_concat. exists g. split; [|exact H].
  eapply list_elem_of_lookup_2; eauto.
Qed.

Lemma planet_loaded (s : Vars) (a : NodeId) :
  planet s = Some a -> a ∈ loaded s.
Proof.
  intros H. unfold loaded. rewrite H, !elem_of_app. cbn [held].
  right. right. left. apply list_elem_of_here.
Qed.

Lemma planet_apart (c : Coll) (s : Vars) (a : NodeId) :
  NoDup (loaded s) -> planet s = Some a -> a ∉ coll c s.
Proof.
  unfold loaded. intros H Hp Hin. rewrite Hp in H. cbn [held] in H.
  apply list.NoDup_app in H as (_ & _ & H).
  apply list.NoDup_app in H as (_ & _ & H).
  change ([a] ++ ?l) with (a :: l) in H.
  apply list.NoDup_cons in H as [H _]. apply H.
  rewrite !elem_of_app. destruct c; cbn [coll] in Hin; try tauto.
  do 3 right. left.
  destruct (bars s !! i) as [g|] eqn:Hg; cbn in Hin; [|inversion Hin].
  apply elem_of_concat. exists g. split; [|exact Hin].
  eapply list_elem_of_lookup_2; eauto.
Qed.

(** What the pushes do to the list of loaded nodes. *)
Lemma concat_alter_push_perm (bs : list (list NodeId)) (i : nat) (o : NodeId) :
  i < length bs ->
  concat (alter (fun g => g ++ [o]) i bs) ≡ₚ o :: concat bs.
Proof.
  revert i. induction bs as [|g bs IH]; intros [|i] Hi; cbn in Hi; try lia.
  - cbn. rewrite <- app_assoc. cbn [app]. symmetry. apply Permutation_middle.
  - change (alter (fun g0 => g0 ++ [o]) (S i) (g :: bs))
      with (g :: alter (fun g0 => g0 ++ [o]) i bs).
    cbn [concat]. rewrite IH by lia. symmetry. apply Permutation_middle.
Qed.

Ltac loaded_perm :=
  cbn [impossibleCube block planet rings triangles blocks bars hexagons diamonds
       set_impossibleCube set_block set_planet set_rings set_triangles
       set_blocks set_bars set_hexagons set_diamonds held];
  repeat rewrite <- app_assoc; cbn [app]; symmetry;
  repeat first
    [ reflexivity
    | apply Permutation_cons_append
    | etransitivity; [apply Permutation_middle|]; apply Permutation_app_head ].

Lemma loaded_push (c : Coll) (a : NodeId) (s : Vars) :
  (forall i, c = CBars i -> i < length (bars s)) ->
  loaded (push c a s) ≡ₚ a :: loaded s.
Proof.
  intros Hi. unfold loaded. destruct c; cbn [push]; try loaded_perm.
  cbn [impossibleCube block planet rings triangles blocks bars hexagons diamonds
       set_bars].
  rewrite (concat_alter_push_perm _ _ _ (Hi i eq_refl)). symmetry.
  repeat first
    [ reflexivity
    | etransitivity; [apply Permutation_middle|]; apply Permutation_app_head ].
Qed.

Lemma staged_push (c : Coll) (a : NodeId) (s : Vars) :
  (forall i, c = CBars i -> i < length (bars s)) ->
  staged (push c a s) ≡ₚ (if is_staged c then [a] else []) ++ staged s.
Proof.
  intros Hi. unfold staged.
  destruct c; cbn [push is_staged]; cbn [app]; try loaded_perm.
  cbn [impossibleCube block planet rings triangles blocks bars hexagons diamonds
       set_bars].
  rewrite (concat_alter_push_perm _ _ _ (Hi i eq_refl)). symmetry.
  repeat first
    [ reflexivity
    | etransitivity; [apply Permutation_middle|]; apply Permutation_app_head ].
Qed.

Lemma coll_push_same (c : Coll) (a : NodeId) (s : Vars) :
  (forall i, c = CBars i -> i < length (bars s)) ->
  coll c (push c a s) = coll c s ++ [a].
Proof.
  intros Hi. destruct c; try reflexivity.
  cbn [coll push bars set_bars]. rewrite list_lookup_alter.
  destruct (lookup_lt_is_Some_2 (bars s) i (Hi i eq_refl)) as [g Hg].
  rewrite Hg. destruct (decide (i = i)); [reflexivity | congruence].
Qed.

Lemma coll_push_other (c c' : Coll) (a : NodeId) (s : Vars) :
  c' <> c -> coll c' (push c a s) = coll c' s.
Proof.
  intros Hne. destruct c, c'; try reflexivity; try congruence.
  cbn [coll push bars set_bars]. rewrite list_lookup_alter_ne; [reflexivity|].
  congruence.
Qed.

Lemma loaded_set_block (s : Vars) (a : NodeId) :
  loaded (set_block (Some a) s) ⊆+ a :: loaded s.
Proof.
  unfold loaded. cbn [impossibleCube block planet rings triangles blocks bars
                      hexagons diamonds set_block held].
  rewrite (Permutation_middle (held (impossibleCube s))).
  apply submseteq_skips_l. cbn [app]. apply submseteq_skip.
  apply submseteq_inserts_l. reflexivity.
Qed.

Lemma loaded_set_planet (s : Vars) (a : NodeId) :
  loaded (set_planet (Some a) s) ⊆+ a :: loaded s.
Proof.
  unfold loaded. cbn [impossibleCube block planet rings triangles blocks bars
                      hexagons diamonds set_planet held].
  rewrite (Permutation_middle (held (impossibleCube s))).
  apply submseteq_skips_l.
  rewrite (Permutation_middle (held (block s))).
  apply submseteq_skips_l. cbn [app]. apply submseteq_skip.
  apply submseteq_inserts_l. reflexivity.
Qed.

Lemma staged_set_block (s : Vars) (a x : NodeId) :
  x ∈ staged (set_block (Some a) s) -> x = a \/ x ∈ staged s.
Proof.
  unfold staged. cbn [impossibleCube block planet rings triangles blocks bars
                      hexagons diamonds set_block held].
  rewrite !elem_of_app, list_elem_of_singleton. tauto.
Qed.

Lemma staged_set_planet (s : Vars) (a x : NodeId) :
  x ∈ staged (set_planet (Some a) s) -> x = a \/ x ∈ staged s.
Proof.
  unfold staged. cbn [impossibleCube block planet rings triangles blocks bars
                      hexagons diamonds set_planet held].
  rewrite !elem_of_app, list_elem_of_singleton. tauto.
Qed.

(** The invariant does not depend on the order in which the routines are
    listed. *)
Lemma scene_inv_perm (w0 : World) (g g' : list Item) (w : World) :
  g ≡ₚ g' -> scene_inv w0 g w -> scene_inv w0 g' w.
Proof.
  intros Hp [H1 H2 H3 H4 H5 H6 H7 H8 H9 H10 H11 H12 H13 H14 H15 H16 H17 H18 H19 H20].
  assert (Hf : fetched g ≡ₚ fetched g') by (unfold fetched; rewrite Hp; reflexivity).
  assert (Ht : tokens g ≡ₚ tokens g') by (unfold tokens; rewrite Hp; reflexivity).
  assert (Hl : loaders g ≡ₚ loaders g') by (unfold loaders; rewrite Hp; reflexivity).
  split; try assumption.
  - rewrite <- Hf. exact H2.
  - rewrite <- Hf. exact H3.
  - intros a s p Hin. apply (H4 a s p). rewrite Hp. exact Hin.
  - intros a p Hin. apply (H5 a p). rewrite Hp. exact Hin.
  - rewrite <- Ht. exact H7.
  - intros c n Hin. apply (H8 c n). rewrite Hp. exact Hin.
  - rewrite <- Hl. exact H9.
  - intros a p Hin. apply (H10 a p). rewrite Hp. exact Hin.
  - intros a Hin. destruct (H11 a Hin) as [H|H]; [left; exact H|].
    right. rewrite <- Hp. exact H.
  - intros a Hin. destruct (H12 a Hin) as [H|(x & Hx & [H|(p & H)])].
    + left. rewrite <- Hp. exact H.
    + right. exists x. auto.
    + right. exists x. split; [exact Hx|]. right. exists p.
      rewrite <- Hp. exact H.
  - intros a [Ha|(q & Ha)]; apply H18.
    + left. rewrite Hf. exact Ha.
    + right. exists q. rewrite Hp. exact Ha.
Qed.

(** What a routine owns, nothing else holds. *)
Lemma own_apart (w0 : World) (a : NodeId) (s : Stage)
    (p : Object3D -> Prop) (r : list Item) (w : World) :
  scene_inv w0 (Own a s p :: r) w ->
  scene < a /\ (a ∉ loaded (vars w)) /\ (a ∉ fetched r) /\
  (forall c, a ∉ coll c (vars w)) /\
  (forall b q, Kept b q ∈ r -> b <> a).
Proof.
  intros H. pose proof (si_distinct _ _ _ H) as Hd.
  pose proof (si_allocated _ _ _ H) as Ha.
  cbn [fetched omap list_omap] in Hd, Ha. fold (fetched r) in Hd, Ha.
  apply list.NoDup_app in Hd as (_ & Hdis & Hf).
  apply list.NoDup_cons in Hf as [Hf _].
  assert (Hl : a ∉ loaded (vars w)).
  { intros Hin. apply (Hdis a Hin). apply list_elem_of_here. }
  split.
  { rewrite List.Forall_forall in Ha.
    apply (Ha a). apply list_elem_of_In. apply elem_of_app. right.
    apply list_elem_of_here. }
  split; [exact Hl|]. split; [exact Hf|]. split.
  - intros c Hin. apply Hl. eapply coll_loaded; eauto.
  - intros b q Hin ->. apply Hl. apply planet_loaded.
    apply (si_kept _ _ _ H a q). apply list_elem_of_further. exact Hin.
Qed.

(** The scene is no node of the loaders. *)
Lemma scene_apart (w0 : World) (g : list Item) (w : World) :
  scene_inv w0 g w ->
  (forall c, scene ∉ coll c (vars w)) /\
  (forall s p, Own scene s p ∉ g) /\
  (forall p, Kept scene p ∉ g).
Proof.
  intros H. pose proof (si_allocated _ _ _ H) as Ha.
  rewrite List.Forall_forall in Ha.
  assert (Hno : forall a, a ∈ loaded (vars w) ++ fetched g -> a <> scene).
  { intros a Hin ->. apply list_elem_of_In in Hin. apply Ha in Hin. lia. }
  split; [|split].
  - intros c Hin. apply (Hno scene); [|reflexivity].
    apply elem_of_app. left. eapply coll_loaded; eauto.
  - intros s p Hin. apply (Hno scene); [|reflexivity].
    apply elem_of_app. right. apply elem_of_fetched. eauto.
  - intros p Hin. apply (Hno scene); [|reflexivity].
    apply elem_of_app. left. apply planet_loaded.
    apply (si_kept _ _ _ H scene p Hin).
Qed.

(** Case analysis on an item of a list that starts with known items. *)
Ltac ghost H :=
  repeat (apply elem_of_cons in H as [H|H];
          [first [discriminate H | inversion H; subst; clear H]|]);
  try (apply elem_of_cons in H as [H|H];
       [first [discriminate H | inversion H; subst; clear H]|]).

Section SceneSteps.

Variable w0 : World.

(** A write to the node [x], which is in no collection and keeps the
    children it has: what has to be shown of what the routines hold
    afterwards. *)
Lemma si_alter (x : NodeId) (F : Object3D -> Object3D) (g g' : list Item)
    (w : World) :
  scene_inv w0 g w ->
  (forall o y, y ∈ children o -> y ∈ children (F o)) ->
  (forall c, x ∉ coll c (vars w)) ->
  fetched g' = fetched g ->
  tokens g' = tokens g ->
  loaders g' = loaders g ->
  (forall c n, Len c n ∈ g' -> Len c n ∈ g) ->
  (forall a s p, Own a s p ∈ g' -> p (alter F x (objs (heap w)) a)) ->
  (forall a p, Kept a p ∈ g' ->
               p (alter F x (objs (heap w)) a) /\ planet (vars w) = Some a) ->
  (forall a p, Own a InScene p ∈ g' ->
               a ∈ children (alter F x (objs (heap w)) scene)) ->
  (forall a, Due a ∈ g ->
             Due a ∈ g' \/ a ∈ children (alter F x (objs (heap w)) scene)) ->
  (forall a, Loose a ∈ g ->
             Loose a ∈ g' \/
             exists y, a ∈ children (alter F x (objs (heap w)) y) /\
                       exists p, Own y Host p ∈ g') ->
  (forall a p, Own a Host p ∈ g -> exists q, Own a Host q ∈ g') ->
  (x <> scene -> allocated (heap w0) <= x) ->
  (x = scene -> exists a, F = set_children (fun cs => cs ++ [a])) ->
  (forall a p, Kept a p ∈ g' -> exists q, Kept a q ∈ g) ->
  scene_inv w0 g' (with_heap (upd_objs (alter F x)) w).
Proof.
  intros [H1 H2 H3 H4 H5 H6 H7 H8 H9 H10 H11 H12 H13 H14 H15 H16 H17 H18 H19 H20]
    HF Hx Ef Et El Hlen Hown Hkept Hadd Hdue Hloose Hhost Hx0 Hsc Hkeep.
  assert (Hgrow : forall a y, y ∈ children (objs (heap w) a) ->
                              y ∈ children (alter F x (objs (heap w)) a)).
  { intros a y Hy. unfold alter, fn_alter.
    destruct (decide (x = a)) as [->|]; [apply HF|]; exact Hy. }
  split; cbn [heap vars with_heap upd_objs objs allocated random_source];
    try assumption.
  - rewrite Ef. exact H2.
  - rewrite Ef. exact H3.
  - intros c k a Hk. rewrite fn_lookup_alter_ne; [apply H6; exact Hk|].
    intros ->. apply (Hx c). eapply list_elem_of_lookup_2; eauto.
  - rewrite Et. exact H7.
  - intros c n Hin. apply H8, Hlen, Hin.
  - rewrite El. exact H9.
  - intros a Hin. destruct (H11 a Hin) as [H|H]; [left; apply Hgrow, H|].
    destruct (Hdue a H); auto.
  - intros a Hin. destruct (H12 a Hin) as [H|(y & Hy & [H|(p & H)])].
    + destruct (Hloose a H) as [H'|(y & Hy & H')]; [left; exact H'|].
      right. exists y. split; [exact Hy|]. right. exact H'.
    + right. exists y. split; [apply Hgrow, Hy|]. left. exact H.
    + right. exists y. split; [apply Hgrow, Hy|]. right.
      exact (Hhost y p H).
  - intros a [Ha|(q & Ha)]; apply H18.
    + left. rewrite <- Ef. exact Ha.
    + right. exact (Hkeep a q Ha).
  - intros a Ha Hne. rewrite fn_lookup_alter_ne; [apply H19; assumption|].
    intros ->. specialize (Hx0 Hne). lia.
  - destruct H20 as (extra & Hex). destruct (decide (x = scene)) as [->|Hne].
    + destruct (Hsc eq_refl) as (a & ->). exists (extra ++ [a]).
      rewrite fn_lookup_alter, Hex. unfold set_children. cbn.
      rewrite app_assoc. reflexivity.
    + exists extra. rewrite fn_lookup_alter_ne by exact Hne. exact Hex.
Qed.

Lemma alter_grows (F : Object3D -> Object3D) (x a y : NodeId)
    (objs : NodeId -> Object3D) :
  (forall o y, y ∈ children o -> y ∈ children (F o)) ->
  y ∈ children (objs a) -> y ∈ children (alter F x objs a).
Proof.
  intros HF Hy. unfold alter, fn_alter.
  destruct (decide (x = a)) as [->|]; [apply HF|]; exact Hy.
Qed.

(** A write to the material store. *)
Lemma si_mats (g : list Item) (w : World)
    (F : (MatId -> Material) -> MatId -> Material) :
  scene_inv w0 g w ->
  scene_inv w0 g (with_heap (upd_mats F) w).
Proof. intros []. split; assumption. Qed.

(** A write to a node that the routine owns. *)
Lemma si_write_own (a : NodeId) (s : Stage) (p : Object3D -> Prop)
    (F : Object3D -> Object3D) (r : list Item) (w : World) :
  (forall o, children (F o) = children o) ->
  scene_inv w0 (Own a s p :: r) w ->
  scene_inv w0 (Own a s (after F p) :: r)
    (with_heap (upd_objs (alter F a)) w).
Proof.
  intros HF H.
  destruct (own_apart _ _ _ _ _ _ H) as (Hsc & Hl & Hf & Hc & Hk).
  assert (Hne : forall b t q, Own b t q ∈ r -> a <> b).
  { intros b t q Hin ->. apply Hf. apply elem_of_fetched. eauto. }
  apply (si_alter a F (Own a s p :: r)); try reflexivity; try assumption.
  - intros o y. rewrite HF. auto.
  - intros c n Hin. ghost Hin. apply list_elem_of_further, Hin.
  - intros b t q Hin. ghost Hin.
    + rewrite fn_lookup_alter. eexists; split; [|reflexivity].
      eapply (si_own _ _ _ H); apply list_elem_of_here.
    + rewrite fn_lookup_alter_ne by (eapply Hne; eauto).
      apply (si_own _ _ _ H b t q). apply list_elem_of_further, Hin.
  - intros b q Hin. ghost Hin.
    rewrite fn_lookup_alter_ne by (intros ->; eapply Hk; eauto).
    apply (si_kept _ _ _ H b q). apply list_elem_of_further, Hin.
  - intros b q Hin. apply alter_grows; [intros o y; rewrite HF; auto|].
    ghost Hin.
    + eapply (si_added _ _ _ H); apply list_elem_of_here.
    + apply (si_added _ _ _ H b q). apply list_elem_of_further, Hin.
  - intros b Hin. left. ghost Hin. apply list_elem_of_further, Hin.
  - intros b Hin. left. ghost Hin. apply list_elem_of_further, Hin.
  - intros b q Hin. ghost Hin.
    + eexists. apply list_elem_of_here.
    + exists q. apply list_elem_of_further, Hin.
  - intros _. apply (si_new _ _ _ H). left. apply elem_of_fetched.
    exists s, p. apply list_elem_of_here.
  - intros ->. lia.
  - intros b q Hin. ghost Hin. exists q. apply list_elem_of_further, Hin.
Qed.

(** A write to the planet by the routine that keeps it. *)
Lemma si_write_kept (a : NodeId) (p : Object3D -> Prop)
    (F : Object3D -> Object3D) (r : list Item) (w : World) :
  (forall o, children (F o) = children o) ->
  scene_inv w0 (Kept a p :: r) w ->
  scene_inv w0 (Kept a (after F p) :: r)
    (with_heap (upd_objs (alter F a)) w).
Proof.
  intros HF H.
  destruct (si_kept _ _ _ H a p (list_elem_of_here _ _)) as [Hp Hpl].
  assert (Hnd : NoDup (loaded (vars w)))
    by (pose proof (si_distinct _ _ _ H) as Hd;
        apply list.NoDup_app in Hd; tauto).
  assert (Hne : forall b t q, Own b t q ∈ r -> a <> b).
  { intros b t q Hin ->.
    pose proof (si_distinct _ _ _ H) as Hd.
    apply list.NoDup_app in Hd as (_ & Hdis & _).
    apply (Hdis b (planet_loaded _ _ Hpl)).
    apply elem_of_fetched. exists t, q. apply list_elem_of_further, Hin. }
  assert (Hnk : forall b q, Kept b q ∉ r).
  { intros b q Hin. pose proof (si_token _ _ _ H) as Ht.
    apply kept_token in Hin. cbn in Ht. unfold tokens in Hin. lia. }
  apply (si_alter a F (Kept a p :: r)); try reflexivity; try assumption.
  - intros o y. rewrite HF. auto.
  - intros c. apply planet_apart; assumption.
  - intros c n Hin. ghost Hin. apply list_elem_of_further, Hin.
  - intros b t q Hin. ghost Hin.
    rewrite fn_lookup_alter_ne by (eapply Hne; eauto).
    apply (si_own _ _ _ H b t q). apply list_elem_of_further, Hin.
  - intros b q Hin. ghost Hin.
    + rewrite fn_lookup_alter. split; [|exact Hpl].
      eexists; split; [|reflexivity]. exact Hp.
    + exfalso. eapply Hnk; eauto.
  - intros b q Hin. apply alter_grows; [intros o y; rewrite HF; auto|].
    ghost Hin. apply (si_added _ _ _ H b q). apply list_elem_of_further, Hin.
  - intros b Hin. left. ghost Hin. apply list_elem_of_further, Hin.
  - intros b Hin. left. ghost Hin. apply list_elem_of_further, Hin.
  - intros b q Hin. ghost Hin. exists q. apply list_elem_of_further, Hin.
  - intros _. apply (si_new _ _ _ H). right. exists p. apply list_elem_of_here.
  - intros ->. exfalso.
    eapply (proj2 (proj2 (scene_apart _ _ _ H))). apply list_elem_of_here.
  - intros b q Hin. ghost Hin.
    + eexists. apply list_elem_of_here.
    + exists q. apply list_elem_of_further, Hin.
Qed.

Lemma children_add (o : Object3D) (a y : NodeId) :
  y ∈ children o -> y ∈ children (set_children (fun cs => cs ++ [a]) o).
Proof. intros H. cbn. apply elem_of_app. left. exact H. Qed.

Lemma children_added (objs : NodeId -> Object3D) (x a : NodeId) :
  a ∈ children (alter (set_children (fun cs => cs ++ [a])) x objs x).
Proof.
  rewrite fn_lookup_alter. cbn. apply elem_of_app. right.
  apply list_elem_of_here.
Qed.

(** The routine adds to the scene a node that it owns. *)
Lemma si_add_own (a : NodeId) (p : Object3D -> Prop) (r : list Item)
    (w : World) :
  scene_inv w0 (Own a Bare p :: r) w ->
  scene_inv w0 (Own a InScene p :: r)
    (with_heap (upd_objs (alter (set_children (fun cs => cs ++ [a])) scene)) w).
Proof.
  intros H.
  destruct (scene_apart _ _ _ H) as (Hc & Ho & Hk).
  apply (si_alter scene _ (Own a Bare p :: r)); try reflexivity;
    try assumption.
  - intros o y. apply children_add.
  - intros c n Hin. ghost Hin. apply list_elem_of_further, Hin.
  - intros b t q Hin.
    assert (Hb : scene <> b).
    { intros <-. ghost Hin.
      - eapply Ho. apply list_elem_of_here.
      - eapply Ho. apply list_elem_of_further, Hin. }
    rewrite fn_lookup_alter_ne by exact Hb. ghost Hin.
    + eapply (si_own _ _ _ H); apply list_elem_of_here.
    + apply (si_own _ _ _ H b t q). apply list_elem_of_further, Hin.
  - intros b q Hin. ghost Hin.
    rewrite fn_lookup_alter_ne
      by (intros <-; eapply Hk; apply list_elem_of_further, Hin).
    apply (si_kept _ _ _ H b q). apply list_elem_of_further, Hin.
  - intros b q Hin. ghost Hin.
    + apply children_added.
    + apply alter_grows; [intros o y; apply children_add|].
      apply (si_added _ _ _ H b q). apply list_elem_of_further, Hin.
  - intros b Hin. left. ghost Hin. apply list_elem_of_further, Hin.
  - intros b Hin. left. ghost Hin. apply list_elem_of_further, Hin.
  - intros b q Hin. ghost Hin. exists q. apply list_elem_of_further, Hin.
  - intros Hne. congruence.
  - intros _. eexists. reflexivity.
  - intros b q Hin. ghost Hin. exists q. apply list_elem_of_further, Hin.
Qed.

(** The routine adds to the scene a node that was due. *)
Lemma si_add_due (a : NodeId) (r : list Item) (w : World) :
  scene_inv w0 (Due a :: r) w ->
  scene_inv w0 r
    (with_heap (upd_objs (alter (set_children (fun cs => cs ++ [a])) scene)) w).
Proof.
  intros H.
  destruct (scene_apart _ _ _ H) as (Hc & Ho & Hk).
  apply (si_alter scene _ (Due a :: r)); try reflexivity; try assumption.
  - intros o y. apply children_add.
  - intros c n Hin. apply list_elem_of_further, Hin.
  - intros b t q Hin.
    rewrite fn_lookup_alter_ne
      by (intros <-; eapply Ho; apply list_elem_of_further, Hin).
    apply (si_own _ _ _ H b t q). apply list_elem_of_further, Hin.
  - intros b q Hin.
    rewrite fn_lookup_alter_ne
      by (intros <-; eapply Hk; apply list_elem_of_further, Hin).
    apply (si_kept _ _ _ H b q). apply list_elem_of_further, Hin.
  - intros b q Hin. apply alter_grows; [intros o y; apply children_add|].
    apply (si_added _ _ _ H b q). apply list_elem_of_further, Hin.
  - intros b Hin. ghost Hin; [right; apply children_added | left; exact Hin].
  - intros b Hin. left. ghost Hin. exact Hin.
  - intros b q Hin. ghost Hin. exists q. exact Hin.
  - intros Hne. congruence.
  - intros _. eexists. reflexivity.
  - intros b q Hin. exists q. apply list_elem_of_further, Hin.
Qed.

(** The routine adds a loose hexagon to a node that it owns. *)
Lemma si_add_under (a x : NodeId) (s : Stage) (p : Object3D -> Prop)
    (r : list Item) (w : World) :
  s <> InScene ->
  scene_inv w0 (Loose a :: Own x s p :: r) w ->
  scene_inv w0
    (Own x Host (after (set_children (fun cs => cs ++ [a])) p) :: r)
    (with_heap (upd_objs (alter (set_children (fun cs => cs ++ [a])) x)) w).
Proof.
  intros Hs H.
  assert (H' : scene_inv w0 (Own x s p :: Loose a :: r) w)
    by (eapply scene_inv_perm; [apply perm_swap | exact H]).
  destruct (own_apart _ _ _ _ _ _ H') as (Hsc & Hl & Hf & Hc & Hk).
  assert (Hne : forall b t q, Own b t q ∈ r -> x <> b).
  { intros b t q Hin ->. apply Hf. apply elem_of_fetched.
    exists t, q. apply list_elem_of_further, Hin. }
  apply (si_alter x _ (Loose a :: Own x s p :: r)); try reflexivity;
    try assumption.
  - intros o y. apply children_add.
  - intros c n Hin. ghost Hin. do 2 apply list_elem_of_further. exact Hin.
  - intros b t q Hin. ghost Hin.
    + rewrite fn_lookup_alter. eexists; split; [|reflexivity].
      eapply (si_own _ _ _ H'); apply list_elem_of_here.
    + rewrite fn_lookup_alter_ne by (eapply Hne; eauto).
      apply (si_own _ _ _ H b t q). do 2 apply list_elem_of_further.
      exact Hin.
  - intros b q Hin. ghost Hin.
    rewrite fn_lookup_alter_ne
      by (intros ->; eapply Hk; [apply list_elem_of_further; eauto | reflexivity]).
    apply (si_kept _ _ _ H b q). do 2 apply list_elem_of_further.
    exact Hin.
  - intros b q Hin. apply alter_grows; [intros o y; apply children_add|].
    ghost Hin. apply (si_added _ _ _ H b q).
    do 2 apply list_elem_of_further. exact Hin.
  - intros b Hin. left. ghost Hin. apply list_elem_of_further, Hin.
  - intros b Hin. ghost Hin.
    + right. exists x. split; [apply children_added|].
      eexists. apply list_elem_of_here.
    + left. apply list_elem_of_further, Hin.
  - intros b q Hin. ghost Hin.
    + eexists. apply list_elem_of_here.
    + exists q. apply list_elem_of_further, Hin.
  - intros _. apply (si_new _ _ _ H'). left. apply elem_of_fetched.
    exists s, p. apply list_elem_of_here.
  - intros ->. lia.
  - intros b q Hin. ghost Hin. exists q. do 2 apply list_elem_of_further.
    exact Hin.
Qed.

(** A fetch, on a loader that only adds to the store. *)
Lemma si_fetch (loader : string -> Heap -> option (NodeId * Heap))
    (g : list Item) (w : World) (path : string) (o : NodeId) (h : Heap) :
  extends_store loader ->
  scene_inv w0 g w ->
  loader path (heap w) = Some (o, h) ->
  scene_inv w0 (Own o Bare (fun _ => True) :: g)
    (with_heap (fun _ => h) w).
Proof.
  intros Hext H Hload. destruct (Hext _ _ _ _ Hload) as [[Hlo Hhi] Hsame].
  pose proof H as [H1 H2 H3 H4 H5 H6 H7 H8 H9 H10 H11 H12 H13 H14 H15 H16 H17 H18 H19 H20].
  assert (Hlt : forall a, a ∈ loaded (vars w) ++ fetched g ->
                          scene < a < allocated (heap w)).
  { intros a Hin. rewrite List.Forall_forall in H3. apply H3.
    apply list_elem_of_In. exact Hin. }
  assert (Hown : forall a s p, Own a s p ∈ g -> objs h a = objs (heap w) a).
  { intros a s p Hin. apply Hsame. apply Hlt. apply elem_of_app. right.
    apply elem_of_fetched. eauto. }
  assert (Hcoll : forall a, a ∈ loaded (vars w) -> objs h a = objs (heap w) a).
  { intros a Hin. apply Hsame. apply Hlt. apply elem_of_app. left. exact Hin. }
  assert (Hsc : objs h scene = objs (heap w) scene) by (apply Hsame; lia).
  split; cbn [heap vars with_heap objs allocated random_source];
    try assumption.
  - lia.
  - cbn [fetched omap list_omap]. fold (fetched g).
    rewrite <- Permutation_middle. apply list.NoDup_cons. split; [|exact H2].
    intros Hin. apply Hlt in Hin. lia.
  - cbn [fetched omap list_omap]. fold (fetched g).
    rewrite <- Permutation_middle. apply List.Forall_cons; [lia|].
    eapply List.Forall_impl; [|exact H3]. cbv beta. intros a Ha. lia.
  - intros a s p Hin. ghost Hin; [exact I|].
    rewrite (Hown a s p Hin). eapply H4; eauto.
  - intros a p Hin. ghost Hin. destruct (H5 a p Hin) as [Hp Hpl].
    rewrite (Hcoll a (planet_loaded _ _ Hpl)). auto.
  - intros c k a Hk. rewrite Hcoll; [apply H6; exact Hk|].
    eapply coll_loaded, list_elem_of_lookup_2; eauto.
  - intros c n Hin. ghost Hin. apply H8, Hin.
  - intros a p Hin. ghost Hin. rewrite Hsc. eapply H10; eauto.
  - intros a Hin. rewrite Hsc. destruct (H11 a Hin) as [Ha|Ha]; [left; exact Ha|].
    right. apply list_elem_of_further, Ha.
  - intros a Hin. destruct (H12 a Hin) as [Ha|(y & Hy & [Hd|(p & Hp)])].
    + left. apply list_elem_of_further, Ha.
    + right. exists y. rewrite Hcoll by (apply (coll_loaded CDiamonds), Hd).
      auto.
    + right. exists y. rewrite (Hown y Host p Hp). split; [exact Hy|].
      right. exists p. apply list_elem_of_further, Hp.
  - lia.
  - intros a [Ha|(q & Ha)].
    + cbn [fetched omap list_omap] in Ha. fold (fetched g) in Ha.
      apply elem_of_cons in Ha as [->|Ha]; [lia|]. apply H18. auto.
    + ghost Ha. apply H18. eauto.
  - intros a Ha Hne. rewrite Hsame by lia. apply H19; assumption.
  - rewrite Hsc. exact H20.
Qed.

(** The routine pushes a node that it owns onto the collection that it
    fills. *)
Lemma si_push (c : Coll) (a : NodeId) (s : Stage) (p : Object3D -> Prop)
    (n : nat) (r : list Item) (w : World) :
  scene_inv w0 (Own a s p :: Len c n :: r) w ->
  (forall o, p o -> layout c n o) ->
  fits s c ->
  (forall i, c = CBars i -> i < length (bars (vars w))) ->
  scene_inv w0 (pushed s c a ++ Len c (S n) :: r)
    (with_vars (push c a) w).
Proof.
  intros H Hp Hfit Hi.
  pose proof H as [H1 H2 H3 H4 H5 H6 H7 H8 H9 H10 H11 H12 H13 H14 H15 H16 H17 H18 H19 H20].
  assert (Hpr : forall x, x ∈ pushed s c a ++ Len c (S n) :: r ->
                          x = Len c (S n) \/ x ∈ r \/ x ∈ pushed s c a).
  { intros x. rewrite elem_of_app, elem_of_cons. tauto. }
  assert (Hnp : forall x, x ∈ pushed s c a -> x = Due a \/ x = Loose a).
  { intros x. unfold pushed. destruct s, (is_staged c);
      rewrite ?list_elem_of_singleton; try tauto; intros Hx; inversion Hx. }
  assert (Ef : fetched (pushed s c a ++ Len c (S n) :: r) = fetched r).
  { unfold fetched. rewrite omap_app.
    replace (omap _ (pushed s c a)) with (@nil NodeId);
      [reflexivity | unfold pushed; destruct s, (is_staged c); reflexivity]. }
  assert (Et : tokens (pushed s c a ++ Len c (S n) :: r) = tokens r).
  { unfold tokens. rewrite omap_app.
    replace (omap _ (pushed s c a)) with (@nil unit);
      [reflexivity | unfold pushed; destruct s, (is_staged c); reflexivity]. }
  assert (El : loaders (pushed s c a ++ Len c (S n) :: r) = c :: loaders r).
  { unfold loaders. rewrite omap_app.
    replace (omap _ (pushed s c a)) with (@nil Coll);
      [reflexivity | unfold pushed; destruct s, (is_staged c); reflexivity]. }
  assert (Hother : forall c' n', Len c' n' ∈ r -> c' <> c).
  { intros c' n' Hin ->. cbn [loaders omap list_omap] in H9.
    apply list.NoDup_cons in H9 as [H9 _]. apply H9.
    apply elem_of_loaders. eauto. }
  split; cbn [heap vars with_vars random_source]; try assumption.
  - rewrite Ef, (loaded_push c a _ Hi). cbn [app].
    rewrite Permutation_middle. exact H2.
  - rewrite Ef, (loaded_push c a _ Hi). cbn [app].
    rewrite Permutation_middle. exact H3.
  - intros b t q Hin. apply Hpr in Hin as [Hin|[Hin|Hin]]; [discriminate| |].
    + apply (H4 b t q). do 2 apply list_elem_of_further. exact Hin.
    + apply Hnp in Hin as [Hin|Hin]; discriminate.
  - intros b q Hin.
    replace (planet (push c a (vars w))) with (planet (vars w))
      by (destruct c; reflexivity).
    apply Hpr in Hin as [Hin|[Hin|Hin]]; [discriminate| |].
    + apply (H5 b q). do 2 apply list_elem_of_further. exact Hin.
    + apply Hnp in Hin as [Hin|Hin]; discriminate.
  - intros c' k b Hk. destruct (decide (c' = c)) as [->|Hne].
    + rewrite (coll_push_same c a _ Hi) in Hk.
      apply lookup_app_Some in Hk as [Hk|[Hlen Hk]]; [apply H6, Hk|].
      rewrite (H8 c n) in Hlen, Hk
        by (apply list_elem_of_further, list_elem_of_here).
      apply list_lookup_singleton_Some in Hk as [Hk <-].
      replace k with n by lia. apply Hp.
      apply (H4 a s p). apply list_elem_of_here.
    + rewrite (coll_push_other c c' a _ Hne) in Hk. apply H6, Hk.
  - rewrite Et. exact H7.
  - intros c' n' Hin. apply Hpr in Hin as [Hin|[Hin|Hin]].
    + injection Hin as -> ->. rewrite (coll_push_same c a _ Hi), length_app.
      rewrite (H8 c n) by (apply list_elem_of_further, list_elem_of_here).
      cbn. lia.
    + rewrite (coll_push_other c c' a _ (Hother c' n' Hin)).
      apply H8. do 2 apply list_elem_of_further. exact Hin.
    + apply Hnp in Hin as [Hin|Hin]; discriminate.
  - rewrite El. exact H9.
  - intros b q Hin. apply Hpr in Hin as [Hin|[Hin|Hin]]; [discriminate| |].
    + apply (H10 b q). do 2 apply list_elem_of_further. exact Hin.
    + apply Hnp in Hin as [Hin|Hin]; discriminate.
  - intros b Hin. rewrite (staged_push c a _ Hi) in Hin.
    apply elem_of_app in Hin as [Hin|Hin].
    + destruct (is_staged c) eqn:Hst; [|inversion Hin].
      apply list_elem_of_singleton in Hin as ->.
      destruct s; cbn [pushed]; rewrite ?Hst.
      * right. apply list_elem_of_here.
      * left. apply (H10 a p). apply list_elem_of_here.
      * right. apply list_elem_of_here.
    + destruct (H11 b Hin) as [Hb|Hb]; [left; exact Hb|].
      right. ghost Hb. apply elem_of_app. right.
      apply list_elem_of_further, Hb.
  - intros b Hin.
    assert (Hd : forall y, y ∈ diamonds (vars w) ->
                           y ∈ diamonds (push c a (vars w))).
    { intros y Hy. change (y ∈ coll CDiamonds (push c a (vars w))).
      destruct (decide (CDiamonds = c)) as [<-|Hne].
      - rewrite (coll_push_same CDiamonds a _ Hi). apply elem_of_app. auto.
      - rewrite (coll_push_other c CDiamonds a _ Hne). exact Hy. }
    assert (Hold : b ∈ hexagons (vars w) ->
              Loose b ∈ pushed s c a ++ Len c (S n) :: r \/
              exists x, b ∈ children (objs (heap w) x) /\
                (x ∈ diamonds (push c a (vars w)) \/
                 exists q, Own x Host q ∈ pushed s c a ++ Len c (S n) :: r)).
    { intros Hb. destruct (H12 b Hb) as [Hl|(y & Hy & [Hy'|(q & Hq)])].
      - left. ghost Hl. apply elem_of_app. right.
        apply list_elem_of_further, Hl.
      - right. exists y. auto.
      - right. exists y. split; [exact Hy|]. ghost Hq.
        + left. destruct c; try contradiction.
          cbn [push diamonds set_diamonds]. apply elem_of_app. right.
          apply list_elem_of_here.
        + right. exists q. apply elem_of_app. right.
          apply list_elem_of_further, Hq. }
    change (b ∈ coll CHexagons (push c a (vars w))) in Hin.
    destruct (decide (CHexagons = c)) as [<-|Hne].
    + rewrite (coll_push_same CHexagons a _ Hi) in Hin.
      apply elem_of_app in Hin as [Hin|Hin]; [exact (Hold Hin)|].
      apply list_elem_of_singleton in Hin as ->. left.
      destruct s; try contradiction; apply list_elem_of_here.
    + rewrite (coll_push_other c CHexagons a _ Hne) in Hin. exact (Hold Hin).
  - replace (direction (push c a (vars w))) with (direction (vars w))
      by (destruct c; reflexivity). exact H14.
  - replace (factor (push c a (vars w))) with (factor (vars w))
      by (destruct c; reflexivity). exact H15.
  - replace (impossibleCube (push c a (vars w)))
      with (impossibleCube (vars w)) by (destruct c; reflexivity). exact H16.
  - intros b [Hb|(q & Hb)]; apply H18.
    + left. rewrite Ef in Hb. cbn [fetched omap list_omap]. fold (fetched r).
      apply list_elem_of_further, Hb.
    + right. exists q. apply Hpr in Hb as [Hb|[Hb|Hb]]; [discriminate| |].
      * do 2 apply list_elem_of_further. exact Hb.
      * apply Hnp in Hb as [Hb|Hb]; discriminate.
Qed.

Lemma coll_set_planet (c : Coll) (v : option NodeId) (s : Vars) :
  coll c (set_planet v s) = coll c s.
Proof. destruct c; reflexivity. Qed.

Lemma coll_set_block (c : Coll) (v : option NodeId) (s : Vars) :
  coll c (set_block v s) = coll c s.
Proof. destruct c; reflexivity. Qed.

(** The routine that may do so puts a node that it owns in [planet]. *)
Lemma si_set_planet (a : NodeId) (p : Object3D -> Prop) (r : list Item)
    (w : World) :
  scene_inv w0 (Own a Bare p :: MaySetPlanet :: r) w ->
  scene_inv w0 (Kept a p :: Due a :: r)
    (with_vars (set_planet (Some a)) w).
Proof.
  intros H.
  pose proof H as [H1 H2 H3 H4 H5 H6 H7 H8 H9 H10 H11 H12 H13 H14 H15 H16 H17 H18 H19 H20].
  assert (Hnk : forall b q, Kept b q ∉ r).
  { intros b q Hin. apply kept_token in Hin. cbn in H7.
    unfold tokens in Hin. lia. }
  pose proof (loaded_set_planet (vars w) a) as Hsub.
  cbn [fetched omap list_omap] in H2, H3. fold (fetched r) in H2, H3.
  rewrite <- Permutation_middle in H2, H3.
  split; cbn [heap vars with_vars random_source]; try assumption.
  - cbn [fetched omap list_omap]. fold (fetched r).
    eapply submseteq_NoDup; [|exact H2].
    change (a :: loaded (vars w) ++ fetched r)
      with ((a :: loaded (vars w)) ++ fetched r).
    apply submseteq_skips_r. exact Hsub.
  - cbn [fetched omap list_omap]. fold (fetched r).
    rewrite List.Forall_forall in *. intros x Hx. apply H3.
    apply list_elem_of_In. apply list_elem_of_In in Hx.
    change (a :: loaded (vars w) ++ fetched r)
      with ((a :: loaded (vars w)) ++ fetched r).
    apply elem_of_app in Hx as [Hx|Hx]; apply elem_of_app; [left|right; exact Hx].
    eapply elem_of_submseteq; eauto.
  - intros b t q Hin. ghost Hin. apply (H4 b t q).
    do 2 apply list_elem_of_further. exact Hin.
  - intros b q Hin. ghost Hin.
    + split; [|reflexivity]. eapply H4. apply list_elem_of_here.
    + exfalso. eapply Hnk; eauto.
  - intros c n Hin. rewrite coll_set_planet. ghost Hin. apply H8.
    do 2 apply list_elem_of_further. exact Hin.
  - intros b q Hin. ghost Hin. apply (H10 b q).
    do 2 apply list_elem_of_further. exact Hin.
  - intros b Hin. apply staged_set_planet in Hin as [->|Hin].
    + right. apply list_elem_of_further, list_elem_of_here.
    + destruct (H11 b Hin) as [Hb|Hb]; [left; exact Hb|].
      right. ghost Hb. do 2 apply list_elem_of_further. exact Hb.
  - intros b Hin. destruct (H12 b Hin) as [Hl|(y & Hy & [Hy'|(q & Hq)])].
    + left. ghost Hl. do 2 apply list_elem_of_further. exact Hl.
    + right. exists y. auto.
    + right. exists y. split; [exact Hy|]. right. exists q. ghost Hq.
      do 2 apply list_elem_of_further. exact Hq.
  - intros b [Hb|(q & Hb)]; apply H18.
    + left. cbn [fetched omap list_omap] in *. fold (fetched r) in *.
      apply list_elem_of_further, Hb.
    + ghost Hb.
      * left. cbn [fetched omap list_omap]. apply list_elem_of_here.
      * right. exists q. do 2 apply list_elem_of_further. exact Hb.
Qed.

(** The routine puts a node that it owns in [block]. *)
Lemma si_set_block (a : NodeId) (p : Object3D -> Prop) (r : list Item)
    (w : World) :
  scene_inv w0 (Own a Bare p :: r) w ->
  scene_inv w0 (Due a :: r) (with_vars (set_block (Some a)) w).
Proof.
  intros H.
  pose proof H as [H1 H2 H3 H4 H5 H6 H7 H8 H9 H10 H11 H12 H13 H14 H15 H16 H17 H18 H19 H20].
  pose proof (loaded_set_block (vars w) a) as Hsub.
  cbn [fetched omap list_omap] in H2, H3. fold (fetched r) in H2, H3.
  rewrite <- Permutation_middle in H2, H3.
  split; cbn [heap vars with_vars random_source]; try assumption.
  - cbn [fetched omap list_omap]. fold (fetched r).
    eapply submseteq_NoDup; [|exact H2].
    change (a :: loaded (vars w) ++ fetched r)
      with ((a :: loaded (vars w)) ++ fetched r).
    apply submseteq_skips_r. exact Hsub.
  - cbn [fetched omap list_omap]. fold (fetched r).
    rewrite List.Forall_forall in *. intros x Hx. apply H3.
    apply list_elem_of_In. apply list_elem_of_In in Hx.
    change (a :: loaded (vars w) ++ fetched r)
      with ((a :: loaded (vars w)) ++ fetched r).
    apply elem_of_app in Hx as [Hx|Hx]; apply elem_of_app; [left|right; exact Hx].
    eapply elem_of_submseteq; eauto.
  - intros b t q Hin. ghost Hin. apply (H4 b t q).
    apply list_elem_of_further. exact Hin.
  - intros b q Hin. ghost Hin. apply (H5 b q).
    apply list_elem_of_further. exact Hin.
  - intros c n Hin. rewrite coll_set_block. ghost Hin. apply H8.
    apply list_elem_of_further. exact Hin.
  - intros b q Hin. ghost Hin. apply (H10 b q).
    apply list_elem_of_further. exact Hin.
  - intros b Hin. apply staged_set_block in Hin as [->|Hin].
    + right. apply list_elem_of_here.
    + destruct (H11 b Hin) as [Hb|Hb]; [left; exact Hb|].
      right. ghost Hb. apply list_elem_of_further. exact Hb.
  - intros b Hin. destruct (H12 b Hin) as [Hl|(y & Hy & [Hy'|(q & Hq)])].
    + left. ghost Hl. apply list_elem_of_further. exact Hl.
    + right. exists y. auto.
    + right. exists y. split; [exact Hy|]. right. exists q. ghost Hq.
      apply list_elem_of_further. exact Hq.
  - intros b [Hb|(q & Hb)]; apply H18.
    + left. cbn [fetched omap list_omap] in *. fold (fetched r) in *.
      apply list_elem_of_further, Hb.
    + ghost Hb. right. exists q. apply list_elem_of_further. exact Hb.
Qed.

End SceneSteps.

(** ** What each statement of a face loader does to what the routine holds *)

Lemma perm_pick {A} (x y : A) (l l' : list A) :
  l ≡ₚ x :: l' -> y :: l ≡ₚ x :: y :: l'.
Proof. intros ->. apply perm_swap. Qed.

Lemma perm_via {A} (x : A) (l l' k : list A) :
  l ≡ₚ x :: l' -> l' ≡ₚ k -> l ≡ₚ x :: k.
Proof. intros -> ->. reflexivity. Qed.

(** Finding an item among those that the routine holds. *)
Ltac pick := first [apply Permutation_refl | apply perm_pick; pick].

(** Two lists of the same items. *)
Ltac perm := first [apply Permutation_refl | eapply perm_via; [pick | perm]].

Section FaceLoadersBuild.

Variable GLTFLoader : string -> Heap -> option (NodeId * Heap).
Hypothesis GLTFLoader_extends : extends_store GLTFLoader.
Variable w0 : World.

Local Abbreviation SSat := (Sat GLTFLoader Item (scene_inv w0)).

(** The stencil-tagging walk changes the material store only. *)
Lemma loadModel_walk_store (object : NodeId) (refNum : Z) (w w' : World)
    (u : unit) :
  (c0 ← child object 0;
   n ← gets (fun w => length (children (objs (heap w) c0)));
   if negb (n =? 0) then assign_all object (compound_assignments refNum)
   else assign_all object (simple_assignments refNum)) w = (w', Ok u) ->
  exists ms, w' = with_heap (upd_mats (fun _ => ms)) w.
Proof.
  unfold mbind at 1, M_bind at 1, bind at 1. rewrite child_eval.
  destruct (descend (heap w) object [0]) as [c0|]; [|discriminate].
  unfold mbind at 1, M_bind at 1, bind at 1, gets at 1.
  intros E.
  match type of E with
  | (if ?c then ?m1 else ?m2) w = _ =>
      assert (HA : exists ms, fst ((if c then m1 else m2) w)
                              = with_heap (upd_mats (fun _ => ms)) w)
  end.
  { destruct (negb _);
      match goal with
      | |- exists ms, fst (assign_all _ ?l _) = _ =>
          destruct (assign_all_materials (fun _ _ => True) l object w)
            as (ms & Hms & _); [auto | auto | | exists ms; exact Hms]
      end;
      repeat (apply List.Forall_cons; [intros m; exact I|]);
      apply List.Forall_nil. }
  destruct HA as (ms & Hms). rewrite E in Hms. exists ms. exact Hms.
Qed.

Lemma Sat_loadModel (path : string) (needStencil : bool) (refNum : Z)
    (g : list Item) :
  SSat (fun o g' => g' = Own o Bare (fun _ => True) :: g) g
    (loadModel path needStencil refNum).
Proof.
  destruct needStencil; [rewrite loadModel_unfold|]; intros r w o h Hi Hload;
    exists (Own o Bare (fun _ => True) :: g);
    (split; [apply (si_fetch w0 GLTFLoader (g ++ r) w path o h);
             assumption|]).
  - intros r' w1 w2 u Hi1 E.
    destruct (loadModel_walk_store o refNum w1 w2 u E) as (ms & ->).
    exists (Own o Bare (fun _ => True) :: g). split; [|reflexivity].
    apply si_mats. exact Hi1.
  - reflexivity.
Qed.

(** A statement that takes what the routine holds from [g1] to [g2]. *)
Lemma Sat_step {A} (m : M A) (g g1 g2 : list Item) :
  g ≡ₚ g1 ->
  (forall r w w' a, scene_inv w0 (g1 ++ r) w -> m w = (w', Ok a) ->
                    scene_inv w0 (g2 ++ r) w') ->
  SSat (fun _ g' => g' = g2) g (sync m).
Proof.
  intros Hp H. apply Sat_sync. intros r w w' a Hi E.
  exists g2. split; [|reflexivity]. apply (H r w w' a); [|exact E].
  eapply scene_inv_perm; [|exact Hi]. rewrite Hp. reflexivity.
Qed.

Lemma Sat_assign (o : NodeId) (path : list nat) (F : Material -> Material)
    (g : list Item) :
  SSat (fun _ g' => g' = g) g
    (sync (m ← material_at o path; write_material m F)).
Proof.
  apply (Sat_step _ g g g); [reflexivity|]. intros r w w' u Hi E.
  rewrite assign_eval in E.
  destruct (material_slot (heap w) o path); [|discriminate].
  injection E as <-. apply si_mats. exact Hi.
Qed.

Lemma Sat_write_own (a : NodeId) (s : Stage) (p : Object3D -> Prop)
    (F : Object3D -> Object3D) (g g0 : list Item) :
  (forall o, children (F o) = children o) ->
  g ≡ₚ Own a s p :: g0 ->
  SSat (fun _ g' => g' = Own a s (after F p) :: g0) g
    (sync (write_object a F)).
Proof.
  intros HF Hp. apply (Sat_step _ g _ _ Hp). intros r w w' u Hi E.
  injection E as <-. apply (si_write_own w0 a s p F (g0 ++ r) w HF Hi).
Qed.

Lemma Sat_write_kept (a : NodeId) (p : Object3D -> Prop)
    (F : Object3D -> Object3D) (g g0 : list Item) :
  (forall o, children (F o) = children o) ->
  g ≡ₚ Kept a p :: g0 ->
  SSat (fun _ g' => g' = Kept a (after F p) :: g0) g
    (sync (write_object a F)).
Proof.
  intros HF Hp. apply (Sat_step _ g _ _ Hp). intros r w w' u Hi E.
  injection E as <-. apply (si_write_kept w0 a p F (g0 ++ r) w HF Hi).
Qed.

Lemma Sat_add_own (a : NodeId) (p : Object3D -> Prop) (g g0 : list Item) :
  g ≡ₚ Own a Bare p :: g0 ->
  SSat (fun _ g' => g' = Own a InScene p :: g0) g (sync (add scene a)).
Proof.
  intros Hp. apply (Sat_step _ g _ _ Hp). intros r w w' u Hi E.
  injection E as <-. apply (si_add_own w0 a p (g0 ++ r) w Hi).
Qed.

Lemma Sat_add_due (a : NodeId) (g g0 : list Item) :
  g ≡ₚ Due a :: g0 ->
  SSat (fun _ g' => g' = g0) g (sync (add scene a)).
Proof.
  intros Hp. apply (Sat_step _ g _ _ Hp). intros r w w' u Hi E.
  injection E as <-. apply (si_add_due w0 a (g0 ++ r) w Hi).
Qed.

Lemma Sat_add_under (a x : NodeId) (s : Stage) (p : Object3D -> Prop)
    (g g1 g0 : list Item) :
  g ≡ₚ Loose a :: g1 ->
  g1 ≡ₚ Own x s p :: g0 ->
  s <> InScene ->
  SSat (fun _ g' =>
          g' = Own x Host (after (set_children (fun cs => cs ++ [a])) p) :: g0)
    g (sync (add x a)).
Proof.
  intros Hp1 Hp2 Hs.
  assert (Hp : g ≡ₚ Loose a :: Own x s p :: g0) by (rewrite Hp1, Hp2; reflexivity).
  apply (Sat_step _ g _ _ Hp). intros r w w' u Hi E.
  injection E as <-. apply (si_add_under w0 a x s p (g0 ++ r) w Hs Hi).
Qed.

Lemma Sat_push (c : Coll) (a : NodeId) (s : Stage) (p : Object3D -> Prop)
    (n : nat) (g g1 g0 : list Item) :
  (forall i, c <> CBars i) ->
  g ≡ₚ Own a s p :: g1 ->
  g1 ≡ₚ Len c n :: g0 ->
  (forall o, p o -> layout c n o) ->
  fits s c ->
  SSat (fun _ g' => g' = pushed s c a ++ Len c (S n) :: g0) g
    (sync (modify (with_vars (push c a)))).
Proof.
  intros Hc Hp1 Hp2 Hl Hfit.
  assert (Hp : g ≡ₚ Own a s p :: Len c n :: g0) by (rewrite Hp1, Hp2; reflexivity).
  apply (Sat_step _ g _ _ Hp). intros r w w' u Hi E.
  injection E as <-. rewrite <- app_assoc. cbn [app].
  apply (si_push w0 c a s p n (g0 ++ r) w Hi Hl Hfit).
  intros i ->. destruct (Hc i eq_refl).
Qed.

Lemma Sat_push_bars (i : nat) (a : NodeId) (s : Stage) (p : Object3D -> Prop)
    (n : nat) (g g1 g0 : list Item) :
  g ≡ₚ Own a s p :: g1 ->
  g1 ≡ₚ Len (CBars i) n :: g0 ->
  s <> Host ->
  SSat (fun _ g' => g' = pushed s (CBars i) a ++ Len (CBars i) (S n) :: g0) g
    (sync (push_bars i a)).
Proof.
  intros Hp1 Hp2 Hs.
  assert (Hp : g ≡ₚ Own a s p :: Len (CBars i) n :: g0)
    by (rewrite Hp1, Hp2; reflexivity).
  apply (Sat_step _ g _ _ Hp). intros r w w' u Hi E.
  apply push_bars_effect in E as [Hlt ->]. rewrite <- app_assoc. cbn [app].
  apply (si_push w0 (CBars i) a s p n (g0 ++ r) w Hi).
  - intros o _. exact I.
  - destruct s; try exact I. congruence.
  - intros j Hj. injection Hj as <-. exact Hlt.
Qed.

Lemma Sat_set_planet (a : NodeId) (p : Object3D -> Prop)
    (g g1 g0 : list Item) :
  g ≡ₚ Own a Bare p :: g1 ->
  g1 ≡ₚ MaySetPlanet :: g0 ->
  SSat (fun _ g' => g' = Kept a p :: Due a :: g0) g
    (sync (modify (with_vars (set_planet (Some a))))).
Proof.
  intros Hp1 Hp2.
  assert (Hp : g ≡ₚ Own a Bare p :: MaySetPlanet :: g0)
    by (rewrite Hp1, Hp2; reflexivity).
  apply (Sat_step _ g _ _ Hp). intros r w w' u Hi E.
  injection E as <-. apply (si_set_planet w0 a p (g0 ++ r) w Hi).
Qed.

Lemma Sat_set_block (a : NodeId) (p : Object3D -> Prop) (g g0 : list Item) :
  g ≡ₚ Own a Bare p :: g0 ->
  SSat (fun _ g' => g' = Due a :: g0) g
    (sync (modify (with_vars (set_block (Some a))))).
Proof.
  intros Hp. apply (Sat_step _ g _ _ Hp). intros r w w' u Hi E.
  injection E as <-. apply (si_set_block w0 a p (g0 ++ r) w Hi).
Qed.

End FaceLoadersBuild.

(** ** What each face loader builds *)

(** One statement of a face loader; [lay] shows the layout of a node at
    the moment it is pushed. *)
Ltac step Hext lay :=
  lazymatch goal with
  | |- Sat _ _ _ _ _ (await _) => apply Sat_await; step Hext lay
  | |- Sat _ _ _ _ _ (loadModel _ _ _) => apply Sat_loadModel; exact Hext
  | |- Sat _ _ _ _ _ (sync (write_object _ _)) =>
      first [ eapply Sat_write_own; [intros ?; reflexivity | pick]
            | eapply Sat_write_kept; [intros ?; reflexivity | pick] ]
  | |- Sat _ _ _ _ _ (sync (add scene _)) =>
      first [ eapply Sat_add_own; pick | eapply Sat_add_due; pick ]
  | |- Sat _ _ _ _ _ (sync (add _ _)) =>
      eapply Sat_add_under; [pick | pick | first [discriminate | assumption]]
  | |- Sat _ _ _ _ _ (sync (mbind _ (material_at _ _))) => apply Sat_assign
  | |- Sat _ _ _ _ _ (sync (push_rings _)) =>
      eapply Sat_push with (c := CRings);
        [discriminate | pick | pick | lay | exact I]
  | |- Sat _ _ _ _ _ (sync (push_triangles _)) =>
      eapply Sat_push with (c := CTriangles);
        [discriminate | pick | pick | lay | exact I]
  | |- Sat _ _ _ _ _ (sync (push_blocks _)) =>
      eapply Sat_push with (c := CBlocks);
        [discriminate | pick | pick | lay | exact I]
  | |- Sat _ _ _ _ _ (sync (push_hexagons _)) =>
      eapply Sat_push with (c := CHexagons);
        [discriminate | pick | pick | lay | exact I]
  | |- Sat _ _ _ _ _ (sync (push_diamonds _)) =>
      eapply Sat_push with (c := CDiamonds);
        [discriminate | pick | pick | lay
        | first [exact I | match goal with |- fits ?s _ => destruct s end;
                           first [exact I | congruence]]]
  | |- Sat _ _ _ _ _ (sync (push_bars _ _)) =>
      eapply Sat_push_bars; [pick | pick | discriminate]
  | |- Sat _ _ _ _ _ (sync (modify (with_vars (set_block _)))) =>
      eapply Sat_set_block; pick
  | |- Sat _ _ _ _ _ (sync (modify (with_vars (set_planet _)))) =>
      eapply Sat_set_planet; [pick | pick]
  end.

(** A run of statements; what is left to show is that the last leaves the
    routine holding what it should. *)
Ltac build Hext lay :=
  cbv beta;
  lazymatch goal with
  | |- Sat _ _ _ _ _ (mbind _ _) =>
      eapply Sat_bind;
        [ step Hext lay
        | let H := fresh in
          intros ? ? H; cbv beta in H; subst;
          cbn [pushed is_staged app]; build Hext lay ]
  | |- _ =>
      refine (Sat_sync_reorder _ _ _ (scene_inv_perm _) _ _ _ _);
      eapply Sat_conseq; [step Hext lay|]
  end.

(** The last statement leaves the routine holding what [tac] shows to be
    as it should, in some order. *)
Ltac holding tac :=
  let H := fresh in
  intros ? ? H; cbv beta in H; subst; eexists; (split; [|cbv beta; tac]); perm.

(** The layout of a node, from the writes it has received. *)
Ltac written :=
  let H := fresh "H" in
  intros ? H; unfold after in H;
  repeat match type of H with
         | exists _, _ /\ _ => destruct H as (? & H & ->)
         end;
  clear H.

Section FaceLoadersSat.

Variable GLTFLoader : string -> Heap -> option (NodeId * Heap).
Hypothesis GLTFLoader_extends : extends_store GLTFLoader.
Variable w0 : World.

Local Abbreviation SSat := (Sat GLTFLoader Item (scene_inv w0)).

Lemma loadBackFace_builds :
  SSat (fun _ g => g = [Len CTriangles 20]) [Len CTriangles 0] loadBackFace.
Proof.
  unfold loadBackFace.
  apply (Sat_afor_inv GLTFLoader Item (scene_inv w0)
           (fun j g => g = [Len CTriangles j]) 20 0); [reflexivity|].
  intros i g Hi ->.
  build GLTFLoader_extends ltac:(written; split; reflexivity).
  holding ltac:(reflexivity).
Qed.

Lemma loadLeftFace_builds :
  SSat (fun _ g => g = [Len CBlocks 25]) [Len CBlocks 0] loadLeftFace.
Proof.
  unfold loadLeftFace.
  apply (Sat_afor_inv GLTFLoader Item (scene_inv w0)
           (fun i g => g = [Len CBlocks (i * 5)]) 5 0); [reflexivity|].
  intros i g Hi ->. eapply Sat_conseq.
  - apply (Sat_afor_inv GLTFLoader Item (scene_inv w0)
             (fun j g => g = [Len CBlocks (j + i * 5)]) 5 0); [reflexivity|].
    intros j g Hj ->.
    build GLTFLoader_extends
      ltac:(written; intros i' j' E Hj';
            assert (i' = i) by lia; assert (j' = j) by lia; subst;
            reflexivity).
    holding ltac:(reflexivity).
  - cbv beta. intros _ g ->. reflexivity.
Qed.

Lemma loadRightFace_builds :
  SSat (fun _ g => g = bar_lens 3 0) (bar_lens 0 0) loadRightFace.
Proof.
  unfold loadRightFace.
  apply (Sat_afor_inv GLTFLoader Item (scene_inv w0)
           (fun i g => g = bar_lens i 0) 3 0); [reflexivity|].
  intros i g Hi ->. eapply Sat_conseq.
  - apply (Sat_afor_inv GLTFLoader Item (scene_inv w0)
             (fun j g => g = bar_lens i j) 4 0); [reflexivity|].
    intros j g Hj ->.
    assert (Hcase : i = 0 \/ i = 1 \/ i = 2) by lia.
    destruct Hcase as [->|[->| ->]]; unfold bar_lens, bar_fill;
      cbn [Nat.ltb Nat.leb Nat.eqb];
      (build GLTFLoader_extends idtac; holding ltac:(reflexivity)).
  - cbv beta. intros _ g ->.
    assert (Hcase : i = 0 \/ i = 1 \/ i = 2) by lia.
    destruct Hcase as [->|[->| ->]]; reflexivity.
Qed.

Lemma loadTopFace_builds :
  SSat (fun _ g => g = [Len CDiamonds 1; Len CHexagons 8])
    [Len CHexagons 0; Len CDiamonds 0] loadTopFace.
Proof.
  unfold loadTopFace.
  eapply Sat_bind; [step GLTFLoader_extends idtac|].
  intros diamond g ->. cbv beta.
  eapply Sat_bind.
  - apply (Sat_afor_inv GLTFLoader Item (scene_inv w0)
             (fun j g => exists s p, s <> InScene /\
                g = [Own diamond s p; Len CHexagons j; Len CDiamonds 0]) 8 0).
    { exists Bare, (fun _ => True). split; [discriminate | reflexivity]. }
    intros j g Hj (s & p & Hs & ->).
    build GLTFLoader_extends ltac:(written; reflexivity).
    holding ltac:(eexists Host, _; split; [discriminate | reflexivity]).
  - cbv beta. intros _ g (s & p & Hs & ->).
    destruct s; [|congruence|];
      (build GLTFLoader_extends ltac:(written; reflexivity);
       holding ltac:(reflexivity)).
Qed.

Lemma loadBottomFace_builds :
  SSat (fun _ g => exists a p, g = [Kept a p] /\
                     forall o, p o -> scale o = Vector3.mk 2 2 2)
    [MaySetPlanet] loadBottomFace.
Proof.
  unfold loadBottomFace.
  build GLTFLoader_extends idtac.
  intros _ g ->. eexists. split; [apply Permutation_refl|].
  eexists _, _. split; [reflexivity|]. written. reflexivity.
Qed.

Lemma loadFrontFace_builds :
  SSat (fun _ g => g = [Len CRings 30]) [Len CRings 0] loadFrontFace.
Proof.
  unfold loadFrontFace.
  eapply Sat_bind; [step GLTFLoader_extends idtac|].
  intros b g ->. cbv beta.
  eapply Sat_bind; [step GLTFLoader_extends idtac|].
  intros _ g ->. cbv beta.
  eapply Sat_bind; [step GLTFLoader_extends idtac|].
  intros _ g ->. cbv beta.
  apply (Sat_afor_inv GLTFLoader Item (scene_inv w0)
           (fun j g => g = [Len CRings (j * 10)]) 3 0); [reflexivity|].
  intros j g Hj ->. eapply Sat_conseq.
  - destruct (j =? 0) eqn:Ej0; [|destruct (j =? 1) eqn:Ej1];
      (apply (Sat_afor_inv GLTFLoader Item (scene_inv w0)
                (fun i g => g = [Len CRings (i + j * 10)]) 10 0);
       [reflexivity|]);
      intros i g Hi ->;
      (build GLTFLoader_extends
         ltac:(written; intros j' i' E Hi';
               assert (j' = j) by lia; assert (i' = i) by lia; subst;
               unfold ring_layout; rewrite ?Ej0, ?Ej1;
               repeat split; reflexivity));
      holding ltac:(reflexivity).
  - cbv beta. intros _ g ->. reflexivity.
Qed.

(** The six face loaders, with what each holds at its start and at its
    end. *)
Lemma faces_build :
  Forall2 (fun gq t => SSat (fun _ => gq.2) gq.1 t) (zip starting finished)
    faces.
Proof.
  unfold faces, starting, finished. cbn [zip zip_with].
  repeat apply Forall2_cons; cbn [fst snd]; try apply Forall2_nil_2.
  - apply loadFrontFace_builds.
  - apply loadLeftFace_builds.
  - apply loadRightFace_builds.
  - apply loadBackFace_builds.
  - apply loadTopFace_builds.
  - apply loadBottomFace_builds.
Qed.

End FaceLoadersSat.
(** ** The scratch state while the faces load *)

Section ScratchKept.

Variable GLTFLoader : string -> Heap -> option (NodeId * Heap).
Variables (rs : nat -> Q) (d f : Q).

Local Abbreviation QSat := (Sat GLTFLoader unit (scratch_inv rs d f)).

Lemma Sat_scratch_sync {A} (m : M A) (g : list unit) :
  (forall w w' a, m w = (w', Ok a) ->
     random_source w' = random_source w /\
     direction (vars w') = direction (vars w) /\
     factor (vars w') = factor (vars w)) ->
  QSat (fun _ g' => g' = g) g (sync m).
Proof.
  intros H. apply Sat_sync. intros r w w' a (H1 & H2 & H3) E.
  destruct (H w w' a E) as (E1 & E2 & E3).
  exists g. split; [|reflexivity]. repeat split; congruence.
Qed.

Lemma Sat_scratch_loadModel (path : string) (needStencil : bool) (refNum : Z)
    (g : list unit) :
  QSat (fun _ g' => g' = g) g (loadModel path needStencil refNum).
Proof.
  destruct needStencil; [rewrite loadModel_unfold|]; intros r w o h Hi Hload;
    exists g; (split; [exact Hi|]).
  - intros r' w1 w2 u Hi1 E.
    destruct (loadModel_walk_store o refNum w1 w2 u E) as (ms & ->).
    exists g. split; [exact Hi1 | reflexivity].
  - reflexivity.
Qed.

End ScratchKept.

Ltac scratch_step :=
  let E := fresh "E" in
  intros ? ? ? E;
  first [ injection E as <-; repeat split
        | apply push_bars_effect in E as [_ ->]; repeat split
        | rewrite assign_eval in E;
          match type of E with
          | match ?x with _ => _ end = _ => destruct x; [|discriminate]
          end;
          injection E as <-; repeat split ].

Ltac scratch :=
  cbv beta;
  lazymatch goal with
  | |- Sat _ _ _ _ _ (await _) => apply Sat_await; scratch
  | |- Sat _ _ _ _ _ (loadModel _ _ _) =>
      first [ apply Sat_scratch_loadModel
            | eapply Sat_conseq; [apply Sat_scratch_loadModel | intros; exact I] ]
  | |- Sat _ _ _ _ _ (afor _ _ _) =>
      first [ apply Sat_afor; intros ?; scratch
            | eapply Sat_conseq;
              [apply Sat_afor; intros ?; scratch | intros; exact I] ]
  | |- Sat _ _ _ _ _ (if ?c then _ else _) => destruct c; scratch
  | |- Sat _ _ _ _ _ (mbind _ _) =>
      eapply Sat_bind; [scratch | intros ? ? ->; scratch]
  | |- Sat _ _ _ _ _ (sync _) =>
      first [ apply Sat_scratch_sync; scratch_step
            | eapply Sat_conseq;
              [apply Sat_scratch_sync; scratch_step | intros; exact I] ]
  end.

Lemma faces_keep_scratch (GLTFLoader : string -> Heap -> option (NodeId * Heap))
    (rs : nat -> Q) (d f : Q) :
  Forall2 (fun gq t => Sat GLTFLoader unit (scratch_inv rs d f)
                         (fun _ => gq.2) gq.1 t)
    (replicate 6 ([], fun _ => True)) faces.
Proof.
  unfold faces, loadFrontFace, loadLeftFace, loadRightFace, loadBackFace,
    loadTopFace, loadBottomFace. cbn [replicate].
  repeat (apply Forall2_cons; [cbn [fst snd]; scratch|]).
  apply Forall2_nil_2.
Qed.

(** * The assembled cube *)

Lemma nothing_loaded_empty (s : Vars) :
  nothing_loaded s ->
  block s = None /\ planet s = None /\ rings s = [] /\ triangles s = [] /\
  blocks s = [] /\ concat (bars s) = [] /\ hexagons s = [] /\ diamonds s = [].
Proof.
  intros H.
  pose proof (H Block) as H1. pose proof (H Planet) as H2.
  pose proof (H Rings) as H3. pose proof (H Triangles) as H4.
  pose proof (H Blocks) as H5. pose proof (H Bars) as H6.
  pose proof (H Hexagons) as H7. pose proof (H Diamonds) as H8.
  cbn [count] in *.
  repeat split; try (apply length_zero_iff_nil; assumption).
  - destruct (block s); [discriminate | reflexivity].
  - destruct (planet s); [discriminate | reflexivity].
Qed.

Section Assembled.

Variable GLTFLoader : string -> Heap -> option (NodeId * Heap).
Variables rotateX rotateY translateZ : Q -> Object3D -> Object3D.
Variable Math_sin : Q -> Q.

(** Every observation of the assembler, with its outcome: nothing at all;
    or the six calls, the fulfilments and then, according to how
    [Promise.all] ended, the frames, the rejection, or the wait. *)
Lemma build_outcome (turns : nat) (io : list nat) (frames : nat) (w : World) :
  let r := build_with_custom_models GLTFLoader rotateX rotateY translateZ
             Math_sin turns io frames w in
  fst (fst r) = [] \/
  exists cube h wl m hd w2 j,
    GLTFLoader "./models/cubeFrame.gltf" (heap w) = Some (cube, h) /\
    resume GLTFLoader (loadModel "./models/cubeFrame.gltf" true 1) w
      = (wl, Ret cube) /\
    drive GLTFLoader io faces (cube_frame_placed wl cube m) = (hd, w2, j) /\
    r = match j with
        | AllFulfilled =>
            let '(h', w3, st) :=
              render_loop rotateX rotateY translateZ Math_sin (S frames) w2 in
            (([(Called 0, cube_frame_placed wl cube m);
               (Called 1, cube_frame_placed wl cube m);
               (Called 2, cube_frame_placed wl cube m);
               (Called 3, cube_frame_placed wl cube m);
               (Called 4, cube_frame_placed wl cube m);
               (Called 5, cube_frame_placed wl cube m)] ++ hd) ++ h', w3, st)
        | OneRejected e =>
            ([(Called 0, cube_frame_placed wl cube m);
              (Called 1, cube_frame_placed wl cube m);
              (Called 2, cube_frame_placed wl cube m);
              (Called 3, cube_frame_placed wl cube m);
              (Called 4, cube_frame_placed wl cube m);
              (Called 5, cube_frame_placed wl cube m)] ++ hd, w2, Failed e)
        | StillPending =>
            ([(Called 0, cube_frame_placed wl cube m);
              (Called 1, cube_frame_placed wl cube m);
              (Called 2, cube_frame_placed wl cube m);
              (Called 3, cube_frame_placed wl cube m);
              (Called 4, cube_frame_placed wl cube m);
              (Called 5, cube_frame_placed wl cube m)] ++ hd, w2, Loading)
        end.
Proof.
  cbv zeta. unfold build_with_custom_models.
  change (advance load_cube_frame w) with (w, load_cube_frame).
  cbv beta iota.
  destruct (settle GLTFLoader turns load_cube_frame w) as [w1 t1] eqn:Es.
  destruct t1 as [u|e|B m k|p k|k]; try (left; reflexivity).
  destruct (load_cube_frame_fulfilled GLTFLoader turns w w1 u Es)
    as (cube & h & wl & m & Hload & Hres & Hm & Hv & ->).
  right. unfold Promise_all. rewrite call_all_faces.
  destruct (drive GLTFLoader io faces (cube_frame_placed wl cube m))
    as [[hd w2] j] eqn:Ed.
  exists cube, h, wl, m, hd, w2, j.
  split; [exact Hload|]. split; [exact Hres|]. split; [exact Ed|].
  destruct j; [|reflexivity..].
  destruct (render_loop rotateX rotateY translateZ Math_sin (S frames) w2)
    as [[h3 w3] st].
  reflexivity.
Qed.

(** The state of the first call of [render]: the one in which
    [Promise.all] was fulfilled, the face loaders having run from the state
    in which the cube frame was placed; the rest of the observation is the
    run of the frames from that state. *)
Lemma first_render_anatomy (turns : nat) (io : list nat) (frames : nat)
    (w : World) (pre post : History) (wr : World) :
  fst (fst (build_with_custom_models GLTFLoader rotateX rotateY translateZ
              Math_sin turns io frames w))
    = pre ++ (RenderCalled, wr) :: post ->
  Forall (fun ev => ~ is_render ev) pre ->
  exists cube h wl m hd,
    GLTFLoader "./models/cubeFrame.gltf" (heap w) = Some (cube, h) /\
    resume GLTFLoader (loadModel "./models/cubeFrame.gltf" true 1) w
      = (wl, Ret cube) /\
    drive GLTFLoader io faces (cube_frame_placed wl cube m)
      = (hd, wr, AllFulfilled) /\
    build_with_custom_models GLTFLoader rotateX rotateY translateZ
      Math_sin turns io frames w =
      (let '(h', w3, st) :=
         render_loop rotateX rotateY translateZ Math_sin (S frames) wr in
       (pre ++ h', w3, st)) /\
    exists pre', pre = (Called 0, cube_frame_placed wl cube m) :: pre'.
Proof.
  intros E Hpre.
  destruct (build_outcome turns io frames w)
    as [E0|(cube & h & wl & m & hd & w2 & j & Hload & Hres & Hd & E0)];
    cbv zeta in E0; rewrite E0 in E.
  { destruct pre; discriminate. }
  pose proof (drive_history _ _ _ _ _ _ _ Hd) as Hhd.
  pose proof (loading_history_no_render (cube_frame_placed wl cube m) hd Hhd)
    as Hnr.
  assert (Hstop : forall l, Forall (fun ev => ~ is_render ev) l ->
                            l <> pre ++ (RenderCalled, wr) :: post).
  { intros l Hl ->. apply Forall_app in Hl as [_ Hl].
    inversion Hl as [|? ? Hev _]; subst. apply Hev. exact I. }
  destruct j as [|e|]; cbn [fst] in E;
    try (exfalso; exact (Hstop _ Hnr E)).
  destruct (render_loop rotateX rotateY translateZ Math_sin (S frames) w2)
    as [[h3 w3] st] eqn:El.
  cbn [fst] in E.
  destruct (render_loop_first _ _ _ _ _ _ _ _ _ El) as (h3' & ->).
  destruct (app_prefix_before (fun ev => ~ is_render ev) _ _ _ _ _
              Hnr (fun H : ~ is_render (RenderCalled, wr) => H I) E)
    as (pre' & -> & Ehr).
  assert (wr = w2 /\ pre' = []) as [-> ->].
  { destruct pre' as [|ev pre']; [cbn in Ehr; split; congruence|].
    exfalso. cbn in Ehr. injection Ehr as <- _.
    apply Forall_app in Hpre as [_ Hpre].
    inversion Hpre as [|? ? Hev _]; subst. apply Hev. exact I. }
  exists cube, h, wl, m, hd.
  split; [exact Hload|]. split; [exact Hres|]. split; [exact Hd|].
  split; [rewrite E0, El, app_nil_r; reflexivity|].
  eexists. reflexivity.
Qed.

(** What [loadModel] returned the cube frame in. *)
Lemma cube_frame_loaded (w wl : World) (cube : NodeId) (h : Heap) :
  GLTFLoader "./models/cubeFrame.gltf" (heap w) = Some (cube, h) ->
  resume GLTFLoader (loadModel "./models/cubeFrame.gltf" true 1) w
    = (wl, Ret cube) ->
  exists ms, wl = with_heap (fun _ => upd_mats (fun _ => ms) h) w.
Proof.
  intros Hload Hres.
  destruct (loadModel_walk GLTFLoader (fun _ _ => True)
              "./models/cubeFrame.gltf" 1%Z w cube h) as (ms & E & _); auto.
  rewrite Hres in E. exists ms. exact E.
Qed.

(** The random source and the scratch numbers when [Promise.all] is
    fulfilled are those with which the assembler started. *)
Lemma assembled_scratch (io : list nat) (w wl wr : World) (cube : NodeId)
    (h : Heap) (m : MatId) (hd : History) :
  GLTFLoader "./models/cubeFrame.gltf" (heap w) = Some (cube, h) ->
  resume GLTFLoader (loadModel "./models/cubeFrame.gltf" true 1) w
    = (wl, Ret cube) ->
  drive GLTFLoader io faces (cube_frame_placed wl cube m)
    = (hd, wr, AllFulfilled) ->
  random_source wr = random_source w /\
  direction (vars wr) = direction (vars w) /\
  factor (vars wr) = factor (vars w).
Proof.
  intros Hload Hres Hd.
  destruct (cube_frame_loaded w wl cube h Hload Hres) as (ms & ->).
  assert (Hstart : scratch_inv (random_source w) (direction (vars w))
                     (factor (vars w))
                     (concat (replicate 6 ([], fun _ : list unit => True)).*1)
                     (cube_frame_placed
                        (with_heap (fun _ => upd_mats (fun _ => ms) h) w) cube m))
    by (repeat split).
  destruct (drive_sat GLTFLoader unit
              (scratch_inv (random_source w) (direction (vars w)) (factor (vars w)))
              (fun _ _ _ _ H => H) io faces
              (replicate 6 ([], fun _ => True)) _ wr hd
              (faces_keep_scratch GLTFLoader _ _ _) Hstart Hd) as (gs & H & _).
  exact H.
Qed.

(** Started with nothing loaded, the collections are full when
    [Promise.all] is fulfilled. *)
Lemma assembled_full (io : list nat) (w wl wr : World) (cube : NodeId)
    (h : Heap) (m : MatId) (hd : History) :
  nothing_loaded (vars w) ->
  GLTFLoader "./models/cubeFrame.gltf" (heap w) = Some (cube, h) ->
  resume GLTFLoader (loadModel "./models/cubeFrame.gltf" true 1) w
    = (wl, Ret cube) ->
  drive GLTFLoader io faces (cube_frame_placed wl cube m)
    = (hd, wr, AllFulfilled) ->
  forall k, count k (vars wr) = full k.
Proof.
  intros Hnone Hload Hres Hd k.
  destruct (cube_frame_loaded w wl cube h Hload Hres) as (ms & Hwl).
  apply (drive_balanced GLTFLoader (count k) (full k) io faces
           (map (fun i => share i k) [0; 1; 2; 3; 4; 5])
           (cube_frame_placed wl cube m) wr hd);
    [apply faces_owe | | exact Hd].
  rewrite shares_add_up.
  replace (count k (vars (cube_frame_placed wl cube m))) with (count k (vars w));
    [rewrite Hnone; lia|].
  subst wl. destruct k; reflexivity.
Qed.

Lemma concat_nil_lookup {A} (ls : list (list A)) (i : nat) :
  concat ls = [] -> default [] (ls !! i) = [].
Proof.
  revert i. induction ls as [|l ls IH]; intros i H; [reflexivity|].
  cbn [concat] in H. apply app_eq_nil in H as [-> H].
  destruct i as [|i]; [reflexivity|]. apply IH, H.
Qed.

(** With a loader that only adds to the store, the state in which
    [build_with_custom_models] reaches [Promise.all] has the invariant of
    the loading phase, the face loaders holding what they start with. *)
Lemma cube_frame_placed_scene (w : World) (cube : NodeId) (h : Heap)
    (ms : MatId -> Material) (m : MatId) :
  extends_store GLTFLoader ->
  nothing_loaded (vars w) ->
  scene < allocated (heap w) ->
  GLTFLoader "./models/cubeFrame.gltf" (heap w) = Some (cube, h) ->
  let w0 :=
    cube_frame_placed (with_heap (fun _ => upd_mats (fun _ => ms) h) w) cube m
  in
  scene_inv w0 (concat starting) w0.
Proof.
  intros Hext Hnone Hscene Hload w0.
  destruct (Hext _ _ _ _ Hload) as [[Hlo Hhi] _].
  destruct (nothing_loaded_empty _ Hnone)
    as (E1 & E2 & E3 & E4 & E5 & E6 & E7 & E8).
  assert (Hcoll : forall c, coll c (vars w0) = []).
  { intros c. destruct c; cbn; try assumption. apply concat_nil_lookup, E6. }
  assert (Hl : loaded (vars w0) = [cube]).
  { unfold loaded, w0, cube_frame_placed.
    cbn [vars with_heap with_vars impossibleCube block planet rings triangles
         blocks bars hexagons diamonds set_impossibleCube held].
    rewrite E1, E2, E3, E4, E5, E6, E7, E8. reflexivity. }
  assert (Hst : staged (vars w0) = [cube]).
  { unfold staged, w0, cube_frame_placed.
    cbn [vars with_heap with_vars impossibleCube block planet rings triangles
         blocks bars hexagons diamonds set_impossibleCube held].
    rewrite E1, E2, E3, E4, E5, E6, E8. reflexivity. }
  split; try reflexivity.
  - cbn. lia.
  - rewrite Hl. cbn. apply NoDup_singleton.
  - rewrite Hl. cbn. apply List.Forall_cons; [lia | apply List.Forall_nil].
  - intros a s p Hin. cbn in Hin. ghost Hin. inversion Hin.
  - intros a p Hin. cbn in Hin. ghost Hin. inversion Hin.
  - intros c k a Hk. rewrite Hcoll in Hk. discriminate.
  - intros c n Hin. rewrite Hcoll. cbn in Hin. ghost Hin; try reflexivity.
    inversion Hin.
  - cbn. compute_done.
  - intros a p Hin. cbn in Hin. ghost Hin. inversion Hin.
  - intros a Hin. rewrite Hst in Hin. apply list_elem_of_singleton in Hin as ->.
    left. unfold w0, cube_frame_placed.
    cbn [heap vars with_heap with_vars upd_objs upd_mats objs].
    rewrite fn_lookup_alter_ne by (unfold scene; lia).
    rewrite fn_lookup_alter. cbn. apply elem_of_app. right.
    apply list_elem_of_here.
  - intros a Hin. change (a ∈ coll CHexagons (vars w0)) in Hin.
    rewrite Hcoll in Hin. inversion Hin.
  - intros a [Ha|(q & Ha)]; cbn in Ha; [inversion Ha|].
    ghost Ha. inversion Ha.
  - exists []. rewrite app_nil_r. destruct (objs (heap w0) scene); reflexivity.
Qed.

(** When [Promise.all] is fulfilled the invariant holds, the face loaders
    holding what they end with. *)
Lemma assembled_scene (io : list nat) (w wl wr : World) (cube : NodeId)
    (h : Heap) (m : MatId) (hd : History) :
  extends_store GLTFLoader ->
  nothing_loaded (vars w) ->
  scene < allocated (heap w) ->
  GLTFLoader "./models/cubeFrame.gltf" (heap w) = Some (cube, h) ->
  resume GLTFLoader (loadModel "./models/cubeFrame.gltf" true 1) w
    = (wl, Ret cube) ->
  drive GLTFLoader io faces (cube_frame_placed wl cube m)
    = (hd, wr, AllFulfilled) ->
  exists a p,
    scene_inv (cube_frame_placed wl cube m)
      [Len CRings 30; Len CBlocks 25; Len (CBars 0) 4; Len (CBars 1) 4;
       Len (CBars 2) 4; Len CTriangles 20; Len CDiamonds 1; Len CHexagons 8;
       Kept a p] wr /\
    forall o, p o -> scale o = Vector3.mk 2 2 2.
Proof.
  intros Hext Hnone Hscene Hload Hres Hd.
  destruct (cube_frame_loaded w wl cube h Hload Hres) as (ms & ->).
  pose proof (cube_frame_placed_scene w cube h ms m Hext Hnone Hscene Hload)
    as Hstart. cbv zeta in Hstart.
  destruct (drive_sat GLTFLoader Item _ (scene_inv_perm _) io faces
              (zip starting finished) _ wr hd
              (faces_build GLTFLoader Hext _) Hstart Hd) as (gs & Hinv & Hq).
  unfold starting, finished in Hq. cbn [zip zip_with] in Hq.
  repeat match type of Hq with
         | Forall2 _ _ (_ :: _) =>
             apply Forall2_cons_inv_r in Hq as (? & ? & ? & Hq & ->)
         end.
  apply Forall2_nil_inv_r in Hq as ->.
  cbn [fst snd] in *. subst.
  match goal with H : exists _ _, _ /\ _ |- _ => destruct H as (a & p & -> & Hp) end.
  exists a, p. split; [exact Hinv | exact Hp].
Qed.

(** X10. Started with nothing loaded, on a loader that only adds to the
    store, the assembler calls [render] for the first time in a state in
    which the nodes held by the variables and collections (the cube frame,
    the front block, the planet, rings, triangles, blocks, bars, hexagons
    and the diamond) are pairwise distinct and none of them is the scene;
    every triangle is at (0, 0, -2.5); and the random source, [direction]
    and [factor] are as at the start.  This holds for every order in which
    the fetches complete. *)
Theorem first_render_nodes_distinct (turns : nat) (io : list nat) (frames : nat)
    (w : World) (pre post : History) (wr : World) :
  extends_store GLTFLoader ->
  nothing_loaded (vars w) ->
  scene < allocated (heap w) ->
  fst (fst (build_with_custom_models GLTFLoader rotateX rotateY translateZ
              Math_sin turns io frames w))
    = pre ++ (RenderCalled, wr) :: post ->
  Forall (fun ev => ~ is_render ev) pre ->
  NoDup (loaded (vars wr)) /\
  (scene ∉ loaded (vars wr)) /\
  Forall (fun t => position (objs (heap wr) t) = back_start)
    (triangles (vars wr)) /\
  random_source wr = random_source w /\
  direction (vars wr) = direction (vars w) /\
  factor (vars wr) = factor (vars w).
Proof.
  intros Hext Hnone Hscene E Hpre.
  destruct (first_render_anatomy turns io frames w pre post wr E Hpre)
    as (cube & h & wl & m & hd & Hload & Hres & Hd & _).
  destruct (assembled_scene io w wl wr cube h m hd Hext Hnone Hscene Hload Hres Hd)
    as (a & p & Hinv & _).
  destruct (cube_frame_loaded w wl cube h Hload Hres) as (ms & Hwl).
  split; [pose proof (si_distinct _ _ _ Hinv) as H2;
          apply list.NoDup_app in H2; tauto|].
  split.
  { intros Hin. pose proof (si_allocated _ _ _ Hinv) as H3.
    rewrite List.Forall_forall in H3.
    assert (scene < scene < allocated (heap wr)); [|lia].
    apply H3. apply list_elem_of_In. apply elem_of_app. left. exact Hin. }
  split.
  { apply List.Forall_forall. intros t Ht. apply list_elem_of_In in Ht.
    apply list_elem_of_lookup in Ht as (k & Hk).
    apply (si_layout _ _ _ Hinv CTriangles k t Hk). }
  rewrite (si_random _ _ _ Hinv), (si_direction _ _ _ Hinv),
    (si_factor _ _ _ Hinv), Hwl.
  repeat split.
Qed.

(** The state of the first call of [render] has the invariant of the
    loading phase, relative to the state in which the face loaders were
    called and with the face loaders holding what they end with. *)
Lemma first_render_scene (turns : nat) (io : list nat) (frames : nat)
    (w : World) (pre post : History) (wr : World) :
  extends_store GLTFLoader ->
  nothing_loaded (vars w) ->
  scene < allocated (heap w) ->
  fst (fst (build_with_custom_models GLTFLoader rotateX rotateY translateZ
              Math_sin turns io frames w))
    = pre ++ (RenderCalled, wr) :: post ->
  Forall (fun ev => ~ is_render ev) pre ->
  exists w0 pre' cube a p,
    pre = (Called 0, w0) :: pre' /\
    scene_inv w0
      [Len CRings 30; Len CBlocks 25; Len (CBars 0) 4; Len (CBars 1) 4;
       Len (CBars 2) 4; Len CTriangles 20; Len CDiamonds 1; Len CHexagons 8;
       Kept a p] wr /\
    (forall o, p o -> scale o = Vector3.mk 2 2 2) /\
    impossibleCube (vars w0) = Some cube /\
    scene < cube < allocated (heap w0) /\
    scale (objs (heap w0) cube) = Vector3.mk 2 2 2.
Proof.
  intros Hext Hnone Hscene E Hpre.
  destruct (first_render_anatomy turns io frames w pre post wr E Hpre)
    as (cube & h & wl & m & hd & Hload & Hres & Hd & _ & pre' & Epre).
  destruct (assembled_scene io w wl wr cube h m hd Hext Hnone Hscene Hload
              Hres Hd) as (a & p & Hinv & Hp).
  destruct (cube_frame_loaded w wl cube h Hload Hres) as (ms & Hwl).
  destruct (Hext _ _ _ _ Hload) as [[Hlo Hhi] _].
  exists (cube_frame_placed wl cube m), pre', cube, a, p.
  split; [exact Epre|]. split; [exact Hinv|]. split; [exact Hp|].
  subst wl. split; [reflexivity|]. split; [cbn; lia|].
  unfold cube_frame_placed. cbn [heap with_heap with_vars upd_objs objs].
  rewrite fn_lookup_alter. reflexivity.
Qed.

(** When the loaders have finished, every staged node is in the scene. *)
Lemma finished_staged (w0 : World) (a : NodeId)
    (p : Object3D -> Prop) (wr : World) (x : NodeId) :
  scene_inv w0
    [Len CRings 30; Len CBlocks 25; Len (CBars 0) 4; Len (CBars 1) 4;
     Len (CBars 2) 4; Len CTriangles 20; Len CDiamonds 1; Len CHexagons 8;
     Kept a p] wr ->
  x ∈ staged (vars wr) ->
  x ∈ children (objs (heap wr) scene).
Proof.
  intros Hinv Hx. destruct (si_staged _ _ _ Hinv x Hx) as [H|H]; [exact H|].
  ghost H. inversion H.
Qed.

(** X13. The back face at the first frame.  Started with nothing loaded,
    on a loader that only adds to the store, and whatever the order in
    which the fetches complete: when [render] is first called there are 20
    triangles, and the triangle at index [k] is at (0, 0, -2.5), has the
    scale (6 - k/4, 6 - k/4, 1) and is a child of the scene. *)
Theorem first_render_back_face (turns : nat) (io : list nat) (frames : nat)
    (w : World) (pre post : History) (wr : World) :
  extends_store GLTFLoader ->
  nothing_loaded (vars w) ->
  scene < allocated (heap w) ->
  fst (fst (build_with_custom_models GLTFLoader rotateX rotateY translateZ
              Math_sin turns io frames w))
    = pre ++ (RenderCalled, wr) :: post ->
  Forall (fun ev => ~ is_render ev) pre ->
  length (triangles (vars wr)) = 20 /\
  forall k t, triangles (vars wr) !! k = Some t ->
    position (objs (heap wr) t) = Vector3.mk 0 0 (- (5 # 2)) /\
    scale (objs (heap wr) t) = Vector3.mk (6 - num k / 4) (6 - num k / 4) 1 /\
    t ∈ children (objs (heap wr) scene).
Proof.
  intros Hext Hnone Hscene E Hpre.
  destruct (first_render_scene turns io frames w pre post wr Hext Hnone Hscene
              E Hpre) as (w0 & pre' & cube & a & p & _ & Hinv & _).
  split.
  - apply (si_lens _ _ _ Hinv CTriangles 20).
    do 5 apply list_elem_of_further. apply list_elem_of_here.
  - intros k t Hk.
    destruct (si_layout _ _ _ Hinv CTriangles k t Hk) as [Hp Hs].
    split; [exact Hp|]. split; [exact Hs|].
    apply (finished_staged _ _ _ _ _ Hinv).
    apply (coll_staged CTriangles); [reflexivity|].
    eapply list_elem_of_lookup_2; eauto.
Qed.

(** X14. The left face at the first frame.  Under the same conditions
    there are 25 blocks, and the block at index [5 i + j] with [j < 5],
    loaded in the pass [(i, j)] of the two loops, is at
    (i - 1.5, -1, -2 + j) and is a child of the scene. *)
Theorem first_render_left_face (turns : nat) (io : list nat) (frames : nat)
    (w : World) (pre post : History) (wr : World) :
  extends_store GLTFLoader ->
  nothing_loaded (vars w) ->
  scene < allocated (heap w) ->
  fst (fst (build_with_custom_models GLTFLoader rotateX rotateY translateZ
              Math_sin turns io frames w))
    = pre ++ (RenderCalled, wr) :: post ->
  Forall (fun ev => ~ is_render ev) pre ->
  length (blocks (vars wr)) = 25 /\
  forall i j b, j < 5 -> blocks (vars wr) !! (5 * i + j) = Some b ->
    position (objs (heap wr) b)
      = Vector3.mk (num i - (3 # 2)) (- 1) (- 2 + num j) /\
    b ∈ children (objs (heap wr) scene).
Proof.
  intros Hext Hnone Hscene E Hpre.
  destruct (first_render_scene turns io frames w pre post wr Hext Hnone Hscene
              E Hpre) as (w0 & pre' & cube & a & p & _ & Hinv & _).
  split.
  - apply (si_lens _ _ _ Hinv CBlocks 25).
    apply list_elem_of_further. apply list_elem_of_here.
  - intros i j b Hj Hk. split.
    + exact (si_layout _ _ _ Hinv CBlocks _ b Hk i j eq_refl Hj).
    + apply (finished_staged _ _ _ _ _ Hinv).
      apply (coll_staged CBlocks); [reflexivity|].
      eapply list_elem_of_lookup_2; eauto.
Qed.

(** X15. The front face at the first frame.  Under the same conditions
    there are 30 rings, all children of the scene; the ring at index
    [10 j + i] with [i < 10] has what the pass [i] of the [j]-th group gave
    it: in the groups 0 and 1 the scale (i, i, i), the rotation about z of
    pi/2 and -pi/2 and the x position -i*i/3 and i*i/3, in the third group
    the scale (2 + i, 2 + i, 2 + i), the rotation about x of pi/2 and the z
    position -i*i/3; and [block] holds a node, which is a child of the
    scene. *)
Theorem first_render_front_face (turns : nat) (io : list nat) (frames : nat)
    (w : World) (pre post : History) (wr : World) :
  extends_store GLTFLoader ->
  nothing_loaded (vars w) ->
  scene < allocated (heap w) ->
  fst (fst (build_with_custom_models GLTFLoader rotateX rotateY translateZ
              Math_sin turns io frames w))
    = pre ++ (RenderCalled, wr) :: post ->
  Forall (fun ev => ~ is_render ev) pre ->
  length (rings (vars wr)) = 30 /\
  (forall j i r, i < 10 -> rings (vars wr) !! (10 * j + i) = Some r ->
     ring_layout j i (objs (heap wr) r) /\
     r ∈ children (objs (heap wr) scene)) /\
  (exists b, block (vars wr) = Some b /\
     b ∈ children (objs (heap wr) scene)).
Proof.
  intros Hext Hnone Hscene E Hpre.
  destruct (first_render_scene turns io frames w pre post wr Hext Hnone Hscene
              E Hpre) as (w0 & pre' & cube & a & p & _ & Hinv & _).
  assert (Hblock : count Block (vars wr) = full Block).
  { destruct (first_render_anatomy turns io frames w pre post wr E Hpre)
      as (cube' & h & wl & m & hd & Hload & Hres & Hd & _).
    exact (assembled_full io w wl wr cube' h m hd Hnone Hload Hres Hd Block). }
  cbn [count full] in Hblock.
  split; [|split].
  - apply (si_lens _ _ _ Hinv CRings 30). apply list_elem_of_here.
  - intros j i r Hi Hk. split.
    + exact (si_layout _ _ _ Hinv CRings _ r Hk j i eq_refl Hi).
    + apply (finished_staged _ _ _ _ _ Hinv).
      apply (coll_staged CRings); [reflexivity|].
      eapply list_elem_of_lookup_2; eauto.
  - destruct (block (vars wr)) as [b|] eqn:Hb; [|discriminate].
    exists b. split; [reflexivity|].
    apply (finished_staged _ _ _ _ _ Hinv).
    unfold staged. rewrite Hb, !elem_of_app. right. left.
    apply list_elem_of_here.
Qed.

(** X16. The top face at the first frame.  Under the same conditions
    there is one diamond, with the scale (2, 2, 2), a child of the scene;
    and there are 8 hexagons, each with the scale (5, 5, 5) and a child of
    the diamond. *)
Theorem first_render_top_face (turns : nat) (io : list nat) (frames : nat)
    (w : World) (pre post : History) (wr : World) :
  extends_store GLTFLoader ->
  nothing_loaded (vars w) ->
  scene < allocated (heap w) ->
  fst (fst (build_with_custom_models GLTFLoader rotateX rotateY translateZ
              Math_sin turns io frames w))
    = pre ++ (RenderCalled, wr) :: post ->
  Forall (fun ev => ~ is_render ev) pre ->
  exists dm,
    diamonds (vars wr) = [dm] /\
    scale (objs (heap wr) dm) = Vector3.mk 2 2 2 /\
    dm ∈ children (objs (heap wr) scene) /\
    length (hexagons (vars wr)) = 8 /\
    forall hx, hx ∈ hexagons (vars wr) ->
      scale (objs (heap wr) hx) = Vector3.mk 5 5 5 /\
      hx ∈ children (objs (heap wr) dm).
Proof.
  intros Hext Hnone Hscene E Hpre.
  destruct (first_render_scene turns io frames w pre post wr Hext Hnone Hscene
              E Hpre) as (w0 & pre' & cube & a & p & _ & Hinv & _).
  assert (Hlen : length (coll CDiamonds (vars wr)) = 1).
  { apply (si_lens _ _ _ Hinv CDiamonds 1).
    do 6 apply list_elem_of_further. apply list_elem_of_here. }
  cbn [coll] in Hlen.
  destruct (diamonds (vars wr)) as [|dm [|]] eqn:Hdm; try discriminate.
  exists dm. split; [reflexivity|].
  assert (Hk : coll CDiamonds (vars wr) !! 0 = Some dm)
    by (cbn [coll]; rewrite Hdm; reflexivity).
  split; [exact (si_layout _ _ _ Hinv CDiamonds 0 dm Hk)|].
  split.
  { apply (finished_staged _ _ _ _ _ Hinv).
    apply (coll_staged CDiamonds); [reflexivity|].
    eapply list_elem_of_lookup_2; eauto. }
  split.
  { apply (si_lens _ _ _ Hinv CHexagons 8).
    do 7 apply list_elem_of_further. apply list_elem_of_here. }
  intros hx Hx. split.
  - apply list_elem_of_lookup in Hx as (k & Hx).
    exact (si_layout _ _ _ Hinv CHexagons k hx Hx).
  - destruct (si_nested _ _ _ Hinv hx Hx) as [H|(x & Hin & [H|(q & H)])].
    + ghost H. inversion H.
    + rewrite Hdm in H. apply list_elem_of_singleton in H as ->. exact Hin.
    + ghost H. inversion H.
Qed.

(** X17. The right face at the first frame.  Under the same conditions
    each of the groups [bars[0]], [bars[1]] and [bars[2]] holds four bars,
    and every bar is a child of the scene. *)
Theorem first_render_right_face (turns : nat) (io : list nat) (frames : nat)
    (w : World) (pre post : History) (wr : World) :
  extends_store GLTFLoader ->
  nothing_loaded (vars w) ->
  scene < allocated (heap w) ->
  fst (fst (build_with_custom_models GLTFLoader rotateX rotateY translateZ
              Math_sin turns io frames w))
    = pre ++ (RenderCalled, wr) :: post ->
  Forall (fun ev => ~ is_render ev) pre ->
  forall i, i < 3 ->
    exists g,
      bars (vars wr) !! i = Some g /\
      length g = 4 /\
      forall b, b ∈ g -> b ∈ children (objs (heap wr) scene).
Proof.
  intros Hext Hnone Hscene E Hpre.
  destruct (first_render_scene turns io frames w pre post wr Hext Hnone Hscene
              E Hpre) as (w0 & pre' & cube & a & p & _ & Hinv & _).
  intros i Hi.
  assert (Hlen : length (coll (CBars i) (vars wr)) = 4).
  { apply (si_lens _ _ _ Hinv (CBars i) 4).
    assert (Hcase : i = 0 \/ i = 1 \/ i = 2) by lia.
    destruct Hcase as [->|[->| ->]].
    - do 2 apply list_elem_of_further. apply list_elem_of_here.
    - do 3 apply list_elem_of_further. apply list_elem_of_here.
    - do 4 apply list_elem_of_further. apply list_elem_of_here. }
  cbn [coll] in Hlen.
  destruct (bars (vars wr) !! i) as [g|] eqn:Hg; [|discriminate].
  exists g. split; [reflexivity|]. split; [exact Hlen|].
  intros b Hb. apply (finished_staged _ _ _ _ _ Hinv).
  apply (coll_staged (CBars i)); [reflexivity|].
  cbn [coll]. rewrite Hg. exact Hb.
Qed.

(** X18. The bottom face at the first frame.  Under the same conditions
    [planet] holds a node, which has the scale (2, 2, 2) and is a child of
    the scene. *)
Theorem first_render_bottom_face (turns : nat) (io : list nat) (frames : nat)
    (w : World) (pre post : History) (wr : World) :
  extends_store GLTFLoader ->
  nothing_loaded (vars w) ->
  scene < allocated (heap w) ->
  fst (fst (build_with_custom_models GLTFLoader rotateX rotateY translateZ
              Math_sin turns io frames w))
    = pre ++ (RenderCalled, wr) :: post ->
  Forall (fun ev => ~ is_render ev) pre ->
  exists pl,
    planet (vars wr) = Some pl /\
    scale (objs (heap wr) pl) = Vector3.mk 2 2 2 /\
    pl ∈ children (objs (heap wr) scene).
Proof.
  intros Hext Hnone Hscene E Hpre.
  destruct (first_render_scene turns io frames w pre post wr Hext Hnone Hscene
              E Hpre) as (w0 & pre' & cube & a & p & _ & Hinv & Hp & _).
  destruct (si_kept _ _ _ Hinv a p) as [Hpa Hpl].
  { do 8 apply list_elem_of_further. apply list_elem_of_here. }
  exists a. split; [exact Hpl|]. split; [exact (Hp _ Hpa)|].
  apply (finished_staged _ _ _ _ _ Hinv).
  unfold staged. rewrite Hpl, !elem_of_app. right. right. left.
  apply list_elem_of_here.
Qed.

(** X19. The face loaders leave alone what was there.  Under the same
    conditions, with [w0] the state in which the face loaders were called
    (that of the first entry of the history): every node of [w0] other
    than the scene is, at the first call of [render], exactly as it was in
    [w0]; the scene has kept its position, rotation, scale and material,
    and its children of then, in order, followed by the nodes added since;
    and [impossibleCube] holds what it held. *)
Theorem face_loaders_leave_old_nodes (turns : nat) (io : list nat)
    (frames : nat) (w : World) (pre post : History) (wr : World) :
  extends_store GLTFLoader ->
  nothing_loaded (vars w) ->
  scene < allocated (heap w) ->
  fst (fst (build_with_custom_models GLTFLoader rotateX rotateY translateZ
              Math_sin turns io frames w))
    = pre ++ (RenderCalled, wr) :: post ->
  Forall (fun ev => ~ is_render ev) pre ->
  exists w0 pre',
    pre = (Called 0, w0) :: pre' /\
    (forall a, a < allocated (heap w0) -> a <> scene ->
       objs (heap wr) a = objs (heap w0) a) /\
    (exists extra,
       objs (heap wr) scene =
         set_children (fun cs => cs ++ extra) (objs (heap w0) scene)) /\
    impossibleCube (vars wr) = impossibleCube (vars w0).
Proof.
  intros Hext Hnone Hscene E Hpre.
  destruct (first_render_scene turns io frames w pre post wr Hext Hnone Hscene
              E Hpre) as (w0 & pre' & cube & a & p & Epre & Hinv & _).
  exists w0, pre'. split; [exact Epre|].
  split; [exact (si_old _ _ _ Hinv)|].
  split; [exact (si_grown _ _ _ Hinv) | exact (si_frame _ _ _ Hinv)].
Qed.

(** X20. The cube frame at the first frame.  Under the same conditions
    [impossibleCube] holds a node, which has the scale (2, 2, 2) that
    [build_with_custom_models] gave it before it called the face loaders,
    and is a child of the scene. *)
Theorem first_render_cube_frame (turns : nat) (io : list nat) (frames : nat)
    (w : World) (pre post : History) (wr : World) :
  extends_store GLTFLoader ->
  nothing_loaded (vars w) ->
  scene < allocated (heap w) ->
  fst (fst (build_with_custom_models GLTFLoader rotateX rotateY translateZ
              Math_sin turns io frames w))
    = pre ++ (RenderCalled, wr) :: post ->
  Forall (fun ev => ~ is_render ev) pre ->
  exists cube,
    impossibleCube (vars wr) = Some cube /\
    scale (objs (heap wr) cube) = Vector3.mk 2 2 2 /\
    cube ∈ children (objs (heap wr) scene).
Proof.
  intros Hext Hnone Hscene E Hpre.
  destruct (first_render_scene turns io frames w pre post wr Hext Hnone Hscene
              E Hpre)
    as (w0 & pre' & cube & a & p & _ & Hinv & _ & Hcube & [Hlo Hhi] & Hsc).
  assert (Hc : impossibleCube (vars wr) = Some cube)
    by (rewrite (si_frame _ _ _ Hinv); exact Hcube).
  exists cube. split; [exact Hc|]. split.
  - rewrite (si_old _ _ _ Hinv cube Hhi); [exact Hsc | lia].
  - apply (finished_staged _ _ _ _ _ Hinv).
    unfold staged. rewrite Hc, !elem_of_app. left. apply list_elem_of_here.
Qed.

End Assembled.

(** ** The frames of the assembled cube *)

Lemma holdings_count (s s' : Vars) (k : Slot) :
  holdings s' = holdings s -> count k s' = count k s.
Proof.
  intros H. change (count k s') with (count k (holdings s')).
  rewrite H. reflexivity.
Qed.

Lemma fully_loaded_ready (w : World) : fully_loaded w -> frame_ready w.
Proof.
  intros [Hfull Hrand]. unfold frame_ready, drawn_index.
  destruct (Hrand (S (S (drawn w)))) as [H0 H1].
  pose proof (floor_scaled_range _ 25 H0 H1 eq_refl) as Hidx.
  pose proof (Hfull Blocks) as Hb. pose proof (Hfull Diamonds) as Hd.
  pose proof (Hfull Planet) as Hp. cbn [count full] in *.
  change (inject_Z 25) with 25%Q in Hidx.
  split; [lia|]. split; [lia|]. split.
  - intros E. rewrite E in Hd. discriminate.
  - intros E. rewrite E in Hp. discriminate.
Qed.

Lemma triangles_apart (s : Vars) (t : NodeId) :
  NoDup (loaded s) ->
  t ∈ triangles s ->
  (t ∉ rings s) /\
  (t ∉ blocks s ++ concat (bars s) ++ take 1 (diamonds s) ++ hexagons s
         ++ held (planet s)).
Proof.
  unfold loaded. intros H Ht.
  apply list.NoDup_app in H as (_ & _ & H).
  apply list.NoDup_app in H as (_ & _ & H).
  apply list.NoDup_app in H as (_ & Hp & H).
  apply list.NoDup_app in H as (_ & Hr & H).
  apply list.NoDup_app in H as (_ & Hrest & _).
  split.
  - intros Hin. apply (Hr t Hin). apply elem_of_app. left. exact Ht.
  - specialize (Hrest t Ht). rewrite !elem_of_app in *.
    intros [Hin|[Hin|[Hin|[Hin|Hin]]]]; try tauto.
    + apply Hrest. do 3 right. apply elem_of_take in Hin as (i & Hi & _).
      eapply list_elem_of_lookup_2; eauto.
    + apply (Hp t Hin). rewrite !elem_of_app. tauto.
Qed.

Lemma last_z_touches (fp : list NodeId) (w w' : World) :
  triangles (vars w') = triangles (vars w) ->
  touches fp w w' ->
  (forall t, t ∈ triangles (vars w) -> t ∉ fp) ->
  last_z w' = last_z w.
Proof.
  intros Ht (_ & _ & _ & Ho) Hfp. unfold last_z. rewrite Ht.
  destruct (triangles (vars w) !! (length (triangles (vars w)) - 1))
    as [t|] eqn:Hl; [|reflexivity].
  rewrite Ho; [reflexivity|]. apply Hfp. eapply list_elem_of_lookup_2; eauto.
Qed.

Section Frames.

Variables rotateX rotateY translateZ : Q -> Object3D -> Object3D.
Variable Math_sin : Q -> Q.

(** From a fully loaded state a frame runs, and leaves a fully loaded
    state. *)
Lemma render_fully_loaded (w : World) :
  fully_loaded w ->
  exists w',
    render rotateX rotateY translateZ Math_sin w = (w', Ok tt) /\
    holdings (vars w') = holdings (vars w) /\
    touches (animated (vars w)) w w' /\
    fully_loaded w'.
Proof.
  intros Hw.
  destruct (render_outcome rotateX rotateY translateZ Math_sin w) as [Hok _].
  specialize (Hok (fully_loaded_ready w Hw)).
  pose proof (render_footprint rotateX rotateY translateZ Math_sin w) as [Hh Ht].
  cbv zeta in *.
  destruct (render rotateX rotateY translateZ Math_sin w) as [w' r].
  cbn [fst snd] in *. subst r. exists w'.
  split; [reflexivity|]. split; [exact Hh|]. split; [exact Ht|].
  destruct Hw as [Hfull Hrand]. split.
  - intros k. rewrite (holdings_count _ _ k Hh). apply Hfull.
  - destruct Ht as (_ & _ & -> & _). exact Hrand.
Qed.

(** So the loop of frames never stops. *)
Lemma render_loop_runs (n : nat) (w : World) :
  fully_loaded w ->
  exists h w',
    render_loop rotateX rotateY translateZ Math_sin n w = (h, w', Animating) /\
    length h = n /\ Forall is_render h.
Proof.
  revert w. induction n as [|n IH]; intros w Hw.
  - exists [], w. repeat split. constructor.
  - destruct (render_fully_loaded w Hw) as (w1 & E1 & _ & _ & Hw1).
    destruct (IH w1 Hw1) as (h & w' & E & Hlen & Hall).
    exists ((RenderCalled, w) :: h), w'.
    cbn [render_loop]. rewrite E1, E. split; [reflexivity|].
    split; [cbn; lia|]. constructor; [exact I | exact Hall].
Qed.

(** A frame of [render] from a state of the oscillation, when the
    triangles are apart from every other animated node: the back face
    makes its step as if [animateBackFace] ran alone. *)
Lemma render_back_step (w0 w : World) :
  NoDup (loaded (vars w0)) ->
  triangles (vars w0) <> [] ->
  fully_loaded w ->
  holdings (vars w) = holdings (vars w0) ->
  in_band w0 w ->
  exists w',
    render rotateX rotateY translateZ Math_sin w = (w', Ok tt) /\
    last_z w' = (last_z w + stride w0 * direction (vars w))%Q /\
    direction (vars w') = turn (last_z w') (direction (vars w)) /\
    fully_loaded w' /\
    holdings (vars w') = holdings (vars w0) /\
    in_band w0 w'.
Proof.
  intros Hnd Hne Hfull Hhold Hband.
  destruct (render_fully_loaded w Hfull) as (w' & E & Hh' & _ & Hfull').
  exists w'. split; [exact E|].
  assert (Hloaded : loaded (vars w) = loaded (vars w0))
    by (change (loaded (vars w)) with (loaded (holdings (vars w)));
        rewrite Hhold; reflexivity).
  assert (Hnd' : NoDup (loaded (vars w))) by (rewrite Hloaded; exact Hnd).
  assert (Hnd0 : NoDup (triangles (vars w0))).
  { unfold loaded in Hnd.
    do 4 (apply list.NoDup_app in Hnd as (_ & _ & Hnd)).
    apply list.NoDup_app in Hnd as (Hnd & _). exact Hnd. }
  destruct (render_spec rotateX rotateY translateZ Math_sin w)
    as (w1 & w2 & _ & V1 & _ & T1 & E2 & V2 & _ & T2 & Er).
  destruct Hband as (Htri & Hdisj).
  assert (Hz1 : last_z w1 = last_z w).
  { apply (last_z_touches (rings (vars w))); [rewrite V1; reflexivity | exact T1|].
    intros t Ht. apply (triangles_apart _ t Hnd' Ht). }
  assert (Hband1 : in_band w0 w1).
  { split; [rewrite V1; exact Htri|]. rewrite V1, Hz1. exact Hdisj. }
  destruct (in_band_frame w0 w1 Hnd0 Hne Hband1) as (w2' & E2' & Z2 & D2 & Hband2).
  rewrite E2 in E2'. injection E2' as <-.
  pose proof (render_tail_spec translateZ Math_sin w2) as (Hd & Hf & T3 & _).
  cbv zeta in Hd, Hf, T3. rewrite <- Er, E in Hd, Hf, T3. cbn [fst] in Hd, Hf, T3.
  assert (Hv2 : holdings (vars w2) = holdings (vars w)).
  { unfold holdings. apply (f_equal (set_factor 0)) in V2. exact V2. }
  assert (Htri2 : triangles (vars w2) = triangles (vars w))
    by (apply (f_equal triangles) in Hv2; exact Hv2).
  assert (Htri' : triangles (vars w') = triangles (vars w2))
    by (apply (f_equal triangles) in Hf; exact Hf).
  assert (Hz' : last_z w' = last_z w2).
  { apply (last_z_touches _ w2 w' Htri' T3).
    intros t Ht. rewrite Htri2 in Ht.
    pose proof (triangles_apart _ t Hnd' Ht) as [_ Hout].
    apply (f_equal blocks) in Hv2 as Hb. apply (f_equal bars) in Hv2 as Hbars.
    apply (f_equal diamonds) in Hv2 as Hdi. apply (f_equal hexagons) in Hv2 as Hh.
    apply (f_equal planet) in Hv2 as Hp. cbn in Hb, Hbars, Hdi, Hh, Hp.
    rewrite Hb, Hbars, Hdi, Hh, Hp. exact Hout. }
  rewrite V1 in Z2, D2. rewrite Hz1 in Z2.
  split; [rewrite Hz'; exact Z2|]. split; [rewrite Hd, Hz'; exact D2|].
  split; [exact Hfull'|]. split; [rewrite Hh'; exact Hhold|].
  destruct Hband2 as (Ht2 & Hdisj2).
  split; [rewrite Htri'; exact Ht2|]. rewrite Hd, Hz'. exact Hdisj2.
Qed.

(** The same for any number of frames. *)
Lemma render_back_steps (w0 w : World) (k : nat) :
  NoDup (loaded (vars w0)) ->
  triangles (vars w0) <> [] ->
  fully_loaded w ->
  holdings (vars w) = holdings (vars w0) ->
  in_band w0 w ->
  exists w',
    frames k (render rotateX rotateY translateZ Math_sin) w = (w', Ok tt) /\
    fully_loaded w' /\
    holdings (vars w') = holdings (vars w0) /\
    in_band w0 w'.
Proof.
  intros Hnd Hne. revert w. induction k as [|k IH]; intros w Hfull Hhold Hband.
  - exists w. split; [reflexivity | auto].
  - destruct (render_back_step w0 w Hnd Hne Hfull Hhold Hband)
      as (w1 & E1 & _ & _ & Hfull1 & Hhold1 & Hband1).
    destruct (IH w1 Hfull1 Hhold1 Hband1) as (w' & E' & H').
    exists w'. split; [|exact H'].
    cbn [frames]. rewrite seq_eval, E1. exact E'.
Qed.

Section Started.

Variable GLTFLoader : string -> Heap -> option (NodeId * Heap).

(** X11. Once started, the animation never stops.  Started with nothing
    loaded and with [Math.random()] returning numbers in [0, 1), whatever
    the loader does and in whatever order the fetches complete: if the
    assembler calls [render] at all, then every frame it is given runs to
    its end, so the observation ends with the next frame requested, and
    after the first call of [render] the history holds one call of
    [render] for each of the frames that followed and nothing else. *)
Theorem assembled_cube_keeps_animating (turns : nat) (io : list nat)
    (frames : nat) (w : World) (pre post : History) (wr : World) :
  nothing_loaded (vars w) ->
  (forall n, 0 <= random_source w n /\ random_source w n < 1)%Q ->
  fst (fst (build_with_custom_models GLTFLoader rotateX rotateY translateZ
              Math_sin turns io frames w))
    = pre ++ (RenderCalled, wr) :: post ->
  Forall (fun ev => ~ is_render ev) pre ->
  snd (build_with_custom_models GLTFLoader rotateX rotateY translateZ
         Math_sin turns io frames w) = Animating /\
  length post = frames /\
  Forall is_render post.
Proof.
  intros Hnone Hrand E Hpre.
  destruct (first_render_anatomy GLTFLoader rotateX rotateY translateZ Math_sin
              turns io frames w pre post wr E Hpre)
    as (cube & h & wl & m & hd & Hload & Hres & Hd & Hbuild & _).
  assert (Hwr : fully_loaded wr).
  { split.
    - exact (assembled_full GLTFLoader io w wl wr cube h m hd Hnone Hload Hres Hd).
    - destruct (assembled_scratch GLTFLoader io w wl wr cube h m hd Hload Hres Hd)
        as (-> & _). exact Hrand. }
  destruct (render_loop_runs (S frames) wr Hwr) as (h' & w' & El & Hlen & Hall).
  rewrite Hbuild in E |- *. rewrite El in E |- *. cbn [fst snd] in *.
  apply app_inv_head in E. subst h'. cbn in Hlen. inversion Hall; subst.
  split; [reflexivity|]. split; [lia | assumption].
Qed.

(** X12. In the assembled cube the back face oscillates.  Started with
    nothing loaded, [direction = 1] and [Math.random()] in [0, 1), on a
    loader that only adds to the store, and whatever the order in which the
    fetches complete: from the state of the first call of [render] on,
    every frame of [render] (all six animators, not the back-face one
    alone) runs; the direction is always 1 or -4; each frame moves the last
    triangle by one step in the current direction and then sets the
    direction to -4 if it is past 25 and to 1 if it is below -8.5; and the
    last triangle stays within [-8.5, 25] widened by one step at either
    end. *)
Theorem assembled_back_face_oscillates (turns : nat) (io : list nat)
    (frames : nat) (w : World) (pre post : History) (wr : World) :
  extends_store GLTFLoader ->
  nothing_loaded (vars w) ->
  scene < allocated (heap w) ->
  direction (vars w) = 1%Q ->
  (forall n, 0 <= random_source w n /\ random_source w n < 1)%Q ->
  fst (fst (build_with_custom_models GLTFLoader rotateX rotateY translateZ
              Math_sin turns io frames w))
    = pre ++ (RenderCalled, wr) :: post ->
  Forall (fun ev => ~ is_render ev) pre ->
  oscillates_under (render rotateX rotateY translateZ Math_sin) wr.
Proof.
  intros Hext Hnone Hscene Hdir Hrand E Hpre.
  destruct (first_render_anatomy GLTFLoader rotateX rotateY translateZ Math_sin
              turns io frames w pre post wr E Hpre)
    as (cube & h & wl & m & hd & Hload & Hres & Hd & _).
  destruct (assembled_scene GLTFLoader io w wl wr cube h m hd Hext Hnone Hscene
              Hload Hres Hd) as (a0 & p0 & Hinv & _).
  destruct (cube_frame_loaded GLTFLoader w wl cube h Hload Hres) as (ms & Hwl).
  pose proof (si_distinct _ _ _ Hinv) as H2.
  assert (H6 : random_source wr = random_source w)
    by (rewrite (si_random _ _ _ Hinv), Hwl; reflexivity).
  assert (H7 : direction (vars wr) = direction (vars w))
    by (rewrite (si_direction _ _ _ Hinv), Hwl; reflexivity).
  pose proof (assembled_full GLTFLoader io w wl wr cube h m hd Hnone Hload Hres Hd)
    as Hfull.
  assert (Hwr : fully_loaded wr) by (split; [exact Hfull | rewrite H6; exact Hrand]).
  assert (Hnd : NoDup (loaded (vars wr))) by (apply list.NoDup_app in H2; tauto).
  pose proof (Hfull Triangles) as Hlen. cbn [count full] in Hlen.
  assert (Hne : triangles (vars wr) <> [])
    by (intros E0; rewrite E0 in Hlen; discriminate).
  assert (Hz : last_z wr = (- (5 # 2))%Q).
  { unfold last_z.
    destruct (lookup_lt_is_Some_2 (triangles (vars wr))
                (length (triangles (vars wr)) - 1)) as [t Ht]; [lia|].
    rewrite Ht.
    destruct (si_layout _ _ _ Hinv CTriangles _ t Ht) as [-> _].
    reflexivity. }
  assert (Hstride : stride wr = (19 # 300)%Q).
  { unfold stride. rewrite Hlen. reflexivity. }
  assert (Hstart : in_band wr wr).
  { split; [reflexivity|]. left. rewrite H7, Hdir. split; [reflexivity|].
    unfold band_lo. rewrite Hz, Hstride. split; discriminate. }
  intros k. cbv zeta.
  destruct (render_back_steps wr wr k Hnd Hne Hwr eq_refl Hstart)
    as (wk & Ek & Hfk & Hhk & Hbk).
  destruct (render_back_step wr wk Hnd Hne Hfk Hhk Hbk)
    as (wk' & Ek' & Zk & Dk & _).
  rewrite Ek. cbn [fst snd]. rewrite Ek'. cbn [fst snd].
  split; [reflexivity|].
  destruct Hbk as (_ & Hdisj).
  assert (Hs : (0 <= stride wr)%Q) by (rewrite Hstride; discriminate).
  unfold band_lo, band_hi in *.
  split; [tauto|].
  split; [|split; [|split; [exact Zk | exact Dk]]];
    destruct Hdisj as [(_ & Hlo & Hhi)|(_ & Hlo & Hhi)]; lra.
Qed.

End Started.

End Frames.

(** ** The assembled cube on the concrete loader *)

Lemma simple_loader_extends : extends_store Fixture.simple_loader.
Proof.
  intros path h o h' H. unfold Fixture.simple_loader, Fixture.simple_asset in H.
  cbn in H. injection H as <- <-. cbn. split; [lia|].
  intros a Ha. rewrite !fn_lookup_insert_ne by lia. reflexivity.
Qed.

Lemma world0_nothing_loaded : nothing_loaded (vars Fixture.world0).
Proof. intros k. destruct k; reflexivity. Qed.

Lemma world0_random_range (n : nat) :
  (0 <= random_source Fixture.world0 n /\ random_source Fixture.world0 n < 1)%Q.
Proof.
  cbn [random_source Fixture.world0].
  assert (H : (0 <= Z.of_nat (n * 7 mod 10) < 10)%Z).
  { pose proof (Nat.mod_upper_bound (n * 7) 10). lia. }
  destruct H as [H0 H1]. rewrite Zle_Qle in H0. rewrite Zlt_Qlt in H1.
  change (inject_Z 0) with 0%Q in H0. change (inject_Z 10) with 10%Q in H1.
  split.
  - apply Qle_shift_div_l; [reflexivity | lra].
  - apply Qlt_shift_div_r; [reflexivity | lra].
Qed.

Lemma first_render_nodes_distinct_witness :
  let hist := fst (fst (build_with_custom_models Fixture.simple_loader
                          Fixture.keep Fixture.keep Fixture.keep Fixture.linear
                          2 Fixture.round_robin 0 Fixture.world0)) in
  let wr := snd (nth 12 hist (RenderCalled, Fixture.world0)) in
  extends_store Fixture.simple_loader /\
  nothing_loaded (vars Fixture.world0) /\
  scene < allocated (heap Fixture.world0) /\
  hist = firstn 12 hist ++ (RenderCalled, wr) :: skipn 13 hist /\
  Forall (fun ev => ~ is_render ev) (firstn 12 hist) /\
  NoDup (loaded (vars wr)) /\
  (scene ∉ loaded (vars wr)) /\
  Forall (fun t => position (objs (heap wr) t) = back_start)
    (triangles (vars wr)) /\
  random_source wr = random_source Fixture.world0 /\
  direction (vars wr) = direction (vars Fixture.world0) /\
  factor (vars wr) = factor (vars Fixture.world0).
Proof.
  cbv zeta.
  pose proof (split_by_events _ _ 12 (RenderCalled, Fixture.world0)
                RenderCalled observation_events eq_refl) as Hsplit.
  pose proof (no_render_among _ _ 12 observation_events eq_refl) as Hpre.
  assert (Hscene : scene < allocated (heap Fixture.world0)) by (unfold scene; cbn; lia).
  split; [exact simple_loader_extends|].
  split; [exact world0_nothing_loaded|].
  split; [exact Hscene|]. split; [exact Hsplit|]. split; [exact Hpre|].
  exact (first_render_nodes_distinct Fixture.simple_loader Fixture.keep
           Fixture.keep Fixture.keep Fixture.linear 2 Fixture.round_robin 0
           Fixture.world0 _ _ _ simple_loader_extends world0_nothing_loaded
           Hscene Hsplit Hpre).
Defined.

Lemma first_render_back_face_witness :
  let hist := fst (fst (build_with_custom_models Fixture.simple_loader
                          Fixture.keep Fixture.keep Fixture.keep Fixture.linear
                          2 Fixture.round_robin 0 Fixture.world0)) in
  let wr := snd (nth 12 hist (RenderCalled, Fixture.world0)) in
  extends_store Fixture.simple_loader /\
  nothing_loaded (vars Fixture.world0) /\
  scene < allocated (heap Fixture.world0) /\
  hist = firstn 12 hist ++ (RenderCalled, wr) :: skipn 13 hist /\
  Forall (fun ev => ~ is_render ev) (firstn 12 hist) /\
  length (triangles (vars wr)) = 20 /\
  forall k t, triangles (vars wr) !! k = Some t ->
    position (objs (heap wr) t) = Vector3.mk 0 0 (- (5 # 2)) /\
    scale (objs (heap wr) t) = Vector3.mk (6 - num k / 4) (6 - num k / 4) 1 /\
    t ∈ children (objs (heap wr) scene).
Proof.
  cbv zeta.
  pose proof (split_by_events _ _ 12 (RenderCalled, Fixture.world0)
                RenderCalled observation_events eq_refl) as Hsplit.
  pose proof (no_render_among _ _ 12 observation_events eq_refl) as Hpre.
  assert (Hscene : scene < allocated (heap Fixture.world0)) by (unfold scene; cbn; lia).
  split; [exact simple_loader_extends|].
  split; [exact world0_nothing_loaded|].
  split; [exact Hscene|]. split; [exact Hsplit|]. split; [exact Hpre|].
  exact (first_render_back_face Fixture.simple_loader Fixture.keep
           Fixture.keep Fixture.keep Fixture.linear 2 Fixture.round_robin 0
           Fixture.world0 _ _ _ simple_loader_extends world0_nothing_loaded
           Hscene Hsplit Hpre).
Defined.

Lemma first_render_left_face_witness :
  let hist := fst (fst (build_with_custom_models Fixture.simple_loader
                          Fixture.keep Fixture.keep Fixture.keep Fixture.linear
                          2 Fixture.round_robin 0 Fixture.world0)) in
  let wr := snd (nth 12 hist (RenderCalled, Fixture.world0)) in
  extends_store Fixture.simple_loader /\
  nothing_loaded (vars Fixture.world0) /\
  scene < allocated (heap Fixture.world0) /\
  hist = firstn 12 hist ++ (RenderCalled, wr) :: skipn 13 hist /\
  Forall (fun ev => ~ is_render ev) (firstn 12 hist) /\
  length (blocks (vars wr)) = 25 /\
  forall i j b, j < 5 -> blocks (vars wr) !! (5 * i + j) = Some b ->
    position (objs (heap wr) b)
      = Vector3.mk (num i - (3 # 2)) (- 1) (- 2 + num j) /\
    b ∈ children (objs (heap wr) scene).
Proof.
  cbv zeta.
  pose proof (split_by_events _ _ 12 (RenderCalled, Fixture.world0)
                RenderCalled observation_events eq_refl) as Hsplit.
  pose proof (no_render_among _ _ 12 observation_events eq_refl) as Hpre.
  assert (Hscene : scene < allocated (heap Fixture.world0)) by (unfold scene; cbn; lia).
  split; [exact simple_loader_extends|].
  split; [exact world0_nothing_loaded|].
  split; [exact Hscene|]. split; [exact Hsplit|]. split; [exact Hpre|].
  exact (first_render_left_face Fixture.simple_loader Fixture.keep
           Fixture.keep Fixture.keep Fixture.linear 2 Fixture.round_robin 0
           Fixture.world0 _ _ _ simple_loader_extends world0_nothing_loaded
           Hscene Hsplit Hpre).
Defined.

Lemma first_render_front_face_witness :
  let hist := fst (fst (build_with_custom_models Fixture.simple_loader
                          Fixture.keep Fixture.keep Fixture.keep Fixture.linear
                          2 Fixture.round_robin 0 Fixture.world0)) in
  let wr := snd (nth 12 hist (RenderCalled, Fixture.world0)) in
  extends_store Fixture.simple_loader /\
  nothing_loaded (vars Fixture.world0) /\
  scene < allocated (heap Fixture.world0) /\
  hist = firstn 12 hist ++ (RenderCalled, wr) :: skipn 13 hist /\
  Forall (fun ev => ~ is_render ev) (firstn 12 hist) /\
  length (rings (vars wr)) = 30 /\
  (forall j i r, i < 10 -> rings (vars wr) !! (10 * j + i) = Some r ->
     ring_layout j i (objs (heap wr) r) /\
     r ∈ children (objs (heap wr) scene)) /\
  (exists b, block (vars wr) = Some b /\
     b ∈ children (objs (heap wr) scene)).
Proof.
  cbv zeta.
  pose proof (split_by_events _ _ 12 (RenderCalled, Fixture.world0)
                RenderCalled observation_events eq_refl) as Hsplit.
  pose proof (no_render_among _ _ 12 observation_events eq_refl) as Hpre.
  assert (Hscene : scene < allocated (heap Fixture.world0)) by (unfold scene; cbn; lia).
  split; [exact simple_loader_extends|].
  split; [exact world0_nothing_loaded|].
  split; [exact Hscene|]. split; [exact Hsplit|]. split; [exact Hpre|].
  exact (first_render_front_face Fixture.simple_loader Fixture.keep
           Fixture.keep Fixture.keep Fixture.linear 2 Fixture.round_robin 0
           Fixture.world0 _ _ _ simple_loader_extends world0_nothing_loaded
           Hscene Hsplit Hpre).
Defined.

Lemma first_render_top_face_witness :
  let hist := fst (fst (build_with_custom_models Fixture.simple_loader
                          Fixture.keep Fixture.keep Fixture.keep Fixture.linear
                          2 Fixture.round_robin 0 Fixture.world0)) in
  let wr := snd (nth 12 hist (RenderCalled, Fixture.world0)) in
  extends_store Fixture.simple_loader /\
  nothing_loaded (vars Fixture.world0) /\
  scene < allocated (heap Fixture.world0) /\
  hist = firstn 12 hist ++ (RenderCalled, wr) :: skipn 13 hist /\
  Forall (fun ev => ~ is_render ev) (firstn 12 hist) /\
  exists dm,
    diamonds (vars wr) = [dm] /\
    scale (objs (heap wr) dm) = Vector3.mk 2 2 2 /\
    dm ∈ children (objs (heap wr) scene) /\
    length (hexagons (vars wr)) = 8 /\
    forall hx, hx ∈ hexagons (vars wr) ->
      scale (objs (heap wr) hx) = Vector3.mk 5 5 5 /\
      hx ∈ children (objs (heap wr) dm).
Proof.
  cbv zeta.
  pose proof (split_by_events _ _ 12 (RenderCalled, Fixture.world0)
                RenderCalled observation_events eq_refl) as Hsplit.
  pose proof (no_render_among _ _ 12 observation_events eq_refl) as Hpre.
  assert (Hscene : scene < allocated (heap Fixture.world0)) by (unfold scene; cbn; lia).
  split; [exact simple_loader_extends|].
  split; [exact world0_nothing_loaded|].
  split; [exact Hscene|]. split; [exact Hsplit|]. split; [exact Hpre|].
  exact (first_render_top_face Fixture.simple_loader Fixture.keep
           Fixture.keep Fixture.keep Fixture.linear 2 Fixture.round_robin 0
           Fixture.world0 _ _ _ simple_loader_extends world0_nothing_loaded
           Hscene Hsplit Hpre).
Defined.

Lemma first_render_right_face_witness :
  let hist := fst (fst (build_with_custom_models Fixture.simple_loader
                          Fixture.keep Fixture.keep Fixture.keep Fixture.linear
                          2 Fixture.round_robin 0 Fixture.world0)) in
  let wr := snd (nth 12 hist (RenderCalled, Fixture.world0)) in
  extends_store Fixture.simple_loader /\
  nothing_loaded (vars Fixture.world0) /\
  scene < allocated (heap Fixture.world0) /\
  hist = firstn 12 hist ++ (RenderCalled, wr) :: skipn 13 hist /\
  Forall (fun ev => ~ is_render ev) (firstn 12 hist) /\
  forall i, i < 3 ->
    exists g,
      bars (vars wr) !! i = Some g /\
      length g = 4 /\
      forall b, b ∈ g -> b ∈ children (objs (heap wr) scene).
Proof.
  cbv zeta.
  pose proof (split_by_events _ _ 12 (RenderCalled, Fixture.world0)
                RenderCalled observation_events eq_refl) as Hsplit.
  pose proof (no_render_among _ _ 12 observation_events eq_refl) as Hpre.
  assert (Hscene : scene < allocated (heap Fixture.world0)) by (unfold scene; cbn; lia).
  split; [exact simple_loader_extends|].
  split; [exact world0_nothing_loaded|].
  split; [exact Hscene|]. split; [exact Hsplit|]. split; [exact Hpre|].
  exact (first_render_right_face Fixture.simple_loader Fixture.keep
           Fixture.keep Fixture.keep Fixture.linear 2 Fixture.round_robin 0
           Fixture.world0 _ _ _ simple_loader_extends world0_nothing_loaded
           Hscene Hsplit Hpre).
Defined.

Lemma first_render_bottom_face_witness :
  let hist := fst (fst (build_with_custom_models Fixture.simple_loader
                          Fixture.keep Fixture.keep Fixture.keep Fixture.linear
                          2 Fixture.round_robin 0 Fixture.world0)) in
  let wr := snd (nth 12 hist (RenderCalled, Fixture.world0)) in
  extends_store Fixture.simple_loader /\
  nothing_loaded (vars Fixture.world0) /\
  scene < allocated (heap Fixture.world0) /\
  hist = firstn 12 hist ++ (RenderCalled, wr) :: skipn 13 hist /\
  Forall (fun ev => ~ is_render ev) (firstn 12 hist) /\
  exists pl,
    planet (vars wr) = Some pl /\
    scale (objs (heap wr) pl) = Vector3.mk 2 2 2 /\
    pl ∈ children (objs (heap wr) scene).
Proof.
  cbv zeta.
  pose proof (split_by_events _ _ 12 (RenderCalled, Fixture.world0)
                RenderCalled observation_events eq_refl) as Hsplit.
  pose proof (no_render_among _ _ 12 observation_events eq_refl) as Hpre.
  assert (Hscene : scene < allocated (heap Fixture.world0)) by (unfold scene; cbn; lia).
  split; [exact simple_loader_extends|].
  split; [exact world0_nothing_loaded|].
  split; [exact Hscene|]. split; [exact Hsplit|]. split; [exact Hpre|].
  exact (first_render_bottom_face Fixture.simple_loader Fixture.keep
           Fixture.keep Fixture.keep Fixture.linear 2 Fixture.round_robin 0
           Fixture.world0 _ _ _ simple_loader_extends world0_nothing_loaded
           Hscene Hsplit Hpre).
Defined.

Lemma face_loaders_leave_old_nodes_witness :
  let hist := fst (fst (build_with_custom_models Fixture.simple_loader
                          Fixture.keep Fixture.keep Fixture.keep Fixture.linear
                          2 Fixture.round_robin 0 Fixture.world0)) in
  let wr := snd (nth 12 hist (RenderCalled, Fixture.world0)) in
  extends_store Fixture.simple_loader /\
  nothing_loaded (vars Fixture.world0) /\
  scene < allocated (heap Fixture.world0) /\
  hist = firstn 12 hist ++ (RenderCalled, wr) :: skipn 13 hist /\
  Forall (fun ev => ~ is_render ev) (firstn 12 hist) /\
  exists w0 pre',
    firstn 12 hist = (Called 0, w0) :: pre' /\
    (forall a, a < allocated (heap w0) -> a <> scene ->
       objs (heap wr) a = objs (heap w0) a) /\
    (exists extra,
       objs (heap wr) scene =
         set_children (fun cs => cs ++ extra) (objs (heap w0) scene)) /\
    impossibleCube (vars wr) = impossibleCube (vars w0).
Proof.
  cbv zeta.
  pose proof (split_by_events _ _ 12 (RenderCalled, Fixture.world0)
                RenderCalled observation_events eq_refl) as Hsplit.
  pose proof (no_render_among _ _ 12 observation_events eq_refl) as Hpre.
  assert (Hscene : scene < allocated (heap Fixture.world0)) by (unfold scene; cbn; lia).
  split; [exact simple_loader_extends|].
  split; [exact world0_nothing_loaded|].
  split; [exact Hscene|]. split; [exact Hsplit|]. split; [exact Hpre|].
  exact (face_loaders_leave_old_nodes Fixture.simple_loader Fixture.keep
           Fixture.keep Fixture.keep Fixture.linear 2 Fixture.round_robin 0
           Fixture.world0 _ _ _ simple_loader_extends world0_nothing_loaded
           Hscene Hsplit Hpre).
Defined.

Lemma first_render_cube_frame_witness :
  let hist := fst (fst (build_with_custom_models Fixture.simple_loader
                          Fixture.keep Fixture.keep Fixture.keep Fixture.linear
                          2 Fixture.round_robin 0 Fixture.world0)) in
  let wr := snd (nth 12 hist (RenderCalled, Fixture.world0)) in
  extends_store Fixture.simple_loader /\
  nothing_loaded (vars Fixture.world0) /\
  scene < allocated (heap Fixture.world0) /\
  hist = firstn 12 hist ++ (RenderCalled, wr) :: skipn 13 hist /\
  Forall (fun ev => ~ is_render ev) (firstn 12 hist) /\
  exists cube,
    impossibleCube (vars wr) = Some cube /\
    scale (objs (heap wr) cube) = Vector3.mk 2 2 2 /\
    cube ∈ children (objs (heap wr) scene).
Proof.
  cbv zeta.
  pose proof (split_by_events _ _ 12 (RenderCalled, Fixture.world0)
                RenderCalled observation_events eq_refl) as Hsplit.
  pose proof (no_render_among _ _ 12 observation_events eq_refl) as Hpre.
  assert (Hscene : scene < allocated (heap Fixture.world0)) by (unfold scene; cbn; lia).
  split; [exact simple_loader_extends|].
  split; [exact world0_nothing_loaded|].
  split; [exact Hscene|]. split; [exact Hsplit|]. split; [exact Hpre|].
  exact (first_render_cube_frame Fixture.simple_loader Fixture.keep
           Fixture.keep Fixture.keep Fixture.linear 2 Fixture.round_robin 0
           Fixture.world0 _ _ _ simple_loader_extends world0_nothing_loaded
           Hscene Hsplit Hpre).
Defined.

Lemma assembled_cube_keeps_animating_witness :
  let hist := fst (fst (build_with_custom_models Fixture.simple_loader
                          Fixture.keep Fixture.keep Fixture.keep Fixture.linear
                          2 Fixture.round_robin 0 Fixture.world0)) in
  let wr := snd (nth 12 hist (RenderCalled, Fixture.world0)) in
  nothing_loaded (vars Fixture.world0) /\
  (forall n, 0 <= random_source Fixture.world0 n
             /\ random_source Fixture.world0 n < 1)%Q /\
  hist = firstn 12 hist ++ (RenderCalled, wr) :: skipn 13 hist /\
  Forall (fun ev => ~ is_render ev) (firstn 12 hist) /\
  snd (build_with_custom_models Fixture.simple_loader
         Fixture.keep Fixture.keep Fixture.keep Fixture.linear
         2 Fixture.round_robin 0 Fixture.world0) = Animating /\
  length (skipn 13 hist) = 0 /\
  Forall is_render (skipn 13 hist).
Proof.
  cbv zeta.
  pose proof (split_by_events _ _ 12 (RenderCalled, Fixture.world0)
                RenderCalled observation_events eq_refl) as Hsplit.
  pose proof (no_render_among _ _ 12 observation_events eq_refl) as Hpre.
  split; [exact world0_nothing_loaded|].
  split; [exact world0_random_range|].
  split; [exact Hsplit|]. split; [exact Hpre|].
  exact (assembled_cube_keeps_animating Fixture.keep Fixture.keep Fixture.keep
           Fixture.linear Fixture.simple_loader 2 Fixture.round_robin 0
           Fixture.world0 _ _ _ world0_nothing_loaded world0_random_range
           Hsplit Hpre).
Defined.

Lemma assembled_back_face_oscillates_witness :
  let hist := fst (fst (build_with_custom_models Fixture.simple_loader
                          Fixture.keep Fixture.keep Fixture.keep Fixture.linear
                          2 Fixture.round_robin 0 Fixture.world0)) in
  let wr := snd (nth 12 hist (RenderCalled, Fixture.world0)) in
  extends_store Fixture.simple_loader /\
  nothing_loaded (vars Fixture.world0) /\
  scene < allocated (heap Fixture.world0) /\
  direction (vars Fixture.world0) = 1%Q /\
  (forall n, 0 <= random_source Fixture.world0 n
             /\ random_source Fixture.world0 n < 1)%Q /\
  hist = firstn 12 hist ++ (RenderCalled, wr) :: skipn 13 hist /\
  Forall (fun ev => ~ is_render ev) (firstn 12 hist) /\
  oscillates_under
    (render Fixture.keep Fixture.keep Fixture.keep Fixture.linear) wr.
Proof.
  cbv zeta.
  pose proof (split_by_events _ _ 12 (RenderCalled, Fixture.world0)
                RenderCalled observation_events eq_refl) as Hsplit.
  pose proof (no_render_among _ _ 12 observation_events eq_refl) as Hpre.
  assert (Hscene : scene < allocated (heap Fixture.world0)) by (unfold scene; cbn; lia).
  split; [exact simple_loader_extends|].
  split; [exact world0_nothing_loaded|].
  split; [exact Hscene|]. split; [reflexivity|].
  split; [exact world0_random_range|].
  split; [exact Hsplit|]. split; [exact Hpre|].
  exact (assembled_back_face_oscillates Fixture.keep Fixture.keep Fixture.keep
           Fixture.linear Fixture.simple_loader 2 Fixture.round_robin 0
           Fixture.world0 _ _ _ simple_loader_extends world0_nothing_loaded
           Hscene eq_refl world0_random_range Hsplit Hpre).
Defined.

(** * The top face, frame by frame *)

Section TopFace.

Variable Math_sin : Q -> Q.

(** What a frame of [animateTopFace] does, when the diamond is none of the
    hexagons and the hexagons are distinct. *)
Lemma animateTopFace_full (w : World) (d0 : NodeId) :
  diamonds (vars w) !! 0 = Some d0 ->
  NoDup (hexagons (vars w)) ->
  d0 ∉ hexagons (vars w) ->
  exists w',
    animateTopFace Math_sin w = (w', Ok tt) /\
    objs (heap w') d0 = top_turn (objs (heap w) d0) /\
    (forall i h, hexagons (vars w) !! i = Some h ->
       objs (heap w') h =
         top_pose
           (Math_sin (Vector3.y (rotation (objs (heap w) d0)) * 50 * Math_PI / 180))
           (Vector3.x (rotation (objs (heap w) d0)) + (1 # 100)) i
           (objs (heap w) h)) /\
    factor (vars w') = top_factor (length (hexagons (vars w))) (factor (vars w)) /\
    set_factor 0 (vars w') = set_factor 0 (vars w) /\
    touches (d0 :: hexagons (vars w)) w w'.
Proof.
  intros Hd0 Hnd Hd0h. unfold animateTopFace.
  assert (Hin0 : d0 ∈ d0 :: hexagons (vars w)) by apply list_elem_of_here.
  assert (Hfirst : (ds ← gets (fun w => diamonds (vars w)); defined (ds !! 0)) w
                   = (w, Ok d0)) by (munfold; rewrite Hd0; reflexivity).
  unfold mbind at 1, M_bind at 1, bind at 1. rewrite Hfirst.
  unfold mbind at 1, M_bind at 1, bind at 1, gets at 1.
  unfold mbind at 1, M_bind at 1, bind at 1, write_object at 1, modify at 1.
  set (wa := with_heap _ w).
  assert (Hsecond : (ds ← gets (fun w => diamonds (vars w)); defined (ds !! 0)) wa
                    = (wa, Ok d0)) by (munfold; unfold wa; cbn [vars with_heap];
                                       rewrite Hd0; reflexivity).
  unfold mbind at 1, M_bind at 1, bind at 1. rewrite Hsecond.
  unfold mbind at 1, M_bind at 1, bind at 1, write_object at 1, modify at 1.
  set (wb := with_heap _ wa).
  assert (Hturn : objs (heap wb) d0 = top_turn (objs (heap w) d0)).
  { unfold wb, wa. cbn [heap with_heap upd_objs objs].
    rewrite !fn_lookup_alter. reflexivity. }
  assert (Hrest : forall a, a <> d0 -> objs (heap wb) a = objs (heap w) a).
  { intros a Ha. unfold wb, wa. cbn [heap with_heap upd_objs objs].
    rewrite !fn_lookup_alter_ne by congruence. reflexivity. }
  unfold mbind at 1, M_bind at 1, bind at 1, gets at 1.
  replace (hexagons (vars wb)) with (hexagons (vars w)) by reflexivity.
  set (dist := Math_sin _).
  match goal with
  | |- context [for_ ?n 0 ?b wb] =>
      destruct (for_inv
                  (fun i w1 =>
                     set_factor 0 (vars w1) = set_factor 0 (vars w) /\
                     touches (d0 :: hexagons (vars w)) w w1 /\
                     objs (heap w1) d0 = top_turn (objs (heap w) d0) /\
                     (forall k h, hexagons (vars w) !! k = Some h ->
                        objs (heap w1) h =
                          if decide (k < i)
                          then top_pose dist
                                 (Vector3.x (rotation (objs (heap w) d0)) + (1 # 100))
                                 k (objs (heap w) h)
                          else objs (heap w) h) /\
                     factor (vars w1) = top_factor i (factor (vars w)))
                  n 0 b wb) as (w' & E & Hv & Ht & Hd & Hh & Hf)
  end.
  - split; [reflexivity|]. split; [unfold wb, wa; touches_writes Hin0|].
    split; [exact Hturn|]. split; [|reflexivity].
    intros k h Hk. destruct (decide (k < 0)); [lia|]. apply Hrest.
    intros ->. apply Hd0h. eapply list_elem_of_lookup_2; eauto.
  - intros i w1 Hi (Hv & Ht & Hd & Hh & Hf).
    assert (Hhex : hexagons (vars w1) = hexagons (vars w))
      by (apply (f_equal hexagons) in Hv; exact Hv).
    assert (Hdia : diamonds (vars w1) = diamonds (vars w))
      by (apply (f_equal diamonds) in Hv; exact Hv).
    destruct (lookup_lt_is_Some_2 (hexagons (vars w)) i) as [hx Hhx]; [lia|].
    assert (Hin : hx ∈ d0 :: hexagons (vars w)).
    { apply list_elem_of_further. eapply list_elem_of_lookup_2; eauto. }
    assert (Hne : hx <> d0).
    { intros ->. apply Hd0h. eapply list_elem_of_lookup_2; eauto. }
    pose proof (Hh i hx Hhx) as Hcur.
    destruct (decide (i < i)); [lia|].
    munfold. unfold write_object, modify.
    destruct (i mod 2 =? 0) eqn:Hpar; cbn [negb];
      repeat (progress
                (cbn [vars heap with_heap with_vars hexagons diamonds set_factor];
                 rewrite ?Hhex, ?Hdia, ?Hhx, ?Hd0));
      eexists; (split; [reflexivity|]);
      (split; [cbn [vars with_heap with_vars]; exact Hv|]);
      (split; [eapply touches_trans; [exact Ht|]; touches_writes Hin|]);
      cbn [heap vars with_heap with_vars upd_objs objs factor set_factor];
      (split; [rewrite !fn_lookup_alter_ne by congruence; exact Hd|]);
      (split; [|cbn [top_factor]; rewrite Hpar; reflexivity]);
      intros k h Hk;
      (destruct (decide (k = i)) as [->|Hki];
       [ assert (h = hx) by congruence; subst h;
         destruct (decide (i < S i)); [|lia];
         rewrite !fn_lookup_alter, Hcur;
         rewrite !fn_lookup_alter_ne by congruence; rewrite Hd;
         unfold top_pose; rewrite Hpar; reflexivity
       | assert (h <> hx)
           by (intros ->; apply Hki;
               eapply NoDup_lookup; [exact Hnd | exact Hk | exact Hhx]);
         rewrite !fn_lookup_alter_ne by congruence;
         rewrite (Hh k h Hk);
         destruct (decide (k < i)), (decide (k < S i)); try lia; reflexivity ]).
  - exists w'. split; [exact E|]. split; [exact Hd|]. split.
    + intros i h Hi. rewrite (Hh i h Hi).
      destruct (decide (i < 0 + length (hexagons (vars w)))); [reflexivity|].
      exfalso. apply lookup_lt_Some in Hi. lia.
    + split; [exact Hf|]. split; [exact Hv | exact Ht].
Qed.

(** X21. What a frame does to the top face.  When the diamond is none of
    the hexagons and the hexagons are distinct, a frame of
    [animateTopFace] runs to its end; it adds 0.01 to the rotation of the
    diamond about x and subtracts 0.01 from that about y; whatever the
    hexagon at index [i] was before, it gives it the scale 2 - i/4 on each
    axis, the position (0, 0, d*i*2*s) where d is the sine of the rotation
    of the diamond about y before the frame, times 50, in degrees, and s is
    -1 for an even index and 1 for an odd one, and the rotation
    (-x, 0, 0), x being the rotation of the diamond about x after its
    increment; it leaves [factor] at -1 or 1 by the parity of the last
    index (untouched if there is no hexagon); and it changes no other
    variable, no other node and no material. *)
Theorem animateTopFace_poses_hexagons (w : World) (d0 : NodeId) :
  diamonds (vars w) !! 0 = Some d0 ->
  NoDup (hexagons (vars w)) ->
  d0 ∉ hexagons (vars w) ->
  exists w',
    animateTopFace Math_sin w = (w', Ok tt) /\
    objs (heap w') d0 = top_turn (objs (heap w) d0) /\
    (forall i h, hexagons (vars w) !! i = Some h ->
       objs (heap w') h =
         top_pose
           (Math_sin (Vector3.y (rotation (objs (heap w) d0)) * 50 * Math_PI / 180))
           (Vector3.x (rotation (objs (heap w) d0)) + (1 # 100)) i
           (objs (heap w) h)) /\
    factor (vars w') = top_factor (length (hexagons (vars w))) (factor (vars w)) /\
    set_factor 0 (vars w') = set_factor 0 (vars w) /\
    touches (d0 :: hexagons (vars w)) w w'.
Proof. apply animateTopFace_full. Qed.

End TopFace.

Lemma animateTopFace_poses_hexagons_witness :
  let w := with_vars (fun s => set_diamonds [1] (set_hexagons [2; 3; 4] s))
             Fixture.world0 in
  diamonds (vars w) !! 0 = Some 1 /\
  NoDup (hexagons (vars w)) /\
  (1 ∉ hexagons (vars w)) /\
  exists w',
    animateTopFace Fixture.linear w = (w', Ok tt) /\
    objs (heap w') 1 = top_turn (objs (heap w) 1) /\
    (forall i h, hexagons (vars w) !! i = Some h ->
       objs (heap w') h =
         top_pose
           (Fixture.linear
              (Vector3.y (rotation (objs (heap w) 1)) * 50 * Math_PI / 180))
           (Vector3.x (rotation (objs (heap w) 1)) + (1 # 100)) i
           (objs (heap w) h)) /\
    factor (vars w') = top_factor (length (hexagons (vars w))) (factor (vars w)) /\
    set_factor 0 (vars w') = set_factor 0 (vars w) /\
    touches (1 :: hexagons (vars w)) w w'.
Proof.
  cbv zeta.
  assert (Hnd : NoDup [2; 3; 4]) by (apply (NoDup_seq 2 3)).
  assert (Hno : 1 ∉ [2; 3; 4])
    by (rewrite !elem_of_cons, elem_of_nil; lia).
  split; [reflexivity|]. split; [exact Hnd|]. split; [exact Hno|].
  exact (animateTopFace_poses_hexagons Fixture.linear
           (with_vars (fun s => set_diamonds [1] (set_hexagons [2; 3; 4] s))
              Fixture.world0) 1 eq_refl Hnd Hno).
Defined.

(** ** The top face in a frame of [render] *)

Lemma top_apart (s : Vars) (a : NodeId) :
  NoDup (loaded s) ->
  a ∈ hexagons s ++ diamonds s ->
  (a ∉ rings s) /\ (a ∉ triangles s) /\ (a ∉ blocks s) /\
  (a ∉ concat (bars s)) /\ (a ∉ held (planet s)).
Proof.
  unfold loaded. intros H Ha.
  apply list.NoDup_app in H as (_ & _ & H).
  apply list.NoDup_app in H as (_ & _ & H).
  apply list.NoDup_app in H as (_ & Hp & H).
  apply list.NoDup_app in H as (_ & Hr & H).
  apply list.NoDup_app in H as (_ & Ht & H).
  apply list.NoDup_app in H as (_ & Hb & H).
  apply list.NoDup_app in H as (_ & Hbars & _).
  pose proof Ha as Ha'. rewrite elem_of_app in Ha'.
  repeat split; intros Hin.
  - apply (Hr a Hin). rewrite !elem_of_app. tauto.
  - apply (Ht a Hin). rewrite !elem_of_app. tauto.
  - apply (Hb a Hin). rewrite !elem_of_app. tauto.
  - apply (Hbars a Hin). exact Ha.
  - apply (Hp a Hin). rewrite !elem_of_app. tauto.
Qed.

Section TopFaceInFrame.

Variables rotateX rotateY translateZ : Q -> Object3D -> Object3D.
Variable Math_sin : Q -> Q.

(** In a frame of [render] from a state in which the loaded nodes are
    distinct, the top face gets what [animateTopFace] gives it, from what
    it was when the frame started: the other animators do not touch it. *)
Lemma render_poses_top_face (w : World) (dm : NodeId) :
  NoDup (loaded (vars w)) ->
  frame_ready w ->
  diamonds (vars w) !! 0 = Some dm ->
  exists w',
    render rotateX rotateY translateZ Math_sin w = (w', Ok tt) /\
    objs (heap w') dm = top_turn (objs (heap w) dm) /\
    forall i h, hexagons (vars w) !! i = Some h ->
      objs (heap w') h =
        top_pose
          (Math_sin (Vector3.y (rotation (objs (heap w) dm)) * 50 * Math_PI / 180))
          (Vector3.x (rotation (objs (heap w) dm)) + (1 # 100)) i
          (objs (heap w) h).
Proof.
  intros Hnd (Hi0 & Hilt & Hdne & Hpl) Hdm.
  destruct (render_spec rotateX rotateY translateZ Math_sin w)
    as (w1 & w2 & _ & V1 & D1 & T1 & _ & V2 & D2 & T2 & ->).
  assert (Hsame : holdings (vars w2) = holdings (vars w)).
  { unfold holdings. apply (f_equal (set_factor 0)) in V2. exact V2. }
  assert (Hhex : hexagons (vars w2) = hexagons (vars w))
    by (apply (f_equal hexagons) in Hsame; exact Hsame).
  assert (Hdia : diamonds (vars w2) = diamonds (vars w))
    by (apply (f_equal diamonds) in Hsame; exact Hsame).
  assert (Hblk : blocks (vars w2) = blocks (vars w))
    by (apply (f_equal blocks) in Hsame; exact Hsame).
  assert (Hbar : bars (vars w2) = bars (vars w))
    by (apply (f_equal bars) in Hsame; exact Hsame).
  assert (Hplan : planet (vars w2) = planet (vars w))
    by (apply (f_equal planet) in Hsame; exact Hsame).
  assert (Hidx : drawn_index w2 = drawn_index w).
  { unfold drawn_index. destruct T1 as (_ & _ & R1 & _).
    destruct T2 as (_ & _ & R2 & _). rewrite D2, R2, R1. reflexivity. }
  assert (Hdmin : dm ∈ hexagons (vars w) ++ diamonds (vars w)).
  { apply elem_of_app. right. eapply list_elem_of_lookup_2; eauto. }
  assert (Hhin : forall i h, hexagons (vars w) !! i = Some h ->
                             h ∈ hexagons (vars w) ++ diamonds (vars w)).
  { intros i h Hh. apply elem_of_app. left.
    eapply list_elem_of_lookup_2; eauto. }
  assert (Hndh : NoDup (hexagons (vars w))).
  { unfold loaded in Hnd.
    do 7 (apply list.NoDup_app in Hnd as (_ & _ & Hnd)).
    apply list.NoDup_app in Hnd as (Hnd & _). exact Hnd. }
  assert (Hdmh : dm ∉ hexagons (vars w)).
  { unfold loaded in Hnd.
    do 7 (apply list.NoDup_app in Hnd as (_ & _ & Hnd)).
    apply list.NoDup_app in Hnd as (_ & Hdis & _).
    intros Hin. apply (Hdis dm Hin). eapply list_elem_of_lookup_2; eauto. }
  (* the left face *)
  rewrite seq_eval.
  pose proof (animateLeftFace_spec w2) as HL. rewrite Hidx, Hblk in HL.
  destruct (drawn_index w <? 0)%Z eqn:Hneg; [lia|].
  destruct (lookup_lt_is_Some_2 (blocks (vars w)) (Z.to_nat (drawn_index w)))
    as [b Hb]; [exact Hilt|].
  rewrite Hb in HL. destruct HL as (w3 & E3 & V3 & T3). rewrite E3.
  cbv beta iota. rewrite seq_eval.
  (* the right face *)
  destruct (animateRightFace_spec translateZ w3) as (w4 & E4 & V4 & T4).
  rewrite E4. cbv beta iota. rewrite seq_eval.
  rewrite V3 in V4, T4. rewrite Hbar in T4.
  (* before the top face, the top face is as it was *)
  assert (Hkeep : forall a, a ∈ hexagons (vars w) ++ diamonds (vars w) ->
                            objs (heap w4) a = objs (heap w) a).
  { intros a Ha.
    destruct (top_apart _ a Hnd Ha) as (N1 & N2 & N3 & N4 & _).
    destruct T1 as (_ & _ & _ & O1). destruct T2 as (_ & _ & _ & O2).
    destruct T3 as (_ & _ & _ & O3). destruct T4 as (_ & _ & _ & O4).
    rewrite O4 by exact N4. rewrite O3.
    - rewrite O2 by exact N2. apply O1. exact N1.
    - intros Hin. apply list_elem_of_singleton in Hin as ->. apply N3.
      eapply list_elem_of_lookup_2; eauto. }
  (* the top face *)
  destruct (animateTopFace_full Math_sin w4 dm) as (w5 & E5 & Hturn & Hpose & _ & V5 & T5).
  { rewrite V4, Hdia. exact Hdm. }
  { rewrite V4, Hhex. exact Hndh. }
  { rewrite V4, Hhex. exact Hdmh. }
  rewrite E5. cbv beta iota.
  rewrite V4, Hhex in Hpose, T5. rewrite (Hkeep dm Hdmin) in Hturn, Hpose.
  (* the bottom face *)
  assert (Hp5 : planet (vars w5) = planet (vars w)).
  { apply (f_equal planet) in V5. cbn in V5. rewrite V5, V4. exact Hplan. }
  pose proof (animateBottomFace_spec w5) as HB. rewrite Hp5 in HB.
  destruct (planet (vars w)) as [p|] eqn:Hp; [|congruence].
  destruct HB as (w6 & E6 & _ & _ & (_ & _ & _ & O6)).
  exists w6. split; [exact E6|].
  assert (Hnp : forall a, a ∈ hexagons (vars w) ++ diamonds (vars w) -> a ∉ [p]).
  { intros a Ha. destruct (top_apart _ a Hnd Ha) as (_ & _ & _ & _ & N5).
    rewrite Hp in N5. exact N5. }
  split.
  - rewrite O6 by (apply Hnp, Hdmin). exact Hturn.
  - intros i h Hh. rewrite O6 by (eapply Hnp, Hhin; eauto).
    rewrite (Hpose i h Hh), (Hkeep h (Hhin i h Hh)). reflexivity.
Qed.

End TopFaceInFrame.

(** ** The first frame of the assembled cube *)

Section FirstFrame.

Variable GLTFLoader : string -> Heap -> option (NodeId * Heap).
Variables rotateX rotateY translateZ : Q -> Object3D -> Object3D.
Variable Math_sin : Q -> Q.

(** X22. The first frame replaces what the loader gave the hexagons.
    Started with nothing loaded and with [Math.random()] in [0, 1), on a
    loader that only adds to the store, and whatever the order in which
    the fetches complete: the frame that starts at the first call of
    [render] runs to its end; it turns the diamond by 0.01 about x and by
    -0.01 about y; and it leaves the hexagon at index [i], which the
    loader had given the scale (5, 5, 5), with the scale 2 - i/4 on each
    axis, at (0, 0, d*i*2*s) and with the rotation (-x, 0, 0), where d is
    the sine computed from the rotation of the diamond about y at the
    start of the frame, s is -1 for an even index and 1 for an odd one,
    and x is the rotation of the diamond about x after its increment.  No
    other animator of the frame touches the diamond or a hexagon. *)
Theorem first_frame_poses_top_face (turns : nat) (io : list nat)
    (frames : nat) (w : World) (pre post : History) (wr : World) :
  extends_store GLTFLoader ->
  nothing_loaded (vars w) ->
  scene < allocated (heap w) ->
  (forall n, 0 <= random_source w n /\ random_source w n < 1)%Q ->
  fst (fst (build_with_custom_models GLTFLoader rotateX rotateY translateZ
              Math_sin turns io frames w))
    = pre ++ (RenderCalled, wr) :: post ->
  Forall (fun ev => ~ is_render ev) pre ->
  exists dm wr',
    diamonds (vars wr) = [dm] /\
    render rotateX rotateY translateZ Math_sin wr = (wr', Ok tt) /\
    objs (heap wr') dm = top_turn (objs (heap wr) dm) /\
    forall i h, hexagons (vars wr) !! i = Some h ->
      scale (objs (heap wr) h) = Vector3.mk 5 5 5 /\
      objs (heap wr') h =
        top_pose
          (Math_sin (Vector3.y (rotation (objs (heap wr) dm)) * 50 * Math_PI / 180))
          (Vector3.x (rotation (objs (heap wr) dm)) + (1 # 100)) i
          (objs (heap wr) h).
Proof.
  intros Hext Hnone Hscene Hrand E Hpre.
  destruct (first_render_scene GLTFLoader rotateX rotateY translateZ Math_sin
              turns io frames w pre post wr Hext Hnone Hscene E Hpre)
    as (w0 & pre' & cube & a & p & _ & Hinv & _).
  destruct (first_render_anatomy GLTFLoader rotateX rotateY translateZ Math_sin
              turns io frames w pre post wr E Hpre)
    as (cube' & h & wl & m & hd & Hload & Hres & Hd & _).
  assert (Hwr : fully_loaded wr).
  { split.
    - exact (assembled_full GLTFLoader io w wl wr cube' h m hd Hnone Hload Hres Hd).
    - destruct (assembled_scratch GLTFLoader io w wl wr cube' h m hd Hload Hres Hd)
        as (-> & _). exact Hrand. }
  assert (Hnd : NoDup (loaded (vars wr))).
  { pose proof (si_distinct _ _ _ Hinv) as H2.
    apply list.NoDup_app in H2. tauto. }
  assert (Hlen : length (coll CDiamonds (vars wr)) = 1).
  { apply (si_lens _ _ _ Hinv CDiamonds 1).
    do 6 apply list_elem_of_further. apply list_elem_of_here. }
  cbn [coll] in Hlen.
  destruct (diamonds (vars wr)) as [|dm [|]] eqn:Hdm; try discriminate.
  destruct (render_poses_top_face rotateX rotateY translateZ Math_sin wr dm Hnd
              (fully_loaded_ready wr Hwr))
    as (wr' & Er & Hturn & Hpose); [rewrite Hdm; reflexivity|].
  exists dm, wr'. split; [reflexivity|]. split; [exact Er|].
  split; [exact Hturn|]. intros i hx Hi. split.
  - exact (si_layout _ _ _ Hinv CHexagons i hx Hi).
  - exact (Hpose i hx Hi).
Qed.

End FirstFrame.

Lemma first_frame_poses_top_face_witness :
  let hist := fst (fst (build_with_custom_models Fixture.simple_loader
                          Fixture.keep Fixture.keep Fixture.keep Fixture.linear
                          2 Fixture.round_robin 0 Fixture.world0)) in
  let wr := snd (nth 12 hist (RenderCalled, Fixture.world0)) in
  extends_store Fixture.simple_loader /\
  nothing_loaded (vars Fixture.world0) /\
  scene < allocated (heap Fixture.world0) /\
  (forall n, 0 <= random_source Fixture.world0 n
             /\ random_source Fixture.world0 n < 1)%Q /\
  hist = firstn 12 hist ++ (RenderCalled, wr) :: skipn 13 hist /\
  Forall (fun ev => ~ is_render ev) (firstn 12 hist) /\
  exists dm wr',
    diamonds (vars wr) = [dm] /\
    render Fixture.keep Fixture.keep Fixture.keep Fixture.linear wr
      = (wr', Ok tt) /\
    objs (heap wr') dm = top_turn (objs (heap wr) dm) /\
    forall i h, hexagons (vars wr) !! i = Some h ->
      scale (objs (heap wr) h) = Vector3.mk 5 5 5 /\
      objs (heap wr') h =
        top_pose
          (Fixture.linear
             (Vector3.y (rotation (objs (heap wr) dm)) * 50 * Math_PI / 180))
          (Vector3.x (rotation (objs (heap wr) dm)) + (1 # 100)) i
          (objs (heap wr) h).
Proof.
  cbv zeta.
  pose proof (split_by_events _ _ 12 (RenderCalled, Fixture.world0)
                RenderCalled observation_events eq_refl) as Hsplit.
  pose proof (no_render_among _ _ 12 observation_events eq_refl) as Hpre.
  assert (Hscene : scene < allocated (heap Fixture.world0)) by (unfold scene; cbn; lia).
  split; [exact simple_loader_extends|].
  split; [exact world0_nothing_loaded|].
  split; [exact Hscene|]. split; [exact world0_random_range|].
  split; [exact Hsplit|]. split; [exact Hpre|].
  exact (first_frame_poses_top_face Fixture.simple_loader Fixture.keep
           Fixture.keep Fixture.keep Fixture.linear 2 Fixture.round_robin 0
           Fixture.world0 _ _ _ simple_loader_extends world0_nothing_loaded
           Hscene world0_random_range Hsplit Hpre).
Defined.

(** * The bottom-face loader on its own *)

Lemma descend_transform (g : Object3D -> Object3D) (a : NodeId) (h : Heap)
    (o : NodeId) (path : list nat) :
  (forall x, children (g x) = children x) ->
  descend (upd_objs (alter g a) h) o path = descend h o path.
Proof.
  intros Hg. revert o. induction path as [|i path IH]; intros o; [reflexivity|].
  cbn [descend upd_objs objs]. rewrite children_alter_transform by exact Hg.
  destruct (children (objs h o) !! i); [apply IH | reflexivity].
Qed.

Lemma material_slot_transform (g : Object3D -> Object3D) (a : NodeId)
    (h : Heap) (o : NodeId) (path : list nat) :
  (forall x, children (g x) = children x) ->
  (forall x, material (g x) = material x) ->
  material_slot (upd_objs (alter g a) h) o path = material_slot h o path.
Proof.
  intros Hc Hm. unfold material_slot. rewrite descend_transform by exact Hc.
  destruct (descend h o path); [|reflexivity].
  cbn [upd_objs objs]. apply material_alter_transform. exact Hm.
Qed.

(** A statement followed by the rest of the routine. *)
Lemma advance_sync_seq {A B} (m : M B) (k : Async A) (w : World) :
  advance (sync m ;; k) w =
    match m w with
    | (w', Ok _) => advance k w'
    | (w', Throw e) => (w', Raise e)
    end.
Proof. reflexivity. Qed.

(** Three assignments to the material at one path, after which the
    routine goes on or is rejected. *)
Lemma advance_tag_path {A} (o : NodeId) (path : list nat) (k : Async A)
    (w : World) :
  advance
    (sync (m ← material_at o path; write_material m (set_stencilWrite true));;
     sync (m ← material_at o path; write_material m (set_stencilRef 7));;
     sync (m ← material_at o path;
           write_material m (set_stencilFunc EqualStencilFunc));;
     k) w =
    match material_slot (heap w) o path with
    | Some m => advance k (tag7 m w)
    | None => (w, Raise TypeError)
    end.
Proof.
  rewrite advance_sync_seq, assign_eval.
  destruct (material_slot (heap w) o path) as [m|] eqn:Hm; [|reflexivity].
  rewrite advance_sync_seq, assign_eval. cbn [heap with_heap].
  rewrite material_slot_upd_mats, Hm.
  rewrite advance_sync_seq, assign_eval. cbn [heap with_heap].
  rewrite !material_slot_upd_mats, Hm. reflexivity.
Qed.

Lemma tag7_mats (m a : MatId) (w : World) :
  mats (heap (tag7 m w)) a =
    if decide (m = a) then tagged 7 (mats (heap w) a) else mats (heap w) a.
Proof.
  unfold tag7. cbn [heap with_heap upd_mats mats].
  destruct (decide (m = a)) as [->|Hne].
  - rewrite !fn_lookup_alter. reflexivity.
  - rewrite !fn_lookup_alter_ne by exact Hne. reflexivity.
Qed.

Lemma tag7_slot (m : MatId) (w : World) (o : NodeId) (path : list nat) :
  material_slot (heap (tag7 m w)) o path = material_slot (heap w) o path.
Proof.
  unfold tag7. cbn [heap with_heap]. rewrite !material_slot_upd_mats.
  reflexivity.
Qed.

Section BottomFaceAlone.

Variable GLTFLoader : string -> Heap -> option (NodeId * Heap).

(** X23. The bottom-face loader on its own.  When the fetch of the planet
    succeeds and the loaded node has one of the two shapes that
    [loadModel] can tag, [loadBottomFace] takes two turns of the event
    loop and then: [planet] holds the node, with the scale (2, 2, 2); if
    [children[1].children[0]] and [children[1].children[1]] both have a
    material, the routine is fulfilled, both materials have stencilWrite
    on, the reference 7 and the compare function Equal (each complete,
    unlike the second tag of [loadModel] on a compound node), and the
    planet is the last child of the scene; otherwise it is rejected with a
    TypeError, with [planet] assigned and scaled but not added to the
    scene. *)
Theorem loadBottomFace_tags_both_parts (w : World) (o : NodeId) (h : Heap) :
  GLTFLoader "models/lilPineTreePlanet.gltf" (heap w) = Some (o, h) ->
  taggable h o = true ->
  let w2 := fst (settle GLTFLoader 2 loadBottomFace w) in
  let t2 := snd (settle GLTFLoader 2 loadBottomFace w) in
  planet (vars w2) = Some o /\
  scale (objs (heap w2) o) = Vector3.mk 2 2 2 /\
  match material_slot h o [1; 0], material_slot h o [1; 1] with
  | Some m10, Some m11 =>
      t2 = Ret tt /\
      stencil_fields (mats (heap w2) m10) = (true, 7%Z, EqualStencilFunc) /\
      stencil_fields (mats (heap w2) m11) = (true, 7%Z, EqualStencilFunc) /\
      children (objs (heap w2) scene) = children (objs h scene) ++ [o]
  | _, _ =>
      t2 = Raise TypeError /\
      children (objs (heap w2) scene) = children (objs h scene)
  end.
Proof.
  intros Hload Htag. cbv zeta.
  cbn [settle]. change (suspended loadBottomFace) with true. cbv iota.
  unfold loadBottomFace.
  rewrite resume_await_loadModel.
  rewrite (loadModel_tagging_result GLTFLoader _ 7 w o h Hload Htag).
  set (wl := with_heap _ w).
  assert (Hwl : forall path, material_slot (heap wl) o path = material_slot h o path).
  { intros path. unfold wl. cbn [heap with_heap].
    apply material_slot_upd_mats. }
  cbn [suspended resume].
  rewrite advance_sync_seq. cbn [modify]. rewrite advance_sync_seq.
  cbn [write_object modify].
  set (ws := with_heap (upd_objs (alter (set_scale (Vector3.set 2 2 2)) o))
               (with_vars (set_planet (Some o)) wl)).
  assert (Hws : forall path, material_slot (heap ws) o path = material_slot h o path).
  { intros path. unfold ws. cbn [heap with_heap with_vars].
    rewrite material_slot_transform by reflexivity. apply Hwl. }
  assert (Hsc : scale (objs (heap ws) o) = Vector3.mk 2 2 2).
  { unfold ws. cbn [heap with_heap with_vars upd_objs objs].
    rewrite fn_lookup_alter. reflexivity. }
  assert (Hkids : children (objs (heap ws) scene) = children (objs h scene)).
  { unfold ws, wl. cbn [heap with_heap with_vars upd_objs upd_mats objs].
    apply children_alter_transform. reflexivity. }
  rewrite (advance_tag_path o [1; 0]). rewrite Hws.
  destruct (material_slot h o [1; 0]) as [m10|] eqn:H10.
  2: { cbn [fst snd]. auto. }
  rewrite (advance_tag_path o [1; 1]). rewrite tag7_slot, Hws.
  destruct (material_slot h o [1; 1]) as [m11|] eqn:H11.
  2: { cbn [fst snd]. auto. }
  cbn [advance sync add write_object modify mbind Async_bind abind suspended
       fst snd].
  split; [reflexivity|]. split.
  { cbn [heap with_heap upd_objs objs]. unfold alter, fn_alter.
    destruct (decide (scene = o)) as [<-|]; exact Hsc. }
  split; [reflexivity|]. split.
  { cbn [heap with_heap upd_objs mats]. rewrite !tag7_mats.
    destruct (decide (m10 = m10)); [|congruence].
    destruct (decide (m11 = m10)); reflexivity. }
  split.
  { cbn [heap with_heap upd_objs mats]. rewrite tag7_mats.
    destruct (decide (m11 = m11)); [reflexivity | congruence]. }
  cbn [heap with_heap upd_objs objs]. rewrite fn_lookup_alter.
  cbn [children set_children]. f_equal. exact Hkids.
Qed.

End BottomFaceAlone.

Lemma loadBottomFace_tags_both_parts_witness :
  let w := Fixture.world0 in
  let o := fst (Fixture.instantiate Fixture.simple_asset (heap w)) in
  let h := snd (Fixture.instantiate Fixture.simple_asset (heap w)) in
  Fixture.simple_loader "models/lilPineTreePlanet.gltf" (heap w) = Some (o, h) /\
  taggable h o = true /\
  let w2 := fst (settle Fixture.simple_loader 2 loadBottomFace w) in
  let t2 := snd (settle Fixture.simple_loader 2 loadBottomFace w) in
  planet (vars w2) = Some o /\
  scale (objs (heap w2) o) = Vector3.mk 2 2 2 /\
  match material_slot h o [1; 0], material_slot h o [1; 1] with
  | Some m10, Some m11 =>
      t2 = Ret tt /\
      stencil_fields (mats (heap w2) m10) = (true, 7%Z, EqualStencilFunc) /\
      stencil_fields (mats (heap w2) m11) = (true, 7%Z, EqualStencilFunc) /\
      children (objs (heap w2) scene) = children (objs h scene) ++ [o]
  | _, _ =>
      t2 = Raise TypeError /\
      children (objs (heap w2) scene) = children (objs h scene)
  end.
Proof.
  cbv zeta. split; [reflexivity|]. split; [reflexivity|].
  exact (loadBottomFace_tags_both_parts Fixture.simple_loader Fixture.world0
           _ _ eq_refl eq_refl).
Defined.

(** * The right face, frame by frame *)

Lemma pose_kept (i : nat) (F : Object3D -> Object3D) (o : Object3D) :
  keeps_pose F -> bar_pose i o -> bar_pose i (F o).
Proof.
  intros HF (Hs & Hx & Hy). destruct (HF o) as (Ks & Kx & Ky).
  split; [auto|]. split; auto.
Qed.

Lemma pose_alter (i : nat) (F : Object3D -> Object3D) (a b : NodeId)
    (os : NodeId -> Object3D) :
  keeps_pose F -> bar_pose i (os b) -> bar_pose i (alter F a os b).
Proof.
  intros HF H. unfold alter, fn_alter.
  destruct (decide (a = b)) as [->|]; [apply pose_kept; assumption | exact H].
Qed.

Lemma keeps_scale : keeps_pose (set_scale (Vector3.set 1 1 10)).
Proof. intros o. repeat split; auto. Qed.

Lemma keeps_position (f : Vector3.t -> Vector3.t) : keeps_pose (set_position f).
Proof. intros o. repeat split; auto. Qed.

Lemma keeps_rotX : keeps_pose (set_rotation (Vector3.setX (Math_PI / 2))).
Proof. intros o. repeat split; auto. Qed.

Lemma keeps_rotY : keeps_pose (set_rotation (Vector3.setY (Math_PI / 2))).
Proof. intros o. repeat split; auto. Qed.

Section RightFace.

Variable translateZ : Q -> Object3D -> Object3D.
Hypothesis translateZ_scale : forall q o, scale (translateZ q o) = scale o.
Hypothesis translateZ_rotation :
  forall q o, rotation (translateZ q o) = rotation o.

Lemma keeps_translateZ (q : Q) : keeps_pose (translateZ q).
Proof.
  intros o. rewrite translateZ_scale, translateZ_rotation. repeat split; auto.
Qed.

(** What a frame of [animateRightFace] does to the bars. *)
Lemma animateRightFace_full (w : World) :
  exists w',
    animateRightFace translateZ w = (w', Ok tt) /\
    vars w' = vars w /\
    drawn w' = drawn w + 6 * length (concat (bars (vars w))) /\
    (forall i g b, bars (vars w) !! i = Some g -> b ∈ g ->
                   bar_pose i (objs (heap w') b)) /\
    touches (concat (bars (vars w))) w w'.
Proof.
  unfold animateRightFace.
  unfold mbind at 1, M_bind at 1, bind at 1, gets at 1.
  match goal with
  | |- context [for_ ?n 0 ?body w] =>
      destruct (for_inv
                  (fun i w1 =>
                     vars w1 = vars w /\
                     touches (concat (bars (vars w))) w w1 /\
                     drawn w1 = drawn w
                                + 6 * length (concat (take i (bars (vars w)))) /\
                     forall i' g b, i' < i -> bars (vars w) !! i' = Some g ->
                                    b ∈ g -> bar_pose i' (objs (heap w1) b))
                  n 0 body w) as (w' & E & Hv & Ht & Hd & Hp)
  end.
  - split; [reflexivity|]. split; [apply touches_refl|].
    split; [replace (concat (take 0 (bars (vars w)))) with (@nil NodeId)
              by reflexivity; cbn [length]; lia|].
    intros i' g b Hi'. lia.
  - intros i w1 Hi (Hv & Ht & Hd & Hp).
    destruct (lookup_lt_is_Some_2 (bars (vars w)) i) as [g Hg]; [lia|].
    assert (Hfirst : (bs ← gets (fun w => bars (vars w)); defined (bs !! i)) w1
                     = (w1, Ok g)) by (munfold; rewrite Hv, Hg; reflexivity).
    unfold mbind at 1, M_bind at 1, bind at 1. rewrite Hfirst.
    match goal with
    | |- context [for_ ?n 0 ?body w1] =>
        destruct (for_inv
                    (fun j w2 =>
                       vars w2 = vars w /\
                       touches (concat (bars (vars w))) w w2 /\
                       drawn w2 = drawn w1 + 6 * j /\
                       (forall i' g' b, i' < i -> bars (vars w) !! i' = Some g' ->
                                        b ∈ g' -> bar_pose i' (objs (heap w2) b)) /\
                       (forall j' b, j' < j -> g !! j' = Some b ->
                                     bar_pose i (objs (heap w2) b)))
                    n 0 body w1) as (w2 & E2 & Hv2 & Ht2 & Hd2 & Hp2 & Hq2)
    end.
    + split; [exact Hv|]. split; [exact Ht|]. split; [lia|].
      split; [exact Hp|]. intros j' b Hj'. lia.
    + intros j w2 Hj (Hv2 & Ht2 & Hd2 & Hp2 & Hq2).
      destruct (lookup_lt_is_Some_2 g j) as [bar Hbar]; [lia|].
      assert (Hin : bar ∈ concat (bars (vars w))).
      { apply elem_of_concat. exists g.
        split; eapply list_elem_of_lookup_2; eauto. }
      munfold. unfold Math_random, write_object, modify.
      cbn [vars heap with_heap drawn random_source].
      rewrite Hv2, Hg, Hbar.
      destruct i as [|[|[|i]]]; cbn [Nat.eqb];
        cbn [vars heap with_heap drawn random_source];
        repeat match goal with
               | |- context [if ?c then _ else _] =>
                   lazymatch c with
                   | Qgeb _ _ => destruct c
                   | Qle_bool _ _ => destruct c
                   end
               end;
        eexists; (split; [reflexivity|]);
        (split; [cbn [vars with_heap]; first [exact Hv2 | reflexivity]|]);
        (split; [eapply touches_trans; [exact Ht2|]; touches_writes Hin|]);
        (split; [cbn [drawn with_heap]; lia|]);
        cbn [heap with_heap upd_objs objs];
        (split;
         [ intros i' g' b Hi' Hg' Hb;
           repeat (apply pose_alter;
                   [first [exact keeps_scale | apply keeps_position
                          | exact keeps_rotX | exact keeps_rotY
                          | apply keeps_translateZ]|]);
           exact (Hp2 i' g' b Hi' Hg' Hb)
         | intros j' b Hj' Hb;
           destruct (decide (j' = j)) as [->|Hne];
           [ assert (b = bar) by congruence; subst b;
             rewrite !fn_lookup_alter; unfold bar_pose;
             cbn [scale rotation set_scale set_rotation set_position
                  Vector3.set Vector3.setX Vector3.setY Vector3.x Vector3.y];
             rewrite ?translateZ_scale, ?translateZ_rotation;
             cbn [scale rotation set_scale set_rotation set_position
                  Vector3.set Vector3.setX Vector3.setY Vector3.x Vector3.y];
             (split; [reflexivity|]);
             (split; intros ?; first [discriminate | reflexivity | lia])
           | repeat (apply pose_alter;
                     [first [exact keeps_scale | apply keeps_position
                            | exact keeps_rotX | exact keeps_rotY
                            | apply keeps_translateZ]|]);
             apply (Hq2 j' b); [lia | exact Hb] ] ]).
    + exists w2. split; [exact E2|]. split; [exact Hv2|]. split; [exact Ht2|].
      split.
      * rewrite Hd2, Hd. rewrite (take_S_r _ _ _ Hg), concat_app, length_app.
        cbn [concat]. rewrite app_nil_r. lia.
      * intros i' g' b Hi' Hg' Hb.
        destruct (decide (i' = i)) as [->|Hne].
        -- assert (g' = g) by congruence. subst g'.
           apply list_elem_of_lookup in Hb as (j' & Hj').
           apply (Hq2 j' b); [|exact Hj'].
           apply lookup_lt_Some in Hj'. lia.
        -- apply (Hp2 i' g' b); [lia | exact Hg' | exact Hb].
  - exists w'. split; [exact E|]. split; [exact Hv|]. split.
    + rewrite Hd. cbn [Nat.add]. rewrite firstn_all. reflexivity.
    + split; [|exact Ht]. intros i g b Hg Hb.
      apply (Hp i g b); [|exact Hg | exact Hb].
      apply lookup_lt_Some in Hg. lia.
Qed.

(** X24. What a frame does to the right face.  With a [translateZ] that
    changes neither the scale nor the rotation of a node (as that of
    three.js, which moves the node along its own z axis), a frame of
    [animateRightFace] cannot fail; it draws six random numbers for each
    bar; it leaves every bar with the scale (1, 1, 10), every bar of the
    group 1 with a rotation about x of pi/2 and every bar of the group 2
    with a rotation about y of pi/2, whatever they were before and even if
    a bar appears in several places; and it writes to no node but the
    bars, to no material and to no variable. *)
Theorem animateRightFace_poses_bars (w : World) :
  exists w',
    animateRightFace translateZ w = (w', Ok tt) /\
    vars w' = vars w /\
    drawn w' = drawn w + 6 * length (concat (bars (vars w))) /\
    (forall i g b, bars (vars w) !! i = Some g -> b ∈ g ->
                   bar_pose i (objs (heap w') b)) /\
    touches (concat (bars (vars w))) w w'.
Proof. apply animateRightFace_full. Qed.

End RightFace.

Lemma animateRightFace_poses_bars_witness :
  let w := with_vars (set_bars [[1; 2]; [3]; [4; 1]]) Fixture.world0 in
  (forall q o, scale (Fixture.keep q o) = scale o) /\
  (forall q o, rotation (Fixture.keep q o) = rotation o) /\
  exists w',
    animateRightFace Fixture.keep w = (w', Ok tt) /\
    vars w' = vars w /\
    drawn w' = drawn w + 6 * length (concat (bars (vars w))) /\
    (forall i g b, bars (vars w) !! i = Some g -> b ∈ g ->
                   bar_pose i (objs (heap w') b)) /\
    touches (concat (bars (vars w))) w w'.
Proof.
  cbv zeta. split; [intros; reflexivity|]. split; [intros; reflexivity|].
  exact (animateRightFace_poses_bars Fixture.keep (fun _ _ => eq_refl)
           (fun _ _ => eq_refl)
           (with_vars (set_bars [[1; 2]; [3]; [4; 1]]) Fixture.world0)).
Defined.

(** * The front face, frame by frame *)

Section FrontFace.

Variables rotateX rotateY : Q -> Object3D -> Object3D.

(** X25. What a frame does to the front face.  When the rings are
    distinct, a frame of [animateFrontFace] cannot fail and turns the ring
    at each index [k] by [rotateX(0.01 + x)] and then by
    [rotateY(-0.01 + x)], where x is the local accumulator of the loop
    when it reaches [k]: 0.001 added [k] times to 0, one addition after
    the other as the loop makes them.  No other node changes, nor any
    material or variable. *)
Theorem animateFrontFace_turns_each_ring (w : World) :
  NoDup (rings (vars w)) ->
  exists w',
    animateFrontFace rotateX rotateY w = (w', Ok tt) /\
    (forall k r, rings (vars w) !! k = Some r ->
       objs (heap w') r = front_step rotateX rotateY k (objs (heap w) r)) /\
    vars w' = vars w /\
    touches (rings (vars w)) w w'.
Proof.
  intros Hnd. unfold animateFrontFace.
  unfold mbind at 1, M_bind at 1, bind at 1, gets at 1.
  unfold mbind at 1, M_bind at 1, bind at 1.
  match goal with
  | |- context [for_acc ?n 0 ?a ?body w] =>
      destruct (for_acc_inv
                  (fun i x w1 =>
                     x = ramp i /\ vars w1 = vars w /\
                     touches (rings (vars w)) w w1 /\
                     forall k r, rings (vars w) !! k = Some r ->
                       objs (heap w1) r =
                         if decide (k < i)
                         then front_step rotateX rotateY k (objs (heap w) r)
                         else objs (heap w) r)
                  n 0 a body w) as (w' & a' & E & Hx & Hv & Ht & Ho)
  end.
  - split; [reflexivity|]. split; [reflexivity|]. split; [apply touches_refl|].
    intros k r Hk. destruct (decide (k < 0)); [lia | reflexivity].
  - intros j x w1 Hj (Hx & Hv & Ht & Ho).
    destruct (lookup_lt_is_Some_2 (rings (vars w)) j) as [r Hr]; [lia|].
    munfold. unfold write_object, modify. rewrite Hv, Hr.
    cbn [vars with_heap]. rewrite Hv, Hr.
    eexists _, _. split; [reflexivity|].
    cbn [vars drawn with_heap]. split; [rewrite Hx; reflexivity|].
    split; [exact Hv|].
    assert (Hin : r ∈ rings (vars w)) by (eapply list_elem_of_lookup_2; eauto).
    split.
    { eapply touches_trans; [exact Ht|].
      eapply touches_trans; apply touches_write; exact Hin. }
    intros k r' Hk. cbn [heap with_heap upd_objs objs].
    destruct (decide (k = j)) as [->|Hne].
    + assert (r' = r) by congruence. subst r'.
      rewrite !fn_lookup_alter, (Ho j r Hr).
      destruct (decide (j < j)); [lia|].
      destruct (decide (j < S j)); [|lia].
      unfold front_step. rewrite Hx. reflexivity.
    + assert (r' <> r)
        by (intros ->; apply Hne;
            eapply NoDup_lookup; [exact Hnd | exact Hk | exact Hr]).
      rewrite !fn_lookup_alter_ne by congruence. rewrite (Ho k r' Hk).
      destruct (decide (k < j)), (decide (k < S j)); try lia; reflexivity.
  - rewrite E. exists w'. split; [reflexivity|]. split.
    + intros k r Hk. rewrite (Ho k r Hk).
      destruct (decide (k < 0 + length (rings (vars w)))); [reflexivity|].
      exfalso. apply lookup_lt_Some in Hk. lia.
    + split; [exact Hv | exact Ht].
Qed.

End FrontFace.

Lemma animateFrontFace_turns_each_ring_witness :
  let w := with_vars (set_rings [1; 2; 3]) Fixture.world0 in
  NoDup (rings (vars w)) /\
  exists w',
    animateFrontFace Fixture.keep Fixture.keep w = (w', Ok tt) /\
    (forall k r, rings (vars w) !! k = Some r ->
       objs (heap w') r
         = front_step Fixture.keep Fixture.keep k (objs (heap w) r)) /\
    vars w' = vars w /\
    touches (rings (vars w)) w w'.
Proof.
  cbv zeta.
  assert (Hnd : NoDup [1; 2; 3]) by (apply (NoDup_seq 1 3)).
  split; [exact Hnd|].
  exact (animateFrontFace_turns_each_ring Fixture.keep Fixture.keep
           (with_vars (set_rings [1; 2; 3]) Fixture.world0) Hnd).
Defined.
